(** * ProyectoAutomatas: deterministic finite automata, regular grammars
      and the record parser of [automata.js], embedded in Rocq.

    The JavaScript classes [FiniteAutomaton], [RegularGrammar] and
    [AutomataParser] are translated method by method.  A JavaScript string
    is a sequence of UTF-16 code units, a [Set] and a [Map] keep insertion
    order, and a method that throws leaves behind whatever it had already
    written into its object: all three are visible in the embedding. *)

From Stdlib Require Import String Ascii NArith ZArith Bool Lia List.
Import ListNotations.

(* ===================================================================== *)
(** ** JavaScript values: strings, insertion-ordered sets and maps        *)
(* ===================================================================== *)

Module JS.

(** A string is the list of its UTF-16 code units; [length] and indexing
    count code units, as [String.prototype.length] and [s[i]] do. *)
Definition jsstring : Type := list N.

(** An ASCII literal of the development as a JavaScript string. *)
Definition lit (s : string) : jsstring :=
  List.map N_of_ascii (list_ascii_of_string s).

(** U+03B5, the marker of the empty production. *)
Definition epsilon : jsstring := [949%N].

Fixpoint eqb (a b : jsstring) : bool :=
  match a, b with
  | [], [] => true
  | x :: a', y :: b' => N.eqb x y && eqb a' b'
  | _, _ => false
  end.

(** [WhiteSpace] and [LineTerminator] code units, the ones
    [String.prototype.trim] and [parseInt] strip. *)
Definition is_ws (c : N) : bool :=
  ((9 <=? c) && (c <=? 13) || (c =? 32) || (c =? 160) || (c =? 5760)
   || (8192 <=? c) && (c <=? 8202) || (c =? 8232) || (c =? 8233)
   || (c =? 8239) || (c =? 8287) || (c =? 12288) || (c =? 65279))%N.

Fixpoint trimStart (s : jsstring) : jsstring :=
  match s with
  | c :: r => if is_ws c then trimStart r else s
  | [] => []
  end.

Definition trimEnd (s : jsstring) : jsstring := rev (trimStart (rev s)).

Definition trim (s : jsstring) : jsstring := trimEnd (trimStart s).

Fixpoint prefix (p s : jsstring) : bool :=
  match p, s with
  | [], _ => true
  | x :: p', y :: s' => N.eqb x y && prefix p' s'
  | _ :: _, [] => false
  end.

Definition cons_head (c : N) (l : list jsstring) : list jsstring :=
  match l with
  | h :: t => (c :: h) :: t
  | [] => [[c]]
  end.

(** [s.split(sep)] for a non-empty separator: the leftmost occurrences,
    none overlapping.  [skip] counts the code units of a separator just
    matched that are still to be passed over. *)
Fixpoint split_from (sep : jsstring) (skip : nat) (s : jsstring)
  : list jsstring :=
  match s with
  | [] => [[]]
  | c :: r =>
      match skip with
      | S k => split_from sep k r
      | O => if prefix sep s
             then [] :: split_from sep (pred (length sep)) r
             else cons_head c (split_from sep 0 r)
      end
  end.

Definition split (sep s : jsstring) : list jsstring := split_from sep 0 s.

(** [arr.join(sep)]. *)
Fixpoint join (sep : jsstring) (l : list jsstring) : jsstring :=
  match l with
  | [] => []
  | [x] => x
  | x :: r => x ++ sep ++ join sep r
  end.

(** *** [Set] of strings, in insertion order *)

Definition has (x : jsstring) (s : list jsstring) : bool :=
  existsb (eqb x) s.

Definition add (x : jsstring) (s : list jsstring) : list jsstring :=
  if has x s then s else s ++ [x].

(** *** [Map] with string keys, in insertion order *)

Fixpoint map_get {V : Type} (k : jsstring) (m : list (jsstring * V))
  : option V :=
  match m with
  | [] => None
  | (k', v) :: r => if eqb k k' then Some v else map_get k r
  end.

Definition map_has {V : Type} (k : jsstring) (m : list (jsstring * V))
  : bool :=
  match map_get k m with Some _ => true | None => false end.

(** [m.set(k, v)]: a key already present keeps its place. *)
Fixpoint map_set {V : Type} (k : jsstring) (v : V)
  (m : list (jsstring * V)) : list (jsstring * V) :=
  match m with
  | [] => [(k, v)]
  | (k', v') :: r =>
      if eqb k k' then (k', v) :: r else (k', v') :: map_set k v r
  end.

(** *** [parseInt(s)] without a radix *)

Definition digit (radix c : N) : option N :=
  (if (48 <=? c) && (c <=? 57) then
     (if c - 48 <? radix then Some (c - 48) else None)
   else if (97 <=? c) && (c <=? 122) then
     (if c - 87 <? radix then Some (c - 87) else None)
   else if (65 <=? c) && (c <=? 90) then
     (if c - 55 <? radix then Some (c - 55) else None)
   else None)%N.

(** The longest prefix of digits, read in [radix]; [None] when there is
    no digit at all. *)
Fixpoint digits (radix : N) (acc : option N) (s : jsstring) : option N :=
  match s with
  | [] => acc
  | c :: r =>
      match digit radix c with
      | Some d =>
          digits radix
            (Some (match acc with Some a => a * radix + d | None => d end)%N)
            r
      | None => acc
      end
  end.

Definition strip_sign (s : jsstring) : bool * jsstring :=
  match s with
  | 45%N :: r => (true, r)
  | 43%N :: r => (false, r)
  | _ => (false, s)
  end.

Definition strip_hex (s : jsstring) : N * jsstring :=
  match s with
  | 48%N :: 120%N :: r => (16%N, r)
  | 48%N :: 88%N :: r => (16%N, r)
  | _ => (10%N, s)
  end.

(** The numbers [parseInt] returns.  An integer of magnitude up to 2^53
    is a double and is returned as it is read ([Integer 0] is either zero:
    the two print alike and neither is a code).  A larger one is rounded
    to a double (or to an infinity): which one is not told here, only its
    sign, since what is rounded away is left to the engine for long
    texts. *)
Inductive number : Type :=
| NaN
| Integer (z : Z)
| Beyond (negative : bool).

Definition to_number (z : Z) : number :=
  if (Z.abs z <=? 2 ^ 53)%Z then Integer z else Beyond (z <? 0)%Z.

Definition parseInt (s : jsstring) : number :=
  let '(neg, s1) := strip_sign (trimStart s) in
  let '(radix, s2) := strip_hex s1 in
  match digits radix None s2 with
  | Some n => to_number (if neg then (- Z.of_N n)%Z else Z.of_N n)
  | None => NaN
  end.

(** Truthiness of a value that is [null] or a string. *)
Definition truthy (v : option jsstring) : bool :=
  match v with
  | Some (_ :: _) => true
  | _ => false
  end.

End JS.

Import JS.

(* ===================================================================== *)
(** ** Exceptions, console output and the method monad                    *)
(* ===================================================================== *)

(** One constructor per [throw new Error(...)] of the source, carrying the
    values interpolated into its message.  [InLine] is the re-throw of
    [parseFile]; [TypeErrorNull] is a property read on [null]. *)
Inductive Error : Type :=
| InitialStateUnknown (state : jsstring)
| FinalStateUnknown (state : jsstring)
| FromStateUnknown (state : jsstring)
| ToStateUnknown (state : jsstring)
| SymbolUnknown (symbol : jsstring)
| BadTransitionFormat (transition : jsstring)
| NotInitialized
| StartSymbolUnknown (symbol : jsstring)
| NotNonTerminal (symbol : jsstring)
| BadProductionFormat (production : jsstring)
| BadLineFormat (line : jsstring)
| UnknownId (id : number)
| InLine (number : nat) (cause : Error)
| TypeErrorNull.

(** A line written by [console.warn]. *)
Inductive Warning : Type :=
| Overwrite (from sym old to : jsstring).

Inductive result (A : Type) : Type :=
| Ok (a : A)
| Throw (e : Error).

Arguments Ok {A} a.
Arguments Throw {A} e.

(** A method of an object of type [Obj]: it runs on the object, returns or
    throws, leaves the object as it was at that moment, and may have
    written to the console. *)
Definition M (Obj A : Type) : Type := Obj -> result A * Obj * list Warning.

Definition ret {Obj A : Type} (a : A) : M Obj A := fun s => (Ok a, s, []).

Definition throw {Obj A : Type} (e : Error) : M Obj A :=
  fun s => (Throw e, s, []).

Definition bind {Obj A B : Type} (m : M Obj A) (k : A -> M Obj B) : M Obj B :=
  fun s =>
    match m s with
    | (Ok a, s', out) =>
        let '(r, s'', out') := k a s' in (r, s'', out ++ out')
    | (Throw e, s', out) => (Throw e, s', out)
    end.

Definition get {Obj : Type} : M Obj Obj := fun s => (Ok s, s, []).

Definition modify {Obj : Type} (f : Obj -> Obj) : M Obj unit :=
  fun s => (Ok tt, f s, []).

Definition warn {Obj : Type} (w : Warning) : M Obj unit :=
  fun s => (Ok tt, s, [w]).

(** [try { m } catch (error) { h error }]. *)
Definition try_catch {Obj A : Type} (m : M Obj A) (h : Error -> M Obj A)
  : M Obj A :=
  fun s =>
    match m s with
    | (Ok a, s', out) => (Ok a, s', out)
    | (Throw e, s', out) =>
        let '(r, s'', out') := h e s' in (r, s'', out ++ out')
    end.

(** A method of another object [t], called from a method of [Obj]: the
    caller's object is untouched, the callee's comes back with the value. *)
Definition on {Obj T A : Type} (t : T) (m : M T A) : M Obj (A * T) :=
  fun s =>
    match m t with
    | (Ok a, t', out) => (Ok (a, t'), s, out)
    | (Throw e, _, out) => (Throw e, s, out)
    end.

Declare Scope method_scope.
Delimit Scope method_scope with method.
Notation "x <- m ;; k" := (bind m (fun x => k))
  (at level 61, m at next level, right associativity) : method_scope.
Notation "m ;; k" := (bind m (fun _ => k))
  (at level 61, right associativity) : method_scope.
Open Scope method_scope.

(** [arr.forEach(f)], and [arr.forEach((x, index) => ...)] from [index]. *)
Fixpoint forEach {Obj A : Type} (f : A -> M Obj unit) (l : list A) : M Obj unit :=
  match l with
  | [] => ret tt
  | x :: r => f x ;; forEach f r
  end.

Fixpoint forEachFrom {Obj A : Type} (index : nat) (f : A -> nat -> M Obj unit)
  (l : list A) : M Obj unit :=
  match l with
  | [] => ret tt
  | x :: r => f x index ;; forEachFrom (S index) f r
  end.

Definition when {Obj : Type} (b : bool) (m : M Obj unit) : M Obj unit :=
  if b then m else ret tt.

(* ===================================================================== *)
(** ** class FiniteAutomaton                                              *)
(* ===================================================================== *)

Module FiniteAutomaton.

(** An entry of [executionPath]. *)
Record Step : Type := mkStep {
  state : jsstring;
  symbol : option jsstring;
  step : nat
}.

Record t : Type := mk {
  name : jsstring;
  states : list jsstring;
  alphabet : list jsstring;
  initialState : option jsstring;
  finalStates : list jsstring;
  transitions : list (jsstring * list (jsstring * jsstring));
  currentState : option jsstring;
  executionPath : list Step
}.

(** [new FiniteAutomaton(name)]. *)
Definition new (name : jsstring) : t :=
  mk name [] [] None [] [] None [].

Definition with_states (v : list jsstring) (A : t) : t :=
  mk (name A) v (alphabet A) (initialState A) (finalStates A)
     (transitions A) (currentState A) (executionPath A).

Definition with_alphabet (v : list jsstring) (A : t) : t :=
  mk (name A) (states A) v (initialState A) (finalStates A)
     (transitions A) (currentState A) (executionPath A).

Definition with_initialState (v : option jsstring) (A : t) : t :=
  mk (name A) (states A) (alphabet A) v (finalStates A)
     (transitions A) (currentState A) (executionPath A).

Definition with_finalStates (v : list jsstring) (A : t) : t :=
  mk (name A) (states A) (alphabet A) (initialState A) v
     (transitions A) (currentState A) (executionPath A).

Definition with_transitions
  (v : list (jsstring * list (jsstring * jsstring))) (A : t) : t :=
  mk (name A) (states A) (alphabet A) (initialState A) (finalStates A)
     v (currentState A) (executionPath A).

Definition with_currentState (v : option jsstring) (A : t) : t :=
  mk (name A) (states A) (alphabet A) (initialState A) (finalStates A)
     (transitions A) v (executionPath A).

Definition with_executionPath (v : list Step) (A : t) : t :=
  mk (name A) (states A) (alphabet A) (initialState A) (finalStates A)
     (transitions A) (currentState A) v.

Definition setStates (names : list jsstring) : M t unit :=
  modify (with_states []) ;;
  forEach (fun state =>
             modify (fun A => with_states (add (trim state) (states A)) A))
          names.

Definition setAlphabet (symbols : list jsstring) : M t unit :=
  modify (with_alphabet []) ;;
  forEach (fun symbol =>
             modify (fun A => with_alphabet (add (trim symbol) (alphabet A)) A))
          symbols.

Definition setInitialState (state : jsstring) : M t unit :=
  let trimmedState := trim state in
  A <- get ;;
  if negb (has trimmedState (states A))
  then throw (InitialStateUnknown trimmedState)
  else modify (with_initialState (Some trimmedState)).

Definition setFinalStates (names : list jsstring) : M t unit :=
  modify (with_finalStates []) ;;
  forEach (fun state =>
             let trimmedState := trim state in
             A <- get ;;
             if negb (has trimmedState (states A))
             then throw (FinalStateUnknown trimmedState)
             else modify (fun A => with_finalStates
                                     (add trimmedState (finalStates A)) A))
          names.

Definition addTransition (fromState symbol toState : jsstring) : M t unit :=
  let from := trim fromState in
  let sym := trim symbol in
  let to := trim toState in
  A <- get ;;
  if negb (has from (states A)) then throw (FromStateUnknown from) else
  if negb (has to (states A)) then throw (ToStateUnknown to) else
  if negb (has sym (alphabet A)) then throw (SymbolUnknown sym) else
  when (negb (map_has from (transitions A)))
       (modify (fun A => with_transitions
                           (map_set from [] (transitions A)) A)) ;;
  A <- get ;;
  match map_get from (transitions A) with
  | None => throw TypeErrorNull
  | Some stateTransitions =>
      match map_get sym stateTransitions with
      | Some old => warn (Overwrite from sym old to)
      | None => ret tt
      end ;;
      modify (with_transitions
                (map_set from (map_set sym to stateTransitions)
                         (transitions A)))
  end.

Definition setTransitions (transitionsStr : jsstring) : M t unit :=
  forEach (fun transition =>
             match split (lit ",") (trim transition) with
             | [fromState; symbol; toState] =>
                 addTransition fromState symbol toState
             | _ => throw (BadTransitionFormat transition)
             end)
          (split (lit ";") transitionsStr).

Definition reset : M t unit :=
  modify (fun A => with_currentState (initialState A) A) ;;
  modify (with_executionPath []) ;;
  A <- get ;;
  match currentState A with
  | Some (c :: q) =>
      modify (with_executionPath
                (executionPath A ++ [mkStep (c :: q) None 0]))
  | _ => ret tt
  end.

Definition processSymbol (symbol : jsstring) : M t bool :=
  A <- get ;;
  match currentState A with
  | Some (c :: q) =>
      if negb (has symbol (alphabet A)) then ret false else
      match map_get (c :: q) (transitions A) with
      | None => ret false
      | Some stateTransitions =>
          match map_get symbol stateTransitions with
          | None => ret false
          | Some nextState =>
              modify (with_currentState (Some nextState)) ;;
              modify (fun A =>
                        with_executionPath
                          (executionPath A ++
                             [mkStep nextState (Some symbol)
                                     (length (executionPath A))]) A) ;;
              ret true
          end
      end
  | _ => throw NotInitialized
  end.

(** What [result.error] holds: the message built in the loop, or the
    message of a caught exception. *)
Inductive Failure : Type :=
| NoTransition (symbol : jsstring) (from : option jsstring)
| Caught (e : Error).

Record Result : Type := mkResult {
  word : jsstring;
  accepted : bool;
  path : list Step;
  error : option Failure;
  finalState : option jsstring
}.

(** The [for] loop of [recognizeWord]: [Some symbol] when [processSymbol]
    returned [false] on [symbol], [None] when the word was consumed. *)
Fixpoint consume (w : jsstring) : M t (option jsstring) :=
  match w with
  | [] => ret None
  | c :: rest =>
      success <- processSymbol [c] ;;
      if success then consume rest else ret (Some [c])
  end.

Definition recognizeWord (w : jsstring) : M t Result :=
  reset ;;
  try_catch
    (stopped <- consume w ;;
     A <- get ;;
     match stopped with
     | Some symbol =>
         ret (mkResult w false (executionPath A)
                (Some (NoTransition symbol (currentState A))) None)
     | None =>
         ret (mkResult w
                (match currentState A with
                 | Some q => has q (finalStates A)
                 | None => false
                 end)
                (executionPath A) None (currentState A))
     end)
    (fun e => ret (mkResult w false [] (Some (Caught e)) None)).

(** An element of the array returned by [getTransitionsArray]. *)
Record Transition : Type := mkTransition {
  from : jsstring;
  sym : jsstring;
  to : jsstring
}.

Definition getTransitionsArray (A : t) : list Transition :=
  flat_map (fun '(fromState, stateTransitions) =>
              List.map (fun '(symbol, toState) =>
                          mkTransition fromState symbol toState)
                       stateTransitions)
           (transitions A).

Inductive Finding : Type :=
| NoStates
| NoAlphabet
| NoInitialState
| NoFinalStates
| MissingTransitions (count : nat).

Record Validation : Type := mkValidation {
  isValid : bool;
  errors : list Finding;
  warnings : list Finding
}.

Definition missing (A : t) (state symbol : jsstring) : bool :=
  match map_get state (transitions A) with
  | None => true
  | Some stateTransitions => negb (map_has symbol stateTransitions)
  end.

Definition validate (A : t) : Validation :=
  let errors :=
    (if length (states A) =? 0 then [NoStates] else []) ++
    (if length (alphabet A) =? 0 then [NoAlphabet] else []) ++
    (if negb (truthy (initialState A)) then [NoInitialState] else []) in
  let missingTransitions :=
    length (flat_map (fun state =>
                        filter (missing A state) (alphabet A))
                     (states A)) in
  let warnings :=
    (if length (finalStates A) =? 0 then [NoFinalStates] else []) ++
    (if 0 <? missingTransitions
     then [MissingTransitions missingTransitions] else []) in
  mkValidation (length errors =? 0) errors warnings.

End FiniteAutomaton.

(* ===================================================================== *)
(** ** class RegularGrammar                                               *)
(* ===================================================================== *)

Module RegularGrammar.

Record t : Type := mk {
  name : jsstring;
  nonTerminals : list jsstring;
  terminals : list jsstring;
  startSymbol : option jsstring;
  productions : list (jsstring * list jsstring)
}.

(** [new RegularGrammar(name)]. *)
Definition new (name : jsstring) : t := mk name [] [] None [].

Definition with_nonTerminals (v : list jsstring) (G : t) : t :=
  mk (name G) v (terminals G) (startSymbol G) (productions G).

Definition with_terminals (v : list jsstring) (G : t) : t :=
  mk (name G) (nonTerminals G) v (startSymbol G) (productions G).

Definition with_startSymbol (v : option jsstring) (G : t) : t :=
  mk (name G) (nonTerminals G) (terminals G) v (productions G).

Definition with_productions (v : list (jsstring * list jsstring)) (G : t)
  : t :=
  mk (name G) (nonTerminals G) (terminals G) (startSymbol G) v.

Definition setNonTerminals (symbols : list jsstring) : M t unit :=
  modify (with_nonTerminals []) ;;
  forEach (fun symbol =>
             modify (fun G => with_nonTerminals
                                (add (trim symbol) (nonTerminals G)) G))
          symbols.

Definition setTerminals (symbols : list jsstring) : M t unit :=
  modify (with_terminals []) ;;
  forEach (fun symbol =>
             modify (fun G => with_terminals
                                (add (trim symbol) (terminals G)) G))
          symbols.

Definition setStartSymbol (symbol : jsstring) : M t unit :=
  let trimmedSymbol := trim symbol in
  G <- get ;;
  if negb (has trimmedSymbol (nonTerminals G))
  then throw (StartSymbolUnknown trimmedSymbol)
  else modify (with_startSymbol (Some trimmedSymbol)).

Definition addProduction (leftSide rightSide : jsstring) : M t unit :=
  let left := trim leftSide in
  let right := trim rightSide in
  G <- get ;;
  if negb (has left (nonTerminals G)) then throw (NotNonTerminal left) else
  when (negb (map_has left (productions G)))
       (modify (fun G => with_productions
                           (map_set left [] (productions G)) G)) ;;
  G <- get ;;
  match map_get left (productions G) with
  | None => throw TypeErrorNull
  | Some rightSides =>
      modify (with_productions
                (map_set left (rightSides ++ [right]) (productions G)))
  end.

Definition setProductions (productionsStr : jsstring) : M t unit :=
  forEach (fun production =>
             match split (lit "->") (trim production) with
             | [leftSide; rightSide] => addProduction leftSide rightSide
             | _ => throw (BadProductionFormat production)
             end)
          (split (lit ";") productionsStr).

(** The synthetic final state of [toFiniteAutomaton]. *)
Definition finalState : jsstring := lit "qf".

(** The body of the inner [forEach] of [toFiniteAutomaton], run on the
    automaton under construction; the local array [finalStates] is
    threaded through. *)
Definition production_step (G : t) (nonTerminal : jsstring)
  (finalStates : list jsstring) (production : jsstring)
  : M FiniteAutomaton.t (list jsstring) :=
  if eqb production epsilon || eqb production []
  then ret (finalStates ++ [nonTerminal])
  else
    match production with
    | [a] =>
        if has production (terminals G)
        then FiniteAutomaton.addTransition nonTerminal production finalState ;;
             ret finalStates
        else ret finalStates
    | [a; b] =>
        if has [a] (terminals G) && has [b] (nonTerminals G)
        then FiniteAutomaton.addTransition nonTerminal [a] [b] ;;
             ret finalStates
        else ret finalStates
    | _ => ret finalStates
    end.

Fixpoint foldM {Obj A B : Type} (f : B -> A -> M Obj B) (l : list A) (b : B)
  : M Obj B :=
  match l with
  | [] => ret b
  | x :: r => b' <- f b x ;; foldM f r b'
  end.

Definition toFiniteAutomaton : M t FiniteAutomaton.t :=
  G <- get ;;
  built <- on (FiniteAutomaton.new (lit "AFD_" ++ name G))
    (FiniteAutomaton.setStates (nonTerminals G ++ [finalState]) ;;
     FiniteAutomaton.setAlphabet (terminals G) ;;
     match startSymbol G with
     | None => throw TypeErrorNull
     | Some s => FiniteAutomaton.setInitialState s
     end ;;
     finalStates <-
       foldM (fun finalStates '(nonTerminal, rightSides) =>
                foldM (production_step G nonTerminal) rightSides finalStates)
             (productions G) [finalState] ;;
     FiniteAutomaton.setFinalStates finalStates) ;;
  ret (snd built).

Inductive Finding : Type :=
| NoNonTerminals
| NoTerminals
| NoStartSymbol
| NoProductions
| NotRegular (nonTerminal production : jsstring)
| InvalidFormat (nonTerminal production : jsstring)
| UndefinedTerminal (terminal : jsstring).

Record Validation : Type := mkValidation {
  isValid : bool;
  errors : list Finding;
  warnings : list Finding
}.

(** The errors the inner [forEach] of [validate] pushes for one stored
    production. *)
Definition production_errors (G : t) (nonTerminal production : jsstring)
  : list Finding :=
  if negb (eqb production epsilon) && negb (eqb production [])
  then
    if 2 <? length production
    then [NotRegular nonTerminal production]
    else
      match production with
      | [a; b] =>
          if negb (has [a] (terminals G)) || negb (has [b] (nonTerminals G))
          then [InvalidFormat nonTerminal production]
          else []
      | [a] =>
          if negb (has [a] (terminals G))
          then [UndefinedTerminal [a]]
          else []
      | _ => []
      end
  else [].

Definition validate (G : t) : Validation :=
  let errors :=
    (if length (nonTerminals G) =? 0 then [NoNonTerminals] else []) ++
    (if length (terminals G) =? 0 then [NoTerminals] else []) ++
    (if negb (truthy (startSymbol G)) then [NoStartSymbol] else []) ++
    (if length (productions G) =? 0 then [NoProductions] else []) ++
    flat_map (fun '(nonTerminal, rightSides) =>
                flat_map (production_errors G nonTerminal) rightSides)
             (productions G) in
  mkValidation (length errors =? 0) errors [].

End RegularGrammar.

(* ===================================================================== *)
(** ** FiniteAutomaton.prototype.toRegularGrammar                         *)
(* ===================================================================== *)

(** The template literals [`${fromState}->${symbol}${toState}`] and
    [`${fromState}->${symbol}`] of one transition. *)
Definition transition_productions (finalStates : list jsstring)
  (fromState symbol toState : jsstring) : list jsstring :=
  (fromState ++ lit "->" ++ symbol ++ toState) ::
  (if has toState finalStates
   then [fromState ++ lit "->" ++ symbol]
   else []).

(** The local array [productions] just before it is joined. *)
Definition production_strings (A : FiniteAutomaton.t) (initial : jsstring)
  : list jsstring :=
  flat_map (fun '(fromState, stateTransitions) =>
              flat_map (fun '(symbol, toState) =>
                          transition_productions
                            (FiniteAutomaton.finalStates A)
                            fromState symbol toState)
                       stateTransitions)
           (FiniteAutomaton.transitions A)
  ++ (if has initial (FiniteAutomaton.finalStates A)
      then [initial ++ lit "->" ++ epsilon]
      else []).

(** The calls [toRegularGrammar] makes on the grammar it has created. *)
Definition fill_grammar (A : FiniteAutomaton.t) : M RegularGrammar.t unit :=
  RegularGrammar.setNonTerminals (FiniteAutomaton.states A) ;;
  RegularGrammar.setTerminals (FiniteAutomaton.alphabet A) ;;
  match FiniteAutomaton.initialState A with
  | None => throw TypeErrorNull
  | Some initial =>
      RegularGrammar.setStartSymbol initial ;;
      let productions := production_strings A initial in
      when (0 <? length productions)
           (RegularGrammar.setProductions (join (lit ";") productions))
  end.

Definition toRegularGrammar : M FiniteAutomaton.t RegularGrammar.t :=
  A <- get ;;
  built <- on (RegularGrammar.new (lit "GR_" ++ FiniteAutomaton.name A))
              (fill_grammar A) ;;
  ret (snd built).

(* ===================================================================== *)
(** ** class AutomataParser                                               *)
(* ===================================================================== *)

Module AutomataParser.

Record t : Type := mk {
  automata : list (jsstring * FiniteAutomaton.t);
  grammars : list (jsstring * RegularGrammar.t)
}.

(** [new AutomataParser()]. *)
Definition new : t := mk [] [].

Definition with_automata (v : list (jsstring * FiniteAutomaton.t)) (P : t)
  : t := mk v (grammars P).

Definition with_grammars (v : list (jsstring * RegularGrammar.t)) (P : t)
  : t := mk (automata P) v.

(** A method called on the automaton stored under [name]: the stored
    object is the one mutated, also when the method throws. *)
Definition onAutomaton (name : jsstring) (m : M FiniteAutomaton.t unit)
  : M t unit :=
  fun P =>
    match map_get name (automata P) with
    | None => (Throw TypeErrorNull, P, [])
    | Some automaton =>
        let '(r, automaton', out) := m automaton in
        (r, with_automata (map_set name automaton' (automata P)) P, out)
    end.

Definition onGrammar (name : jsstring) (m : M RegularGrammar.t unit)
  : M t unit :=
  fun P =>
    match map_get name (grammars P) with
    | None => (Throw TypeErrorNull, P, [])
    | Some grammar =>
        let '(r, grammar', out) := m grammar in
        (r, with_grammars (map_set name grammar' (grammars P)) P, out)
    end.

(** [if (!this.grammars.has(name)) this.grammars.set(name, new ...)]. *)
Definition ensureGrammar (name : jsstring) : M t unit :=
  P <- get ;;
  when (negb (map_has name (grammars P)))
       (modify (with_grammars
                  (map_set name (RegularGrammar.new name) (grammars P)))).

Definition split_trimmed (info : jsstring) : list jsstring :=
  List.map trim (split (lit ",") info).

(** The [switch (id)] of [parseLine]. *)
Definition dispatch (id : number) (name info : jsstring) : M t unit :=
  match id with
  | Integer 1%Z =>
      onAutomaton name (FiniteAutomaton.setStates (split_trimmed info))
  | Integer 2%Z =>
      onAutomaton name (FiniteAutomaton.setAlphabet (split_trimmed info))
  | Integer 3%Z =>
      onAutomaton name (FiniteAutomaton.setInitialState info)
  | Integer 4%Z =>
      onAutomaton name (FiniteAutomaton.setFinalStates (split_trimmed info))
  | Integer 5%Z =>
      onAutomaton name (FiniteAutomaton.setTransitions info)
  | Integer 6%Z =>
      ensureGrammar name ;;
      onGrammar name (RegularGrammar.setNonTerminals (split_trimmed info))
  | Integer 7%Z =>
      ensureGrammar name ;;
      onGrammar name (RegularGrammar.setTerminals (split_trimmed info))
  | Integer 8%Z =>
      ensureGrammar name ;;
      onGrammar name (RegularGrammar.setStartSymbol info)
  | Integer 9%Z =>
      ensureGrammar name ;;
      onGrammar name (RegularGrammar.setProductions info)
  | _ => throw (UnknownId id)
  end.

Definition parseLine (line : jsstring) : M t unit :=
  match split (lit ":") line with
  | [idInfo; automatonName; information] =>
      let id := parseInt (trim idInfo) in
      let name := trim automatonName in
      let info := trim information in
      P <- get ;;
      when (negb (map_has name (automata P)))
           (modify (with_automata
                      (map_set name (FiniteAutomaton.new name)
                               (automata P)))) ;;
      dispatch id name info
  | _ => throw (BadLineFormat line)
  end.

(** The array [lines] of [parseFile]. *)
Definition lines (content : jsstring) : list jsstring :=
  filter (fun line => negb (eqb (trim line) []))
         (split [10%N] content).

(** [lines.forEach((line, index) => ...)], counting from [index]. *)
Definition parseLines (index : nat) (ls : list jsstring) : M t unit :=
  forEachFrom index
    (fun line index =>
       try_catch (parseLine (trim line))
                 (fun error => throw (InLine (index + 1) error)))
    ls.

Definition parseFile (content : jsstring)
  : M t (list (jsstring * FiniteAutomaton.t)) :=
  parseLines 0 (lines content) ;;
  P <- get ;;
  ret (automata P).

Definition getAutomaton (name : jsstring) (P : t)
  : option FiniteAutomaton.t := map_get name (automata P).

Definition getGrammar (name : jsstring) (P : t)
  : option RegularGrammar.t := map_get name (grammars P).

Definition clear : M t unit :=
  modify (fun _ => mk [] []).

End AutomataParser.

(* ===================================================================== *)
(** ** Callers: sequences of method calls, loaded files                   *)
(* ===================================================================== *)

(** A caller of the automaton's interface: every method that writes to
    the automaton ([getInfo], [getTransitionsArray], [validate] and
    [toRegularGrammar] write nothing).  A call that throws is caught by
    the caller; the automaton stays as the throw left it. *)
Module Api.

Inductive Call : Type :=
| SetStates (names : list jsstring)
| SetAlphabet (symbols : list jsstring)
| SetInitialState (state : jsstring)
| SetFinalStates (names : list jsstring)
| AddTransition (fromState symbol toState : jsstring)
| SetTransitions (transitionsStr : jsstring)
| RecognizeWord (w : jsstring)
| Reset
| ProcessSymbol (symbol : jsstring).

Definition perform (c : Call) : M FiniteAutomaton.t unit :=
  match c with
  | SetStates names => FiniteAutomaton.setStates names
  | SetAlphabet symbols => FiniteAutomaton.setAlphabet symbols
  | SetInitialState state => FiniteAutomaton.setInitialState state
  | SetFinalStates names => FiniteAutomaton.setFinalStates names
  | AddTransition f s t => FiniteAutomaton.addTransition f s t
  | SetTransitions str => FiniteAutomaton.setTransitions str
  | RecognizeWord w => FiniteAutomaton.recognizeWord w ;; ret tt
  | Reset => FiniteAutomaton.reset
  | ProcessSymbol symbol => FiniteAutomaton.processSymbol symbol ;; ret tt
  end.

Definition state_after {A : Type} (r : result A * FiniteAutomaton.t * list Warning)
  : FiniteAutomaton.t := snd (fst r).

(** The automaton after the calls, made in order. *)
Definition after (calls : list Call) (A : FiniteAutomaton.t)
  : FiniteAutomaton.t :=
  fold_left (fun A c => state_after (perform c A)) calls A.

(** The automaton stored under [name] once [content] has been loaded into
    a new parser without error. *)
Definition load (content name : jsstring) : option FiniteAutomaton.t :=
  match AutomataParser.parseFile content AutomataParser.new with
  | (Ok _, P, _) => AutomataParser.getAutomaton name P
  | (Throw _, _, _) => None
  end.

(** [G.toFiniteAutomaton()] applied to [A.toRegularGrammar()]. *)
Definition roundTrip (A : FiniteAutomaton.t) : result FiniteAutomaton.t :=
  match toRegularGrammar A with
  | (Ok G, _, _) => fst (fst (RegularGrammar.toFiniteAutomaton G))
  | (Throw e, _, _) => Throw e
  end.

(** [A.recognizeWord(w).accepted]; [None] if the call threw. *)
Definition accepts (A : FiniteAutomaton.t) (w : jsstring) : option bool :=
  match FiniteAutomaton.recognizeWord w A with
  | (Ok r, _, _) => Some (FiniteAutomaton.accepted r)
  | (Throw _, _, _) => None
  end.

End Api.

(* ===================================================================== *)
(** ** Invariants of automata built through the interface                 *)
(* ===================================================================== *)

Module Inv.

(** No white space at either end: what [trim] returns. *)
Definition starts_ok (s : jsstring) : bool :=
  match s with
  | [] => true
  | c :: _ => negb (is_ws c)
  end.

Definition trimmed (s : jsstring) : bool := starts_ok s && starts_ok (rev s).

Fixpoint set_ok (s : list jsstring) : bool :=
  match s with
  | [] => true
  | x :: r => negb (has x r) && trimmed x && set_ok r
  end.

Fixpoint keys_unique {V : Type} (m : list (jsstring * V)) : bool :=
  match m with
  | [] => true
  | (k, _) :: r => negb (map_has k r) && keys_unique r
  end.

Definition row_ok (row : list (jsstring * jsstring)) : bool :=
  keys_unique row && forallb (fun '(a, p) => trimmed a && trimmed p) row.

(** What every method of [FiniteAutomaton] maintains. *)
Definition wf (A : FiniteAutomaton.t) : bool :=
  set_ok (FiniteAutomaton.states A) &&
  set_ok (FiniteAutomaton.alphabet A) &&
  keys_unique (FiniteAutomaton.transitions A) &&
  forallb (fun '(q, row) => trimmed q && row_ok row)
          (FiniteAutomaton.transitions A).

(** Section 3 of the specification: the initial state and every state of
    a transition are in [states], every symbol of a transition is in
    [alphabet].  (The setters check this when called, not afterwards.) *)
Definition consistent (A : FiniteAutomaton.t) : bool :=
  match FiniteAutomaton.initialState A with
  | Some q0 => has q0 (FiniteAutomaton.states A)
  | None => false
  end &&
  forallb (fun tr =>
             has (FiniteAutomaton.from tr) (FiniteAutomaton.states A) &&
             has (FiniteAutomaton.sym tr) (FiniteAutomaton.alphabet A) &&
             has (FiniteAutomaton.to tr) (FiniteAutomaton.states A))
          (FiniteAutomaton.getTransitionsArray A).

(** A name with neither [;] nor [>] in it. *)
Definition plain (s : jsstring) : bool :=
  forallb (fun c => negb (N.eqb c 59) && negb (N.eqb c 62)) s.

Definition names_plain (A : FiniteAutomaton.t) : bool :=
  forallb plain (FiniteAutomaton.states A) &&
  forallb plain (FiniteAutomaton.alphabet A).

(** No transition leads to a state named by the empty string. *)
Definition targets_nonempty (A : FiniteAutomaton.t) : bool :=
  forallb (fun tr => negb (eqb (FiniteAutomaton.to tr) []))
          (FiniteAutomaton.getTransitionsArray A).

(** Two automata with the same definition: everything but the execution
    state ([currentState], [executionPath]). *)
Definition same_definition (A B : FiniteAutomaton.t) : Prop :=
  FiniteAutomaton.name A = FiniteAutomaton.name B /\
  FiniteAutomaton.states A = FiniteAutomaton.states B /\
  FiniteAutomaton.alphabet A = FiniteAutomaton.alphabet B /\
  FiniteAutomaton.initialState A = FiniteAutomaton.initialState B /\
  FiniteAutomaton.finalStates A = FiniteAutomaton.finalStates B /\
  FiniteAutomaton.transitions A = FiniteAutomaton.transitions B.

(** The set a [forEach] of [add] has built from [acc] when it has gone
    through [names]. *)
Definition added (names : list jsstring) (acc : list jsstring)
  : list jsstring :=
  fold_left (fun acc s => add (trim s) acc) names acc.

(** The entries of [getTransitionsArray] for the pair [(q, a)]. *)
Definition entries (A : FiniteAutomaton.t) (q a : jsstring)
  : list FiniteAutomaton.Transition :=
  filter (fun tr => eqb (FiniteAutomaton.from tr) q &&
                    eqb (FiniteAutomaton.sym tr) a)
         (FiniteAutomaton.getTransitionsArray A).

(** The entries of one row of the table, as [getTransitionsArray] lists
    them, and the test of [entries]. *)
Definition listed (k : jsstring) (row : list (jsstring * jsstring))
  : list FiniteAutomaton.Transition :=
  List.map (fun '(symbol, toState) =>
              FiniteAutomaton.mkTransition k symbol toState) row.

Definition matches (q a : jsstring) (tr : FiniteAutomaton.Transition)
  : bool :=
  eqb (FiniteAutomaton.from tr) q && eqb (FiniteAutomaton.sym tr) a.

(** The automaton is in order. *)
Definition in_order (A : FiniteAutomaton.t) : Prop := wf A = true.

(** A method keeps a property of its object, whether it returns or
    throws. *)
Definition preserves {Obj A : Type} (P : Obj -> Prop) (m : M Obj A) : Prop :=
  forall s, P s -> P (snd (fst (m s))).

End Inv.

(* ===================================================================== *)
(** ** The specification's own words, as definitions                      *)
(* ===================================================================== *)

Module Spec.

(** The target registered for [(q, a)] in the transition table. *)
Definition target (A : FiniteAutomaton.t) (q a : jsstring) : option jsstring :=
  match map_get q (FiniteAutomaton.transitions A) with
  | Some row => map_get a row
  | None => None
  end.

(** Manual transition-table walking: every symbol must be in the alphabet
    and have a transition from the state reached so far. *)
Fixpoint walk (A : FiniteAutomaton.t) (q : jsstring) (w : jsstring)
  : option jsstring :=
  match w with
  | [] => Some q
  | c :: rest =>
      if has [c] (FiniteAutomaton.alphabet A)
      then match target A q [c] with
           | Some p => walk A p rest
           | None => None
           end
      else None
  end.

(** Every symbol of [w] was consumable and the state reached is final. *)
Definition accepts (A : FiniteAutomaton.t) (w : jsstring) : bool :=
  match FiniteAutomaton.initialState A with
  | Some q0 =>
      match walk A q0 w with
      | Some q => has q (FiniteAutomaton.finalStates A)
      | None => false
      end
  | None => false
  end.

(** Complete and valid: [validate()] reports no error and no missing
    transition. *)
Definition complete_valid (A : FiniteAutomaton.t) : bool :=
  FiniteAutomaton.isValid (FiniteAutomaton.validate A) &&
  forallb (fun f => match f with
                    | FiniteAutomaton.MissingTransitions _ => false
                    | _ => true
                    end)
          (FiniteAutomaton.warnings (FiniteAutomaton.validate A)).

(** A word over the alphabet of [A]. *)
Definition over_alphabet (A : FiniteAutomaton.t) (w : jsstring) : bool :=
  forallb (fun c => has [c] (FiniteAutomaton.alphabet A)) w.

(** The right-hand sides stored for a nonterminal. *)
Definition rights (G : RegularGrammar.t) (l : jsstring) : list jsstring :=
  match map_get l (RegularGrammar.productions G) with
  | Some rs => rs
  | None => []
  end.

(** Section 4.4: [q -> ap] for every transition, [q -> a] when [p] is
    final, [initial -> epsilon] when the initial state is final. *)
Definition production (A : FiniteAutomaton.t) (l r : jsstring) : Prop :=
  (exists a p, target A l a = Some p /\ r = a ++ p) \/
  (exists a p, target A l a = Some p /\
               has p (FiniteAutomaton.finalStates A) = true /\ r = a) \/
  (FiniteAutomaton.initialState A = Some l /\
   has l (FiniteAutomaton.finalStates A) = true /\ r = epsilon).

(** Section 4.3: the classification of a right-hand side, its length and
    its first and second element counted in UTF-16 code units, as
    [production.length] and [production[i]] count them. *)
Definition rhs_valid (G : RegularGrammar.t) (rhs : jsstring) : bool :=
  if eqb rhs epsilon || eqb rhs [] then true
  else match rhs with
       | [a] => has [a] (RegularGrammar.terminals G)
       | [a; b] => has [a] (RegularGrammar.terminals G) &&
                   has [b] (RegularGrammar.nonTerminals G)
       | _ => false
       end.

(** The code points of a string: a high surrogate followed by a low one
    is one code point, every other code unit is one by itself. *)
Definition is_high (c : N) : bool := ((55296 <=? c) && (c <=? 56319))%N.

Definition is_low (c : N) : bool := ((56320 <=? c) && (c <=? 57343))%N.

Fixpoint code_points (s : jsstring) : list jsstring :=
  match s with
  | [] => []
  | c :: r =>
      match r with
      | d :: r' =>
          if is_high c && is_low d
          then [c; d] :: code_points r'
          else [c] :: code_points r
      | [] => [[c]]
      end
  end.

(** Section 4.3 in its own words: the same classification, with the
    first and the second code point of the right-hand side. *)
Definition rhs_valid_by_points (G : RegularGrammar.t) (rhs : jsstring)
  : bool :=
  if eqb rhs epsilon || eqb rhs [] then true
  else match code_points rhs with
       | [a] => has a (RegularGrammar.terminals G)
       | [a; b] => has a (RegularGrammar.terminals G) &&
                   has b (RegularGrammar.nonTerminals G)
       | _ => false
       end.

(** The text of an integer: an optional sign, then decimal digits only. *)
Definition is_digit (c : N) : bool := ((48 <=? c) && (c <=? 57))%N.

Definition is_integer (s : jsstring) : bool :=
  match snd (strip_sign s) with
  | [] => false
  | d :: ds => forallb is_digit (d :: ds)
  end.

(** The integer such a text denotes. *)
Definition integer_value (s : jsstring) : Z :=
  let n := fold_left (fun acc c => acc * 10 + (c - 48))%N
                     (snd (strip_sign s)) 0%N in
  if fst (strip_sign s) then (- Z.of_N n)%Z else Z.of_N n.


End Spec.

(* ===================================================================== *)
(** ** Sample inputs                                                      *)
(* ===================================================================== *)

Module Examples.

Definition text (ls : list string) : jsstring :=
  join [10%N] (List.map lit ls).

(** The automaton of section 8 of the specification. *)
Definition fileX : jsstring :=
  text ["1:X:q0,q1"; "2:X:a,b"; "3:X:q0"; "4:X:q1";
        "5:X:q0,a,q1;q0,b,q0;q1,a,q1;q1,b,q0"]%string.

(** The same shape with one-letter state names: [a] then any number of
    further [a]. *)
Definition fileP : jsstring :=
  text ["1:P:p,q"; "2:P:a"; "3:P:p"; "4:P:q"; "5:P:p,a,q;q,a,q"]%string.

(** Two states, one of them named by the empty string. *)
Definition fileE : jsstring :=
  text ["1:E:q,"; "2:E:a"; "3:E:q"; "4:E:"; "5:E:q,a,;,a,"]%string.

(** A file with grammar records only. *)
Definition fileG : jsstring :=
  text ["6:G:S,A"; "7:G:a,b"; "8:G:S"; "9:G:S->aA;A->b"]%string.



(** Section 8: a transition with four fields on the second line. *)
Definition fileFour : jsstring :=
  text ["1:X:q0,q1"; "5:X:q0,a,q1,q2"]%string.

(** A states record whose code is followed by a letter. *)
Definition fileCode : jsstring := lit "1x:A:q0".

(** A record with the code 12. *)
Definition fileTwelve : jsstring := text ["1:X:q0"; "12:X:q0"]%string.

(** [q0 --a--> q1] registered in a new automaton. *)
Definition oneTransition : FiniteAutomaton.t :=
  Api.after [Api.SetStates [lit "q0"; lit "q1"];
             Api.SetAlphabet [lit "a"];
             Api.AddTransition (lit "q0") (lit "a") (lit "q1")]
            (FiniteAutomaton.new (lit "X")).

(** The automaton of section 8, built by calls. *)
Definition automatonX : FiniteAutomaton.t :=
  Api.after [Api.SetStates [lit "q0"; lit "q1"];
             Api.SetAlphabet [lit "a"; lit "b"];
             Api.SetInitialState (lit "q0");
             Api.SetFinalStates [lit "q1"];
             Api.SetTransitions (lit "q0,a,q1;q0,b,q0;q1,a,q1;q1,b,q0")]
            (FiniteAutomaton.new (lit "X")).

(** A complete automaton with a state named [>] and the symbol [-]. *)
Definition fileArrow : jsstring :=
  text ["1:W:q,>"; "2:W:-"; "3:W:q"; "4:W:q"; "5:W:q,-,>;>,-,q"]%string.

(** A grammar with one right-hand side of each shape. *)
Definition shapes : RegularGrammar.t :=
  RegularGrammar.mk (lit "G") [lit "A"; lit "B"] [lit "a"] (Some (lit "A"))
    [(lit "A", [epsilon; lit "a"; lit "aB"; lit "abc"])].

End Examples.

(* ===================================================================== *)
(** ** The execution state, written out                                   *)
(* ===================================================================== *)

Module Exec.

(** The automaton as [reset()] leaves it. *)
Definition restarted (A : FiniteAutomaton.t) : FiniteAutomaton.t :=
  FiniteAutomaton.with_executionPath
    (match FiniteAutomaton.initialState A with
     | Some (c :: q) => [FiniteAutomaton.mkStep (c :: q) None 0]
     | _ => []
     end)
    (FiniteAutomaton.with_currentState (FiniteAutomaton.initialState A) A).

(** The automaton as a successful [processSymbol(symbol)] to [p] leaves
    it. *)
Definition moved (A : FiniteAutomaton.t) (symbol p : jsstring)
  : FiniteAutomaton.t :=
  FiniteAutomaton.with_executionPath
    (FiniteAutomaton.executionPath A ++
       [FiniteAutomaton.mkStep p (Some symbol)
          (length (FiniteAutomaton.executionPath A))])
    (FiniteAutomaton.with_currentState (Some p) A).

(** The row of the transition table for [q]; empty when there is none. *)
Definition row_of (A : FiniteAutomaton.t) (q : jsstring)
  : list (jsstring * jsstring) :=
  match map_get q (FiniteAutomaton.transitions A) with
  | Some row => row
  | None => []
  end.

(** The automaton as a successful [addTransition] leaves it: [(q, a)] now
    leads to [p]. *)
Definition registered (A : FiniteAutomaton.t) (q a p : jsstring)
  : FiniteAutomaton.t :=
  FiniteAutomaton.with_transitions
    (map_set q (map_set a p (row_of A q)) (FiniteAutomaton.transitions A))
    A.

End Exec.

(* ===================================================================== *)
(** ** The productions of toRegularGrammar, before they are strings       *)
(* ===================================================================== *)

Module Conv.

(** [`${left}->${right}`]. *)
Definition render (production : jsstring * jsstring) : jsstring :=
  fst production ++ lit "->" ++ snd production.

(** The two sides of every string [toRegularGrammar] pushes, in order. *)
Definition production_pairs (A : FiniteAutomaton.t) (initial : jsstring)
  : list (jsstring * jsstring) :=
  flat_map (fun '(fromState, stateTransitions) =>
              flat_map (fun '(symbol, toState) =>
                          (fromState, symbol ++ toState) ::
                          (if has toState (FiniteAutomaton.finalStates A)
                           then [(fromState, symbol)]
                           else []))
                       stateTransitions)
           (FiniteAutomaton.transitions A)
  ++ (if has initial (FiniteAutomaton.finalStates A)
      then [(initial, epsilon)]
      else []).

(** [productions] after [addProduction(left, right)] has passed its
    check: [right] is pushed on the array of [left]. *)
Definition push (left right : jsstring) (m : list (jsstring * list jsstring))
  : list (jsstring * list jsstring) :=
  map_set left
          (match map_get left m with Some rs => rs | None => [] end
           ++ [right])
          m.

Definition push_all (pairs : list (jsstring * jsstring))
  (m : list (jsstring * list jsstring)) : list (jsstring * list jsstring) :=
  fold_left (fun m production => push (fst production) (snd production) m)
            pairs m.

(** A string without the code unit [c]. *)
Definition without (c : N) (s : jsstring) : bool :=
  forallb (fun d => negb (N.eqb d c)) s.

(** [s.includes(sep)]. *)
Fixpoint contains (sep s : jsstring) : bool :=
  prefix sep s ||
  match s with
  | [] => false
  | _ :: r => contains sep r
  end.

(** A side that [setProductions] reads back as it was written: there is
    no [;] and no [->] in it. *)
Definition whole (s : jsstring) : bool :=
  without 59 s && negb (contains (lit "->") s).

(** What the conversion needs of the automaton: the initial state is set
    and is a state, every transition starts from a state, and the two
    sides of every production written are whole. *)
Definition convertible (A : FiniteAutomaton.t) : bool :=
  match FiniteAutomaton.initialState A with
  | Some initial =>
      has initial (FiniteAutomaton.states A) &&
      forallb (fun tr =>
                 has (FiniteAutomaton.from tr) (FiniteAutomaton.states A))
              (FiniteAutomaton.getTransitionsArray A) &&
      forallb (fun production =>
                 whole (fst production) && whole (snd production))
              (production_pairs A initial)
  | None => false
  end.

(** The transition makes a right-hand side that reads as the empty word:
    [symbol + toState] is the letter epsilon, or [symbol] is and
    [toState] is final. *)
Definition writes_epsilon (A : FiniteAutomaton.t)
  (tr : FiniteAutomaton.Transition) : bool :=
  eqb (FiniteAutomaton.sym tr ++ FiniteAutomaton.to tr) epsilon ||
  eqb (FiniteAutomaton.sym tr) epsilon &&
  has (FiniteAutomaton.to tr) (FiniteAutomaton.finalStates A).

(** Such transitions, if any, start from the initial state, and it is
    final. *)
Definition epsilon_kept (A : FiniteAutomaton.t) : bool :=
  forallb (fun tr =>
             negb (writes_epsilon A tr) ||
             match FiniteAutomaton.initialState A with
             | Some initial => eqb (FiniteAutomaton.from tr) initial
             | None => false
             end &&
             has (FiniteAutomaton.from tr) (FiniteAutomaton.finalStates A))
          (FiniteAutomaton.getTransitionsArray A).

(** Every left side stored is a nonterminal, and every side stored is
    whole. *)
Definition stored_whole (G : RegularGrammar.t) : Prop :=
  forall l rs,
    map_get l (RegularGrammar.productions G) = Some rs ->
    has l (RegularGrammar.nonTerminals G) = true /\
    whole l = true /\ forallb whole rs = true.

(** A grammar being filled: its nonterminals and start symbol are set and
    what is stored is as above. *)
Definition filling (nonTerminals : list jsstring)
  (startSymbol : option jsstring) (G : RegularGrammar.t) : Prop :=
  RegularGrammar.nonTerminals G = nonTerminals /\
  RegularGrammar.startSymbol G = startSymbol /\
  stored_whole G.

(** Two states and the letter epsilon as a symbol: [q -- epsilon --> p],
    with [p] final and [q] initial. *)
Definition epsilonSymbol : FiniteAutomaton.t :=
  Api.after [Api.SetStates [lit "q"; lit "p"];
             Api.SetAlphabet [epsilon];
             Api.SetInitialState (lit "q");
             Api.SetFinalStates [lit "p"];
             Api.AddTransition (lit "q") epsilon (lit "p")]
            (FiniteAutomaton.new (lit "E")).

(** A state named [>]: [q -- a --> >], with [>] final. *)
Definition arrowHead : FiniteAutomaton.t :=
  Api.after [Api.SetStates [lit "q"; lit ">"];
             Api.SetAlphabet [lit "a"];
             Api.SetInitialState (lit "q");
             Api.SetFinalStates [lit ">"];
             Api.AddTransition (lit "q") (lit "a") (lit ">")]
            (FiniteAutomaton.new (lit "H")).

End Conv.

(** Every automaton of the parser's collection is in order. *)
Module Loaded.

Definition all_in_order (P : AutomataParser.t) : Prop :=
  forall name A,
    map_get name (AutomataParser.automata P) = Some A -> Inv.wf A = true.

End Loaded.

(* ===================================================================== *)
(** ** The table walk, with the trace it leaves                           *)
(* ===================================================================== *)

Module Walk.

(** The steps the table walk over [w] from [q] writes, numbered from
    [n]: one per symbol consumed, until a symbol cannot be. *)
Fixpoint trace (A : FiniteAutomaton.t) (q : jsstring) (w : jsstring)
  (n : nat) : list FiniteAutomaton.Step :=
  match w with
  | [] => []
  | c :: rest =>
      if has [c] (FiniteAutomaton.alphabet A)
      then match Spec.target A q [c] with
           | Some p =>
               FiniteAutomaton.mkStep p (Some [c]) n :: trace A p rest (S n)
           | None => []
           end
      else []
  end.

(** The symbol [c] cannot be consumed in the state [q]. *)
Definition stuck (A : FiniteAutomaton.t) (q : jsstring) (c : N) : Prop :=
  has [c] (FiniteAutomaton.alphabet A) = false \/
  Spec.target A q [c] = None.

End Walk.

(* ===================================================================== *)
(** ** More sample inputs                                                 *)
(* ===================================================================== *)

Module Samples.

(** What [recognizeWord("a")] returns on the automaton of section 8. *)
Definition acceptedA : FiniteAutomaton.Result :=
  FiniteAutomaton.mkResult (lit "a") true
    [FiniteAutomaton.mkStep (lit "q0") None 0;
     FiniteAutomaton.mkStep (lit "q1") (Some (lit "a")) 1]
    None (Some (lit "q1")).

(** What [recognizeWord("ac")] returns on it, and how it leaves it. *)
Definition rejectedAC : FiniteAutomaton.Result :=
  FiniteAutomaton.mkResult (lit "ac") false
    [FiniteAutomaton.mkStep (lit "q0") None 0;
     FiniteAutomaton.mkStep (lit "q1") (Some (lit "a")) 1]
    (Some (FiniteAutomaton.NoTransition (lit "c") (Some (lit "q1")))) None.

Definition afterAC : FiniteAutomaton.t :=
  Api.state_after
    (FiniteAutomaton.recognizeWord (lit "ac") Examples.automatonX).

(** The automaton of section 8 built with padded names, then reset and
    moved by one symbol. *)
Definition stepped : FiniteAutomaton.t :=
  Api.after [Api.SetStates [lit " q0"; lit "q1 "];
             Api.SetAlphabet [lit "a"; lit " b "];
             Api.SetInitialState (lit " q0 ");
             Api.SetFinalStates [lit "q1"];
             Api.SetTransitions (lit "q0, a ,q1; q0,b,q0 ;q1,a,q1;q1,b,q0");
             Api.Reset;
             Api.ProcessSymbol (lit "a")]
            (FiniteAutomaton.new (lit "X")).

End Samples.

(** The pairs of a state and a symbol for which the table has no target. *)
Module Total.

Definition gaps (A : FiniteAutomaton.t) : list (jsstring * jsstring) :=
  filter (fun qa => match Spec.target A (fst qa) (snd qa) with
                    | None => true
                    | Some _ => false
                    end)
         (list_prod (FiniteAutomaton.states A) (FiniteAutomaton.alphabet A)).

End Total.

(* ===================================================================== *)
(** ** References between the parts of an automaton                       *)
(* ===================================================================== *)

Module Refs.

Definition row_closed (A : FiniteAutomaton.t)
  (row : list (jsstring * jsstring)) : bool :=
  forallb (fun '(a, p) => has a (FiniteAutomaton.alphabet A) &&
                          has p (FiniteAutomaton.states A)) row.

(** The initial state, the final states and both ends of every transition
    are states; the symbol of every transition is in the alphabet. *)
Definition closed (A : FiniteAutomaton.t) : bool :=
  match FiniteAutomaton.initialState A with
  | Some q => has q (FiniteAutomaton.states A)
  | None => true
  end &&
  forallb (fun q => has q (FiniteAutomaton.states A))
          (FiniteAutomaton.finalStates A) &&
  forallb (fun '(q, row) => has q (FiniteAutomaton.states A) &&
                            row_closed A row)
          (FiniteAutomaton.transitions A).

(** A call that does not replace the states or the alphabet. *)
Definition keeps_sets (c : Api.Call) : bool :=
  match c with
  | Api.SetStates _ | Api.SetAlphabet _ => false
  | _ => true
  end.

(** An automaton with its two sets, and the calls that complete it. *)
Definition withSets : FiniteAutomaton.t :=
  Api.after [Api.SetStates [lit "q0"; lit "q1"];
             Api.SetAlphabet [lit "a"; lit "b"]]
            (FiniteAutomaton.new (lit "X")).

Definition completing : list Api.Call :=
  [Api.SetInitialState (lit "q0");
   Api.SetFinalStates [lit "q1"; lit "zz"];
   Api.SetTransitions (lit "q0,a,q1;q0,b,q0;q1,a,q1;q1,b,q0");
   Api.Reset;
   Api.ProcessSymbol (lit "a");
   Api.RecognizeWord (lit "ab")].

End Refs.

(* ===================================================================== *)
(** ** Loading a text in two parts                                        *)
(* ===================================================================== *)

Module Lines.

(** The error of a load, addressed [k] lines further down. *)
Definition shift (k : nat) (e : Error) : Error :=
  match e with
  | InLine n cause => InLine (k + n) cause
  | _ => e
  end.

(** A first part, then a line feed, then a second part. *)
Definition glue (first second : jsstring) : jsstring :=
  first ++ [10%N] ++ second.

(** Loading [second] into the parser that [first] has been loaded into,
    with the errors of [second] addressed after the lines of [first]. *)
Definition one_after_the_other (first second : jsstring)
  (P : AutomataParser.t)
  : result (list (jsstring * FiniteAutomaton.t)) * AutomataParser.t *
    list Warning :=
  match AutomataParser.parseFile first P with
  | (Throw e, P1, out1) => (Throw e, P1, out1)
  | (Ok _, P1, out1) =>
      match AutomataParser.parseFile second P1 with
      | (Ok automata, P2, out2) => (Ok automata, P2, out1 ++ out2)
      | (Throw e, P2, out2) =>
          (Throw (shift (length (AutomataParser.lines first)) e), P2,
           out1 ++ out2)
      end
  end.

(** The parser that the automaton of section 8 has been loaded into. *)
Definition loadedX : AutomataParser.t :=
  snd (fst (AutomataParser.parseFile Examples.fileX AutomataParser.new)).

End Lines.

(* ===================================================================== *)
(** ** The words of a grammar                                             *)
(* ===================================================================== *)

Module Gram.

(** A right-hand side that [toFiniteAutomaton] and [validate] read as the
    empty word: the sign for it, or nothing. *)
Definition empty (production : jsstring) : bool :=
  eqb production epsilon || eqb production [].

(** The transition that [toFiniteAutomaton] registers for one stored
    production, if it registers one. *)
Definition edge (G : RegularGrammar.t) (nonTerminal production : jsstring)
  : option FiniteAutomaton.Transition :=
  if empty production then None
  else
    match production with
    | [a] =>
        if has [a] (RegularGrammar.terminals G)
        then Some (FiniteAutomaton.mkTransition nonTerminal [a]
                     RegularGrammar.finalState)
        else None
    | [a; b] =>
        if has [a] (RegularGrammar.terminals G) &&
           has [b] (RegularGrammar.nonTerminals G)
        then Some (FiniteAutomaton.mkTransition nonTerminal [a] [b])
        else None
    | _ => None
    end.

(** The stored productions, one pair for each right-hand side, in the
    order in which the two nested [forEach] visit them. *)
Definition flat (rows : list (jsstring * list jsstring))
  : list (jsstring * jsstring) :=
  flat_map (fun '(nonTerminal, rightSides) =>
              List.map (pair nonTerminal) rightSides)
           rows.

(** The local array [finalStates] after one more production. *)
Definition push_final (finalStates : list jsstring)
  (production : jsstring * jsstring) : list jsstring :=
  finalStates ++
  (if empty (snd production) then [fst production] else []).

(** The automaton under construction after one more production. *)
Definition register (G : RegularGrammar.t) (A : FiniteAutomaton.t)
  (production : jsstring * jsstring) : FiniteAutomaton.t :=
  match edge G (fst production) (snd production) with
  | Some tr =>
      Exec.registered A (FiniteAutomaton.from tr) (FiniteAutomaton.sym tr)
                      (FiniteAutomaton.to tr)
  | None => A
  end.

(** The automaton before the productions are gone through. *)
Definition skeleton (G : RegularGrammar.t) (start : jsstring)
  : FiniteAutomaton.t :=
  FiniteAutomaton.with_initialState (Some start)
    (FiniteAutomaton.with_alphabet (RegularGrammar.terminals G)
       (FiniteAutomaton.with_states
          (RegularGrammar.nonTerminals G ++ [RegularGrammar.finalState])
          (FiniteAutomaton.new (lit "AFD_" ++ RegularGrammar.name G)))).

(** The automaton [toFiniteAutomaton] returns for a grammar that is
    [ready]. *)
Definition automaton (G : RegularGrammar.t) (start : jsstring)
  : FiniteAutomaton.t :=
  FiniteAutomaton.with_finalStates
    (Inv.added
       (fold_left push_final (flat (RegularGrammar.productions G))
                  [RegularGrammar.finalState])
       [])
    (fold_left (register G) (flat (RegularGrammar.productions G))
               (skeleton G start)).

(** The words a nonterminal derives, the right-hand sides being read as
    the code reads them: the empty word; one terminal; one terminal and
    then a nonterminal. *)
Inductive Derives (G : RegularGrammar.t) : jsstring -> jsstring -> Prop :=
| derives_empty (nonTerminal production : jsstring) :
    In production (Spec.rights G nonTerminal) ->
    empty production = true ->
    Derives G nonTerminal []
| derives_terminal (nonTerminal : jsstring) (a : N) :
    In [a] (Spec.rights G nonTerminal) ->
    empty [a] = false ->
    has [a] (RegularGrammar.terminals G) = true ->
    Derives G nonTerminal [a]
| derives_step (nonTerminal : jsstring) (a b : N) (w : jsstring) :
    In [a; b] (Spec.rights G nonTerminal) ->
    has [a] (RegularGrammar.terminals G) = true ->
    has [b] (RegularGrammar.nonTerminals G) = true ->
    Derives G [b] w ->
    Derives G nonTerminal (a :: w).

(** The two sets are sets of trimmed names, the name [qf] is free, every
    nonterminal with productions is a nonterminal still, and so is the
    start symbol. *)
Definition ready (G : RegularGrammar.t) : bool :=
  Inv.set_ok (RegularGrammar.nonTerminals G) &&
  Inv.set_ok (RegularGrammar.terminals G) &&
  negb (has RegularGrammar.finalState (RegularGrammar.nonTerminals G)) &&
  Inv.keys_unique (RegularGrammar.productions G) &&
  forallb (fun '(nonTerminal, _) =>
             has nonTerminal (RegularGrammar.nonTerminals G))
          (RegularGrammar.productions G) &&
  match RegularGrammar.startSymbol G with
  | Some start => has start (RegularGrammar.nonTerminals G)
  | None => false
  end.

(** Two right-hand sides of one nonterminal that begin with the same
    terminal lead to the same state. *)
Definition agree (G : RegularGrammar.t) (nonTerminal r1 r2 : jsstring)
  : bool :=
  match edge G nonTerminal r1, edge G nonTerminal r2 with
  | Some t1, Some t2 =>
      implb (eqb (FiniteAutomaton.sym t1) (FiniteAutomaton.sym t2))
            (eqb (FiniteAutomaton.to t1) (FiniteAutomaton.to t2))
  | _, _ => true
  end.

Definition deterministic (G : RegularGrammar.t) : bool :=
  forallb (fun '(nonTerminal, rightSides) =>
             forallb (fun r1 =>
                        forallb (agree G nonTerminal r1) rightSides)
                     rightSides)
          (RegularGrammar.productions G).

(** [S -> aA | epsilon], [A -> b | aA]: the words [a ... a b] and the
    empty word. *)
Definition sample : RegularGrammar.t :=
  RegularGrammar.mk (lit "G") [lit "S"; lit "A"] [lit "a"; lit "b"]
    (Some (lit "S"))
    [(lit "S", [lit "aA"; epsilon]); (lit "A", [lit "b"; lit "aA"])].

Definition sampleAutomaton : FiniteAutomaton.t := automaton sample (lit "S").

Definition acceptedAAB : FiniteAutomaton.Result :=
  match FiniteAutomaton.recognizeWord (lit "aab") sampleAutomaton with
  | (Ok r, _, _) => r
  | (Throw _, _, _) =>
      FiniteAutomaton.mkResult [] false [] None None
  end.

End Gram.

(* ===================================================================== *)
(** ** Lists given as one string                                          *)
(* ===================================================================== *)

Module Pieces.

(** One call after another on the same object: the second is not made when
    the first throws. *)
Definition one_after_the_other {Obj : Type} (first second : M Obj unit)
  (s : Obj) : result unit * Obj * list Warning :=
  match first s with
  | (Ok _, s1, out1) =>
      let '(r, s2, out2) := second s1 in (r, s2, out1 ++ out2)
  | (Throw e, s1, out1) => (Throw e, s1, out1)
  end.

End Pieces.

(* ===================================================================== *)
(** ** Grammars built by calls                                            *)
(* ===================================================================== *)

Module Grammars.

(** The calls on a grammar. *)
Inductive Call : Type :=
| SetNonTerminals (symbols : list jsstring)
| SetTerminals (symbols : list jsstring)
| SetStartSymbol (symbol : jsstring)
| AddProduction (leftSide rightSide : jsstring)
| SetProductions (productionsStr : jsstring)
| ToFiniteAutomaton.

Definition perform (c : Call) : M RegularGrammar.t unit :=
  match c with
  | SetNonTerminals symbols => RegularGrammar.setNonTerminals symbols
  | SetTerminals symbols => RegularGrammar.setTerminals symbols
  | SetStartSymbol symbol => RegularGrammar.setStartSymbol symbol
  | AddProduction l r => RegularGrammar.addProduction l r
  | SetProductions str => RegularGrammar.setProductions str
  | ToFiniteAutomaton => RegularGrammar.toFiniteAutomaton ;; ret tt
  end.

(** The grammar after the calls, made in order, whether they returned or
    threw. *)
Definition after (calls : list Call) (G : RegularGrammar.t)
  : RegularGrammar.t :=
  fold_left (fun G c => snd (fst (perform c G))) calls G.

(** The array of a nonterminal: not empty, of trimmed strings. *)
Definition row_ok (row : jsstring * list jsstring) : bool :=
  Inv.trimmed (fst row) &&
  negb (length (snd row) =? 0) &&
  forallb Inv.trimmed (snd row).

(** What every method of [RegularGrammar] maintains. *)
Definition in_order (G : RegularGrammar.t) : bool :=
  Inv.set_ok (RegularGrammar.nonTerminals G) &&
  Inv.set_ok (RegularGrammar.terminals G) &&
  Inv.keys_unique (RegularGrammar.productions G) &&
  forallb row_ok (RegularGrammar.productions G) &&
  match RegularGrammar.startSymbol G with
  | Some start => Inv.trimmed start
  | None => true
  end.

(** In order, and named [name]. *)
Definition kept (name : jsstring) (G : RegularGrammar.t) : Prop :=
  in_order G = true /\ RegularGrammar.name G = name.

(** Every grammar the parser holds is in order and named as its key. *)
Definition all_kept (P : AutomataParser.t) : Prop :=
  forall name G,
    map_get name (AutomataParser.grammars P) = Some G -> kept name G.

(** A grammar built with padded names, one production at a time and
    several at once. *)
Definition padded : RegularGrammar.t :=
  after [SetNonTerminals [lit " S"; lit "A "; lit "S"];
         SetTerminals [lit "a"; lit " b "];
         SetStartSymbol (lit " S ");
         AddProduction (lit " S ") (lit " aA ");
         SetProductions (lit "A -> b ; A->aA;S->")]
        (RegularGrammar.new (lit "G")).




End Grammars.

(* ===================================================================== *)
(** ** The grammar of an automaton, validated                             *)
(* ===================================================================== *)

Module Converted.

(** Every state and every symbol is one code unit. *)
Definition single_units (A : FiniteAutomaton.t) : bool :=
  forallb (fun q => length q =? 1) (FiniteAutomaton.states A) &&
  forallb (fun a => length a =? 1) (FiniteAutomaton.alphabet A).

(** [a] once or more, with states of one letter. *)
Definition automatonP : FiniteAutomaton.t :=
  Api.after [Api.SetStates [lit "p"; lit "q"];
             Api.SetAlphabet [lit "a"];
             Api.SetInitialState (lit "p");
             Api.SetFinalStates [lit "q"];
             Api.SetTransitions (lit "p,a,q;q,a,q")]
            (FiniteAutomaton.new (lit "P")).

(** The grammar [toRegularGrammar] returns for an automaton that is in
    order and consistent, with initial state [q0]. *)
Definition grammar (A : FiniteAutomaton.t) (q0 : jsstring)
  : RegularGrammar.t :=
  RegularGrammar.with_productions
    (Conv.push_all (Conv.production_pairs A q0) [])
    (RegularGrammar.with_startSymbol (Some q0)
       (RegularGrammar.with_terminals (FiniteAutomaton.alphabet A)
          (RegularGrammar.with_nonTerminals (FiniteAutomaton.states A)
             (RegularGrammar.new (lit "GR_" ++ FiniteAutomaton.name A))))).

(** States and symbols of one code unit, and the sign of the empty word
    is not a symbol. *)
Definition lettered (A : FiniteAutomaton.t) : bool :=
  single_units A && negb (has epsilon (FiniteAutomaton.alphabet A)).

End Converted.

(* ===================================================================== *)
(** ** getInfo, and the layers of the drawing (visualization.js)          *)
(* ===================================================================== *)

(** The object [getInfo()] returns. *)
Module AutomatonInfo.

Record t : Type := mk {
  name : jsstring;
  states : list jsstring;
  alphabet : list jsstring;
  initialState : option jsstring;
  finalStates : list jsstring;
  transitionsCount : nat;
  transitions : list FiniteAutomaton.Transition
}.

End AutomatonInfo.

Definition getInfo (A : FiniteAutomaton.t) : AutomatonInfo.t :=
  AutomatonInfo.mk
    (FiniteAutomaton.name A)
    (FiniteAutomaton.states A)
    (FiniteAutomaton.alphabet A)
    (FiniteAutomaton.initialState A)
    (FiniteAutomaton.finalStates A)
    (fold_left (fun total stateTransitions =>
                  total + length (snd stateTransitions))
               (FiniteAutomaton.transitions A) 0)
    (FiniteAutomaton.getTransitionsArray A).

Module AutomataVisualizer.

(** [t.from === state], where [state] may be [null]. *)
Definition starts_at (state : option jsstring)
  (t : FiniteAutomaton.Transition) : bool :=
  match state with
  | Some s => eqb (FiniteAutomaton.from t) s
  | None => false
  end.

(** The body of the innermost [for] of [createLayers]; the pair is
    [nextLayer] and [visited]. *)
Definition visit (acc : list jsstring * list jsstring)
  (reachableState : jsstring) : list jsstring * list jsstring :=
  if negb (has reachableState (snd acc)) &&
     negb (has reachableState (fst acc))
  then (fst acc ++ [reachableState], add reachableState (snd acc))
  else acc.

(** The body of [for (const state of currentLayer)]. *)
Definition expand (info : AutomatonInfo.t)
  (acc : list jsstring * list jsstring) (state : option jsstring)
  : list jsstring * list jsstring :=
  let reachableStates :=
    List.map FiniteAutomaton.to
      (filter (fun t => starts_at state t &&
                        negb (has (FiniteAutomaton.to t) (snd acc)))
              (AutomatonInfo.transitions info)) in
  fold_left visit reachableStates acc.

(** [nextLayer] and [visited] after the [for] over [currentLayer]. *)
Definition next_layer (info : AutomatonInfo.t)
  (currentLayer : list (option jsstring)) (visited : list jsstring)
  : list jsstring * list jsstring :=
  fold_left (expand info) currentLayer ([], visited).

(** The [while] loop of [createLayers], gone round at most [fuel] times:
    [layers] and [visited] when it is left, [None] when [fuel] rounds
    were not enough. *)
Fixpoint search (fuel : nat) (info : AutomatonInfo.t)
  (layers : list (list jsstring)) (visited : list jsstring)
  (currentLayer : list (option jsstring))
  : option (list (list jsstring) * list jsstring) :=
  match fuel with
  | O => None
  | S fuel' =>
      if (0 <? length currentLayer) &&
         (length visited <? length (AutomatonInfo.states info))
      then
        let nextLayer := fst (next_layer info currentLayer visited) in
        let visited' := snd (next_layer info currentLayer visited) in
        if 0 <? length nextLayer
        then search fuel' info (layers ++ [nextLayer]) visited'
                    (List.map Some nextLayer)
        else Some (layers, visited')
      else Some (layers, visited)
  end.

(** [layers] and [visited] before the loop. *)
Definition first_layer (info : AutomatonInfo.t)
  : list (list jsstring) * list jsstring :=
  match AutomatonInfo.initialState info with
  | Some (c :: s) => ([[c :: s]], [c :: s])
  | _ => ([], [])
  end.

(** The states that are not in [visited]. *)
Definition left_over (info : AutomatonInfo.t) (visited : list jsstring)
  : list jsstring :=
  filter (fun s => negb (has s visited)) (AutomatonInfo.states info).

(** [layers] with the states not visited as a last layer, if there are
    any. *)
Definition with_left_over (info : AutomatonInfo.t)
  (found : list (list jsstring) * list jsstring) : list (list jsstring) :=
  if 0 <? length (left_over info (snd found))
  then fst found ++ [left_over info (snd found)]
  else fst found.

(** [createLayers(info)], the loop being given one round more than there
    are states. *)
Definition createLayers (info : AutomatonInfo.t)
  : option (list (list jsstring)) :=
  match search (S (length (AutomatonInfo.states info))) info
               (fst (first_layer info)) (snd (first_layer info))
               [AutomatonInfo.initialState info] with
  | Some found => Some (with_left_over info found)
  | None => None
  end.

(** A state that transitions lead to from the initial state. *)
Inductive Reached (info : AutomatonInfo.t) : jsstring -> Prop :=
| reached_initial (s : jsstring) :
    AutomatonInfo.initialState info = Some s -> Reached info s
| reached_next (t : FiniteAutomaton.Transition) :
    In t (AutomatonInfo.transitions info) ->
    Reached info (FiniteAutomaton.from t) ->
    Reached info (FiniteAutomaton.to t).

(** Every state of a layer but the first is one step away from a state
    of the layer before. *)
Definition linked (info : AutomatonInfo.t) (before layer : list jsstring)
  : Prop :=
  forall s, In s layer ->
            exists t, In t (AutomatonInfo.transitions info) /\
                      In (FiniteAutomaton.from t) before /\
                      FiniteAutomaton.to t = s.

Fixpoint chained (info : AutomatonInfo.t) (layers : list (list jsstring))
  : Prop :=
  match layers with
  | before :: ((layer :: _) as rest) =>
      linked info before layer /\ chained info rest
  | _ => True
  end.

(** A state that [n] transitions lead to from the initial state. *)
Inductive Within (info : AutomatonInfo.t) : nat -> jsstring -> Prop :=
| within_initial (s : jsstring) :
    AutomatonInfo.initialState info = Some s -> Within info 0 s
| within_next (n : nat) (t : FiniteAutomaton.Transition) :
    In t (AutomatonInfo.transitions info) ->
    Within info n (FiniteAutomaton.from t) ->
    Within info (S n) (FiniteAutomaton.to t).

(** [n] transitions lead to the state from the initial state, and no
    fewer do. *)
Definition distance (info : AutomatonInfo.t) (n : nat) (s : jsstring)
  : Prop :=
  Within info n s /\ forall m, m < n -> ~ Within info m s.

(** Three states in a row and one apart. *)
Definition row : FiniteAutomaton.t :=
  Api.after [Api.SetStates [lit "s"; lit "t"; lit "u"; lit "v"];
             Api.SetAlphabet [lit "a"];
             Api.SetInitialState (lit "s");
             Api.SetTransitions (lit "s,a,t;t,a,u;u,a,s;v,a,s")]
            (FiniteAutomaton.new (lit "R")).

End AutomataVisualizer.

(* ===================================================================== *)
(** ** The records of a text as calls                                     *)
(* ===================================================================== *)

Module Records.

(** The call on an automaton that a record code stands for. *)
Definition call_of (id : number) (info : jsstring) : list Api.Call :=
  match id with
  | Integer 1%Z => [Api.SetStates (AutomataParser.split_trimmed info)]
  | Integer 2%Z => [Api.SetAlphabet (AutomataParser.split_trimmed info)]
  | Integer 3%Z => [Api.SetInitialState info]
  | Integer 4%Z => [Api.SetFinalStates (AutomataParser.split_trimmed info)]
  | Integer 5%Z => [Api.SetTransitions info]
  | _ => []
  end.

(** The call that a line of the text makes on the automaton [name]; none
    if the line is not a record of three fields or is of another name. *)
Definition call (name line : jsstring) : list Api.Call :=
  match split (lit ":") (trim line) with
  | [idInfo; automatonName; information] =>
      if eqb (trim automatonName) name
      then call_of (parseInt (trim idInfo)) (trim information)
      else []
  | _ => []
  end.

(** The calls of a text on the automaton [name], in the order of the
    lines. *)
Definition calls (name content : jsstring) : list Api.Call :=
  flat_map (call name) (AutomataParser.lines content).

(** The automaton the parser holds under [name]; a new one if it holds
    none. *)
Definition held (name : jsstring) (P : AutomataParser.t)
  : FiniteAutomaton.t :=
  match map_get name (AutomataParser.automata P) with
  | Some A => A
  | None => FiniteAutomaton.new name
  end.

(** The records of two automata, one line of each in turn, and a grammar
    of the name of the first. *)
Definition mixed : jsstring :=
  Examples.text ["1:X:q0,q1"; "1:Y:s"; "2:X:a,b"; "6:X:S"; "2:Y:c";
                 "3:X:q0"; "4:X:q1"; "3:Y:s";
                 "5:X:q0,a,q1;q0,b,q0;q1,a,q1;q1,b,q0"]%string.

(** The call on a grammar that a record code stands for. *)
Definition grammar_call_of (id : number) (info : jsstring)
  : list Grammars.Call :=
  match id with
  | Integer 6%Z => [Grammars.SetNonTerminals (AutomataParser.split_trimmed info)]
  | Integer 7%Z => [Grammars.SetTerminals (AutomataParser.split_trimmed info)]
  | Integer 8%Z => [Grammars.SetStartSymbol info]
  | Integer 9%Z => [Grammars.SetProductions info]
  | _ => []
  end.

Definition grammar_call (name line : jsstring) : list Grammars.Call :=
  match split (lit ":") (trim line) with
  | [idInfo; grammarName; information] =>
      if eqb (trim grammarName) name
      then grammar_call_of (parseInt (trim idInfo)) (trim information)
      else []
  | _ => []
  end.

(** The calls of a text on the grammar [name], in the order of the
    lines. *)
Definition grammar_calls (name content : jsstring) : list Grammars.Call :=
  flat_map (grammar_call name) (AutomataParser.lines content).

(** The grammar the parser holds under [name]; a new one if it holds
    none. *)
Definition held_grammar (name : jsstring) (P : AutomataParser.t)
  : RegularGrammar.t :=
  match map_get name (AutomataParser.grammars P) with
  | Some G => G
  | None => RegularGrammar.new name
  end.

(** The grammar of [fileG], with the records of an automaton in
    between. *)
Definition mixedGrammar : jsstring :=
  Examples.text ["6:G:S,A"; "1:G:q0"; "7:G:a,b"; "1:X:q0,q1"; "8:G:S";
                 "9:G:S->aA;A->b"]%string.

Definition loadedG : RegularGrammar.t :=
  held_grammar (lit "G")
    (snd (fst (AutomataParser.parseFile Examples.fileG AutomataParser.new))).

End Records.

(* ===================================================================== *)
(** ** The links of the drawing (visualization.js)                        *)
(* ===================================================================== *)

Module Links.

(** A value of the map [transitionGroups]. *)
Record Group : Type := mkGroup {
  source : jsstring;
  target : jsstring;
  symbols : list jsstring
}.

(** An element of [this.links]. *)
Record Link : Type := mkLink {
  link_source : jsstring;
  link_target : jsstring;
  link_symbols : list jsstring;
  label : jsstring;
  hasOpposite : bool
}.

(** [`${from}__${to}`]. *)
Definition key (from to : jsstring) : jsstring := from ++ lit "__" ++ to.

(** The body of [info.transitions.forEach]: the group of the key, created
    if the map has none, gets the symbol. *)
Definition group_step (groups : list (jsstring * Group))
  (tr : FiniteAutomaton.Transition) : list (jsstring * Group) :=
  let k := key (FiniteAutomaton.from tr) (FiniteAutomaton.to tr) in
  let groups1 :=
    if negb (map_has k groups)
    then map_set k (mkGroup (FiniteAutomaton.from tr) (FiniteAutomaton.to tr)
                            [])
                 groups
    else groups in
  match map_get k groups1 with
  | Some group =>
      map_set k (mkGroup (source group) (target group)
                         (add (FiniteAutomaton.sym tr) (symbols group)))
              groups1
  | None => groups1
  end.

Definition transitionGroups (info : AutomatonInfo.t)
  : list (jsstring * Group) :=
  fold_left group_step (AutomatonInfo.transitions info) [].

(** The body of [transitionGroups.forEach]. *)
Definition link_of (groups : list (jsstring * Group))
  (entry : jsstring * Group) : Link :=
  let group := snd entry in
  mkLink (source group) (target group) (symbols group)
         (join (lit ", ") (symbols group))
         (map_has (key (target group) (source group)) groups).

(** [this.links] after [prepareData]. *)
Definition links (info : AutomatonInfo.t) : list Link :=
  List.map (link_of (transitionGroups info)) (transitionGroups info).

(** No state at either end of a transition has [_] in its name. *)
Definition plain_ends (info : AutomatonInfo.t) : bool :=
  forallb (fun tr => Conv.without 95 (FiniteAutomaton.from tr) &&
                     Conv.without 95 (FiniteAutomaton.to tr))
          (AutomatonInfo.transitions info).

End Links.

(* ===================================================================== *)
(** ** Without a start                                                    *)
(* ===================================================================== *)

Module Unstarted.

(** What [recognizeWord] returns on an automaton whose initial state is
    [null] or the empty string. *)
Definition verdict (A : FiniteAutomaton.t) (w : jsstring)
  : FiniteAutomaton.Result :=
  match w with
  | [] =>
      FiniteAutomaton.mkResult []
        (match FiniteAutomaton.initialState A with
         | Some q => has q (FiniteAutomaton.finalStates A)
         | None => false
         end)
        [] None (FiniteAutomaton.initialState A)
  | _ :: _ =>
      FiniteAutomaton.mkResult w false []
        (Some (FiniteAutomaton.Caught NotInitialized)) None
  end.

(** States and transitions, and no initial state. *)
Definition headless : FiniteAutomaton.t :=
  Api.after [Api.SetStates [lit "q0"; lit "q1"];
             Api.SetAlphabet [lit "a"];
             Api.SetFinalStates [lit "q1"];
             Api.SetTransitions (lit "q0,a,q1")]
            (FiniteAutomaton.new (lit "H")).

(** Nonterminals and productions, and no start symbol. *)
Definition headlessGrammar : RegularGrammar.t :=
  Grammars.after [Grammars.SetNonTerminals [lit "S"];
                  Grammars.SetTerminals [lit "a"];
                  Grammars.SetProductions (lit "S->a")]
                 (RegularGrammar.new (lit "H")).

End Unstarted.

(* ===================================================================== *)
(** ** Strings, sets and maps: basic facts                                *)
(* ===================================================================== *)

Section StringFacts.

Lemma eqb_refl (s : jsstring) : eqb s s = true.
Proof.
  induction s as [|c s IH]; simpl; [reflexivity|].
  now rewrite N.eqb_refl, IH.
Qed.

Lemma eqb_eq (a b : jsstring) : eqb a b = true <-> a = b.
Proof.
  split.
  - revert b; induction a as [|x a IH]; intros [|y b] H; simpl in H;
      try discriminate; [reflexivity|].
    apply andb_true_iff in H as [Hx Hr].
    apply N.eqb_eq in Hx. f_equal; [exact Hx | now apply IH].
  - intros ->. apply eqb_refl.
Qed.

Lemma eqb_neq (a b : jsstring) : eqb a b = false <-> a <> b.
Proof.
  rewrite <- eqb_eq. destruct (eqb a b); split; congruence.
Qed.

Lemma eqb_sym (a b : jsstring) : eqb a b = eqb b a.
Proof.
  destruct (eqb a b) eqn:E.
  - apply eqb_eq in E. subst. symmetry. apply eqb_refl.
  - symmetry. apply eqb_neq. apply eqb_neq in E. congruence.
Qed.

Lemma has_In (x : jsstring) (s : list jsstring) : has x s = true <-> In x s.
Proof.
  unfold has. rewrite existsb_exists. split.
  - intros (y & Hy & E). apply eqb_eq in E. now subst.
  - intros H. exists x. split; [exact H | apply eqb_refl].
Qed.

Lemma has_app (x : jsstring) (s1 s2 : list jsstring) :
  has x (s1 ++ s2) = has x s1 || has x s2.
Proof. unfold has. apply existsb_app. Qed.

Lemma In_add (x y : jsstring) (s : list jsstring) :
  In y (add x s) <-> In y s \/ y = x.
Proof.
  unfold add. destruct (has x s) eqn:E.
  - apply has_In in E. split; [tauto|]. intros [H | ->]; assumption.
  - rewrite in_app_iff. simpl. intuition congruence.
Qed.

Context {V : Type}.

Lemma map_get_set_same (k : jsstring) (v : V) (m : list (jsstring * V)) :
  map_get k (map_set k v m) = Some v.
Proof.
  induction m as [|[k' v'] m IH]; simpl.
  - now rewrite eqb_refl.
  - destruct (eqb k k') eqn:E; simpl; rewrite E; [reflexivity | exact IH].
Qed.

Lemma map_get_set_other (k k' : jsstring) (v : V) (m : list (jsstring * V)) :
  k <> k' -> map_get k' (map_set k v m) = map_get k' m.
Proof.
  intros Hne. induction m as [|[k0 v0] m IH]; simpl.
  - assert (eqb k' k = false) as -> by (apply eqb_neq; congruence).
    reflexivity.
  - destruct (eqb k k0) eqn:E; simpl.
    + apply eqb_eq in E. subst k0.
      assert (eqb k' k = false) as -> by (apply eqb_neq; congruence).
      reflexivity.
    + now rewrite IH.
Qed.

Lemma map_set_fresh (k : jsstring) (v : V) (m : list (jsstring * V)) :
  map_get k m = None -> map_set k v m = m ++ [(k, v)].
Proof.
  induction m as [|[k' v'] m IH]; simpl; [reflexivity|].
  destruct (eqb k k'); [discriminate|]. intros H. now rewrite IH.
Qed.

Lemma map_get_In (k : jsstring) (v : V) (m : list (jsstring * V)) :
  map_get k m = Some v -> In (k, v) m.
Proof.
  induction m as [|[k' v'] m IH]; simpl; [discriminate|].
  destruct (eqb k k') eqn:E.
  - apply eqb_eq in E. intros [= ->]. left. now subst.
  - intros H. right. now apply IH.
Qed.

Lemma map_get_None (k : jsstring) (m : list (jsstring * V)) :
  map_get k m = None -> forall v, ~ In (k, v) m.
Proof.
  induction m as [|[k' v'] m IH]; simpl; [tauto|].
  destruct (eqb k k') eqn:E; [discriminate|].
  intros H v [[= -> ->] | Hin].
  - now rewrite eqb_refl in E.
  - exact (IH H v Hin).
Qed.

Lemma keys_unique_In (k : jsstring) (v : V) (m : list (jsstring * V)) :
  Inv.keys_unique m = true -> (In (k, v) m <-> map_get k m = Some v).
Proof.
  intros U. split; [|apply map_get_In].
  induction m as [|[k' v'] m IH]; simpl in *; [tauto|].
  apply andb_true_iff in U as [Hfresh U].
  intros [[= -> ->] | Hin].
  - now rewrite eqb_refl.
  - destruct (eqb k k') eqn:E; [|now apply IH].
    apply eqb_eq in E. subst k'. unfold map_has in Hfresh.
    destruct (map_get k m) eqn:G; [discriminate|].
    exfalso. exact (map_get_None _ _ G v Hin).
Qed.

Lemma map_has_set (k k' : jsstring) (v : V) (m : list (jsstring * V)) :
  map_has k' (map_set k v m) = eqb k' k || map_has k' m.
Proof.
  unfold map_has. destruct (eqb k' k) eqn:E.
  - apply eqb_eq in E. subst. now rewrite map_get_set_same.
  - apply eqb_neq in E. rewrite map_get_set_other by congruence.
    reflexivity.
Qed.

Lemma keys_unique_set (k : jsstring) (v : V) (m : list (jsstring * V)) :
  Inv.keys_unique m = true -> Inv.keys_unique (map_set k v m) = true.
Proof.
  induction m as [|[k' v'] m IH]; simpl; [reflexivity|].
  intros U. apply andb_true_iff in U as [Hfresh U].
  destruct (eqb k k') eqn:E; simpl.
  - now rewrite Hfresh, U.
  - rewrite map_has_set, IH by assumption.
    rewrite eqb_sym, E. simpl. now rewrite Hfresh.
Qed.

End StringFacts.

(* ===================================================================== *)
(** ** The method monad: how loops run                                    *)
(* ===================================================================== *)

Section Loops.

Context {Obj A : Type}.

Lemma bind_ok {B : Type} (m : M Obj A) (k : A -> M Obj B) (s s' : Obj)
  (a : A) (out : list Warning) :
  m s = (Ok a, s', out) ->
  bind m k s = (let '(r, s'', out') := k a s' in (r, s'', out ++ out')).
Proof. intros E. unfold bind. now rewrite E. Qed.

Lemma bind_throw {B : Type} (m : M Obj A) (k : A -> M Obj B) (s s' : Obj)
  (e : Error) (out : list Warning) :
  m s = (Throw e, s', out) -> bind m k s = (Throw e, s', out).
Proof. intros E. unfold bind. now rewrite E. Qed.

(** A loop whose body only assigns never throws and writes nothing. *)
Lemma forEach_modify (f : A -> Obj -> Obj) (l : list A) (s : Obj) :
  forEach (fun x => modify (f x)) l s =
  (Ok tt, fold_left (fun s x => f x s) l s, []).
Proof.
  revert s. induction l as [|x l IH]; intros s; simpl; [reflexivity|].
  unfold bind, modify at 1. now rewrite IH.
Qed.

Lemma forEach_ext (f g : A -> M Obj unit) (l : list A) (s : Obj) :
  (forall x, In x l -> forall s', f x s' = g x s') ->
  forEach f l s = forEach g l s.
Proof.
  revert s. induction l as [|x l IH]; intros s H; simpl; [reflexivity|].
  unfold bind. rewrite (H x (or_introl eq_refl)).
  destruct (g x s) as [[[[]|e] s'] out]; [|reflexivity].
  rewrite IH; [reflexivity|]. intros y Hy. apply H. now right.
Qed.

Lemma forEach_map {B : Type} (h : B -> A) (f : A -> M Obj unit)
  (l : list B) (s : Obj) :
  forEach f (List.map h l) s = forEach (fun x => f (h x)) l s.
Proof.
  revert s. induction l as [|x l IH]; intros s; simpl; [reflexivity|].
  unfold bind. destruct (f (h x) s) as [[[[]|e] s'] out]; [|reflexivity].
  now rewrite IH.
Qed.

End Loops.

Ltac run := unfold bind, modify, get, ret, throw, warn, when; simpl.

(* ===================================================================== *)
(** ** setFinalStates                                                     *)
(* ===================================================================== *)

Section FinalStates.

Import FiniteAutomaton.

Lemma In_added (names acc : list jsstring) (x : jsstring) :
  In x (Inv.added names acc) <-> In x acc \/ In x (List.map trim names).
Proof.
  revert acc. induction names as [|n names IH]; intros acc; simpl.
  - tauto.
  - unfold Inv.added in *. simpl. rewrite IH, In_add. intuition.
Qed.

Lemma with_finalStates_same (A : t) : with_finalStates (finalStates A) A = A.
Proof. now destruct A. Qed.

Lemma setFinalStates_loop (pre : list jsstring) (bad : jsstring)
  (post : list jsstring) (A : t) :
  Forall (fun s => has (trim s) (states A) = true) pre ->
  has (trim bad) (states A) = false ->
  forEach (fun state =>
             let trimmedState := trim state in
             A <- get ;;
             if negb (has trimmedState (states A))
             then throw (FinalStateUnknown trimmedState)
             else modify (fun A => with_finalStates
                                     (add trimmedState (finalStates A)) A))
          (pre ++ bad :: post) A =
  (Throw (FinalStateUnknown (trim bad)),
   with_finalStates (Inv.added pre (finalStates A)) A, []).
Proof.
  revert A. induction pre as [|x pre IH]; intros A Hpre Hbad.
  - simpl. run. rewrite Hbad. simpl. now rewrite with_finalStates_same.
  - inversion Hpre as [|? ? Hx Hrest]; subst.
    cbn [app forEach]. unfold bind at 1. unfold bind at 1, get at 1.
    rewrite Hx. cbn [negb]. unfold modify at 1.
    rewrite IH; [reflexivity | exact Hrest | exact Hbad].
Qed.

End FinalStates.

(** C10. [setFinalStates] is not atomic: when the first name that is not a
    state comes after [pre], the call throws for that name and leaves in
    [finalStates] exactly the (trimmed) names of [pre], whatever the set held
    before; nothing else of the automaton changes. *)
Theorem setFinalStates_not_atomic :
  forall (A : FiniteAutomaton.t) (pre : list jsstring) (bad : jsstring)
         (post : list jsstring),
    Forall (fun s => has (trim s) (FiniteAutomaton.states A) = true) pre ->
    has (trim bad) (FiniteAutomaton.states A) = false ->
    exists A',
      FiniteAutomaton.setFinalStates (pre ++ bad :: post) A =
        (Throw (FinalStateUnknown (trim bad)), A', []) /\
      A' = FiniteAutomaton.with_finalStates (Inv.added pre []) A /\
      (forall x, In x (FiniteAutomaton.finalStates A') <->
                 In x (List.map trim pre)).
Proof.
  intros A pre bad post Hpre Hbad.
  exists (FiniteAutomaton.with_finalStates (Inv.added pre []) A).
  split; [|split; [reflexivity|]].
  - unfold FiniteAutomaton.setFinalStates.
    unfold bind at 1, modify at 1.
    rewrite setFinalStates_loop; [reflexivity | exact Hpre | exact Hbad].
  - intros x. simpl. rewrite In_added. simpl. tauto.
Qed.

(** The previous final states [q1] are gone after a call that adds [q0]
    and then meets the unknown [zz]. *)
Lemma setFinalStates_not_atomic_witness :
  exists A',
    FiniteAutomaton.setFinalStates
      ([lit " q0 "] ++ lit "zz" :: [lit "q1"])
      (FiniteAutomaton.mk (lit "X") [lit "q0"; lit "q1"] [] None
                          [lit "q1"] [] None []) =
      (Throw (FinalStateUnknown (trim (lit "zz"))), A', []) /\
    A' = FiniteAutomaton.with_finalStates (Inv.added [lit " q0 "] [])
           (FiniteAutomaton.mk (lit "X") [lit "q0"; lit "q1"] [] None
                               [lit "q1"] [] None []) /\
    (forall x, In x (FiniteAutomaton.finalStates A') <->
               In x (List.map trim [lit " q0 "])).
Proof.
  apply (setFinalStates_not_atomic
           (FiniteAutomaton.mk (lit "X") [lit "q0"; lit "q1"] [] None
                               [lit "q1"] [] None [])
           [lit " q0 "] (lit "zz") [lit "q1"]).
  - repeat constructor.
  - reflexivity.
Defined.

(* ===================================================================== *)
(** ** RegularGrammar.validate                                            *)
(* ===================================================================== *)

Section GrammarValidation.

Import RegularGrammar.

Lemma production_errors_sound (G : t) (nt rhs : jsstring) :
  Spec.rhs_valid G rhs = true <-> production_errors G nt rhs = [].
Proof.
  unfold Spec.rhs_valid, production_errors.
  destruct rhs as [|a [|b [|c r]]]; simpl.
  - tauto.
  - destruct (N.eqb a 949); simpl; [tauto|].
    destruct (has [a] (terminals G)); simpl; split; congruence.
  - rewrite andb_false_r. simpl.
    destruct (has [a] (terminals G)), (has [b] (nonTerminals G)); simpl;
      split; congruence.
  - rewrite !andb_false_r. simpl. split; congruence.
Qed.



(** [isValid] is [errors.length === 0]. *)
Lemma isValid_errors (G : t) :
  isValid (validate G) = true <-> errors (validate G) = [].
Proof.
  unfold validate. cbn [isValid errors].
  rewrite Nat.eqb_eq. apply length_zero_iff_nil.
Qed.

End GrammarValidation.



(** The cases of section 8: [A->abc] is the one error; [A->epsilon],
    [A->a] and [A->aB] are valid. *)
Example validate_shapes :
  RegularGrammar.errors (RegularGrammar.validate Examples.shapes) =
    [RegularGrammar.NotRegular (lit "A") (lit "abc")] /\
  List.map (Spec.rhs_valid Examples.shapes)
           [epsilon; lit "a"; lit "aB"; lit "abc"] =
    [true; true; true; false].
Proof. split; reflexivity. Qed.

(** Without a high surrogate, the code points are the code units, and the
    two classifications agree. *)
Lemma code_points_units (s : jsstring) :
  forallb (fun c => negb (Spec.is_high c)) s = true ->
  Spec.code_points s = List.map (fun c => [c]) s.
Proof.
  induction s as [|c s IH]; intros H; [reflexivity|].
  simpl in H. apply andb_true_iff in H as [Hc Hs].
  apply negb_true_iff in Hc. cbn [Spec.code_points].
  destruct s as [|d s']; [reflexivity|].
  rewrite Hc. cbn [andb]. now rewrite (IH Hs).
Qed.

Lemma rhs_valid_by_points_units (G : RegularGrammar.t) (rhs : jsstring) :
  forallb (fun c => negb (Spec.is_high c)) rhs = true ->
  Spec.rhs_valid_by_points G rhs = Spec.rhs_valid G rhs.
Proof.
  intros H. unfold Spec.rhs_valid_by_points, Spec.rhs_valid.
  rewrite (code_points_units rhs H).
  destruct (eqb rhs epsilon || eqb rhs []); [reflexivity|].
  now destruct rhs as [|a [|b [|c r]]].
Qed.


(** A grammar is valid exactly when its four parts are there and every
    stored right-hand side is of one of the three shapes. *)
Lemma validate_isValid (G : RegularGrammar.t) :
  RegularGrammar.isValid (RegularGrammar.validate G) = true <->
  RegularGrammar.nonTerminals G <> [] /\
  RegularGrammar.terminals G <> [] /\
  truthy (RegularGrammar.startSymbol G) = true /\
  RegularGrammar.productions G <> [] /\
  (forall nt rights rhs,
      In (nt, rights) (RegularGrammar.productions G) -> In rhs rights ->
      Spec.rhs_valid G rhs = true).
Proof.
  rewrite isValid_errors. unfold RegularGrammar.validate.
  cbn [RegularGrammar.errors]. split.
  - intros H.
    apply app_eq_nil in H as [H1 H]. apply app_eq_nil in H as [H2 H].
    apply app_eq_nil in H as [H3 H]. apply app_eq_nil in H as [H4 H].
    repeat split.
    + intros E. rewrite E in H1. discriminate.
    + intros E. rewrite E in H2. discriminate.
    + destruct (truthy (RegularGrammar.startSymbol G));
        [reflexivity | discriminate].
    + intros E. rewrite E in H4. discriminate.
    + intros nt rights rhs Hnt Hrhs.
      apply (production_errors_sound G nt).
      destruct (RegularGrammar.production_errors G nt rhs) as [|e es] eqn:P;
        [reflexivity|].
      assert (In e []) as [].
      rewrite <- H. apply in_flat_map. exists (nt, rights).
      split; [exact Hnt|]. apply in_flat_map. exists rhs.
      split; [exact Hrhs|]. rewrite P. now left.
  - intros (H1 & H2 & H3 & H4 & H).
    destruct (RegularGrammar.nonTerminals G); [congruence|].
    destruct (RegularGrammar.terminals G); [congruence|].
    rewrite H3.
    destruct (RegularGrammar.productions G) as [|p ps] eqn:E; [congruence|].
    simpl length. cbn [Nat.eqb negb app].
    rewrite <- E in *.
    destruct (flat_map _ _) as [|e es] eqn:F; [reflexivity|].
    assert (In e (e :: es)) as Hin by now left.
    rewrite <- F in Hin. apply in_flat_map in Hin as ([nt rights] & Hnt & Hin).
    apply in_flat_map in Hin as (rhs & Hrhs & Hin).
    pose proof (H nt rights rhs Hnt Hrhs) as Hv.
    apply (production_errors_sound G nt) in Hv.
    rewrite Hv in Hin. destruct Hin.
Qed.

(* ===================================================================== *)
(** ** reset, processSymbol, recognizeWord                                *)
(* ===================================================================== *)

Section Recognition.

Import FiniteAutomaton.

Lemma same_definition_refl (A : t) : Inv.same_definition A A.
Proof. repeat split. Qed.

Lemma same_definition_trans (A B C : t) :
  Inv.same_definition A B -> Inv.same_definition B C ->
  Inv.same_definition A C.
Proof.
  unfold Inv.same_definition. intros (?&?&?&?&?&?) (?&?&?&?&?&?).
  repeat split; congruence.
Qed.

Lemma reset_run (A : t) : reset A = (Ok tt, Exec.restarted A, []).
Proof.
  unfold reset, Exec.restarted. run.
  destruct (initialState A) as [[|c q]|]; reflexivity.
Qed.

Lemma restarted_same (A B : t) :
  Inv.same_definition A B -> Exec.restarted A = Exec.restarted B.
Proof.
  destruct A, B. unfold Inv.same_definition, Exec.restarted. simpl.
  intros (?&?&?&?&?&?). subst. reflexivity.
Qed.

Lemma restarted_definition (A : t) :
  Inv.same_definition (Exec.restarted A) A.
Proof. repeat split. Qed.

Lemma moved_definition (A : t) (s p : jsstring) :
  Inv.same_definition (Exec.moved A s p) A.
Proof. repeat split. Qed.

(** [processSymbol], case by case. *)
Lemma processSymbol_run (s : jsstring) (A : t) :
  processSymbol s A =
  match currentState A with
  | Some (c :: q) =>
      if has s (alphabet A)
      then match Spec.target A (c :: q) s with
           | Some p => (Ok true, Exec.moved A s p, [])
           | None => (Ok false, A, [])
           end
      else (Ok false, A, [])
  | _ => (Throw NotInitialized, A, [])
  end.
Proof.
  unfold processSymbol, Spec.target. run.
  destruct (currentState A) as [[|c q]|]; try reflexivity.
  destruct (has s (alphabet A)); simpl; [|reflexivity].
  destruct (map_get (c :: q) (transitions A)) as [row|]; [|reflexivity].
  destruct (map_get s row); reflexivity.
Qed.

(** The loop returns or throws, writes nothing to the console, and
    leaves the definition of the automaton alone. *)
Lemma consume_shape (w : jsstring) (A : t) :
  exists r A', consume w A = (r, A', []) /\ Inv.same_definition A' A.
Proof.
  revert A. induction w as [|c w IH]; intros A; simpl.
  - exists (Ok None), A. split; [reflexivity | apply same_definition_refl].
  - unfold bind. rewrite processSymbol_run.
    destruct (currentState A) as [[|c0 q]|];
      try (eexists _, A; split; [reflexivity | apply same_definition_refl]).
    destruct (has [c] (alphabet A));
      [|eexists _, A; split; [reflexivity | apply same_definition_refl]].
    destruct (Spec.target A (c0 :: q) [c]) as [p|];
      [|eexists _, A; split; [reflexivity | apply same_definition_refl]].
    destruct (IH (Exec.moved A [c] p)) as (r & A' & E & D).
    rewrite E. exists r, A'. split; [reflexivity|].
    eapply same_definition_trans; [exact D | apply moved_definition].
Qed.

(** [recognizeWord] is a function of the automaton as [reset()] leaves
    it; it always returns. *)
Lemma recognizeWord_shape (w : jsstring) (A : t) :
  exists r A',
    recognizeWord w A = (Ok r, A', []) /\ Inv.same_definition A' A.
Proof.
  unfold recognizeWord. unfold bind at 1. rewrite reset_run.
  unfold try_catch, bind.
  destruct (consume_shape w (Exec.restarted A)) as (r & A' & E & D).
  rewrite E.
  assert (Inv.same_definition A' A) as D'
      by (eapply same_definition_trans; [exact D | apply restarted_definition]).
  destruct r as [[symbol|]|e]; run; eexists _, A'; split;
    try reflexivity; exact D'.
Qed.

Lemma recognizeWord_same (w : jsstring) (A B : t) :
  Inv.same_definition A B -> recognizeWord w A = recognizeWord w B.
Proof.
  intros D. unfold recognizeWord.
  rewrite (bind_ok reset _ A _ _ _ (reset_run A)).
  rewrite (bind_ok reset _ B _ _ _ (reset_run B)).
  now rewrite (restarted_same A B D).
Qed.

End Recognition.

(** C4. [recognizeWord] always returns a result, writes nothing to the
    console and changes nothing of the automaton but its execution state;
    a second call with the same word returns the same result and leaves
    the automaton exactly as the first call left it. *)
Theorem recognizeWord_idempotent :
  forall (A : FiniteAutomaton.t) (w : jsstring),
  exists (r : FiniteAutomaton.Result) (A1 : FiniteAutomaton.t),
    FiniteAutomaton.recognizeWord w A = (Ok r, A1, []) /\
    FiniteAutomaton.recognizeWord w A1 = (Ok r, A1, []) /\
    Inv.same_definition A1 A.
Proof.
  intros A w.
  destruct (recognizeWord_shape w A) as (r & A1 & E & D).
  exists r, A1. split; [exact E|]. split; [|exact D].
  rewrite (recognizeWord_same w A1 A D). exact E.
Qed.

(* ===================================================================== *)
(** ** recognizeWord against manual table walking                         *)
(* ===================================================================== *)

Section TableWalk.

Import FiniteAutomaton.

Lemma target_In (A : t) (q a p : jsstring) :
  Spec.target A q a = Some p ->
  In (mkTransition q a p) (getTransitionsArray A).
Proof.
  unfold Spec.target, getTransitionsArray.
  destruct (map_get q (transitions A)) as [row|] eqn:R; [|discriminate].
  intros Hp. apply in_flat_map. exists (q, row).
  split; [now apply map_get_In|].
  apply in_map_iff. exists (a, p). split; [reflexivity|].
  now apply map_get_In.
Qed.

Lemma target_nonempty (A : t) (q a p : jsstring) :
  Inv.targets_nonempty A = true -> Spec.target A q a = Some p -> p <> [].
Proof.
  intros H T. apply target_In in T.
  unfold Inv.targets_nonempty in H. rewrite forallb_forall in H.
  specialize (H _ T). simpl in H. intros ->. discriminate.
Qed.

Lemma walk_ext (A B : t) (q w : jsstring) :
  Inv.same_definition A B -> Spec.walk A q w = Spec.walk B q w.
Proof.
  intros (_ & _ & Ha & _ & _ & Ht). revert q.
  induction w as [|c w IH]; intros q; simpl; [reflexivity|].
  unfold Spec.target. rewrite Ha, Ht.
  destruct (has [c] (alphabet B)); [|reflexivity].
  destruct (map_get q (transitions B)) as [row|]; [|reflexivity].
  destruct (map_get [c] row); [apply IH | reflexivity].
Qed.

(** From a state with a name, over targets that all have one, the loop
    does what the table walk does. *)
Lemma consume_walk (w : jsstring) :
  forall (A : t) (q : jsstring),
    Inv.targets_nonempty A = true ->
    currentState A = Some q -> q <> [] ->
    exists A',
      Inv.same_definition A' A /\
      match Spec.walk A q w with
      | Some q' => consume w A = (Ok None, A', []) /\
                   currentState A' = Some q'
      | None => exists symbol, consume w A = (Ok (Some symbol), A', [])
      end.
Proof.
  induction w as [|c w IH]; intros A q Hne Hcur Hq; simpl.
  - exists A. split; [apply same_definition_refl|]. now split.
  - unfold bind. rewrite processSymbol_run, Hcur.
    destruct q as [|c0 q0]; [congruence|].
    destruct (has [c] (alphabet A));
      [|exists A; split; [apply same_definition_refl | now exists [c]]].
    destruct (Spec.target A (c0 :: q0) [c]) as [p|] eqn:T;
      [|exists A; split; [apply same_definition_refl | now exists [c]]].
    pose proof (target_nonempty _ _ _ _ Hne T) as Hp.
    destruct (IH (Exec.moved A [c] p) p Hne eq_refl Hp) as (A' & D & H).
    exists A'. split.
    + eapply same_definition_trans; [exact D | apply moved_definition].
    + rewrite (walk_ext _ A p w (moved_definition A [c] p)) in H.
      destruct (Spec.walk A p w) as [q'|].
      * destruct H as [E C]. now rewrite E.
      * destruct H as [symbol E]. exists symbol. now rewrite E.
Qed.

(** Where no state on the way is named by the empty string, the verdict
    of [recognizeWord] is the one of the table walk. *)
Lemma recognizeWord_accepts_walk (A : t) (w : jsstring) :
  truthy (initialState A) = true ->
  Inv.targets_nonempty A = true ->
  exists r A',
    recognizeWord w A = (Ok r, A', []) /\ accepted r = Spec.accepts A w.
Proof.
  intros Hinit Hne. unfold recognizeWord, Spec.accepts.
  rewrite (bind_ok reset _ A _ _ _ (reset_run A)).
  destruct (initialState A) as [[|c q]|] eqn:I; try discriminate.
  destruct (consume_walk w (Exec.restarted A) (c :: q)) as (A' & D & H).
  - exact Hne.
  - unfold Exec.restarted. simpl. exact I.
  - discriminate.
  - rewrite (walk_ext _ A (c :: q) w (restarted_definition A)) in H.
    unfold try_catch, bind.
    destruct (Spec.walk A (c :: q) w) as [q'|].
    + destruct H as [E C]. rewrite E. run. rewrite C.
      eexists _, A'. split; [reflexivity|]. simpl.
      destruct D as (_ & _ & _ & _ & F & _). simpl in F. now rewrite F.
    + destruct H as [symbol E]. rewrite E. run.
      eexists _, A'. split; reflexivity.
Qed.

End TableWalk.

(** C3, at the input where it fails.  The file [fileE] declares the states
    [q] and the empty string, with [q --a--> ""] and ["" --a--> ""], [""]
    final.  Walking the table over [aa] from [q] consumes both symbols and
    ends in the final state; [recognizeWord] rejects the word, because
    [processSymbol] takes the current state [""] for a missing [reset()]. *)
Theorem recognizeWord_rejects_through_empty_name :
  exists A : FiniteAutomaton.t,
    Api.load Examples.fileE (lit "E") = Some A /\
    truthy (FiniteAutomaton.initialState A) = true /\
    Spec.walk A (lit "q") (lit "aa") = Some [] /\
    has [] (FiniteAutomaton.finalStates A) = true /\
    Spec.accepts A (lit "aa") = true /\
    exists r A',
      FiniteAutomaton.recognizeWord (lit "aa") A = (Ok r, A', []) /\
      FiniteAutomaton.accepted r = false /\
      FiniteAutomaton.error r =
        Some (FiniteAutomaton.Caught NotInitialized).
Proof.
  eexists. split; [vm_compute; reflexivity|].
  repeat split; try (vm_compute; reflexivity).
  eexists _, _. split; [vm_compute; reflexivity|].
  split; reflexivity.
Qed.

(* ===================================================================== *)
(** ** trim                                                               *)
(* ===================================================================== *)

Section Trim.

Lemma starts_ok_trimStart (s : jsstring) :
  Inv.starts_ok (trimStart s) = true.
Proof.
  induction s as [|c s IH]; simpl; [reflexivity|].
  destruct (is_ws c) eqn:E; [exact IH|]. simpl. now rewrite E.
Qed.

Lemma trimStart_keeps (x y : jsstring) (c : N) :
  is_ws c = false -> exists x', trimStart (x ++ c :: y) = x' ++ c :: y.
Proof.
  intros Hc. induction x as [|d x IH]; simpl.
  - exists []. now rewrite Hc.
  - destruct (is_ws d); [exact IH|]. now exists (d :: x).
Qed.

Lemma trimStart_fixed (s : jsstring) :
  Inv.starts_ok s = true -> trimStart s = s.
Proof.
  destruct s as [|c s]; simpl; [reflexivity|].
  now destruct (is_ws c).
Qed.

Lemma trimmed_trim (s : jsstring) : Inv.trimmed (trim s) = true.
Proof.
  unfold Inv.trimmed, trim, trimEnd. rewrite rev_involutive.
  rewrite starts_ok_trimStart, andb_true_r.
  pose proof (starts_ok_trimStart s) as H.
  destruct (trimStart s) as [|c u]; [reflexivity|].
  simpl in H. apply negb_true_iff in H.
  simpl rev. destruct (trimStart_keeps (rev u) [] c H) as [x' E].
  rewrite E, rev_app_distr. simpl. now rewrite H.
Qed.

Lemma trim_fixed (s : jsstring) : Inv.trimmed s = true -> trim s = s.
Proof.
  unfold Inv.trimmed, trim, trimEnd. intros H.
  apply andb_true_iff in H as [H1 H2].
  rewrite (trimStart_fixed s H1), (trimStart_fixed (rev s) H2).
  apply rev_involutive.
Qed.

Lemma starts_ok_app (a b : jsstring) :
  Inv.starts_ok a = true -> Inv.starts_ok b = true ->
  Inv.starts_ok (a ++ b) = true.
Proof. destruct a; simpl; auto. Qed.

Lemma trimmed_app (x y : jsstring) :
  Inv.trimmed x = true -> Inv.trimmed y = true ->
  Inv.trimmed (x ++ y) = true.
Proof.
  unfold Inv.trimmed. intros Hx Hy.
  apply andb_true_iff in Hx as [Hx1 Hx2].
  apply andb_true_iff in Hy as [Hy1 Hy2].
  rewrite rev_app_distr. rewrite !starts_ok_app by assumption.
  reflexivity.
Qed.

End Trim.

(* ===================================================================== *)
(** ** The setters that replace a set                                     *)
(* ===================================================================== *)

Section ReplaceSet.

(** [this.field.clear(); names.forEach(x => this.field.add(x.trim()))]
    for a field read by [field] and assigned by [assign]. *)
Context {Obj : Type}.
Variable field : Obj -> list jsstring.
Variable assign : list jsstring -> Obj -> Obj.
Hypothesis field_assign : forall v s, field (assign v s) = v.
Hypothesis assign_assign : forall v v' s, assign v (assign v' s) = assign v s.

Lemma replace_loop (names acc : list jsstring) (s : Obj) :
  fold_left (fun s x => assign (add (trim x) (field s)) s) names
            (assign acc s) =
  assign (Inv.added names acc) s.
Proof.
  revert acc. induction names as [|x names IH]; intros acc; simpl.
  - reflexivity.
  - rewrite field_assign, assign_assign. apply IH.
Qed.

Lemma replace_run (names : list jsstring) (s : Obj) :
  (modify (assign []) ;;
   forEach (fun x => modify (fun s => assign (add (trim x) (field s)) s))
           names) s =
  (Ok tt, assign (Inv.added names []) s, []).
Proof.
  unfold bind at 1, modify at 1.
  rewrite (forEach_modify (fun x s => assign (add (trim x) (field s)) s)).
  now rewrite replace_loop.
Qed.

End ReplaceSet.

Lemma setStates_run (names : list jsstring) (A : FiniteAutomaton.t) :
  FiniteAutomaton.setStates names A =
  (Ok tt, FiniteAutomaton.with_states (Inv.added names []) A, []).
Proof.
  apply (replace_run FiniteAutomaton.states FiniteAutomaton.with_states);
    reflexivity.
Qed.

Lemma setAlphabet_run (symbols : list jsstring) (A : FiniteAutomaton.t) :
  FiniteAutomaton.setAlphabet symbols A =
  (Ok tt, FiniteAutomaton.with_alphabet (Inv.added symbols []) A, []).
Proof.
  apply (replace_run FiniteAutomaton.alphabet FiniteAutomaton.with_alphabet);
    reflexivity.
Qed.

Lemma setNonTerminals_run (symbols : list jsstring) (G : RegularGrammar.t) :
  RegularGrammar.setNonTerminals symbols G =
  (Ok tt, RegularGrammar.with_nonTerminals (Inv.added symbols []) G, []).
Proof.
  apply (replace_run RegularGrammar.nonTerminals
                     RegularGrammar.with_nonTerminals); reflexivity.
Qed.

Lemma setTerminals_run (symbols : list jsstring) (G : RegularGrammar.t) :
  RegularGrammar.setTerminals symbols G =
  (Ok tt, RegularGrammar.with_terminals (Inv.added symbols []) G, []).
Proof.
  apply (replace_run RegularGrammar.terminals RegularGrammar.with_terminals);
    reflexivity.
Qed.

Section SetInvariant.

Lemma has_false_cons (x y : jsstring) (s : list jsstring) :
  has x (y :: s) = false -> eqb x y = false /\ has x s = false.
Proof. unfold has. simpl. apply orb_false_iff. Qed.

Lemma set_ok_snoc (s : list jsstring) (x : jsstring) :
  Inv.set_ok s = true -> has x s = false -> Inv.trimmed x = true ->
  Inv.set_ok (s ++ [x]) = true.
Proof.
  intros Hs Hx Ht. induction s as [|y s IH]; simpl.
  - now rewrite Ht.
  - simpl in Hs. apply andb_true_iff in Hs as [Hs Hrest].
    apply andb_true_iff in Hs as [Hy Hty].
    apply has_false_cons in Hx as [Hxy Hxs].
    rewrite has_app, Hty, (IH Hrest Hxs). apply negb_true_iff in Hy.
    rewrite Hy. unfold has at 1. simpl. rewrite eqb_sym, Hxy. reflexivity.
Qed.

Lemma set_ok_added (names acc : list jsstring) :
  Inv.set_ok acc = true -> Inv.set_ok (Inv.added names acc) = true.
Proof.
  revert acc. induction names as [|x names IH]; intros acc Hacc;
    [exact Hacc|].
  unfold Inv.added in *. simpl. apply IH. unfold add.
  destruct (has (trim x) acc) eqn:E; [exact Hacc|].
  apply set_ok_snoc; [exact Hacc | exact E | apply trimmed_trim].
Qed.

(** A set that is in order is rebuilt as it is. *)
Lemma added_fixed (s acc : list jsstring) :
  Inv.set_ok (acc ++ s) = true -> Inv.added s acc = acc ++ s.
Proof.
  revert acc. induction s as [|x s IH]; intros acc H; simpl.
  - now rewrite app_nil_r.
  - unfold Inv.added in *. simpl.
    assert (Inv.trimmed x = true /\ has x acc = false) as [Ht Hx].
    { clear IH. induction acc as [|y acc IHacc]; simpl in H.
      - apply andb_true_iff in H as [H _].
        apply andb_true_iff in H as [_ H]. now split.
      - apply andb_true_iff in H as [H Hrest].
        apply andb_true_iff in H as [Hy _]. apply negb_true_iff in Hy.
        rewrite has_app in Hy. apply orb_false_iff in Hy as [_ Hy].
        apply has_false_cons in Hy as [Hyx _].
        destruct (IHacc Hrest) as [Ht Hx]. split; [exact Ht|].
        unfold has. simpl. rewrite eqb_sym, Hyx. exact Hx. }
    rewrite (trim_fixed x Ht). unfold add. rewrite Hx.
    replace (acc ++ x :: s) with ((acc ++ [x]) ++ s) in *
      by (rewrite <- app_assoc; reflexivity).
    now apply IH.
Qed.

End SetInvariant.

(* ===================================================================== *)
(** ** addTransition and the determinism invariant                        *)
(* ===================================================================== *)

Section Determinism.

Import FiniteAutomaton.

Lemma map_set_set {V : Type} (k : jsstring) (v v' : V)
  (m : list (jsstring * V)) :
  map_set k v (map_set k v' m) = map_set k v m.
Proof.
  induction m as [|[k0 v0] m IH]; simpl.
  - now rewrite eqb_refl.
  - destruct (eqb k k0) eqn:E; simpl; rewrite E; [reflexivity|].
    now rewrite IH.
Qed.

(** [addTransition], case by case. *)
Lemma addTransition_run (f s t : jsstring) (A : FiniteAutomaton.t) :
  addTransition f s t A =
  if negb (has (trim f) (states A))
  then (Throw (FromStateUnknown (trim f)), A, [])
  else if negb (has (trim t) (states A))
  then (Throw (ToStateUnknown (trim t)), A, [])
  else if negb (has (trim s) (alphabet A))
  then (Throw (SymbolUnknown (trim s)), A, [])
  else (Ok tt, Exec.registered A (trim f) (trim s) (trim t),
        match Spec.target A (trim f) (trim s) with
        | Some old => [Overwrite (trim f) (trim s) old (trim t)]
        | None => []
        end).
Proof.
  unfold addTransition, Exec.registered, Exec.row_of, Spec.target. run.
  destruct (has (trim f) (states A)); simpl; [|reflexivity].
  destruct (has (trim t) (states A)); simpl; [|reflexivity].
  destruct (has (trim s) (alphabet A)); simpl; [|reflexivity].
  unfold map_has.
  destruct (map_get (trim f) (transitions A)) as [row|] eqn:R; simpl.
  - rewrite R. destruct (map_get (trim s) row); reflexivity.
  - rewrite map_get_set_same. simpl. now rewrite map_set_set.
Qed.

Lemma forallb_map_set {V : Type} (P : jsstring * V -> bool) (k : jsstring)
  (v : V) (m : list (jsstring * V)) :
  forallb P m = true -> (forall k', k = k' -> P (k', v) = true) ->
  forallb P (map_set k v m) = true.
Proof.
  intros Hm Hv. induction m as [|[k0 v0] m IH]; simpl.
  - now rewrite (Hv k eq_refl).
  - simpl in Hm. apply andb_true_iff in Hm as [H0 Hm].
    destruct (eqb k k0) eqn:E; simpl.
    + apply eqb_eq in E. now rewrite (Hv k0 E), Hm.
    + now rewrite H0, IH.
Qed.

Lemma row_of_ok (A : t) (q : jsstring) :
  Inv.wf A = true -> Inv.row_ok (Exec.row_of A q) = true.
Proof.
  unfold Inv.wf, Exec.row_of. intros H.
  apply andb_true_iff in H as [_ H].
  destruct (map_get q (transitions A)) as [row|] eqn:R; [|reflexivity].
  apply map_get_In in R. rewrite forallb_forall in H.
  specialize (H _ R). simpl in H. now apply andb_true_iff in H as [_ H].
Qed.

Lemma wf_registered (A : t) (q a p : jsstring) :
  Inv.wf A = true ->
  Inv.trimmed q = true -> Inv.trimmed a = true -> Inv.trimmed p = true ->
  Inv.wf (Exec.registered A q a p) = true.
Proof.
  intros H Hq Ha Hp. pose proof (row_of_ok A q H) as Hrow.
  unfold Inv.wf in *. simpl.
  apply andb_true_iff in H as [H Hall].
  apply andb_true_iff in H as [H Hkeys]. rewrite H. simpl.
  rewrite (keys_unique_set _ _ _ Hkeys). simpl.
  apply forallb_map_set; [exact Hall|]. intros k' <-. rewrite Hq. simpl.
  unfold Inv.row_ok in *. apply andb_true_iff in Hrow as [Hu Hf].
  rewrite (keys_unique_set _ _ _ Hu). simpl.
  apply forallb_map_set; [exact Hf|]. intros k' <-. now rewrite Ha, Hp.
Qed.

Lemma wf_new (name : jsstring) : Inv.wf (new name) = true.
Proof. reflexivity. Qed.

Lemma wf_same_definition (A B : t) :
  Inv.same_definition A B -> Inv.wf A = Inv.wf B.
Proof.
  intros (_ & Hs & Ha & _ & _ & Ht). unfold Inv.wf.
  now rewrite Hs, Ha, Ht.
Qed.

End Determinism.

Section Preservation.

Context {Obj : Type} (P : Obj -> Prop).

Lemma preserves_bind {A B : Type} (m : M Obj A) (k : A -> M Obj B) :
  Inv.preserves P m -> (forall a, Inv.preserves P (k a)) ->
  Inv.preserves P (bind m k).
Proof.
  intros Hm Hk s Hs. unfold bind. specialize (Hm s Hs).
  destruct (m s) as [[[a|e] s'] out]; simpl in *; [|exact Hm].
  specialize (Hk a s' Hm). now destruct (k a s') as [[r s''] out'].
Qed.

Lemma preserves_forEach {A : Type} (f : A -> M Obj unit) (l : list A) :
  (forall x, Inv.preserves P (f x)) -> Inv.preserves P (forEach f l).
Proof.
  intros Hf. induction l as [|x l IH]; simpl.
  - intros s Hs. exact Hs.
  - apply preserves_bind; [apply Hf | intros _; exact IH].
Qed.

Lemma preserves_get : Inv.preserves P (@get Obj).
Proof. intros s Hs. exact Hs. Qed.

Lemma preserves_throw {A : Type} (e : Error) : Inv.preserves P (@throw Obj A e).
Proof. intros s Hs. exact Hs. Qed.

Lemma preserves_modify (f : Obj -> Obj) :
  (forall s, P s -> P (f s)) -> Inv.preserves P (modify f).
Proof. intros Hf s Hs. simpl. now apply Hf. Qed.

End Preservation.

Section Interface.

Import FiniteAutomaton.

Lemma addTransition_wf (f s t : jsstring) :
  Inv.preserves Inv.in_order (addTransition f s t).
Proof.
  intros A H. rewrite addTransition_run.
  destruct (has (trim f) (states A)); simpl; [|exact H].
  destruct (has (trim t) (states A)); simpl; [|exact H].
  destruct (has (trim s) (alphabet A)); simpl; [|exact H].
  apply wf_registered; [exact H | apply trimmed_trim ..].
Qed.

Lemma setTransitions_wf (str : jsstring) :
  Inv.preserves Inv.in_order (setTransitions str).
Proof.
  apply preserves_forEach. intros x.
  destruct (split (lit ",") (trim x)) as [|a [|b [|c [|d l]]]];
    try apply preserves_throw.
  apply addTransition_wf.
Qed.

Lemma setFinalStates_wf (names : list jsstring) :
  Inv.preserves Inv.in_order (setFinalStates names).
Proof.
  apply preserves_bind; [apply preserves_modify; intros s Hs; exact Hs|].
  intros _. apply preserves_forEach. intros x.
  apply preserves_bind; [apply preserves_get|]. intros B.
  destruct (negb (has (trim x) (states B)));
    [apply preserves_throw | apply preserves_modify; intros s Hs; exact Hs].
Qed.

Lemma perform_wf (c : Api.Call) : Inv.preserves Inv.in_order (Api.perform c).
Proof.
  destruct c as [names|symbols|state|names|f s t|str|w| |symbol]; simpl.
  - intros A H. rewrite setStates_run. simpl. unfold Inv.in_order, Inv.wf in *.
    simpl. rewrite set_ok_added by reflexivity.
    apply andb_true_iff in H as [H H3]. apply andb_true_iff in H as [H H2].
    apply andb_true_iff in H as [_ H1]. now rewrite H1, H2, H3.
  - intros A H. rewrite setAlphabet_run. simpl. unfold Inv.in_order, Inv.wf in *.
    simpl. rewrite set_ok_added by reflexivity.
    apply andb_true_iff in H as [H H3]. apply andb_true_iff in H as [H H2].
    apply andb_true_iff in H as [H0 _]. now rewrite H0, H2, H3.
  - intros A H. unfold setInitialState. run.
    destruct (has (trim state) (states A)); exact H.
  - apply setFinalStates_wf.
  - apply addTransition_wf.
  - apply setTransitions_wf.
  - intros A H. unfold bind.
    destruct (recognizeWord_shape w A) as (r & A' & E & D). rewrite E.
    simpl. unfold Inv.in_order. now rewrite (wf_same_definition A' A D).
  - intros A H. rewrite reset_run. simpl. unfold Inv.in_order.
    now rewrite (wf_same_definition _ A (restarted_definition A)).
  - intros A H. unfold bind. rewrite processSymbol_run.
    destruct (currentState A) as [[|c q]|]; try exact H.
    destruct (has symbol (alphabet A)); [|exact H].
    destruct (Spec.target A (c :: q) symbol) as [p|]; [|exact H].
    simpl. unfold Inv.in_order.
    now rewrite (wf_same_definition _ A (moved_definition A symbol p)).
Qed.

(** Whatever the caller does, the automaton stays in order. *)
Lemma after_wf (calls : list Api.Call) (A : t) :
  Inv.wf A = true -> Inv.wf (Api.after calls A) = true.
Proof.
  revert A. induction calls as [|c calls IH]; intros A H; simpl;
    [exact H|].
  apply IH. apply (perform_wf c A H).
Qed.

End Interface.

Section Retrieval.

Import FiniteAutomaton.

Import Inv.

Lemma listed_absent (k q a : jsstring) (row : list (jsstring * jsstring)) :
  map_has a row = false -> filter (matches q a) (listed k row) = [].
Proof.
  unfold map_has. induction row as [|[a0 p0] row IH]; simpl;
    [reflexivity|].
  destruct (eqb a a0) eqn:E; [discriminate|]. intros H.
  unfold matches at 1. simpl. rewrite (eqb_sym a0 a), E, andb_false_r.
  now apply IH.
Qed.

Lemma listed_once (k q a : jsstring) (row : list (jsstring * jsstring)) :
  Inv.keys_unique row = true ->
  length (filter (matches q a) (listed k row)) <= 1.
Proof.
  induction row as [|[a0 p0] row IH]; simpl; [lia|].
  intros U. apply andb_true_iff in U as [Hfresh U].
  apply negb_true_iff in Hfresh.
  unfold matches at 1. simpl.
  destruct (eqb k q); simpl; [|now apply IH].
  destruct (eqb a0 a) eqn:E; [|now apply IH].
  apply eqb_eq in E. subst a0.
  fold (listed k row). rewrite (listed_absent k q a row Hfresh).
  simpl. lia.
Qed.

Lemma listed_other (k q a : jsstring) (row : list (jsstring * jsstring)) :
  eqb k q = false -> filter (matches q a) (listed k row) = [].
Proof.
  intros E. induction row as [|[a0 p0] row IH]; simpl; [reflexivity|].
  unfold matches at 1. simpl. now rewrite E.
Qed.

Lemma filter_flat_map {X Y : Type} (P : Y -> bool) (f : X -> list Y)
  (l : list X) :
  filter P (flat_map f l) = flat_map (fun x => filter P (f x)) l.
Proof.
  induction l as [|x l IH]; simpl; [reflexivity|].
  now rewrite filter_app, IH.
Qed.

Lemma table_absent (q a : jsstring)
  (T : list (jsstring * list (jsstring * jsstring))) :
  map_has q T = false ->
  flat_map (fun x => filter (matches q a) (let '(k, row) := x in listed k row))
           T = [].
Proof.
  unfold map_has. induction T as [|[k row] T IH]; simpl; [reflexivity|].
  destruct (eqb q k) eqn:E; [discriminate|]. intros H.
  rewrite listed_other by (now rewrite eqb_sym). now apply IH.
Qed.

Lemma table_once (q a : jsstring)
  (T : list (jsstring * list (jsstring * jsstring))) :
  Inv.keys_unique T = true ->
  forallb (fun '(k, row) => Inv.trimmed k && Inv.row_ok row) T = true ->
  length (flat_map (fun x => filter (matches q a)
                               (let '(k, row) := x in listed k row)) T) <= 1.
Proof.
  induction T as [|[k row] T IH]; simpl; [lia|].
  intros U F. apply andb_true_iff in U as [Hfresh U].
  apply negb_true_iff in Hfresh.
  apply andb_true_iff in F as [Hrow F].
  apply andb_true_iff in Hrow as [_ Hrow].
  apply andb_true_iff in Hrow as [Hrow _].
  rewrite length_app. destruct (eqb k q) eqn:E.
  - apply eqb_eq in E. subst k. rewrite (table_absent q a T Hfresh).
    pose proof (listed_once q q a row Hrow). simpl. lia.
  - rewrite (listed_other k q a row E). simpl. now apply IH.
Qed.

(** At most one entry of [getTransitionsArray] for a pair. *)
Lemma entries_once (A : t) (q a : jsstring) :
  Inv.wf A = true -> length (Inv.entries A q a) <= 1.
Proof.
  unfold Inv.wf, Inv.entries, getTransitionsArray. intros H.
  apply andb_true_iff in H as [H F]. apply andb_true_iff in H as [_ U].
  rewrite filter_flat_map.
  exact (table_once q a (transitions A) U F).
Qed.

(** The entries listed are the targets the table gives. *)
Lemma In_target (A : t) (q a p : jsstring) :
  Inv.wf A = true ->
  In (mkTransition q a p) (getTransitionsArray A) ->
  Spec.target A q a = Some p.
Proof.
  unfold Inv.wf, getTransitionsArray, Spec.target. intros H Hin.
  apply andb_true_iff in H as [H F]. apply andb_true_iff in H as [_ U].
  apply in_flat_map in Hin as ([k row] & Hrow & Hin).
  apply in_map_iff in Hin as ([a' p'] & [= -> -> ->] & Hin).
  rewrite forallb_forall in F. specialize (F _ Hrow). simpl in F.
  apply andb_true_iff in F as [_ F]. apply andb_true_iff in F as [Urow _].
  apply (keys_unique_In _ _ _ U) in Hrow. rewrite Hrow.
  now apply (keys_unique_In _ _ _ Urow).
Qed.

Lemma target_registered_same (A : t) (q a p : jsstring) :
  Spec.target (Exec.registered A q a p) q a = Some p.
Proof.
  unfold Spec.target, Exec.registered. simpl.
  now rewrite !map_get_set_same.
Qed.

Lemma target_registered_other (A : t) (q a p q' a' : jsstring) :
  q' <> q \/ a' <> a ->
  Spec.target (Exec.registered A q a p) q' a' = Spec.target A q' a'.
Proof.
  unfold Spec.target, Exec.registered, Exec.row_of. simpl. intros H.
  destruct (eqb q' q) eqn:E.
  - apply eqb_eq in E. subst q'. rewrite map_get_set_same.
    destruct H as [H | H]; [congruence|].
    rewrite map_get_set_other by congruence.
    now destruct (map_get q (transitions A)).
  - apply eqb_neq in E. now rewrite map_get_set_other by congruence.
Qed.

End Retrieval.

(** C5. In an automaton built from a new one by any calls of its methods,
    [getTransitionsArray] has at most one entry for every pair of a state
    and a symbol, and the entries are the targets the table gives.  An
    [addTransition] for a pair that already has a target returns normally,
    writes one warning naming the old and the new target, makes the new
    target the one retrieved, and leaves every other pair alone. *)
Theorem addTransition_deterministic :
  forall (name : jsstring) (calls : list Api.Call),
    let A := Api.after calls (FiniteAutomaton.new name) in
    (forall q a, length (Inv.entries A q a) <= 1) /\
    (forall q a p,
        In (FiniteAutomaton.mkTransition q a p)
           (FiniteAutomaton.getTransitionsArray A) <->
        Spec.target A q a = Some p) /\
    (forall f s t old,
        has (trim f) (FiniteAutomaton.states A) = true ->
        has (trim t) (FiniteAutomaton.states A) = true ->
        has (trim s) (FiniteAutomaton.alphabet A) = true ->
        Spec.target A (trim f) (trim s) = Some old ->
        let A' := Exec.registered A (trim f) (trim s) (trim t) in
        FiniteAutomaton.addTransition f s t A =
          (Ok tt, A', [Overwrite (trim f) (trim s) old (trim t)]) /\
        Spec.target A' (trim f) (trim s) = Some (trim t) /\
        (forall q a, q <> trim f \/ a <> trim s ->
                     Spec.target A' q a = Spec.target A q a) /\
        (forall q a, length (Inv.entries A' q a) <= 1)).
Proof.
  intros name calls A.
  assert (Inv.wf A = true) as W by (apply after_wf, wf_new).
  split; [|split].
  - intros q a. now apply entries_once.
  - intros q a p. split; [now apply In_target | apply target_In].
  - intros f s t old Hf Ht Hs Hold A'. repeat split.
    + rewrite addTransition_run, Hf, Ht, Hs, Hold. reflexivity.
    + apply target_registered_same.
    + intros q a H. now apply target_registered_other.
    + intros q a. apply entries_once.
      apply wf_registered; [exact W | apply trimmed_trim ..].
Qed.

(** [q0 --a--> q1] registered, then [q0 --a--> q0]. *)
Lemma addTransition_deterministic_witness :
  FiniteAutomaton.addTransition (lit "q0") (lit " a") (lit "q0")
                                Examples.oneTransition =
    (Ok tt,
     Exec.registered Examples.oneTransition (trim (lit "q0"))
                     (trim (lit " a")) (trim (lit "q0")),
     [Overwrite (trim (lit "q0")) (trim (lit " a")) (lit "q1")
                (trim (lit "q0"))]) /\
  Spec.target (Exec.registered Examples.oneTransition (trim (lit "q0"))
                               (trim (lit " a")) (trim (lit "q0")))
              (trim (lit "q0")) (trim (lit " a")) = Some (trim (lit "q0")) /\
  (forall q a, q <> trim (lit "q0") \/ a <> trim (lit " a") ->
               Spec.target (Exec.registered Examples.oneTransition
                              (trim (lit "q0")) (trim (lit " a"))
                              (trim (lit "q0"))) q a =
               Spec.target Examples.oneTransition q a) /\
  (forall q a,
      length (Inv.entries (Exec.registered Examples.oneTransition
                             (trim (lit "q0")) (trim (lit " a"))
                             (trim (lit "q0"))) q a) <= 1).
Proof.
  apply (proj2 (proj2 (addTransition_deterministic
                         (lit "X")
                         [Api.SetStates [lit "q0"; lit "q1"];
                          Api.SetAlphabet [lit "a"];
                          Api.AddTransition (lit "q0") (lit "a") (lit "q1")]))
           (lit "q0") (lit " a") (lit "q0") (lit "q1"));
    reflexivity.
Defined.

(* ===================================================================== *)
(** ** parseFile and parseLine                                            *)
(* ===================================================================== *)

Section Parser.

Import AutomataParser.


(** A line that throws stops the loop; the error is wrapped with the
    1-based position of the line in the array being walked. *)
Lemma parseLines_throw (index : nat) (line : jsstring)
  (post : list jsstring) (P P' : t) (e : Error) (out : list Warning) :
  parseLine (trim line) P = (Throw e, P', out) ->
  parseLines index (line :: post) P = (Throw (InLine (index + 1) e), P', out).
Proof.
  intros E. unfold parseLines. simpl. unfold bind, try_catch.
  rewrite E. unfold throw. now rewrite app_nil_r.
Qed.

Lemma parseLines_ok (index : nat) (line : jsstring)
  (post : list jsstring) (P P' : t) (out : list Warning) :
  parseLine (trim line) P = (Ok tt, P', out) ->
  parseLines index (line :: post) P =
  (let '(r, P'', out') := parseLines (S index) post P' in
   (r, P'', out ++ out')).
Proof.
  intros E. unfold parseLines. simpl. unfold bind at 1, try_catch.
  now rewrite E.
Qed.

Lemma parseLines_app (pre rest : list jsstring) :
  forall (index : nat) (P P' : t) (out : list Warning),
    parseLines index pre P = (Ok tt, P', out) ->
    parseLines index (pre ++ rest) P =
    (let '(r, P'', out') := parseLines (index + length pre) rest P' in
     (r, P'', out ++ out')).
Proof.
  induction pre as [|line pre IH]; intros index P P' out H.
  - unfold parseLines in H. simpl in H. unfold ret in H.
    injection H as <- <-.
    simpl. rewrite Nat.add_0_r.
    now destruct (parseLines index rest P) as [[r P''] out'].
  - simpl app.
    destruct (parseLine (trim line) P) as [[[[]|e] P1] out1] eqn:E.
    + rewrite (parseLines_ok _ _ _ _ _ _ E) in H.
      rewrite (parseLines_ok _ _ _ _ _ _ E).
      destruct (parseLines (S index) pre P1) as [[[[]|e'] P2] out2] eqn:E2;
        simpl in H; [|discriminate].
      injection H as <- <-.
      rewrite (IH (S index) P1 P2 out2 E2).
      replace (S index + length pre) with (index + length (line :: pre))
        by (simpl; lia).
      destruct (parseLines _ rest P2) as [[r P''] out'].
      now rewrite app_assoc.
    + rewrite (parseLines_throw _ _ _ _ _ _ _ E) in H. discriminate.
Qed.


Lemma parseFile_throw (content : jsstring) (P P' : t) (e : Error)
  (out : list Warning) :
  parseLines 0 (lines content) P = (Throw e, P', out) ->
  parseFile content P = (Throw e, P', out).
Proof. intros E. unfold parseFile, bind. now rewrite E. Qed.

End Parser.

Lemma parseLines_app_throw (pre rest : list jsstring) :
  forall (index : nat) (P P' : AutomataParser.t) (e : Error)
         (out : list Warning),
    AutomataParser.parseLines index pre P = (Throw e, P', out) ->
    AutomataParser.parseLines index (pre ++ rest) P = (Throw e, P', out).
Proof.
  induction pre as [|line pre IH]; intros index P P' e out H.
  - discriminate.
  - simpl app.
    destruct (AutomataParser.parseLine (trim line) P)
      as [[[[]|e1] P1] out1] eqn:E.
    + rewrite (parseLines_ok _ _ _ _ _ _ E) in H.
      rewrite (parseLines_ok _ _ _ _ _ _ E).
      destruct (AutomataParser.parseLines (S index) pre P1)
        as [[[[]|e2] P2] out2] eqn:E2; simpl in H; [discriminate|].
      injection H as <- <- <-.
      now rewrite (IH (S index) P1 P2 e2 out2 E2).
    + rewrite (parseLines_throw _ _ _ _ _ _ _ E) in H.
      now rewrite (parseLines_throw _ _ _ _ _ _ _ E).
Qed.

(** The load stops at the first line that throws, with its position. *)
Lemma parseFile_stops_at (content : jsstring) (pre : list jsstring)
  (line : jsstring) (post : list jsstring) (P P1 P2 : AutomataParser.t)
  (out1 out2 : list Warning) (e : Error) :
  AutomataParser.lines content = pre ++ line :: post ->
  AutomataParser.parseLines 0 pre P = (Ok tt, P1, out1) ->
  AutomataParser.parseLine (trim line) P1 = (Throw e, P2, out2) ->
  AutomataParser.parseFile content P =
    (Throw (InLine (length pre + 1) e), P2, out1 ++ out2).
Proof.
  intros Hlines Hpre E. apply parseFile_throw. rewrite Hlines.
  rewrite (parseLines_app pre (line :: post) 0 P P1 out1 Hpre).
  now rewrite (parseLines_throw _ _ _ _ _ _ _ E).
Qed.




(** Section 8: a fourth field in a transition of the second line is a
    format error addressed to line 2. *)
Example parseFile_four_fields :
  exists P,
    AutomataParser.parseFile Examples.fileFour AutomataParser.new =
      (Throw (InLine 2 (BadTransitionFormat (lit "q0,a,q1,q2"))), P, []).
Proof. eexists. reflexivity. Qed.

(** Section 8: the automaton [X] accepts [a] in [q1] and rejects [b] in
    [q0]. *)
Example parseFile_round_trip :
  exists A ra rb A1 A2,
    Api.load Examples.fileX (lit "X") = Some A /\
    FiniteAutomaton.recognizeWord (lit "a") A = (Ok ra, A1, []) /\
    FiniteAutomaton.accepted ra = true /\
    FiniteAutomaton.finalState ra = Some (lit "q1") /\
    FiniteAutomaton.recognizeWord (lit "b") A = (Ok rb, A2, []) /\
    FiniteAutomaton.accepted rb = false /\
    FiniteAutomaton.finalState rb = Some (lit "q0").
Proof.
  eexists _, _, _, _, _.
  split; [vm_compute; reflexivity|].
  split; [vm_compute; reflexivity|].
  split; [reflexivity|]. split; [reflexivity|].
  split; [vm_compute; reflexivity|].
  split; reflexivity.
Qed.

Section Codes.

Import AutomataParser.

Ltac split_code :=
  repeat match goal with
         | |- context [match ?x with xI _ => _ | xO _ => _ | xH => _ end] =>
             is_var x; destruct x
         end.

(** A line of three fields whose code [parseInt] does not read as one of
    1 .. 9 reaches the [default] of the [switch]. *)
Lemma parseLine_default (line idInfo name info : jsstring) (P : t) :
  split (lit ":") line = [idInfo; name; info] ->
  (forall z, parseInt (trim idInfo) = Integer z -> (z < 1 \/ 9 < z)%Z) ->
  exists P',
    parseLine line P = (Throw (UnknownId (parseInt (trim idInfo))), P', []).
Proof.
  intros Hsplit Hid. unfold parseLine, dispatch. rewrite Hsplit.
  destruct (parseInt (trim idInfo)) as [|z|negative].
  - run. destruct (map_has (trim name) (automata P)); simpl; eexists;
      reflexivity.
  - specialize (Hid z eq_refl).
    destruct z as [|p|p]; run.
    + destruct (map_has (trim name) (automata P)); simpl; eexists;
        reflexivity.
    + split_code; try lia;
        destruct (map_has (trim name) (automata P)); simpl; eexists;
        reflexivity.
    + destruct (map_has (trim name) (automata P)); simpl; eexists;
        reflexivity.
  - run. destruct (map_has (trim name) (automata P)); simpl; eexists;
      reflexivity.
Qed.

Lemma onAutomaton_lists (n name : jsstring) (m : M FiniteAutomaton.t unit) :
  Inv.preserves (fun P => map_has n (automata P) = true)
                (onAutomaton name m).
Proof.
  intros P H. unfold onAutomaton.
  destruct (map_get name (automata P)) as [automaton|]; [|exact H].
  destruct (m automaton) as [[r automaton'] out]. simpl.
  rewrite map_has_set, H. apply orb_true_r.
Qed.

Lemma onGrammar_lists (n name : jsstring) (m : M RegularGrammar.t unit) :
  Inv.preserves (fun P => map_has n (automata P) = true) (onGrammar name m).
Proof.
  intros P H. unfold onGrammar.
  destruct (map_get name (grammars P)) as [grammar|]; [|exact H].
  destruct (m grammar) as [[r grammar'] out]. exact H.
Qed.

Lemma ensureGrammar_lists (n name : jsstring) :
  Inv.preserves (fun P => map_has n (automata P) = true) (ensureGrammar name).
Proof.
  intros P H. unfold ensureGrammar. run.
  destruct (map_has name (grammars P)); exact H.
Qed.

Lemma dispatch_lists (n : jsstring) (id : number) (name info : jsstring) :
  Inv.preserves (fun P => map_has n (automata P) = true)
                (dispatch id name info).
Proof.
  unfold dispatch. destruct id as [|[|p|p]|negative]; try apply preserves_throw.
  split_code; try apply preserves_throw; try apply onAutomaton_lists;
    (apply preserves_bind;
     [apply ensureGrammar_lists | intros _; apply onGrammar_lists]).
Qed.

(** A line of three fields leaves an automaton under its name, whatever
    its code and whether it throws or not. *)
Lemma parseLine_lists_name (line idInfo name info : jsstring) (P : t) :
  split (lit ":") line = [idInfo; name; info] ->
  map_has (trim name) (automata (snd (fst (parseLine line P)))) = true.
Proof.
  intros Hsplit. unfold parseLine. rewrite Hsplit.
  unfold bind at 1, get at 1. unfold bind, when, modify, ret.
  destruct (map_has (trim name) (automata P)) eqn:E; cbn [negb].
  - pose proof (dispatch_lists (trim name) (parseInt (trim idInfo))
                  (trim name) (trim info) P E) as K.
    now destruct (dispatch _ _ _ P) as [[r P'] out].
  - match goal with
    | |- context [dispatch ?i ?n ?f ?Q] =>
        pose proof (dispatch_lists (trim name) i n f Q) as K;
        destruct (dispatch i n f Q) as [[r P'] out]
    end.
    apply K. simpl. rewrite map_has_set, eqb_refl. reflexivity.
Qed.

End Codes.

(** C7, as the code has it.  The code field is read by [parseInt].  When
    that gives anything but an integer from 1 to 9 ([NaN], another
    integer, or the rounding of an integer beyond 2^53), the line throws
    the unknown-code error, which carries the number [parseInt] returned,
    and the load stops there with the error addressed to the line. *)
Theorem parseLine_unknown_code :
  forall (content : jsstring) (pre : list jsstring) (line : jsstring)
         (post : list jsstring) (P P1 : AutomataParser.t)
         (out1 : list Warning) (idInfo name info : jsstring),
    AutomataParser.lines content = pre ++ line :: post ->
    AutomataParser.parseLines 0 pre P = (Ok tt, P1, out1) ->
    split (lit ":") (trim line) = [idInfo; name; info] ->
    (forall z, parseInt (trim idInfo) = Integer z -> (z < 1 \/ 9 < z)%Z) ->
    exists P2,
      AutomataParser.parseLine (trim line) P1 =
        (Throw (UnknownId (parseInt (trim idInfo))), P2, []) /\
      AutomataParser.parseFile content P =
        (Throw (InLine (length pre + 1)
                       (UnknownId (parseInt (trim idInfo)))), P2, out1).
Proof.
  intros content pre line post P P1 out1 idInfo name info Hlines Hpre
         Hsplit Hid.
  destruct (parseLine_default (trim line) idInfo name info P1 Hsplit Hid)
    as [P2 E].
  exists P2. split; [exact E|].
  rewrite (parseFile_stops_at content pre line post P P1 P2 out1 [] _
             Hlines Hpre E).
  now rewrite app_nil_r.
Qed.

(** The second line of [fileTwelve] has the code 12. *)
Lemma parseLine_unknown_code_witness :
  exists P2,
    AutomataParser.parseLine (trim (lit "12:X:q0"))
      (snd (fst (AutomataParser.parseLines 0 [lit "1:X:q0"]
                                           AutomataParser.new))) =
      (Throw (UnknownId (parseInt (trim (lit "12")))), P2, []) /\
    AutomataParser.parseFile Examples.fileTwelve AutomataParser.new =
      (Throw (InLine (length [lit "1:X:q0"] + 1)
                     (UnknownId (parseInt (trim (lit "12"))))), P2, []).
Proof.
  apply (parseLine_unknown_code Examples.fileTwelve [lit "1:X:q0"]
           (lit "12:X:q0") [] AutomataParser.new _ []
           (lit "12") (lit "X") (lit "q0")).
  - reflexivity.
  - reflexivity.
  - reflexivity.
  - intros z E. vm_compute in E. injection E as <-. lia.
Defined.

(** C7 as stated fails on [fileCode]: the code field [1x] is not the text
    of an integer, and the line is taken as a states record. *)
Lemma parseFile_accepts_code_with_suffix :
  Spec.is_integer (lit "1x") = false /\
  parseInt (lit "1x") = Integer 1%Z /\
  exists P A,
    AutomataParser.parseFile Examples.fileCode AutomataParser.new =
      (Ok (AutomataParser.automata P), P, []) /\
    AutomataParser.getAutomaton (lit "A") P = Some A /\
    FiniteAutomaton.states A = [lit "q0"].
Proof.
  split; [reflexivity|]. split; [reflexivity|].
  exists (snd (fst (AutomataParser.parseFile Examples.fileCode
                                             AutomataParser.new))).
  eexists. split; [vm_compute; reflexivity|].
  split; reflexivity.
Qed.

(** A code beyond 2^53 is not returned as it is read, and is not a code;
    2^53 itself is returned as it is. *)
Example parseInt_beyond_doubles :
  parseInt (lit "9007199254740993") = Beyond false /\
  parseInt (lit "-9007199254740993") = Beyond true /\
  parseInt (lit "9007199254740992") = Integer 9007199254740992%Z /\
  exists P,
    AutomataParser.parseFile (lit "9007199254740993:A:q0")
                             AutomataParser.new =
      (Throw (InLine 1 (UnknownId (Beyond false))), P, []).
Proof.
  repeat (split; [vm_compute; reflexivity|]).
  eexists. vm_compute. reflexivity.
Qed.

(** C8, at the input where it fails.  [fileG] has records of codes 6 to 9
    only, all for the name [G]; after the load the automata collection
    holds an empty automaton under [G], next to the grammar. *)
Theorem parseFile_grammar_only_creates_automaton :
  exists P G,
    AutomataParser.parseFile Examples.fileG AutomataParser.new =
      (Ok (AutomataParser.automata P), P, []) /\
    AutomataParser.getAutomaton (lit "G") P =
      Some (FiniteAutomaton.new (lit "G")) /\
    AutomataParser.getGrammar (lit "G") P = Some G /\
    RegularGrammar.nonTerminals G = [lit "S"; lit "A"].
Proof.
  exists (snd (fst (AutomataParser.parseFile Examples.fileG
                                             AutomataParser.new))).
  eexists. split; [vm_compute; reflexivity|].
  repeat split; reflexivity.
Qed.

(** C1, at inputs where it fails.  The automaton [X] of section 8 and the
    automaton [P] are complete and valid and accept [aa]; the automata
    obtained from them by [toRegularGrammar] then [toFiniteAutomaton]
    reject it.  For [X] the productions [q0->aq1] have three code units and
    are skipped; for [P] the transition to the synthetic final state
    replaces the one to [q], and nothing leaves the synthetic state. *)
Theorem roundTrip_changes_language :
  (exists A B,
      Api.load Examples.fileX (lit "X") = Some A /\
      Spec.complete_valid A = true /\
      Api.roundTrip A = Ok B /\
      Spec.over_alphabet A (lit "aa") = true /\
      length (lit "aa") <= 5 /\
      Api.accepts A (lit "aa") = Some true /\
      Api.accepts B (lit "aa") = Some false) /\
  (exists A B,
      Api.load Examples.fileP (lit "P") = Some A /\
      Spec.complete_valid A = true /\
      Api.roundTrip A = Ok B /\
      Spec.over_alphabet A (lit "aa") = true /\
      length (lit "aa") <= 5 /\
      Api.accepts A (lit "aa") = Some true /\
      Api.accepts B (lit "aa") = Some false).
Proof.
  split; eexists _, _;
    (split; [vm_compute; reflexivity|]);
    (split; [reflexivity|]);
    (split; [vm_compute; reflexivity|]);
    (split; [reflexivity|]);
    (split; [simpl; lia|]);
    split; reflexivity.
Qed.

(* ===================================================================== *)
(** ** split and join                                                     *)
(* ===================================================================== *)

Section Split.

Lemma split_char_cons (d c : N) (r : jsstring) :
  split [d] (c :: r) =
  if N.eqb d c then [] :: split [d] r else cons_head c (split [d] r).
Proof. unfold split. simpl. now rewrite andb_true_r. Qed.

Lemma without_cons (c d : N) (s : jsstring) :
  Conv.without c (d :: s) = true ->
  N.eqb c d = false /\ Conv.without c s = true.
Proof.
  unfold Conv.without. simpl. intros H.
  apply andb_true_iff in H as [H1 H2]. apply negb_true_iff in H1.
  rewrite N.eqb_sym. now split.
Qed.

Lemma split_char_none (d : N) (x : jsstring) :
  Conv.without d x = true -> split [d] x = [x].
Proof.
  induction x as [|c x IH]; intros H; [reflexivity|].
  apply without_cons in H as [Hc Hx].
  now rewrite split_char_cons, Hc, (IH Hx).
Qed.

Lemma split_char_app (d : N) (x rest : jsstring) :
  Conv.without d x = true ->
  split [d] (x ++ d :: rest) = x :: split [d] rest.
Proof.
  induction x as [|c x IH]; intros H.
  - simpl. now rewrite split_char_cons, N.eqb_refl.
  - apply without_cons in H as [Hc Hx]. simpl.
    now rewrite split_char_cons, Hc, (IH Hx).
Qed.

(** Joining on a code unit that is in none of the pieces and splitting
    again gives the pieces back. *)
Lemma split_join (d : N) (l : list jsstring) :
  l <> [] -> forallb (Conv.without d) l = true ->
  split [d] (join [d] l) = l.
Proof.
  induction l as [|x l IH]; intros Hne H; [congruence|].
  simpl in H. apply andb_true_iff in H as [Hx Hl].
  destruct l as [|y l].
  - simpl. now apply split_char_none.
  - change (join [d] (x :: y :: l)) with (x ++ d :: join [d] (y :: l)).
    rewrite (split_char_app d x _ Hx).
    rewrite IH; [reflexivity | discriminate | exact Hl].
Qed.

Lemma split_arrow_cons (c : N) (r : jsstring) :
  split_from [45%N; 62%N] 0 (c :: r) =
  if N.eqb 45 c && prefix [62%N] r
  then [] :: split_from [45%N; 62%N] 1 r
  else cons_head c (split_from [45%N; 62%N] 0 r).
Proof. reflexivity. Qed.

Lemma split_arrow_none (x : jsstring) :
  Conv.without 62 x = true -> split (lit "->") x = [x].
Proof.
  unfold split. induction x as [|c x IH]; intros H; [reflexivity|].
  apply without_cons in H as [Hc Hx].
  change (lit "->") with [45%N; 62%N] in *.
  rewrite split_arrow_cons.
  assert (prefix [62%N] x = false) as ->.
  { destruct x as [|y x']; [reflexivity|].
    apply without_cons in Hx as [Hy _]. cbn [prefix]. now rewrite Hy. }
  rewrite andb_false_r. now rewrite (IH Hx).
Qed.

(** One arrow between two sides without [>]: two fields. *)
Lemma split_arrow (x y : jsstring) :
  Conv.without 62 x = true -> Conv.without 62 y = true ->
  split (lit "->") (Conv.render (x, y)) = [x; y].
Proof.
  intros Hx Hy. unfold Conv.render. simpl fst. simpl snd.
  pose proof (split_arrow_none y Hy) as Hnone.
  unfold split in *. change (lit "->") with [45%N; 62%N] in *.
  induction x as [|c x IH].
  - simpl. now rewrite Hnone.
  - apply without_cons in Hx as [Hc Hx'].
    change ((c :: x) ++ [45%N; 62%N] ++ y)
      with (c :: (x ++ [45%N; 62%N] ++ y)).
    rewrite split_arrow_cons.
    assert (prefix [62%N] (x ++ [45%N; 62%N] ++ y) = false) as ->.
    { destruct x as [|d x']; [reflexivity|].
      apply without_cons in Hx' as [Hd _]. cbn [prefix app].
      now rewrite Hd. }
    rewrite andb_false_r. now rewrite (IH Hx').
Qed.

Lemma without_app (c : N) (x y : jsstring) :
  Conv.without c (x ++ y) = Conv.without c x && Conv.without c y.
Proof. apply forallb_app. Qed.

Lemma plain_without (s : jsstring) :
  Inv.plain s = true ->
  Conv.without 59 s = true /\ Conv.without 62 s = true.
Proof.
  unfold Inv.plain, Conv.without. rewrite !forallb_forall. intros H.
  split; intros c Hc; specialize (H c Hc);
    apply andb_true_iff in H as [H1 H2]; assumption.
Qed.

Lemma plain_app (x y : jsstring) :
  Inv.plain (x ++ y) = Inv.plain x && Inv.plain y.
Proof. apply forallb_app. Qed.

End Split.

(* ===================================================================== *)
(** ** addProduction and setProductions                                   *)
(* ===================================================================== *)

Section Productions.

Import RegularGrammar.

(** [addProduction], case by case. *)
Lemma addProduction_run (l r : jsstring) (G : t) :
  addProduction l r G =
  if negb (has (trim l) (nonTerminals G))
  then (Throw (NotNonTerminal (trim l)), G, [])
  else (Ok tt,
        with_productions (Conv.push (trim l) (trim r) (productions G)) G,
        []).
Proof.
  unfold addProduction, Conv.push. run.
  destruct (has (trim l) (nonTerminals G)); simpl; [|reflexivity].
  unfold map_has.
  destruct (map_get (trim l) (productions G)) as [rs|] eqn:R; simpl.
  - now rewrite R.
  - rewrite map_get_set_same. simpl. now rewrite map_set_set.
Qed.

(** Productions whose left sides are nonterminals are all stored. *)
Lemma addProduction_all (pairs : list (jsstring * jsstring)) :
  forall G : t,
    forallb (fun production =>
               Inv.trimmed (fst production) &&
               Inv.trimmed (snd production) &&
               has (fst production) (nonTerminals G)) pairs = true ->
    forEach (fun production =>
               addProduction (fst production) (snd production)) pairs G =
    (Ok tt, with_productions (Conv.push_all pairs (productions G)) G, []).
Proof.
  induction pairs as [|[l r] pairs IH]; intros G H.
  - simpl. unfold ret. now destruct G.
  - simpl in H. apply andb_true_iff in H as [Hlr H].
    apply andb_true_iff in Hlr as [Hlr Hin].
    apply andb_true_iff in Hlr as [Hl Hr].
    cbn [forEach fst snd]. unfold bind.
    rewrite addProduction_run, (trim_fixed l Hl), (trim_fixed r Hr), Hin.
    cbn [negb]. rewrite IH by exact H. reflexivity.
Qed.

Lemma rights_push (k v l : jsstring) (m : list (jsstring * list jsstring)) :
  match map_get l (Conv.push k v m) with Some rs => rs | None => [] end =
  if eqb l k
  then match map_get k m with Some rs => rs | None => [] end ++ [v]
  else match map_get l m with Some rs => rs | None => [] end.
Proof.
  unfold Conv.push. destruct (eqb l k) eqn:E.
  - apply eqb_eq in E. subst. now rewrite map_get_set_same.
  - apply eqb_neq in E. now rewrite map_get_set_other by congruence.
Qed.

(** What is stored for [l] after the pushes: what was there, and the
    right sides pushed for [l]. *)
Lemma rights_push_all (pairs : list (jsstring * jsstring)) (l r : jsstring) :
  forall m : list (jsstring * list jsstring),
    In r (match map_get l (Conv.push_all pairs m) with
          | Some rs => rs
          | None => []
          end) <->
    In r (match map_get l m with Some rs => rs | None => [] end) \/
    In (l, r) pairs.
Proof.
  induction pairs as [|[k v] pairs IH]; intros m; simpl.
  - tauto.
  - unfold Conv.push_all in *. simpl. rewrite IH, rights_push.
    destruct (eqb l k) eqn:E.
    + apply eqb_eq in E. subst k. rewrite in_app_iff. simpl.
      intuition congruence.
    + apply eqb_neq in E. intuition congruence.
Qed.

(** [setProductions] on the joined strings stores the pairs. *)
Lemma setProductions_pairs (pairs : list (jsstring * jsstring)) (G : t) :
  pairs <> [] ->
  forallb (fun production =>
             Inv.trimmed (fst production) && Inv.trimmed (snd production) &&
             has (fst production) (nonTerminals G)) pairs = true ->
  forallb (fun production =>
             Inv.plain (fst production) && Inv.plain (snd production))
          pairs = true ->
  setProductions (join (lit ";") (List.map Conv.render pairs)) G =
  (Ok tt, with_productions (Conv.push_all pairs (productions G)) G, []).
Proof.
  intros Hne Hgood Hplain. unfold setProductions.
  change (lit ";") with [59%N].
  rewrite split_join.
  - rewrite forEach_map. rewrite <- (addProduction_all pairs G Hgood).
    apply forEach_ext. intros [l r] Hin G'.
    rewrite forallb_forall in Hgood, Hplain.
    specialize (Hgood _ Hin). specialize (Hplain _ Hin). simpl in *.
    apply andb_true_iff in Hgood as [Hgood _].
    apply andb_true_iff in Hgood as [Hl Hr].
    apply andb_true_iff in Hplain as [Pl Pr].
    apply plain_without in Pl as [_ Pl]. apply plain_without in Pr as [_ Pr].
    rewrite trim_fixed.
    + now rewrite (split_arrow l r Pl Pr).
    + unfold Conv.render. simpl.
      apply trimmed_app; [exact Hl|].
      apply (trimmed_app (lit "->") r); [reflexivity | exact Hr].
  - destruct pairs; [congruence | discriminate].
  - rewrite forallb_forall in *. intros s Hs.
    apply in_map_iff in Hs as ([l r] & <- & Hin).
    specialize (Hplain _ Hin). simpl in Hplain.
    apply andb_true_iff in Hplain as [Pl Pr].
    apply plain_without in Pl as [Pl _]. apply plain_without in Pr as [Pr _].
    unfold Conv.render. simpl fst. simpl snd.
    rewrite !without_app, Pl, Pr. reflexivity.
Qed.

End Productions.

(* ===================================================================== *)
(** ** toRegularGrammar                                                   *)
(* ===================================================================== *)

Section Conversion.

Import FiniteAutomaton.

Lemma map_flat_map {X Y Z : Type} (f : Y -> Z) (g : X -> list Y)
  (l : list X) :
  List.map f (flat_map g l) = flat_map (fun x => List.map f (g x)) l.
Proof.
  induction l as [|x l IH]; simpl; [reflexivity|].
  now rewrite map_app, IH.
Qed.

(** The strings pushed are the pairs, rendered. *)
Lemma production_strings_pairs (A : t) (initial : jsstring) :
  production_strings A initial =
  List.map Conv.render (Conv.production_pairs A initial).
Proof.
  unfold production_strings, Conv.production_pairs.
  rewrite map_app, map_flat_map. f_equal.
  - apply flat_map_ext. intros [q row]. rewrite map_flat_map.
    apply flat_map_ext. intros [a p]. unfold transition_productions.
    destruct (has p (finalStates A)); reflexivity.
  - destruct (has initial (finalStates A)); reflexivity.
Qed.

Lemma In_table (A : t) (q a p : jsstring) :
  In (mkTransition q a p) (getTransitionsArray A) <->
  exists row, In (q, row) (transitions A) /\ In (a, p) row.
Proof.
  unfold getTransitionsArray. rewrite in_flat_map. split.
  - intros ([k row] & Hrow & Hin).
    apply in_map_iff in Hin as ([a' p'] & [= -> -> ->] & Hin).
    now exists row.
  - intros (row & Hrow & Hin). exists (q, row). split; [exact Hrow|].
    apply in_map_iff. now exists (a, p).
Qed.

Lemma set_ok_trimmed (s : list jsstring) (x : jsstring) :
  Inv.set_ok s = true -> In x s -> Inv.trimmed x = true.
Proof.
  induction s as [|y s IH]; simpl; [tauto|].
  intros H [-> | Hin].
  - apply andb_true_iff in H as [H _]. now apply andb_true_iff in H as [_ H].
  - apply andb_true_iff in H as [_ H]. now apply IH.
Qed.

Lemma names_plain_state (A : t) (q : jsstring) :
  Inv.names_plain A = true -> has q (states A) = true -> Inv.plain q = true.
Proof.
  unfold Inv.names_plain. intros H Hq. apply andb_true_iff in H as [H _].
  rewrite forallb_forall in H. apply H. now apply has_In.
Qed.

Lemma names_plain_symbol (A : t) (a : jsstring) :
  Inv.names_plain A = true -> has a (alphabet A) = true -> Inv.plain a = true.
Proof.
  unfold Inv.names_plain. intros H Ha. apply andb_true_iff in H as [_ H].
  rewrite forallb_forall in H. apply H. now apply has_In.
Qed.

(** What the hypotheses say of one transition of the table. *)
Lemma transition_facts (A : t) (q a p : jsstring) :
  Inv.wf A = true -> Inv.consistent A = true -> Inv.names_plain A = true ->
  In (mkTransition q a p) (getTransitionsArray A) ->
  (Inv.trimmed q = true /\ Inv.trimmed a = true /\ Inv.trimmed p = true) /\
  has q (states A) = true /\
  (Inv.plain q = true /\ Inv.plain a = true /\ Inv.plain p = true).
Proof.
  intros W C N Hin.
  unfold Inv.consistent in C. apply andb_true_iff in C as [_ C].
  rewrite forallb_forall in C. specialize (C _ Hin). simpl in C.
  apply andb_true_iff in C as [C Hp]. apply andb_true_iff in C as [Hq Ha].
  unfold Inv.wf in W. apply andb_true_iff in W as [W F].
  apply andb_true_iff in W as [W _]. apply andb_true_iff in W as [Ws Wa].
  repeat split.
  - apply (set_ok_trimmed _ _ Ws). now apply has_In.
  - apply (set_ok_trimmed _ _ Wa). now apply has_In.
  - apply (set_ok_trimmed _ _ Ws). now apply has_In.
  - exact Hq.
  - exact (names_plain_state A q N Hq).
  - exact (names_plain_symbol A a N Ha).
  - exact (names_plain_state A p N Hp).
Qed.

Lemma In_production_pairs (A : t) (initial l r : jsstring) :
  In (l, r) (Conv.production_pairs A initial) <->
  (exists a p, In (mkTransition l a p) (getTransitionsArray A) /\
               (r = a ++ p \/ has p (finalStates A) = true /\ r = a)) \/
  (l = initial /\ has initial (finalStates A) = true /\ r = epsilon).
Proof.
  unfold Conv.production_pairs. rewrite in_app_iff.
  match goal with
  | |- ?a \/ ?b <-> ?c \/ ?d =>
      assert (a <-> c) as H1; [|assert (b <-> d) as H2; [|tauto]]
  end.
  - rewrite in_flat_map. split.
    + intros ([q row] & Hrow & Hin).
      apply in_flat_map in Hin as ([a p] & Hap & Hin).
      exists a, p. simpl in Hin.
      destruct Hin as [[= <- <-] | Hin].
      * split; [|now left]. apply In_table. now exists row.
      * destruct (has p (finalStates A)) eqn:F; [|destruct Hin].
        destruct Hin as [[= <- <-] | []].
        split; [|now right]. apply In_table. now exists row.
    + intros (a & p & Hin & Hr). apply In_table in Hin as (row & Hrow & Hap).
      exists (l, row). split; [exact Hrow|].
      apply in_flat_map. exists (a, p). split; [exact Hap|].
      destruct Hr as [-> | [F ->]]; [now left|].
      right. rewrite F. now left.
  - destruct (has initial (finalStates A)); simpl.
    + split.
      * intros [[= <- <-] | []]. now repeat split.
      * intros (-> & _ & ->). now left.
    + split; [tauto|]. intros (_ & F & _). discriminate.
Qed.

(** Every pair can be stored and survives the join and the two splits. *)
Lemma pairs_good (A : t) (initial : jsstring) :
  Inv.wf A = true -> Inv.consistent A = true -> Inv.names_plain A = true ->
  initialState A = Some initial ->
  forallb (fun production =>
             Inv.trimmed (fst production) && Inv.trimmed (snd production) &&
             has (fst production) (states A))
          (Conv.production_pairs A initial) = true /\
  forallb (fun production =>
             Inv.plain (fst production) && Inv.plain (snd production))
          (Conv.production_pairs A initial) = true.
Proof.
  intros W C N I.
  assert (has initial (states A) = true) as Hinit.
  { unfold Inv.consistent in C. rewrite I in C.
    now apply andb_true_iff in C as [C _]. }
  assert (Inv.trimmed initial = true) as Tinit.
  { unfold Inv.wf in W. apply andb_true_iff in W as [W _].
    apply andb_true_iff in W as [W _]. apply andb_true_iff in W as [Ws _].
    apply (set_ok_trimmed _ _ Ws). now apply has_In. }
  pose proof (names_plain_state A initial N Hinit) as Pinit.
  rewrite !forallb_forall.
  split; intros [l r] Hin; apply In_production_pairs in Hin; simpl;
    destruct Hin as [(a & p & Hin & Hr) | (-> & _ & ->)];
    try (rewrite ?Tinit, ?Hinit, ?Pinit; reflexivity);
    destruct (transition_facts A l a p W C N Hin)
      as ((Tq & Ta & Tp) & Hq & (Pq & Pa & Pp));
    destruct Hr as [-> | [_ ->]];
    rewrite ?plain_app, ?trimmed_app by assumption;
    rewrite ?Tq, ?Ta, ?Tp, ?Hq, ?Pq, ?Pa, ?Pp; reflexivity.
Qed.

End Conversion.

Section ConversionResult.

(** [toRegularGrammar] is what its calls on the new grammar make of it;
    its own automaton is only read. *)
Lemma toRegularGrammar_run (A : FiniteAutomaton.t) :
  toRegularGrammar A =
  match fill_grammar A
          (RegularGrammar.new (lit "GR_" ++ FiniteAutomaton.name A)) with
  | (Ok _, G, out) => (Ok G, A, out ++ [])
  | (Throw e, _, out) => (Throw e, A, out)
  end.
Proof.
  unfold toRegularGrammar, bind, get, on, ret.
  destruct (fill_grammar A _) as [[[u|e] G] out]; reflexivity.
Qed.

Lemma toRegularGrammar_pure (A : FiniteAutomaton.t) :
  snd (fst (toRegularGrammar A)) = A.
Proof.
  rewrite toRegularGrammar_run.
  destruct (fill_grammar A _) as [[[u|e] G] out]; reflexivity.
Qed.

Lemma fill_grammar_run (A : FiniteAutomaton.t) (q0 : jsstring)
  (G : RegularGrammar.t) :
  Inv.wf A = true -> Inv.consistent A = true -> Inv.names_plain A = true ->
  FiniteAutomaton.initialState A = Some q0 ->
  RegularGrammar.productions G = [] ->
  fill_grammar A G =
  (Ok tt,
   RegularGrammar.with_productions
     (Conv.push_all (Conv.production_pairs A q0) [])
     (RegularGrammar.with_startSymbol (Some q0)
        (RegularGrammar.with_terminals (FiniteAutomaton.alphabet A)
           (RegularGrammar.with_nonTerminals (FiniteAutomaton.states A) G))),
   []).
Proof.
  intros W C N I Hempty.
  destruct (pairs_good A q0 W C N I) as [Hgood Hplain].
  assert (has q0 (FiniteAutomaton.states A) = true) as Hinit.
  { unfold Inv.consistent in C. rewrite I in C.
    now apply andb_true_iff in C as [C _]. }
  pose proof W as W'. unfold Inv.wf in W'.
  apply andb_true_iff in W' as [W' _]. apply andb_true_iff in W' as [W' _].
  apply andb_true_iff in W' as [Ws Wa].
  assert (Inv.trimmed q0 = true) as Tinit
      by (apply (set_ok_trimmed _ _ Ws); now apply has_In).
  unfold fill_grammar. rewrite I.
  rewrite (bind_ok _ _ G _ _ _ (setNonTerminals_run _ G)).
  rewrite (added_fixed (FiniteAutomaton.states A) []) by exact Ws.
  rewrite (bind_ok _ _ _ _ _ _ (setTerminals_run _ _)).
  rewrite (added_fixed (FiniteAutomaton.alphabet A) []) by exact Wa.
  simpl app.
  set (G2 := RegularGrammar.with_terminals _ _).
  assert (RegularGrammar.setStartSymbol q0 G2 =
          (Ok tt, RegularGrammar.with_startSymbol (Some q0) G2, [])) as E3.
  { unfold RegularGrammar.setStartSymbol. run.
    rewrite (trim_fixed q0 Tinit), Hinit. reflexivity. }
  rewrite (bind_ok _ _ G2 _ _ _ E3).
  set (G3 := RegularGrammar.with_startSymbol _ _).
  rewrite production_strings_pairs, length_map.
  destruct (Conv.production_pairs A q0) as [|pr pairs] eqn:P.
  - simpl. unfold ret. subst G3 G2. destruct G. simpl in *. now subst.
  - unfold when. change (0 <? length (pr :: pairs)) with true. cbv iota.
    rewrite (setProductions_pairs (pr :: pairs) G3);
      [| discriminate | exact Hgood | exact Hplain].
    subst G3 G2. simpl. now rewrite Hempty.
Qed.

End ConversionResult.

(* ===================================================================== *)
(** ** What setProductions reads back                                     *)
(* ===================================================================== *)

Section Sides.

Lemma prefix_app (sep x y : jsstring) :
  prefix sep x = true -> prefix sep (x ++ y) = true.
Proof.
  revert x. induction sep as [|c sep IH]; intros x H; [reflexivity|].
  destruct x as [|d x]; [discriminate|]. simpl in *.
  apply andb_true_iff in H as [H1 H2]. now rewrite H1, (IH x H2).
Qed.

Lemma contains_app_l (sep x y : jsstring) :
  Conv.contains sep x = true -> Conv.contains sep (x ++ y) = true.
Proof.
  induction x as [|c x IH]; intros H.
  - simpl in H. rewrite orb_false_r in H.
    destruct sep; [|discriminate]. now destruct y.
  - cbn [Conv.contains] in H. apply orb_true_iff in H as [H | H].
    + change ((c :: x) ++ y) with (c :: (x ++ y)). cbn [Conv.contains].
      change (c :: (x ++ y)) with ((c :: x) ++ y).
      now rewrite (prefix_app _ _ _ H).
    + change ((c :: x) ++ y) with (c :: (x ++ y)). cbn [Conv.contains].
      rewrite (IH H). apply orb_true_r.
Qed.

Lemma contains_app_r (sep x y : jsstring) :
  Conv.contains sep y = true -> Conv.contains sep (x ++ y) = true.
Proof.
  intros H. induction x as [|c x IH]; [exact H|].
  change ((c :: x) ++ y) with (c :: (x ++ y)). cbn [Conv.contains].
  rewrite IH. apply orb_true_r.
Qed.

Lemma trimStart_end (s : jsstring) : exists pre, s = pre ++ trimStart s.
Proof.
  induction s as [|c s [pre E]]; [now exists []|]. simpl.
  destruct (is_ws c); [|now exists []].
  exists (c :: pre). simpl. now f_equal.
Qed.

(** What [trim] returns is a piece of its argument. *)
Lemma trim_middle (s : jsstring) :
  exists pre post, s = pre ++ trim s ++ post.
Proof.
  unfold trim, trimEnd.
  destruct (trimStart_end s) as [pre E].
  destruct (trimStart_end (rev (trimStart s))) as [post E'].
  exists pre, (rev post).
  rewrite <- rev_app_distr, <- E', rev_involutive. exact E.
Qed.

Lemma without_trim (c : N) (s : jsstring) :
  Conv.without c s = true -> Conv.without c (trim s) = true.
Proof.
  intros H. destruct (trim_middle s) as (pre & post & E).
  rewrite E, !without_app in H.
  apply andb_true_iff in H as [_ H]. now apply andb_true_iff in H as [H _].
Qed.

Lemma contains_trim (sep s : jsstring) :
  Conv.contains sep s = false -> Conv.contains sep (trim s) = false.
Proof.
  intros H. destruct (trim_middle s) as (pre & post & E).
  destruct (Conv.contains sep (trim s)) eqn:C; [|reflexivity].
  rewrite E in H.
  now rewrite (contains_app_r _ pre _ (contains_app_l _ _ post C)) in H.
Qed.

Lemma without_cons_head (c d : N) (l : list jsstring) :
  N.eqb d c = false ->
  (forall part, In part l -> Conv.without c part = true) ->
  forall part, In part (cons_head d l) -> Conv.without c part = true.
Proof.
  intros Hd Hl part Hin. destruct l as [|h t]; simpl in Hin.
  - destruct Hin as [<- | []]. unfold Conv.without. simpl. now rewrite Hd.
  - destruct Hin as [<- | Hin]; [|apply Hl; now right].
    unfold Conv.without. simpl. rewrite Hd. apply (Hl h). now left.
Qed.

(** The parts of a split have the code units of the string only. *)
Lemma split_from_without (c : N) (sep s : jsstring) :
  forall skip part,
    Conv.without c s = true -> In part (split_from sep skip s) ->
    Conv.without c part = true.
Proof.
  induction s as [|d s IH]; intros skip part H Hin.
  - destruct Hin as [<- | []]. reflexivity.
  - apply without_cons in H as [Hd Hs]. rewrite N.eqb_sym in Hd.
    cbn [split_from] in Hin. destruct skip as [|k].
    + destruct (prefix sep (d :: s)).
      * destruct Hin as [<- | Hin]; [reflexivity | now apply (IH _ _ Hs Hin)].
      * revert part Hin. apply without_cons_head; [exact Hd|].
        intros part Hin. now apply (IH _ _ Hs Hin).
    + now apply (IH _ _ Hs Hin).
Qed.

(** No part of a split on a code unit has that code unit. *)
Lemma split_char_parts (d : N) (s : jsstring) :
  forall part, In part (split [d] s) -> Conv.without d part = true.
Proof.
  induction s as [|c s IH]; intros part Hin.
  - destruct Hin as [<- | []]. reflexivity.
  - rewrite split_char_cons in Hin. destruct (N.eqb d c) eqn:E.
    + destruct Hin as [<- | Hin]; [reflexivity | now apply IH].
    + revert part Hin. apply without_cons_head; [|exact IH].
      now rewrite N.eqb_sym.
Qed.

(** The first part of a split is where the string starts. *)
Lemma split_head (sep s h : jsstring) (t : list jsstring) :
  split_from sep 0 s = h :: t -> exists rest, s = h ++ rest.
Proof.
  revert h t. induction s as [|c s IH]; intros h t E.
  - injection E as <- _. now exists [].
  - cbn [split_from] in E. destruct (prefix sep (c :: s)).
    + injection E as <- _. now exists (c :: s).
    + destruct (split_from sep 0 s) as [|h' t'] eqn:E'; simpl in E.
      * injection E as <- _. now exists s.
      * injection E as <- _. destruct (IH h' t' eq_refl) as [rest ->].
        now exists rest.
Qed.

Lemma contains_arrow_cons (c : N) (r : jsstring) :
  Conv.contains [45%N; 62%N] (c :: r) =
  N.eqb 45 c && prefix [62%N] r || Conv.contains [45%N; 62%N] r.
Proof. reflexivity. Qed.

(** No part of a split on [->] has an arrow. *)
Lemma split_arrow_parts (s : jsstring) :
  (forall part, In part (split_from [45%N; 62%N] 0 s) ->
                Conv.contains [45%N; 62%N] part = false) /\
  (forall part, In part (split_from [45%N; 62%N] 1 s) ->
                Conv.contains [45%N; 62%N] part = false).
Proof.
  induction s as [|c s [IH0 IH1]].
  - split; intros part [<- | []]; reflexivity.
  - split; [|exact IH0]. intros part Hin. rewrite split_arrow_cons in Hin.
    destruct (N.eqb 45 c && prefix [62%N] s) eqn:E.
    + destruct Hin as [<- | Hin]; [reflexivity | now apply IH1].
    + destruct (split_from [45%N; 62%N] 0 s) as [|h t] eqn:Es; simpl in Hin.
      * destruct Hin as [<- | []]. rewrite contains_arrow_cons.
        simpl. now rewrite andb_false_r.
      * destruct Hin as [<- | Hin]; [|apply IH0; now right].
        rewrite contains_arrow_cons, (IH0 h (or_introl eq_refl)).
        rewrite orb_false_r.
        destruct (N.eqb 45 c); [|reflexivity]. simpl in *.
        destruct (split_head _ _ _ _ Es) as [rest ->].
        destruct h as [|x h]; [reflexivity|]. exact E.
Qed.

Lemma split_arrow_whole (x : jsstring) :
  Conv.contains [45%N; 62%N] x = false -> split_from [45%N; 62%N] 0 x = [x].
Proof.
  induction x as [|c x IH]; intros H; [reflexivity|].
  rewrite contains_arrow_cons in H. apply orb_false_iff in H as [H1 H2].
  now rewrite split_arrow_cons, H1, (IH H2).
Qed.

(** One arrow between two sides without one: two fields. *)
Lemma split_arrow_sides (x y : jsstring) :
  Conv.contains (lit "->") x = false -> Conv.contains (lit "->") y = false ->
  split (lit "->") (Conv.render (x, y)) = [x; y].
Proof.
  unfold split, Conv.render. simpl fst. simpl snd.
  change (lit "->") with [45%N; 62%N]. intros Hx Hy.
  induction x as [|c x IH].
  - simpl. now rewrite (split_arrow_whole y Hy).
  - rewrite contains_arrow_cons in Hx. apply orb_false_iff in Hx as [H1 H2].
    change ((c :: x) ++ [45%N; 62%N] ++ y)
      with (c :: (x ++ [45%N; 62%N] ++ y)).
    rewrite split_arrow_cons.
    assert (N.eqb 45 c && prefix [62%N] (x ++ [45%N; 62%N] ++ y) = false)
      as ->.
    { destruct x as [|d x']; [simpl; apply andb_false_r | exact H1]. }
    now rewrite (IH H2).
Qed.

End Sides.

Section Stored.

Import RegularGrammar.

Lemma preserves_forEach_In {Obj A : Type} (P : Obj -> Prop)
  (f : A -> M Obj unit) (l : list A) :
  (forall x, In x l -> Inv.preserves P (f x)) ->
  Inv.preserves P (forEach f l).
Proof.
  induction l as [|x l IH]; intros Hf; simpl.
  - intros s Hs. exact Hs.
  - apply preserves_bind; [apply Hf; now left|].
    intros _. apply IH. intros y Hy. apply Hf. now right.
Qed.

Lemma setStartSymbol_run (symbol : jsstring) (G : t) :
  setStartSymbol symbol G =
  if negb (has (trim symbol) (nonTerminals G))
  then (Throw (StartSymbolUnknown (trim symbol)), G, [])
  else (Ok tt, with_startSymbol (Some (trim symbol)) G, []).
Proof.
  unfold setStartSymbol. run.
  now destruct (has (trim symbol) (nonTerminals G)).
Qed.

(** A production with whole sides keeps the grammar as it is being
    filled. *)
Lemma addProduction_filling (names : list jsstring)
  (start : option jsstring) (l r : jsstring) :
  Conv.whole (trim l) = true -> Conv.whole (trim r) = true ->
  Inv.preserves (Conv.filling names start) (addProduction l r).
Proof.
  intros Hl Hr G (HN & HS & HP). rewrite addProduction_run.
  destruct (has (trim l) (nonTerminals G)) eqn:Hin; simpl;
    [|exact (conj HN (conj HS HP))].
  split; [exact HN|]. split; [exact HS|].
  intros k rs Hk. simpl in Hk. unfold Conv.push in Hk.
  destruct (eqb k (trim l)) eqn:E.
  - apply eqb_eq in E. subst k. rewrite map_get_set_same in Hk.
    injection Hk as <-. simpl.
    split; [exact Hin|]. split; [exact Hl|].
    rewrite forallb_app. simpl. rewrite Hr.
    destruct (map_get (trim l) (productions G)) as [old|] eqn:O;
      [|reflexivity].
    destruct (HP _ _ O) as (_ & _ & Hold). now rewrite Hold.
  - apply eqb_neq in E. rewrite map_get_set_other in Hk by congruence.
    exact (HP _ _ Hk).
Qed.

(** Whatever its argument, [setProductions] stores whole sides only. *)
Lemma setProductions_filling (names : list jsstring)
  (start : option jsstring) (productionsStr : jsstring) :
  Inv.preserves (Conv.filling names start) (setProductions productionsStr).
Proof.
  unfold setProductions. apply preserves_forEach_In. intros piece Hin.
  change (lit ";") with [59%N] in Hin.
  pose proof (without_trim 59 _ (split_char_parts 59 _ piece Hin)) as Hp.
  destruct (split (lit "->") (trim piece)) as [|a [|b [|c rest]]] eqn:E;
    try apply preserves_throw.
  unfold split in E. change (lit "->") with [45%N; 62%N] in E.
  pose proof (split_arrow_parts (trim piece)) as [Hparts _].
  rewrite E in Hparts.
  assert (forall part, In part [a; b] -> Conv.whole (trim part) = true)
    as Hwhole.
  { intros part Hpart. unfold Conv.whole. apply andb_true_iff. split.
    - apply without_trim.
      apply (split_from_without 59 [45%N; 62%N] (trim piece) 0 part Hp).
      now rewrite E.
    - apply negb_true_iff. apply contains_trim. now apply Hparts. }
  apply addProduction_filling; apply Hwhole; simpl; auto.
Qed.

End Stored.

Section Exact.

Lemma addProduction_whole_all (pairs : list (jsstring * jsstring))
  (G : RegularGrammar.t) :
  pairs <> [] ->
  forallb (fun production =>
             Inv.trimmed (fst production) && Inv.trimmed (snd production) &&
             has (fst production) (RegularGrammar.nonTerminals G))
          pairs = true ->
  forallb (fun production =>
             Conv.whole (fst production) && Conv.whole (snd production))
          pairs = true ->
  RegularGrammar.setProductions
    (join (lit ";") (List.map Conv.render pairs)) G =
  (Ok tt,
   RegularGrammar.with_productions
     (Conv.push_all pairs (RegularGrammar.productions G)) G,
   []).
Proof.
  intros Hne Hgood Hwhole. unfold RegularGrammar.setProductions.
  change (lit ";") with [59%N].
  assert (forall l r, In (l, r) pairs ->
            (Conv.without 59 l = true /\
             Conv.contains (lit "->") l = false) /\
            (Conv.without 59 r = true /\
             Conv.contains (lit "->") r = false)) as Hsides.
  { intros l r Hin. rewrite forallb_forall in Hwhole.
    specialize (Hwhole _ Hin). simpl in Hwhole. unfold Conv.whole in Hwhole.
    apply andb_true_iff in Hwhole as [Hl Hr].
    apply andb_true_iff in Hl as [Hl1 Hl2].
    apply andb_true_iff in Hr as [Hr1 Hr2].
    apply negb_true_iff in Hl2, Hr2. now repeat split. }
  rewrite split_join.
  - rewrite forEach_map. rewrite <- (addProduction_all pairs G Hgood).
    apply forEach_ext. intros [l r] Hin G'.
    rewrite forallb_forall in Hgood.
    specialize (Hgood _ Hin). simpl in Hgood.
    apply andb_true_iff in Hgood as [Hgood _].
    apply andb_true_iff in Hgood as [Hl Hr].
    destruct (Hsides l r Hin) as [[_ Cl] [_ Cr]].
    rewrite trim_fixed.
    + now rewrite (split_arrow_sides l r Cl Cr).
    + unfold Conv.render. simpl.
      apply trimmed_app; [exact Hl|].
      apply (trimmed_app (lit "->") r); [reflexivity | exact Hr].
  - destruct pairs; [congruence | discriminate].
  - rewrite forallb_forall. intros s Hs.
    apply in_map_iff in Hs as ([l r] & <- & Hin).
    destruct (Hsides l r Hin) as [[Wl _] [Wr _]].
    unfold Conv.render. simpl fst. simpl snd.
    rewrite !without_app, Wl, Wr. reflexivity.
Qed.

(** The names of a transition of the table are trimmed. *)
Lemma wf_transition (A : FiniteAutomaton.t) (q a p : jsstring) :
  Inv.wf A = true ->
  In (FiniteAutomaton.mkTransition q a p)
     (FiniteAutomaton.getTransitionsArray A) ->
  Inv.trimmed q = true /\ Inv.trimmed a = true /\ Inv.trimmed p = true.
Proof.
  intros W Hin. apply In_table in Hin as (row & Hrow & Hap).
  unfold Inv.wf in W. apply andb_true_iff in W as [_ W].
  rewrite forallb_forall in W. specialize (W _ Hrow). simpl in W.
  apply andb_true_iff in W as [Tq W]. unfold Inv.row_ok in W.
  apply andb_true_iff in W as [_ W].
  rewrite forallb_forall in W. specialize (W _ Hap). simpl in W.
  apply andb_true_iff in W as [Ta Tp]. now repeat split.
Qed.

Lemma wf_state (A : FiniteAutomaton.t) (q : jsstring) :
  Inv.wf A = true -> has q (FiniteAutomaton.states A) = true ->
  Inv.trimmed q = true.
Proof.
  intros W Hq. unfold Inv.wf in W. apply andb_true_iff in W as [W _].
  apply andb_true_iff in W as [W _]. apply andb_true_iff in W as [Ws _].
  apply (set_ok_trimmed _ _ Ws). now apply has_In.
Qed.

(** Every pair of a convertible automaton can be stored. *)
Lemma pairs_stored (A : FiniteAutomaton.t) (initial : jsstring) :
  Inv.wf A = true ->
  has initial (FiniteAutomaton.states A) = true ->
  forallb (fun tr =>
             has (FiniteAutomaton.from tr) (FiniteAutomaton.states A))
          (FiniteAutomaton.getTransitionsArray A) = true ->
  forallb (fun production =>
             Inv.trimmed (fst production) && Inv.trimmed (snd production) &&
             has (fst production) (FiniteAutomaton.states A))
          (Conv.production_pairs A initial) = true.
Proof.
  intros W Hinit Hfrom.
  pose proof (wf_state A initial W Hinit) as Tinit.
  rewrite forallb_forall in *. intros [l r] Hin.
  apply In_production_pairs in Hin. simpl.
  destruct Hin as [(a & p & Hin & Hr) | (-> & _ & ->)].
  - destruct (wf_transition A l a p W Hin) as (Tq & Ta & Tp).
    specialize (Hfrom _ Hin). simpl in Hfrom.
    destruct Hr as [-> | [_ ->]];
      rewrite ?trimmed_app by assumption; now rewrite Tq, ?Ta, Hfrom.
  - now rewrite Tinit, Hinit.
Qed.

(** The grammar a convertible automaton is converted to. *)
Lemma fill_grammar_convertible (A : FiniteAutomaton.t) (q0 : jsstring)
  (G : RegularGrammar.t) :
  Inv.wf A = true -> Conv.convertible A = true ->
  FiniteAutomaton.initialState A = Some q0 ->
  RegularGrammar.productions G = [] ->
  fill_grammar A G =
  (Ok tt,
   RegularGrammar.with_productions
     (Conv.push_all (Conv.production_pairs A q0) [])
     (RegularGrammar.with_startSymbol (Some q0)
        (RegularGrammar.with_terminals (FiniteAutomaton.alphabet A)
           (RegularGrammar.with_nonTerminals (FiniteAutomaton.states A) G))),
   []).
Proof.
  intros W C I Hempty. unfold Conv.convertible in C. rewrite I in C.
  apply andb_true_iff in C as [C Hwhole].
  apply andb_true_iff in C as [Hinit Hfrom].
  pose proof (pairs_stored A q0 W Hinit Hfrom) as Hgood.
  pose proof (wf_state A q0 W Hinit) as Tinit.
  pose proof W as W'. unfold Inv.wf in W'.
  apply andb_true_iff in W' as [W' _]. apply andb_true_iff in W' as [W' _].
  apply andb_true_iff in W' as [Ws Wa].
  unfold fill_grammar. rewrite I.
  rewrite (bind_ok _ _ G _ _ _ (setNonTerminals_run _ G)).
  rewrite (added_fixed (FiniteAutomaton.states A) []) by exact Ws.
  rewrite (bind_ok _ _ _ _ _ _ (setTerminals_run _ _)).
  rewrite (added_fixed (FiniteAutomaton.alphabet A) []) by exact Wa.
  simpl app.
  set (G2 := RegularGrammar.with_terminals _ _).
  assert (RegularGrammar.setStartSymbol q0 G2 =
          (Ok tt, RegularGrammar.with_startSymbol (Some q0) G2, [])) as E3.
  { rewrite setStartSymbol_run, (trim_fixed q0 Tinit).
    subst G2. simpl. now rewrite Hinit. }
  rewrite (bind_ok _ _ G2 _ _ _ E3).
  set (G3 := RegularGrammar.with_startSymbol _ _).
  rewrite production_strings_pairs, length_map.
  destruct (Conv.production_pairs A q0) as [|pr pairs] eqn:P.
  - simpl. unfold ret. subst G3 G2. destruct G. simpl in *. now subst.
  - unfold when. change (0 <? length (pr :: pairs)) with true. cbv iota.
    rewrite (addProduction_whole_all (pr :: pairs) G3);
      [| discriminate | exact Hgood | exact Hwhole].
    subst G3 G2. simpl. now rewrite Hempty.
Qed.

(** A grammar that has been filled has whole sides only, under
    nonterminals. *)
Lemma fill_grammar_filling (A : FiniteAutomaton.t) (name : jsstring)
  (G : RegularGrammar.t) (out : list Warning) :
  Inv.wf A = true ->
  fill_grammar A (RegularGrammar.new name) = (Ok tt, G, out) ->
  exists q0,
    FiniteAutomaton.initialState A = Some q0 /\
    has (trim q0) (FiniteAutomaton.states A) = true /\
    Conv.filling (FiniteAutomaton.states A) (Some (trim q0)) G.
Proof.
  intros W. pose proof W as W'. unfold Inv.wf in W'.
  apply andb_true_iff in W' as [W' _]. apply andb_true_iff in W' as [W' _].
  apply andb_true_iff in W' as [Ws Wa].
  unfold fill_grammar.
  rewrite (bind_ok _ _ _ _ _ _ (setNonTerminals_run _ _)).
  rewrite (added_fixed (FiniteAutomaton.states A) []) by exact Ws.
  rewrite (bind_ok _ _ _ _ _ _ (setTerminals_run _ _)).
  rewrite (added_fixed (FiniteAutomaton.alphabet A) []) by exact Wa.
  simpl app.
  set (G2 := RegularGrammar.with_terminals _ _).
  destruct (FiniteAutomaton.initialState A) as [q0|]; [|discriminate].
  intros E. exists q0. split; [reflexivity|].
  unfold bind in E at 1. rewrite setStartSymbol_run in E.
  change (RegularGrammar.nonTerminals G2) with (FiniteAutomaton.states A)
    in E.
  destruct (has (trim q0) (FiniteAutomaton.states A)); [|discriminate].
  split; [reflexivity|]. cbn [negb] in E.
  set (G3 := RegularGrammar.with_startSymbol _ _) in E.
  assert (Conv.filling (FiniteAutomaton.states A) (Some (trim q0)) G3)
    as H3.
  { split; [reflexivity|]. split; [reflexivity|].
    intros l rs Hl. discriminate. }
  match type of E with
  | context [when ?b ?m G3] =>
      assert (Inv.preserves
                (Conv.filling (FiniteAutomaton.states A) (Some (trim q0)))
                (when b m)) as Hm;
      [| specialize (Hm G3 H3); destruct (when b m G3) as [[r s] o];
         simpl in E; injection E as _ <- _; exact Hm ]
  end.
  unfold when. destruct (0 <? _).
  - apply setProductions_filling.
  - intros s Hs. exact Hs.
Qed.

(** The right-hand sides of the rules that read as the empty word. *)
Lemma production_epsilon (A : FiniteAutomaton.t) :
  Inv.wf A = true ->
  (forall l, Spec.production A l epsilon <->
             FiniteAutomaton.initialState A = Some l /\
             has l (FiniteAutomaton.finalStates A) = true) <->
  Conv.epsilon_kept A = true.
Proof.
  intros W. unfold Conv.epsilon_kept. rewrite forallb_forall. split.
  - intros H [q a p] Hin. simpl.
    destruct (Conv.writes_epsilon A _) eqn:E; [|reflexivity]. simpl.
    apply (In_target A q a p W) in Hin.
    assert (Spec.production A q epsilon) as Hp.
    { unfold Conv.writes_epsilon in E. simpl in E.
      apply orb_true_iff in E as [E | E].
      - left. exists a, p. apply eqb_eq in E. now split.
      - right. left. apply andb_true_iff in E as [E F].
        apply eqb_eq in E. exists a, p. now repeat split. }
    apply H in Hp as [-> F]. now rewrite eqb_refl, F.
  - intros H l. split; [|intros [I F]; right; right; now repeat split].
    intros [(a & p & T & E) | [(a & p & T & F & E) | (I & F & _)]];
      [| |now split];
      apply target_In in T; specialize (H _ T); simpl in H;
      unfold Conv.writes_epsilon in H; simpl in H;
      rewrite <- ?E, ?eqb_refl, ?F in H; simpl in H;
      rewrite ?orb_true_r in H; simpl in H;
      (destruct (FiniteAutomaton.initialState A) as [q0|];
       [|discriminate]);
      apply andb_true_iff in H as [H1 H2];
      apply eqb_eq in H1; now subst.
Qed.

End Exact.

(** C2, as the code has it.  [toRegularGrammar] leaves the automaton as it
    was, whether it returns or throws.  For an automaton in order it
    returns the grammar of the claim (the nonterminals are the states, the
    terminals the alphabet, the start symbol the initial state, and the
    right-hand sides stored for a nonterminal are exactly those of the
    three rules) if and only if the automaton is convertible: its initial
    state is set and is a state, every transition starts from a state, and
    no side of a production of the rules has a [;] or a [->] in it.  In
    the grammar returned the letter epsilon is stored for the initial state
    when it is final, and for nothing else, if and only if no transition
    writes that letter as a right-hand side from another state: a
    transition whose symbol and target together spell it, or whose symbol
    is that letter and whose target is final. *)
Theorem toRegularGrammar_productions :
  forall A : FiniteAutomaton.t,
    Inv.wf A = true ->
    snd (fst (toRegularGrammar A)) = A /\
    (Conv.convertible A = true <->
     exists G : RegularGrammar.t,
       toRegularGrammar A = (Ok G, A, []) /\
       RegularGrammar.nonTerminals G = FiniteAutomaton.states A /\
       RegularGrammar.terminals G = FiniteAutomaton.alphabet A /\
       RegularGrammar.startSymbol G = FiniteAutomaton.initialState A /\
       (forall l r, In r (Spec.rights G l) <-> Spec.production A l r) /\
       ((forall l, In epsilon (Spec.rights G l) <->
                   FiniteAutomaton.initialState A = Some l /\
                   has l (FiniteAutomaton.finalStates A) = true) <->
        Conv.epsilon_kept A = true)).
Proof.
  intros A W. split; [apply toRegularGrammar_pure|]. split.
  - intros C.
    destruct (FiniteAutomaton.initialState A) as [q0|] eqn:I;
      [|unfold Conv.convertible in C; rewrite I in C; discriminate].
    assert (forall l r,
              In r (match map_get l (Conv.push_all
                                       (Conv.production_pairs A q0) []) with
                    | Some rs => rs
                    | None => []
                    end) <-> Spec.production A l r) as Hrules.
    { intros l r. rewrite rights_push_all, In_production_pairs. split.
      - intros [[] | [(a & p & Hin & Hr) | (-> & F & ->)]].
        + apply (In_target A l a p W) in Hin.
          destruct Hr as [-> | [F ->]]; [left | right; left];
            exists a, p; auto.
        + right. right. now rewrite I.
      - intros [(a & p & T & ->) | [(a & p & T & F & ->) | (E & F & ->)]];
          right.
        + left. exists a, p. split; [now apply target_In | now left].
        + left. exists a, p. split; [now apply target_In | now right].
        + right. rewrite I in E. injection E as <-. now repeat split. }
    eexists. split.
    + rewrite toRegularGrammar_run.
      rewrite (fill_grammar_convertible A q0
                 (RegularGrammar.new (lit "GR_" ++ FiniteAutomaton.name A))
                 W C I eq_refl).
      reflexivity.
    + repeat (split; [reflexivity|]). split; [exact Hrules|].
      rewrite <- (production_epsilon A W), I.
      split; intros H l; specialize (H l); now rewrite <- H, <- Hrules.
  - intros (G & E & HN & _ & HS & Hrules & _).
    rewrite toRegularGrammar_run in E.
    destruct (fill_grammar A _) as [[[[]|e] G'] out] eqn:F; [|discriminate].
    injection E as -> _.
    destruct (fill_grammar_filling A _ G out W F)
      as (q0 & I & Hq0 & (_ & HS' & Hstored)).
    assert (trim q0 = q0) as T by (rewrite HS', I in HS; congruence).
    rewrite T in Hq0.
    assert (forall l r, Spec.production A l r ->
              has l (FiniteAutomaton.states A) = true /\
              Conv.whole l = true /\ Conv.whole r = true) as Hsides.
    { intros l r Hp. apply Hrules in Hp. unfold Spec.rights in Hp.
      destruct (map_get l (RegularGrammar.productions G)) as [rs|] eqn:L;
        [|destruct Hp].
      destruct (Hstored _ _ L) as (Hl & Wl & Wrs).
      rewrite HN in Hl. rewrite forallb_forall in Wrs. auto. }
    unfold Conv.convertible. rewrite I, Hq0. simpl.
    apply andb_true_iff. split; rewrite forallb_forall.
    + intros [q a p] Hin. simpl. apply (In_target A q a p W) in Hin.
      apply (Hsides q (a ++ p)). left. now exists a, p.
    + intros [l r] Hin. simpl.
      assert (Spec.production A l r) as Hp.
      { apply In_production_pairs in Hin.
        destruct Hin as [(a & p & Hin & Hr) | (-> & F' & ->)].
        - apply (In_target A l a p W) in Hin.
          destruct Hr as [-> | [F' ->]]; [left | right; left];
            exists a, p; auto.
        - right. right. now repeat split. }
      destruct (Hsides l r Hp) as (_ & Wl & Wr). now rewrite Wl, Wr.
Qed.

(** The automaton of section 8. *)
Lemma toRegularGrammar_productions_witness :
  Inv.wf Examples.automatonX = true /\
  Conv.convertible Examples.automatonX = true /\
  Conv.epsilon_kept Examples.automatonX = true /\
  exists G : RegularGrammar.t,
    toRegularGrammar Examples.automatonX = (Ok G, Examples.automatonX, []) /\
    RegularGrammar.nonTerminals G =
      FiniteAutomaton.states Examples.automatonX /\
    RegularGrammar.terminals G =
      FiniteAutomaton.alphabet Examples.automatonX /\
    RegularGrammar.startSymbol G =
      FiniteAutomaton.initialState Examples.automatonX /\
    (forall l r, In r (Spec.rights G l) <->
                 Spec.production Examples.automatonX l r) /\
    ((forall l, In epsilon (Spec.rights G l) <->
                FiniteAutomaton.initialState Examples.automatonX = Some l /\
                has l (FiniteAutomaton.finalStates Examples.automatonX)
                = true) <->
     Conv.epsilon_kept Examples.automatonX = true).
Proof.
  split; [reflexivity|]. split; [reflexivity|]. split; [reflexivity|].
  destruct (toRegularGrammar_productions Examples.automatonX eq_refl)
    as [_ [H _]].
  exact (H eq_refl).
Defined.

(** C2 as stated fails: a new automaton has no initial state and the
    conversion throws on it; and the complete, valid automaton of
    [fileArrow], with [q -- - --> >], makes the string [q->->], which
    [setProductions] splits into three fields and refuses. *)
Lemma toRegularGrammar_throws :
  toRegularGrammar (FiniteAutomaton.new (lit "A")) =
    (Throw TypeErrorNull, FiniteAutomaton.new (lit "A"), []) /\
  exists W : FiniteAutomaton.t,
    Api.load Examples.fileArrow (lit "W") = Some W /\
    Spec.complete_valid W = true /\
    Spec.target W (lit "q") (lit "-") = Some (lit ">") /\
    toRegularGrammar W = (Throw (BadProductionFormat (lit "q->->")), W, []).
Proof.
  split; [reflexivity|].
  eexists. split; [vm_compute; reflexivity|].
  repeat split; vm_compute; reflexivity.
Qed.

(** Section 8: the productions of the automaton [X], in the order stored;
    [q0] is not final and there is no epsilon production. *)
Example toRegularGrammar_X :
  exists G : RegularGrammar.t,
    toRegularGrammar Examples.automatonX = (Ok G, Examples.automatonX, []) /\
    RegularGrammar.productions G =
      [(lit "q0", [lit "aq1"; lit "a"; lit "bq0"]);
       (lit "q1", [lit "aq1"; lit "a"; lit "bq0"])].
Proof. eexists. split; vm_compute; reflexivity. Qed.

(** A state named [>] converts: [q->a>] has one arrow. *)
Example toRegularGrammar_arrow_head :
  Inv.names_plain Conv.arrowHead = false /\
  Conv.convertible Conv.arrowHead = true /\
  exists G : RegularGrammar.t,
    toRegularGrammar Conv.arrowHead = (Ok G, Conv.arrowHead, []) /\
    RegularGrammar.productions G = [(lit "q", [lit "a>"; lit "a"])].
Proof.
  split; [reflexivity|]. split; [reflexivity|].
  eexists. split; vm_compute; reflexivity.
Qed.

(** The automaton in order, consistent and with plain names whose symbol
    is the letter epsilon: the second rule stores that letter for [q],
    which is initial and not final. *)
Example toRegularGrammar_epsilon_symbol :
  Inv.wf Conv.epsilonSymbol = true /\
  Inv.consistent Conv.epsilonSymbol = true /\
  Conv.convertible Conv.epsilonSymbol = true /\
  Conv.epsilon_kept Conv.epsilonSymbol = false /\
  FiniteAutomaton.initialState Conv.epsilonSymbol = Some (lit "q") /\
  has (lit "q") (FiniteAutomaton.finalStates Conv.epsilonSymbol) = false /\
  exists G : RegularGrammar.t,
    toRegularGrammar Conv.epsilonSymbol = (Ok G, Conv.epsilonSymbol, []) /\
    RegularGrammar.productions G =
      [(lit "q", [epsilon ++ lit "p"; epsilon])].
Proof.
  repeat (split; [vm_compute; reflexivity|]).
  eexists. split; vm_compute; reflexivity.
Qed.

(* ===================================================================== *)
(** ** parseInt on the text of an integer                                 *)
(* ===================================================================== *)

Section ParseInt.

Ltac split_bits :=
  repeat match goal with
         | |- context [match ?x with xI _ => _ | xO _ => _ | xH => _ end] =>
             is_var x; destruct x
         end.

Lemma digit_cases (c : N) :
  Spec.is_digit c = true ->
  (c = 48 \/ c = 49 \/ c = 50 \/ c = 51 \/ c = 52 \/
   c = 53 \/ c = 54 \/ c = 55 \/ c = 56 \/ c = 57)%N.
Proof.
  unfold Spec.is_digit. intros H. apply andb_true_iff in H as [H1 H2].
  apply N.leb_le in H1. apply N.leb_le in H2. lia.
Qed.

Ltac each_digit H :=
  apply digit_cases in H;
  repeat (destruct H as [H | H]); subst.

Lemma digit_decimal (c : N) :
  Spec.is_digit c = true -> digit 10 c = Some (c - 48)%N.
Proof. intros H. each_digit H; reflexivity. Qed.

Lemma digit_not_ws (c : N) : Spec.is_digit c = true -> is_ws c = false.
Proof. intros H. each_digit H; reflexivity. Qed.

Lemma digits_decimal (ds : jsstring) :
  forallb Spec.is_digit ds = true ->
  forall acc : N,
    digits 10 (Some acc) ds =
    Some (fold_left (fun acc c => acc * 10 + (c - 48))%N ds acc).
Proof.
  induction ds as [|d ds IH]; intros H acc; [reflexivity|].
  simpl in H. apply andb_true_iff in H as [Hd Hds].
  simpl. rewrite (digit_decimal d Hd). apply IH. exact Hds.
Qed.

Lemma strip_hex_decimal (ds : jsstring) :
  forallb Spec.is_digit ds = true -> strip_hex ds = (10%N, ds).
Proof.
  destruct ds as [|c [|d ds]]; intros H; [reflexivity| |].
  - simpl in H. apply andb_true_iff in H as [Hc _].
    each_digit Hc; reflexivity.
  - simpl in H. apply andb_true_iff in H as [Hc H].
    apply andb_true_iff in H as [Hd _].
    each_digit Hc; try reflexivity. each_digit Hd; reflexivity.
Qed.

Lemma strip_sign_cases (c : N) (r : jsstring) :
  (c = 45%N /\ strip_sign (c :: r) = (true, r)) \/
  (c = 43%N /\ strip_sign (c :: r) = (false, r)) \/
  (c <> 45%N /\ c <> 43%N /\ strip_sign (c :: r) = (false, c :: r)).
Proof.
  unfold strip_sign. destruct c as [|p].
  - right. right. repeat split; discriminate.
  - split_bits;
      first [ left; split; reflexivity
            | right; left; split; reflexivity
            | right; right; repeat split; discriminate ].
Qed.

(** Decimal digits after the sign are read to the end, in base ten. *)
Lemma parseInt_digits (d : N) (ds : jsstring) :
  forallb Spec.is_digit (d :: ds) = true ->
  digits (fst (strip_hex (d :: ds))) None (snd (strip_hex (d :: ds))) =
  Some (fold_left (fun acc c => acc * 10 + (c - 48))%N (d :: ds) 0%N).
Proof.
  intros H. rewrite (strip_hex_decimal _ H). cbn [fst snd].
  cbn [forallb] in H. apply andb_true_iff in H as [Hd Hds].
  cbn [digits]. rewrite (digit_decimal d Hd).
  rewrite (digits_decimal ds Hds). reflexivity.
Qed.

(** On the text of an integer [parseInt] returns the integer, as a
    number. *)
Lemma parseInt_integer (s : jsstring) :
  Spec.is_integer s = true ->
  parseInt s = to_number (Spec.integer_value s).
Proof.
  unfold Spec.is_integer, Spec.integer_value, parseInt.
  destruct s as [|c r]; [discriminate|].
  destruct (strip_sign_cases c r) as [[-> E] | [[-> E] | (N1 & N2 & E)]];
    rewrite E; cbn [fst snd].
  - destruct r as [|d ds]; [discriminate|]. intros H.
    change (trimStart (45%N :: d :: ds)) with (45%N :: d :: ds).
    rewrite E. pose proof (parseInt_digits d ds H) as K.
    destruct (strip_hex (d :: ds)) as [radix s2]. cbn [fst snd] in K.
    now rewrite K.
  - destruct r as [|d ds]; [discriminate|]. intros H.
    change (trimStart (43%N :: d :: ds)) with (43%N :: d :: ds).
    rewrite E. pose proof (parseInt_digits d ds H) as K.
    destruct (strip_hex (d :: ds)) as [radix s2]. cbn [fst snd] in K.
    now rewrite K.
  - intros H. pose proof H as H'. cbn [forallb] in H'.
    apply andb_true_iff in H' as [Hc _].
    cbn [trimStart]. rewrite (digit_not_ws c Hc), E.
    pose proof (parseInt_digits c r H) as K.
    destruct (strip_hex (c :: r)) as [radix s2]. cbn [fst snd] in K.
    now rewrite K.
Qed.

End ParseInt.

(* ===================================================================== *)
(** ** Loaded automata are in order                                       *)
(* ===================================================================== *)

Section LoadedInOrder.

Import AutomataParser.

Lemma preserves_try_catch {Obj A : Type} (P : Obj -> Prop) (m : M Obj A)
  (h : Error -> M Obj A) :
  Inv.preserves P m -> (forall e, Inv.preserves P (h e)) ->
  Inv.preserves P (try_catch m h).
Proof.
  intros Hm Hh s Hs. unfold try_catch. specialize (Hm s Hs).
  destruct (m s) as [[[a|e] s'] out]; simpl in *; [exact Hm|].
  specialize (Hh e s' Hm). now destruct (h e s') as [[r s''] out'].
Qed.

Lemma preserves_forEachFrom {Obj A : Type} (P : Obj -> Prop)
  (f : A -> nat -> M Obj unit) (l : list A) :
  (forall x i, Inv.preserves P (f x i)) ->
  forall index, Inv.preserves P (forEachFrom index f l).
Proof.
  intros Hf. induction l as [|x l IH]; intros index; simpl.
  - intros s Hs. exact Hs.
  - apply preserves_bind; [apply Hf | intros _; apply IH].
Qed.

Lemma onAutomaton_in_order (name : jsstring) (m : M FiniteAutomaton.t unit) :
  Inv.preserves Inv.in_order m ->
  Inv.preserves Loaded.all_in_order (onAutomaton name m).
Proof.
  intros Hm P H. unfold onAutomaton.
  destruct (map_get name (automata P)) as [automaton|] eqn:G; [|exact H].
  pose proof (Hm automaton (H name automaton G)) as K.
  destruct (m automaton) as [[r automaton'] out]. simpl in *.
  intros n A. simpl. destruct (eqb n name) eqn:E.
  - apply eqb_eq in E. subst n. rewrite map_get_set_same.
    intros [= <-]. exact K.
  - apply eqb_neq in E. rewrite map_get_set_other by congruence.
    apply H.
Qed.

Lemma onGrammar_in_order (name : jsstring) (m : M RegularGrammar.t unit) :
  Inv.preserves Loaded.all_in_order (onGrammar name m).
Proof.
  intros P H. unfold onGrammar.
  destruct (map_get name (grammars P)) as [grammar|]; [|exact H].
  destruct (m grammar) as [[r grammar'] out]. exact H.
Qed.

Lemma ensureGrammar_in_order (name : jsstring) :
  Inv.preserves Loaded.all_in_order (ensureGrammar name).
Proof.
  intros P H. unfold ensureGrammar. run.
  destruct (map_has name (grammars P)); exact H.
Qed.

Lemma dispatch_in_order (id : number) (name info : jsstring) :
  Inv.preserves Loaded.all_in_order (dispatch id name info).
Proof.
  unfold dispatch. destruct id as [|[|p|p]|negative]; try apply preserves_throw.
  repeat match goal with
         | |- context [match ?x with xI _ => _ | xO _ => _ | xH => _ end] =>
             is_var x; destruct x
         end;
    try apply preserves_throw;
    try (apply preserves_bind;
         [apply ensureGrammar_in_order | intros _; apply onGrammar_in_order]);
    apply onAutomaton_in_order.
  - exact (perform_wf (Api.SetTransitions _)).
  - exact (perform_wf (Api.SetInitialState _)).
  - exact (perform_wf (Api.SetFinalStates _)).
  - exact (perform_wf (Api.SetAlphabet _)).
  - exact (perform_wf (Api.SetStates _)).
Qed.

Lemma parseLine_in_order (line : jsstring) :
  Inv.preserves Loaded.all_in_order (parseLine line).
Proof.
  unfold parseLine.
  destruct (split (lit ":") line) as [|a [|b [|c [|d l]]]];
    try apply preserves_throw.
  intros P H. unfold bind at 1, get at 1.
  assert (Inv.preserves Loaded.all_in_order
            (when (negb (map_has (trim b) (automata P)))
                  (modify (with_automata
                             (map_set (trim b) (FiniteAutomaton.new (trim b))
                                      (automata P)))) ;;
             dispatch (parseInt (trim a)) (trim b) (trim c))) as K;
    [|specialize (K P H);
      destruct ((when _ _ ;; dispatch _ _ _) P) as [[r s] out]; exact K].
  apply preserves_bind; [|intros _; apply dispatch_in_order].
  unfold when. destruct (negb (map_has (trim b) (automata P)));
    [|intros s Hs; exact Hs].
  intros s _ n A. simpl. destruct (eqb n (trim b)) eqn:E.
  - apply eqb_eq in E. subst n. rewrite map_get_set_same.
    intros [= <-]. reflexivity.
  - apply eqb_neq in E. rewrite map_get_set_other by congruence.
    apply H.
Qed.

Lemma parseFile_in_order (content : jsstring) :
  Inv.preserves Loaded.all_in_order (parseFile content).
Proof.
  unfold parseFile. apply preserves_bind.
  - unfold parseLines. apply preserves_forEachFrom. intros line index.
    apply preserves_try_catch; [apply parseLine_in_order|].
    intros e. apply preserves_throw.
  - intros _. apply preserves_bind; [apply preserves_get|].
    intros P s Hs. exact Hs.
Qed.

(** An automaton loaded from a file is in order. *)
Lemma load_in_order (content name : jsstring) (A : FiniteAutomaton.t) :
  Api.load content name = Some A -> Inv.wf A = true.
Proof.
  unfold Api.load, getAutomaton. intros H.
  assert (Loaded.all_in_order new) as H0 by (intros n B; discriminate).
  pose proof (parseFile_in_order content new H0) as K.
  destruct (parseFile content new) as [[[r|e] P] out]; [|discriminate].
  exact (K name A H).
Qed.

End LoadedInOrder.

(** An integer code other than 1 .. 9 is an unknown code. *)
Lemma parseLine_integer_out_of_range (line idInfo name info : jsstring)
  (P : AutomataParser.t) :
  split (lit ":") line = [idInfo; name; info] ->
  Spec.is_integer (trim idInfo) = true ->
  (Spec.integer_value (trim idInfo) < 1 \/
   9 < Spec.integer_value (trim idInfo))%Z ->
  exists P',
    AutomataParser.parseLine line P =
      (Throw (UnknownId (to_number (Spec.integer_value (trim idInfo)))),
       P', []).
Proof.
  intros Hsplit Hint Hout.
  destruct (parseLine_default line idInfo name info P Hsplit) as [P' E].
  - intros z Hz. rewrite (parseInt_integer _ Hint) in Hz.
    unfold to_number in Hz.
    destruct (Z.abs (Spec.integer_value (trim idInfo)) <=? 2 ^ 53)%Z;
      [|discriminate].
    injection Hz as <-. exact Hout.
  - exists P'. now rewrite (parseInt_integer _ Hint) in E.
Qed.

(* ===================================================================== *)
(** ** recognizeWord: what every verdict means                            *)
(* ===================================================================== *)

Section Verdicts.

Import FiniteAutomaton.

(** The loop on any automaton, from a current state that is a string: when
    it returns, it has walked the table as far as it says. *)
Lemma consume_any (w : jsstring) :
  forall (A A' : t) (q : jsstring) (r : option jsstring)
         (out : list Warning),
    currentState A = Some q ->
    consume w A = (Ok r, A', out) ->
    match r with
    | None =>
        exists q', Spec.walk A q w = Some q' /\ currentState A' = Some q'
    | Some s =>
        exists pre c post q',
          w = pre ++ c :: post /\ s = [c] /\
          Spec.walk A q pre = Some q' /\ currentState A' = Some q' /\
          Walk.stuck A q' c
    end.
Proof.
  induction w as [|c w IH]; intros A A' q r out Hcur H.
  - simpl in H. unfold ret in H. injection H as Hr HA Ho; try (injection Hr as Hr); subst r A' out.
    exists q. now split.
  - simpl in H. unfold bind in H. rewrite processSymbol_run, Hcur in H.
    destruct q as [|c0 q0]; [discriminate|].
    destruct (has [c] (alphabet A)) eqn:Ha.
    + destruct (Spec.target A (c0 :: q0) [c]) as [p|] eqn:T.
      * destruct (consume w (Exec.moved A [c] p)) as [[r1 A1] out1] eqn:E.
        destruct r1 as [r1|e]; simpl in H; [|discriminate].
        injection H as Hr HA Ho; try (injection Hr as Hr); subst r A' out.
        specialize (IH (Exec.moved A [c] p) A1 p r1 out1 eq_refl E).
        destruct r1 as [s|].
        -- destruct IH as (pre & d & post & q' & -> & -> & Hw & Hc & Hs).
           rewrite (walk_ext _ A p pre (moved_definition A [c] p)) in Hw.
           exists (c :: pre), d, post, q'. simpl. rewrite Ha, T.
           repeat split; assumption.
        -- destruct IH as (q' & Hw & Hc).
           rewrite (walk_ext _ A p w (moved_definition A [c] p)) in Hw.
           exists q'. simpl. rewrite Ha, T. now split.
      * simpl in H. unfold ret in H. injection H as Hr HA Ho; try (injection Hr as Hr); subst r A' out.
        exists [], c, w, (c0 :: q0). repeat split; try assumption.
        now right.
    + simpl in H. unfold ret in H. injection H as Hr HA Ho; try (injection Hr as Hr); subst r A' out.
      exists [], c, w, (c0 :: q0). repeat split; try assumption.
      now left.
Qed.

(** With no current state the loop throws on the first symbol. *)
Lemma consume_uninitialized (w : jsstring) (A A' : t) (r : option jsstring)
  (out : list Warning) :
  currentState A = None ->
  consume w A = (Ok r, A', out) -> w = [] /\ r = None /\ A' = A.
Proof.
  intros Hcur H. destruct w as [|c w].
  - simpl in H. unfold ret in H. injection H as Hr HA Ho; try (injection Hr as Hr); subst r A' out. now repeat split.
  - simpl in H. unfold bind in H. rewrite processSymbol_run, Hcur in H.
    discriminate.
Qed.

(** [recognizeWord], from the outcome of its loop. *)
Lemma recognizeWord_run (w : jsstring) (A : t) :
  recognizeWord w A =
  match consume w (Exec.restarted A) with
  | (Ok (Some s), A', out) =>
      (Ok (mkResult w false (executionPath A')
                    (Some (NoTransition s (currentState A'))) None),
       A', [] ++ out ++ [] ++ [])
  | (Ok None, A', out) =>
      (Ok (mkResult w
                    (match currentState A' with
                     | Some q => has q (finalStates A')
                     | None => false
                     end)
                    (executionPath A') None (currentState A')),
       A', [] ++ out ++ [] ++ [])
  | (Throw e, A', out) =>
      (Ok (mkResult w false [] (Some (Caught e)) None), A', [] ++ out ++ [])
  end.
Proof.
  unfold recognizeWord.
  rewrite (bind_ok reset _ A _ _ _ (reset_run A)).
  unfold try_catch, bind.
  destruct (consume w (Exec.restarted A)) as [[[[s|]|e] A'] out];
    reflexivity.
Qed.

End Verdicts.

Section VerdictTheorems.

Import FiniteAutomaton.

Lemma walk_over_alphabet (A : t) (w : jsstring) :
  forall q q', Spec.walk A q w = Some q' -> Spec.over_alphabet A w = true.
Proof.
  induction w as [|c w IH]; intros q q' H; [reflexivity|].
  simpl in *. destruct (has [c] (alphabet A)); [|discriminate].
  destruct (Spec.target A q [c]) as [p|]; [|discriminate].
  simpl. exact (IH p q' H).
Qed.

(** The loop leaves the definition alone, whatever it returns. *)
Lemma consume_definition (w : jsstring) (A A' : t)
  (r : result (option jsstring)) (out : list Warning) :
  consume w A = (r, A', out) -> Inv.same_definition A' A /\ out = [].
Proof.
  intros H. destruct (consume_shape w A) as (r1 & A1 & E & D).
  rewrite E in H. injection H as _ <- <-. now split.
Qed.

End VerdictTheorems.

(** X1. Whatever the automaton, a word that [recognizeWord] accepts is a
    word the transition table accepts: the automaton has an initial state,
    every code unit of the word is a symbol of the alphabet, the table leads
    from the initial state over the word to a final state, and that state is
    the [finalState] reported, with no error. *)
Theorem recognizeWord_sound :
  forall (A A' : FiniteAutomaton.t) (w : jsstring)
         (r : FiniteAutomaton.Result) (out : list Warning),
    FiniteAutomaton.recognizeWord w A = (Ok r, A', out) ->
    FiniteAutomaton.accepted r = true ->
    exists q0 q,
      FiniteAutomaton.initialState A = Some q0 /\
      Spec.walk A q0 w = Some q /\
      has q (FiniteAutomaton.finalStates A) = true /\
      Spec.over_alphabet A w = true /\
      FiniteAutomaton.finalState r = Some q /\
      FiniteAutomaton.error r = None.
Proof.
  intros A A' w r out H Hacc. rewrite recognizeWord_run in H.
  destruct (FiniteAutomaton.consume w (Exec.restarted A))
    as [[[[s|]|e] A1] out1] eqn:E;
    injection H as Hr HA Ho; subst r A'; try discriminate.
  destruct (consume_definition _ _ _ _ _ E) as [D _].
  destruct (FiniteAutomaton.initialState A) as [q0|] eqn:I.
  - assert (FiniteAutomaton.currentState (Exec.restarted A) = Some q0)
      as Hcur by (unfold Exec.restarted; simpl; exact I).
    destruct (consume_any w _ _ _ _ _ Hcur E) as (q & Hw & Hc).
    rewrite (walk_ext _ A q0 w (restarted_definition A)) in Hw.
    simpl in Hacc. rewrite Hc in Hacc.
    destruct D as (_ & _ & _ & _ & F & _). simpl in F. rewrite F in Hacc.
    exists q0, q. repeat split; try assumption.
    exact (walk_over_alphabet A w q0 q Hw).
  - assert (FiniteAutomaton.currentState (Exec.restarted A) = None)
      as Hcur by (unfold Exec.restarted; simpl; exact I).
    destruct (consume_uninitialized w _ _ _ _ Hcur E) as (_ & _ & ->).
    simpl in Hacc. rewrite I in Hacc. discriminate.
Qed.

(** The automaton of section 8 accepts [a] in [q1]. *)
Lemma recognizeWord_sound_witness :
  exists q0 q,
    FiniteAutomaton.initialState Examples.automatonX = Some q0 /\
    Spec.walk Examples.automatonX q0 (lit "a") = Some q /\
    has q (FiniteAutomaton.finalStates Examples.automatonX) = true /\
    Spec.over_alphabet Examples.automatonX (lit "a") = true /\
    FiniteAutomaton.finalState Samples.acceptedA = Some q /\
    FiniteAutomaton.error Samples.acceptedA = None.
Proof.
  eapply (recognizeWord_sound Examples.automatonX _ (lit "a")
            Samples.acceptedA).
  - vm_compute. reflexivity.
  - reflexivity.
Defined.

(** X2. Whatever the automaton, when [recognizeWord] reports that there is
    no transition for a symbol from a state, that symbol is the first code
    unit of the word that cannot be consumed and the state is the one the
    table leads to over the code units before it; the word is rejected and
    the path returned is the trace up to that state. *)
Theorem recognizeWord_names_failure :
  forall (A A' : FiniteAutomaton.t) (w : jsstring)
         (r : FiniteAutomaton.Result) (out : list Warning)
         (s : jsstring) (source : option jsstring),
    FiniteAutomaton.recognizeWord w A = (Ok r, A', out) ->
    FiniteAutomaton.error r =
      Some (FiniteAutomaton.NoTransition s source) ->
    exists pre c post q0 q,
      w = pre ++ c :: post /\ s = [c] /\
      FiniteAutomaton.initialState A = Some q0 /\
      Spec.walk A q0 pre = Some q /\
      source = Some q /\
      Walk.stuck A q c /\
      FiniteAutomaton.accepted r = false /\
      FiniteAutomaton.finalState r = None /\
      FiniteAutomaton.path r = FiniteAutomaton.executionPath A'.
Proof.
  intros A A' w r out s source H Herr. rewrite recognizeWord_run in H.
  destruct (FiniteAutomaton.consume w (Exec.restarted A))
    as [[[[s1|]|e] A1] out1] eqn:E;
    injection H as Hr HA Ho; subst r A'; try discriminate.
  simpl in Herr. injection Herr as -> <-.
  destruct (FiniteAutomaton.initialState A) as [q0|] eqn:I.
  - assert (FiniteAutomaton.currentState (Exec.restarted A) = Some q0)
      as Hcur by (unfold Exec.restarted; simpl; exact I).
    destruct (consume_any w _ _ _ _ _ Hcur E)
      as (pre & c & post & q & -> & -> & Hw & Hc & Hs).
    rewrite (walk_ext _ A q0 pre (restarted_definition A)) in Hw.
    exists pre, c, post, q0, q. repeat split; assumption.
  - assert (FiniteAutomaton.currentState (Exec.restarted A) = None)
      as Hcur by (unfold Exec.restarted; simpl; exact I).
    destruct (consume_uninitialized w _ _ _ _ Hcur E) as (_ & Hr & _).
    discriminate.
Qed.

(** The automaton of section 8 on [ac]: [c] is not in the alphabet. *)
Lemma recognizeWord_names_failure_witness :
  exists pre c post q0 q,
    lit "ac" = pre ++ c :: post /\ lit "c" = [c] /\
    FiniteAutomaton.initialState Examples.automatonX = Some q0 /\
    Spec.walk Examples.automatonX q0 pre = Some q /\
    Some (lit "q1") = Some q /\
    Walk.stuck Examples.automatonX q c /\
    FiniteAutomaton.accepted Samples.rejectedAC = false /\
    FiniteAutomaton.finalState Samples.rejectedAC = None /\
    FiniteAutomaton.path Samples.rejectedAC =
      FiniteAutomaton.executionPath Samples.afterAC.
Proof.
  apply (recognizeWord_names_failure Examples.automatonX Samples.afterAC
           (lit "ac") Samples.rejectedAC [] (lit "c") (Some (lit "q1"))).
  - vm_compute. reflexivity.
  - reflexivity.
Defined.

Section Traces.

Import FiniteAutomaton.

Lemma trace_ext (A B : t) (w : jsstring) :
  Inv.same_definition A B ->
  forall q n, Walk.trace A q w n = Walk.trace B q w n.
Proof.
  intros (_ & _ & Ha & _ & _ & Ht).
  induction w as [|c w IH]; intros q n; simpl; [reflexivity|].
  unfold Spec.target. rewrite Ha, Ht.
  destruct (has [c] (alphabet B)); [|reflexivity].
  destruct (map_get q (transitions B)) as [row|]; [|reflexivity].
  destruct (map_get [c] row); [now rewrite IH | reflexivity].
Qed.

(** The steps of a trace are numbered one after the other. *)
Lemma trace_steps (A : t) (w : jsstring) :
  forall q n,
    List.map step (Walk.trace A q w n) =
    seq n (length (Walk.trace A q w n)).
Proof.
  induction w as [|c w IH]; intros q n; simpl; [reflexivity|].
  destruct (has [c] (alphabet A)); [|reflexivity].
  destruct (Spec.target A q [c]) as [p|]; [|reflexivity].
  simpl. now rewrite IH.
Qed.

(** A trace has one step per symbol exactly when the walk goes through. *)
Lemma trace_length (A : t) (w : jsstring) :
  forall q n,
    length (Walk.trace A q w n) <= length w /\
    (length (Walk.trace A q w n) = length w <-> Spec.walk A q w <> None).
Proof.
  induction w as [|c w IH]; intros q n; simpl.
  - split; [lia|]. split; [discriminate | reflexivity].
  - destruct (has [c] (alphabet A)); simpl;
      [|split; [lia|]; split; [discriminate | congruence]].
    destruct (Spec.target A q [c]) as [p|]; simpl;
      [|split; [lia|]; split; [discriminate | congruence]].
    destruct (IH p (S n)) as [Hle Hiff]. split; [lia|].
    rewrite <- Hiff. lia.
Qed.

(** Over targets that all have a name, the loop appends the trace of the
    table walk to the execution path. *)
Lemma consume_path (w : jsstring) :
  forall (A A' : t) (q : jsstring) (r : result (option jsstring))
         (out : list Warning),
    Inv.targets_nonempty A = true ->
    currentState A = Some q -> q <> [] ->
    consume w A = (r, A', out) ->
    executionPath A' =
    executionPath A ++ Walk.trace A q w (length (executionPath A)).
Proof.
  induction w as [|c w IH]; intros A A' q r out Hne Hcur Hq H.
  - simpl in H. unfold ret in H. injection H as _ <- _.
    simpl. now rewrite app_nil_r.
  - simpl in H. unfold bind in H. rewrite processSymbol_run, Hcur in H.
    destruct q as [|c0 q0]; [congruence|]. simpl.
    destruct (has [c] (alphabet A));
      [|unfold ret in H; injection H as _ <- _; now rewrite app_nil_r].
    destruct (Spec.target A (c0 :: q0) [c]) as [p|] eqn:T;
      [|unfold ret in H; injection H as _ <- _; now rewrite app_nil_r].
    destruct (consume w (Exec.moved A [c] p)) as [[r1 A1] out1] eqn:E.
    assert (A1 = A') as <-
        by (destruct r1; simpl in H; now injection H).
    pose proof (target_nonempty _ _ _ _ Hne T) as Hp.
    rewrite (IH (Exec.moved A [c] p) A1 p r1 out1 Hne eq_refl Hp E).
    rewrite (trace_ext _ A w (moved_definition A [c] p)).
    simpl. rewrite <- app_assoc, length_app. simpl.
    now rewrite Nat.add_1_r.
Qed.

End Traces.

(** X3. For an automaton whose initial state and transition targets are
    not the empty string, [recognizeWord] does what the transition table
    says.  It returns normally and never reports a missing [reset()]; it
    accepts exactly when the table leads from the initial state over the
    word to a final state, and then reports that state and no error;
    otherwise it reports a missing transition.  The path returned is the
    trace kept on the automaton: the initial state as step 0, then one
    step per symbol consumed, numbered 1, 2, ..., as many as the word has
    code units exactly when there is no error. *)
Theorem recognizeWord_follows_table :
  forall (A : FiniteAutomaton.t) (w q0 : jsstring),
    FiniteAutomaton.initialState A = Some q0 ->
    q0 <> [] ->
    Inv.targets_nonempty A = true ->
    exists (r : FiniteAutomaton.Result) (A' : FiniteAutomaton.t),
      FiniteAutomaton.recognizeWord w A = (Ok r, A', []) /\
      FiniteAutomaton.accepted r = Spec.accepts A w /\
      match Spec.walk A q0 w with
      | Some q => FiniteAutomaton.finalState r = Some q /\
                  FiniteAutomaton.error r = None
      | None => FiniteAutomaton.finalState r = None /\
                exists c q, FiniteAutomaton.error r =
                            Some (FiniteAutomaton.NoTransition [c] (Some q))
      end /\
      FiniteAutomaton.path r = FiniteAutomaton.executionPath A' /\
      FiniteAutomaton.path r =
        FiniteAutomaton.mkStep q0 None 0 :: Walk.trace A q0 w 1 /\
      List.map FiniteAutomaton.step (FiniteAutomaton.path r) =
        seq 0 (length (FiniteAutomaton.path r)) /\
      (FiniteAutomaton.error r = None <->
       length (FiniteAutomaton.path r) = S (length w)).
Proof.
  intros A w q0 I Hq Hne.
  assert (FiniteAutomaton.currentState (Exec.restarted A) = Some q0)
    as Hcur by (unfold Exec.restarted; simpl; exact I).
  destruct (consume_walk w (Exec.restarted A) q0 Hne Hcur Hq)
    as (A' & D & H).
  rewrite (walk_ext _ A q0 w (restarted_definition A)) in H.
  assert (FiniteAutomaton.executionPath A' =
          FiniteAutomaton.mkStep q0 None 0 :: Walk.trace A q0 w 1) as Hpath.
  { destruct (FiniteAutomaton.consume w (Exec.restarted A))
      as [[r1 A1] out1] eqn:E.
    assert (A1 = A') as ->.
    { destruct (Spec.walk A q0 w); [destruct H as [H _] | destruct H as [s H]];
        now injection H. }
    rewrite (consume_path w (Exec.restarted A) _ q0 _ _ Hne Hcur Hq E).
    rewrite (trace_ext _ A w (restarted_definition A)).
    unfold Exec.restarted. simpl. rewrite I.
    destruct q0; [congruence | reflexivity]. }
  assert (List.map FiniteAutomaton.step
            (FiniteAutomaton.mkStep q0 None 0 :: Walk.trace A q0 w 1) =
          seq 0 (length (FiniteAutomaton.mkStep q0 None 0
                           :: Walk.trace A q0 w 1))) as Hsteps
      by (simpl; now rewrite trace_steps).
  destruct (trace_length A w q0 1) as [_ Hlen].
  rewrite recognizeWord_run. unfold Spec.accepts. rewrite I.
  destruct (Spec.walk A q0 w) as [q|] eqn:W.
  - destruct H as [E C]. rewrite E. eexists _, A'.
    split; [reflexivity|]. simpl. rewrite C.
    destruct D as (_ & _ & _ & _ & F & _). simpl in F. rewrite F.
    repeat split; try assumption; try reflexivity.
    + rewrite Hpath. exact Hsteps.
    + intros _. rewrite Hpath. simpl. f_equal. apply Hlen. discriminate.
  - destruct H as [s E]. rewrite E. eexists _, A'.
    split; [reflexivity|]. simpl.
    assert (exists c q, s = [c] /\
                        FiniteAutomaton.currentState A' = Some q)
      as (c & q & -> & C).
    { destruct (consume_any w _ _ _ _ _ Hcur E)
        as (pre & c & post & q & _ & -> & _ & C & _).
      now exists c, q. }
    rewrite C. repeat split; try assumption; try reflexivity.
    + now exists c, q.
    + rewrite Hpath. exact Hsteps.
    + discriminate.
    + intros Hl. rewrite Hpath in Hl. simpl in Hl. injection Hl as Hl.
      apply Hlen in Hl. congruence.
Qed.

(** The automaton of section 8 on [ab]. *)
Lemma recognizeWord_follows_table_witness :
  exists (r : FiniteAutomaton.Result) (A' : FiniteAutomaton.t),
    FiniteAutomaton.recognizeWord (lit "ab") Examples.automatonX =
      (Ok r, A', []) /\
    FiniteAutomaton.accepted r = Spec.accepts Examples.automatonX (lit "ab") /\
    match Spec.walk Examples.automatonX (lit "q0") (lit "ab") with
    | Some q => FiniteAutomaton.finalState r = Some q /\
                FiniteAutomaton.error r = None
    | None => FiniteAutomaton.finalState r = None /\
              exists c q, FiniteAutomaton.error r =
                          Some (FiniteAutomaton.NoTransition [c] (Some q))
    end /\
    FiniteAutomaton.path r = FiniteAutomaton.executionPath A' /\
    FiniteAutomaton.path r =
      FiniteAutomaton.mkStep (lit "q0") None 0
      :: Walk.trace Examples.automatonX (lit "q0") (lit "ab") 1 /\
    List.map FiniteAutomaton.step (FiniteAutomaton.path r) =
      seq 0 (length (FiniteAutomaton.path r)) /\
    (FiniteAutomaton.error r = None <->
     length (FiniteAutomaton.path r) = S (length (lit "ab"))).
Proof.
  apply (recognizeWord_follows_table Examples.automatonX (lit "ab")
           (lit "q0")).
  - reflexivity.
  - discriminate.
  - reflexivity.
Defined.

(* ===================================================================== *)
(** ** FiniteAutomaton.validate                                           *)
(* ===================================================================== *)

Section AutomatonValidation.

Import FiniteAutomaton.

Lemma missing_target (A : t) (q a : jsstring) :
  missing A q a =
  match Spec.target A q a with None => true | Some _ => false end.
Proof.
  unfold missing, Spec.target, map_has.
  destruct (map_get q (transitions A)) as [row|]; [|reflexivity].
  now destruct (map_get a row).
Qed.

(** The count of [validate] is the number of gaps of the table. *)
Lemma missing_count (A : t) :
  length (flat_map (fun state => filter (missing A state) (alphabet A))
                   (states A)) =
  length (Total.gaps A).
Proof.
  unfold Total.gaps.
  induction (states A) as [|q l IH]; simpl; [reflexivity|].
  rewrite filter_app, !length_app, IH. f_equal. clear IH.
  induction (alphabet A) as [|a l' IH']; simpl; [reflexivity|].
  rewrite missing_target.
  destruct (Spec.target A q a); simpl; now rewrite IH'.
Qed.

Lemma gaps_none (A : t) :
  Total.gaps A = [] <->
  forall q a, In q (states A) -> In a (alphabet A) ->
              Spec.target A q a <> None.
Proof.
  unfold Total.gaps. split.
  - intros H q a Hq Ha T.
    assert (In (q, a) []) as [].
    rewrite <- H. apply filter_In. split; [now apply in_prod|].
    simpl. now rewrite T.
  - intros H.
    destruct (filter _ _) as [|[q a] l] eqn:F; [reflexivity|].
    assert (In (q, a) ((q, a) :: l)) as Hin by now left.
    rewrite <- F in Hin. apply filter_In in Hin as [Hin Hnone].
    apply in_prod_iff in Hin as [Hq Ha]. simpl in Hnone.
    specialize (H q a Hq Ha). now destruct (Spec.target A q a).
Qed.

End AutomatonValidation.

Lemma In_two_flags {X : Type} (b c : bool) (y z x : X) :
  In x ((if b then [y] else []) ++ (if c then [z] else [])) <->
  (b = true /\ y = x) \/ (c = true /\ z = x).
Proof. destruct b, c; simpl; intuition congruence. Qed.

(** X4. [validate()] of an automaton: it is valid exactly when it has a
    state, a symbol and an initial state that is not the empty string,
    whatever its transitions and final states are; it warns of missing
    transitions exactly when some pair of a state and a symbol has no
    target, and the number in the warning is the number of such pairs; it
    warns of missing final states exactly when there is none. *)
Theorem validate_reports_gaps :
  forall A : FiniteAutomaton.t,
    (FiniteAutomaton.isValid (FiniteAutomaton.validate A) = true <->
     FiniteAutomaton.states A <> [] /\
     FiniteAutomaton.alphabet A <> [] /\
     truthy (FiniteAutomaton.initialState A) = true) /\
    ((forall n, ~ In (FiniteAutomaton.MissingTransitions n)
                     (FiniteAutomaton.warnings (FiniteAutomaton.validate A)))
     <->
     (forall q a,
         In q (FiniteAutomaton.states A) ->
         In a (FiniteAutomaton.alphabet A) ->
         Spec.target A q a <> None)) /\
    (forall n, In (FiniteAutomaton.MissingTransitions n)
                  (FiniteAutomaton.warnings (FiniteAutomaton.validate A)) ->
               0 < n /\ n = length (Total.gaps A)) /\
    (In FiniteAutomaton.NoFinalStates
        (FiniteAutomaton.warnings (FiniteAutomaton.validate A)) <->
     FiniteAutomaton.finalStates A = []).
Proof.
  intros A. unfold FiniteAutomaton.validate.
  cbn [FiniteAutomaton.isValid FiniteAutomaton.warnings].
  rewrite missing_count.
  assert (forall n,
             In (FiniteAutomaton.MissingTransitions n)
                ((if length (FiniteAutomaton.finalStates A) =? 0
                  then [FiniteAutomaton.NoFinalStates] else []) ++
                 (if 0 <? length (Total.gaps A)
                  then [FiniteAutomaton.MissingTransitions
                          (length (Total.gaps A))]
                  else [])) <->
             0 < length (Total.gaps A) /\ n = length (Total.gaps A)) as Key.
  { intros n. rewrite In_two_flags, Nat.ltb_lt.
    split; [intros [[_ H] | [H1 H2]] | intros [H1 H2]].
    - discriminate.
    - split; [exact H1 | now injection H2].
    - right. split; [exact H1 | now rewrite H2]. }
  split; [|split; [|split]].
  - split; [intros H | intros (Hs & Ha & Hi)].
    + destruct (FiniteAutomaton.states A); [discriminate H|].
      destruct (FiniteAutomaton.alphabet A); [discriminate H|].
      destruct (truthy (FiniteAutomaton.initialState A));
        [|discriminate H].
      repeat split; discriminate.
    + destruct (FiniteAutomaton.states A); [congruence|].
      destruct (FiniteAutomaton.alphabet A); [congruence|].
      now rewrite Hi.
  - rewrite <- gaps_none. split.
    + intros H. destruct (Total.gaps A) as [|g l]; [reflexivity|].
      exfalso. apply (H (length (g :: l))). apply Key. simpl. split; lia.
    + intros H n Hin. apply Key in Hin. rewrite H in Hin. simpl in Hin.
      lia.
  - intros n Hin. apply Key in Hin. destruct Hin as [H1 H2].
    split; [now rewrite H2 | exact H2].
  - rewrite In_two_flags, Nat.eqb_eq, length_zero_iff_nil.
    split; [intros [[H _] | [_ H]] | intros H].
    + exact H.
    + discriminate.
    + left. now split.
Qed.

(* ===================================================================== *)
(** ** Invariants of the interface                                        *)
(* ===================================================================== *)

Section NamesStored.

Lemma set_ok_NoDup (s : list jsstring) :
  Inv.set_ok s = true -> NoDup s /\ forall x, In x s -> trim x = x.
Proof.
  induction s as [|x s IH]; simpl; intros H.
  - split; [constructor | tauto].
  - apply andb_true_iff in H as [H Hs]. apply andb_true_iff in H as [Hx Ht].
    destruct (IH Hs) as [Hnd Htr]. split.
    + constructor; [|exact Hnd]. intros Hin. apply has_In in Hin.
      rewrite Hin in Hx. discriminate.
    + intros y [<- | Hy]; [now apply trim_fixed | now apply Htr].
Qed.

Lemma wf_transitions_trimmed (A : FiniteAutomaton.t)
  (tr : FiniteAutomaton.Transition) :
  Inv.wf A = true -> In tr (FiniteAutomaton.getTransitionsArray A) ->
  trim (FiniteAutomaton.from tr) = FiniteAutomaton.from tr /\
  trim (FiniteAutomaton.sym tr) = FiniteAutomaton.sym tr /\
  trim (FiniteAutomaton.to tr) = FiniteAutomaton.to tr.
Proof.
  intros W Hin. destruct tr as [q a p]. simpl.
  apply In_table in Hin as (row & Hrow & Hap).
  unfold Inv.wf in W. apply andb_true_iff in W as [_ F].
  rewrite forallb_forall in F. specialize (F _ Hrow). simpl in F.
  apply andb_true_iff in F as [Tq R]. unfold Inv.row_ok in R.
  apply andb_true_iff in R as [_ R]. rewrite forallb_forall in R.
  specialize (R _ Hap). simpl in R. apply andb_true_iff in R as [Ta Tp].
  repeat split; now apply trim_fixed.
Qed.

End NamesStored.

(** X5. In an automaton built from a new one by any calls of its methods
    ([reset] and [processSymbol] among them), and in an automaton loaded
    from a file, every state, every symbol and
    the three parts of every transition are stored trimmed ([trim] leaves
    them as they are), and no state and no symbol is stored twice. *)
Theorem stored_names_are_trimmed :
  forall A : FiniteAutomaton.t,
    (exists name calls, A = Api.after calls (FiniteAutomaton.new name)) \/
    (exists content name, Api.load content name = Some A) ->
    NoDup (FiniteAutomaton.states A) /\
    NoDup (FiniteAutomaton.alphabet A) /\
    (forall q, In q (FiniteAutomaton.states A) -> trim q = q) /\
    (forall a, In a (FiniteAutomaton.alphabet A) -> trim a = a) /\
    (forall tr, In tr (FiniteAutomaton.getTransitionsArray A) ->
                trim (FiniteAutomaton.from tr) = FiniteAutomaton.from tr /\
                trim (FiniteAutomaton.sym tr) = FiniteAutomaton.sym tr /\
                trim (FiniteAutomaton.to tr) = FiniteAutomaton.to tr).
Proof.
  intros A H.
  assert (Inv.wf A = true) as W.
  { destruct H as [(name & calls & ->) | (content & name & H)].
    - apply after_wf, wf_new.
    - exact (load_in_order content name A H). }
  pose proof W as W'. unfold Inv.wf in W'.
  apply andb_true_iff in W' as [W' _]. apply andb_true_iff in W' as [W' _].
  apply andb_true_iff in W' as [Ws Wa].
  destruct (set_ok_NoDup _ Ws) as [Ns Ts].
  destruct (set_ok_NoDup _ Wa) as [Na Ta].
  repeat split; try assumption;
    now apply (wf_transitions_trimmed A tr W).
Qed.

(** The automaton of section 8, built by calls with padded names, reset
    and moved by one symbol. *)
Lemma stored_names_are_trimmed_witness :
  NoDup (FiniteAutomaton.states Samples.stepped) /\
  NoDup (FiniteAutomaton.alphabet Samples.stepped) /\
  (forall q, In q (FiniteAutomaton.states Samples.stepped) ->
             trim q = q) /\
  (forall a, In a (FiniteAutomaton.alphabet Samples.stepped) ->
             trim a = a) /\
  (forall tr,
      In tr (FiniteAutomaton.getTransitionsArray Samples.stepped) ->
      trim (FiniteAutomaton.from tr) = FiniteAutomaton.from tr /\
      trim (FiniteAutomaton.sym tr) = FiniteAutomaton.sym tr /\
      trim (FiniteAutomaton.to tr) = FiniteAutomaton.to tr).
Proof.
  apply (stored_names_are_trimmed Samples.stepped).
  left. eexists _, _. reflexivity.
Defined.

Section References.

Import FiniteAutomaton.

Lemma preserves_get_bind {Obj B : Type} (P : Obj -> Prop)
  (k : Obj -> M Obj B) :
  (forall s, P s -> P (snd (fst (k s s)))) ->
  Inv.preserves P (bind get k).
Proof.
  intros H s Hs. unfold bind, get. specialize (H s Hs).
  now destruct (k s s) as [[r s'] out].
Qed.

Lemma closed_same_definition (A B : t) :
  Inv.same_definition A B -> Refs.closed A = Refs.closed B.
Proof.
  intros (_ & Hs & Ha & Hi & Hf & Ht).
  unfold Refs.closed, Refs.row_closed. now rewrite Hs, Ha, Hi, Hf, Ht.
Qed.

Lemma row_of_closed (A : t) (q : jsstring) :
  Refs.closed A = true -> Refs.row_closed A (Exec.row_of A q) = true.
Proof.
  unfold Refs.closed, Exec.row_of. intros H.
  apply andb_true_iff in H as [_ H].
  destruct (map_get q (transitions A)) as [row|] eqn:R; [|reflexivity].
  apply map_get_In in R. rewrite forallb_forall in H.
  specialize (H _ R). simpl in H. now apply andb_true_iff in H as [_ H].
Qed.

Lemma closed_registered (A : t) (q a p : jsstring) :
  Refs.closed A = true ->
  has q (states A) = true -> has p (states A) = true ->
  has a (alphabet A) = true ->
  Refs.closed (Exec.registered A q a p) = true.
Proof.
  intros H Hq Hp Ha. pose proof (row_of_closed A q H) as Hrow.
  unfold Refs.closed in *. simpl.
  apply andb_true_iff in H as [H Hall]. rewrite H. simpl.
  apply forallb_map_set; [exact Hall|]. intros k' <-. rewrite Hq. simpl.
  unfold Refs.row_closed in *. simpl.
  apply forallb_map_set; [exact Hrow|]. intros k' <-. now rewrite Ha, Hp.
Qed.

Lemma addTransition_closed (f s t : jsstring) :
  Inv.preserves (fun A => Refs.closed A = true) (addTransition f s t).
Proof.
  intros A H. rewrite addTransition_run.
  destruct (has (trim f) (states A)) eqn:Hf; simpl; [|exact H].
  destruct (has (trim t) (states A)) eqn:Ht; simpl; [|exact H].
  destruct (has (trim s) (alphabet A)) eqn:Hs; simpl; [|exact H].
  now apply closed_registered.
Qed.

Lemma forallb_add (P : jsstring -> bool) (x : jsstring)
  (s : list jsstring) :
  forallb P s = true -> P x = true -> forallb P (add x s) = true.
Proof.
  intros Hs Hx. unfold add. destruct (has x s); [exact Hs|].
  rewrite forallb_app, Hs. simpl. now rewrite Hx.
Qed.

Lemma closed_finals (A : t) :
  Refs.closed A = true ->
  forallb (fun q => has q (states A)) (finalStates A) = true.
Proof.
  unfold Refs.closed. intros H. apply andb_true_iff in H as [H _].
  now apply andb_true_iff in H as [_ H].
Qed.

Lemma closed_with_finalStates (v : list jsstring) (A : t) :
  Refs.closed A = true ->
  forallb (fun q => has q (states A)) v = true ->
  Refs.closed (with_finalStates v A) = true.
Proof.
  unfold Refs.closed. intros H Hv.
  apply andb_true_iff in H as [H Ht]. apply andb_true_iff in H as [Hi _].
  apply andb_true_iff. split; [apply andb_true_iff; split|];
    [exact Hi | exact Hv | exact Ht].
Qed.

Lemma closed_with_initialState (q : jsstring) (A : t) :
  Refs.closed A = true -> has q (states A) = true ->
  Refs.closed (with_initialState (Some q) A) = true.
Proof.
  unfold Refs.closed. intros H Hq.
  apply andb_true_iff in H as [H Ht]. apply andb_true_iff in H as [_ Hf].
  apply andb_true_iff. split; [apply andb_true_iff; split|];
    [exact Hq | exact Hf | exact Ht].
Qed.

Lemma setFinalStates_closed (names : list jsstring) :
  Inv.preserves (fun A => Refs.closed A = true) (setFinalStates names).
Proof.
  apply preserves_bind.
  - apply preserves_modify. intros A H.
    now apply closed_with_finalStates.
  - intros _. apply preserves_forEach. intros x.
    apply preserves_get_bind. intros A H.
    destruct (has (trim x) (states A)) eqn:Hx; simpl; [|exact H].
    apply closed_with_finalStates; [exact H|].
    apply forallb_add; [now apply closed_finals | exact Hx].
Qed.

Lemma perform_closed (c : Api.Call) :
  Refs.keeps_sets c = true ->
  Inv.preserves (fun A => Refs.closed A = true) (Api.perform c).
Proof.
  destruct c as [names|symbols|state|names|f s t|str|w| |symbol]; simpl;
    try discriminate; intros _.
  - intros A H. unfold setInitialState. run.
    destruct (has (trim state) (states A)) eqn:Hs; simpl; [|exact H].
    now apply closed_with_initialState.
  - apply setFinalStates_closed.
  - apply addTransition_closed.
  - apply preserves_forEach. intros x.
    destruct (split (lit ",") (trim x)) as [|a [|b [|c [|d l]]]];
      try apply preserves_throw.
    apply addTransition_closed.
  - intros A H. unfold bind.
    destruct (recognizeWord_shape w A) as (r & A' & E & D). rewrite E.
    simpl. now rewrite (closed_same_definition A' A D).
  - intros A H. rewrite reset_run. simpl.
    now rewrite (closed_same_definition _ A (restarted_definition A)).
  - intros A H. unfold bind. rewrite processSymbol_run.
    destruct (currentState A) as [[|c q]|]; try exact H.
    destruct (has symbol (alphabet A)); [|exact H].
    destruct (Spec.target A (c :: q) symbol) as [p|]; [|exact H].
    simpl.
    now rewrite (closed_same_definition _ A (moved_definition A symbol p)).
Qed.

End References.

(** X6. The methods other than [setStates] and [setAlphabet] keep the
    references of an automaton in its own sets: if the initial state, the
    final states and the ends of every transition are states, and every
    transition symbol is in the alphabet, this is still so after any
    sequence of [setInitialState], [setFinalStates], [addTransition],
    [setTransitions], [reset], [processSymbol] and [recognizeWord] calls,
    whether they return or throw. *)
Theorem references_stay_closed :
  forall (A : FiniteAutomaton.t) (calls : list Api.Call),
    Refs.closed A = true ->
    forallb Refs.keeps_sets calls = true ->
    Refs.closed (Api.after calls A) = true.
Proof.
  intros A calls. revert A.
  induction calls as [|c calls IH]; intros A H Hcalls; [exact H|].
  simpl in Hcalls. apply andb_true_iff in Hcalls as [Hc Hcalls].
  simpl. apply IH; [|exact Hcalls].
  exact (perform_closed c Hc A H).
Qed.

(** States and alphabet first, then the rest, one call of which throws
    half way. *)
Lemma references_stay_closed_witness :
  Refs.closed (Api.after Refs.completing Refs.withSets) = true.
Proof.
  apply (references_stay_closed Refs.withSets Refs.completing);
    reflexivity.
Defined.

(* ===================================================================== *)
(** ** The parser: one name at a time, one part after the other           *)
(* ===================================================================== *)

Section Frame.

Import AutomataParser.

Variable other : jsstring.
Variable held : option FiniteAutomaton.t.
Variable heldGrammar : option RegularGrammar.t.

(** What the parser holds under [other]. *)
Let holds (P : t) : Prop :=
  map_get other (automata P) = held /\
  map_get other (grammars P) = heldGrammar.

Lemma onAutomaton_frame (name : jsstring) (m : M FiniteAutomaton.t unit) :
  name <> other -> Inv.preserves holds (onAutomaton name m).
Proof.
  intros Hne P [Ha Hg]. unfold onAutomaton.
  destruct (map_get name (automata P)) as [automaton|]; [|now split].
  destruct (m automaton) as [[r automaton'] out]. split; simpl.
  - now rewrite map_get_set_other.
  - exact Hg.
Qed.

Lemma onGrammar_frame (name : jsstring) (m : M RegularGrammar.t unit) :
  name <> other -> Inv.preserves holds (onGrammar name m).
Proof.
  intros Hne P [Ha Hg]. unfold onGrammar.
  destruct (map_get name (grammars P)) as [grammar|]; [|now split].
  destruct (m grammar) as [[r grammar'] out]. split; simpl.
  - exact Ha.
  - now rewrite map_get_set_other.
Qed.

Lemma ensureGrammar_frame (name : jsstring) :
  name <> other -> Inv.preserves holds (ensureGrammar name).
Proof.
  intros Hne. unfold ensureGrammar. apply preserves_get_bind.
  intros P [Ha Hg]. unfold when.
  destruct (negb (map_has name (grammars P))); [|now split].
  split; simpl; [exact Ha | now rewrite map_get_set_other].
Qed.

Lemma dispatch_frame (id : number) (name info : jsstring) :
  name <> other -> Inv.preserves holds (dispatch id name info).
Proof.
  intros Hne. unfold dispatch.
  destruct id as [|[|p|p]|negative]; try apply preserves_throw.
  repeat match goal with
         | |- context [match ?x with xI _ => _ | xO _ => _ | xH => _ end] =>
             is_var x; destruct x
         end;
    try apply preserves_throw;
    try (apply preserves_bind;
         [now apply ensureGrammar_frame
         | intros _; now apply onGrammar_frame]);
    now apply onAutomaton_frame.
Qed.

Lemma parseLine_frame (line : jsstring) :
  (forall idInfo name info,
      split (lit ":") line = [idInfo; name; info] -> trim name <> other) ->
  Inv.preserves holds (parseLine line).
Proof.
  intros Hname. unfold parseLine.
  destruct (split (lit ":") line) as [|a [|b [|c [|d l]]]];
    try apply preserves_throw.
  specialize (Hname a b c eq_refl).
  apply preserves_get_bind. intros P [Ha Hg].
  assert (Inv.preserves holds
            (when (negb (map_has (trim b) (automata P)))
                  (modify (with_automata
                             (map_set (trim b) (FiniteAutomaton.new (trim b))
                                      (automata P)))) ;;
             dispatch (parseInt (trim a)) (trim b) (trim c))) as K;
    [|exact (K P (conj Ha Hg))].
  apply preserves_bind; [|intros _; now apply dispatch_frame].
  unfold when. destruct (negb (map_has (trim b) (automata P)));
    [|intros s Hs; exact Hs].
  intros s [_ Hg']. split; simpl; [|exact Hg'].
  now rewrite map_get_set_other.
Qed.

Lemma parseLines_frame (ls : list jsstring) :
  forall index : nat,
    (forall line idInfo name info,
        In line ls ->
        split (lit ":") (trim line) = [idInfo; name; info] ->
        trim name <> other) ->
    Inv.preserves holds (parseLines index ls).
Proof.
  induction ls as [|line ls IH]; intros index Hname; unfold parseLines; simpl.
  - intros s Hs. exact Hs.
  - apply preserves_bind.
    + apply preserves_try_catch; [|intros e; apply preserves_throw].
      apply parseLine_frame. intros idInfo name info.
      apply (Hname line). now left.
    + intros _. apply IH. intros l idInfo name info Hin.
      apply (Hname l). now right.
Qed.

Lemma parseFile_frame (content : jsstring) :
  (forall line idInfo name info,
      In line (lines content) ->
      split (lit ":") (trim line) = [idInfo; name; info] ->
      trim name <> other) ->
  Inv.preserves holds (parseFile content).
Proof.
  intros Hname. unfold parseFile. apply preserves_bind.
  - apply parseLines_frame. exact Hname.
  - intros _. apply preserves_bind; [apply preserves_get|].
    intros P s Hs. exact Hs.
Qed.

End Frame.

(** X7. The records of one name touch nothing stored under another.  If
    no record of a text carries the name [other], then after the load,
    whether it returned or threw, the parser holds under [other] the
    automaton and the grammar it held before, or none as before. *)
Theorem parseFile_leaves_other_names :
  forall (content other : jsstring) (P : AutomataParser.t),
    (forall line idInfo name info,
        In line (AutomataParser.lines content) ->
        split (lit ":") (trim line) = [idInfo; name; info] ->
        trim name <> other) ->
    AutomataParser.getAutomaton other
      (snd (fst (AutomataParser.parseFile content P))) =
      AutomataParser.getAutomaton other P /\
    AutomataParser.getGrammar other
      (snd (fst (AutomataParser.parseFile content P))) =
      AutomataParser.getGrammar other P.
Proof.
  intros content other P Hname.
  exact (parseFile_frame other _ _ content Hname P (conj eq_refl eq_refl)).
Qed.

Lemma parseFile_leaves_other_names_witness :
  AutomataParser.getAutomaton (lit "X")
    (snd (fst (AutomataParser.parseFile Examples.fileG Lines.loadedX))) =
    AutomataParser.getAutomaton (lit "X") Lines.loadedX /\
  AutomataParser.getGrammar (lit "X")
    (snd (fst (AutomataParser.parseFile Examples.fileG Lines.loadedX))) =
    AutomataParser.getGrammar (lit "X") Lines.loadedX.
Proof.
  apply (parseFile_leaves_other_names Examples.fileG (lit "X") Lines.loadedX).
  intros line idInfo name info Hin Hs. vm_compute in Hin.
  destruct Hin as [<-|[<-|[<-|[<-|[]]]]]; vm_compute in Hs;
    injection Hs as _ <- _; vm_compute; discriminate.
Defined.

Section Parts.

Import AutomataParser.

Lemma split_char_nonempty (d : N) (x : jsstring) : split [d] x <> [].
Proof.
  destruct x as [|c x]; [discriminate|]. rewrite split_char_cons.
  destruct (N.eqb d c); [discriminate|].
  unfold cons_head. now destruct (split [d] x).
Qed.

(** Splitting on a code unit distributes over an occurrence of it. *)
Lemma split_char_glue (d : N) (x y : jsstring) :
  split [d] (x ++ d :: y) = split [d] x ++ split [d] y.
Proof.
  induction x as [|c x IH]; simpl app.
  - now rewrite split_char_cons, N.eqb_refl.
  - rewrite !split_char_cons, IH. destruct (N.eqb d c); [reflexivity|].
    pose proof (split_char_nonempty d x) as Hne.
    now destruct (split [d] x).
Qed.

Lemma lines_glue (first second : jsstring) :
  lines (Lines.glue first second) = lines first ++ lines second.
Proof.
  unfold lines, Lines.glue. simpl app.
  now rewrite split_char_glue, filter_app.
Qed.

(** The index the lines are counted from shows in the error only. *)
Lemma parseLines_shift (ls : list jsstring) :
  forall (k index : nat) (P : t),
    parseLines (k + index) ls P =
    match parseLines index ls P with
    | (Ok u, P', out) => (Ok u, P', out)
    | (Throw e, P', out) => (Throw (Lines.shift k e), P', out)
    end.
Proof.
  induction ls as [|line ls IH]; intros k index P; [reflexivity|].
  destruct (parseLine (trim line) P) as [[[[]|e] P1] out1] eqn:E.
  - rewrite !(parseLines_ok _ _ _ _ _ _ E).
    rewrite <- Nat.add_succ_r, IH.
    now destruct (parseLines (S index) ls P1) as [[[u|e] P2] out2].
  - rewrite !(parseLines_throw _ _ _ _ _ _ _ E). simpl.
    now rewrite Nat.add_assoc.
Qed.

Lemma parseFile_lines (content : jsstring) (P : t) :
  parseFile content P =
  match parseLines 0 (lines content) P with
  | (Ok _, P', out) => (Ok (automata P'), P', out)
  | (Throw e, P', out) => (Throw e, P', out)
  end.
Proof.
  unfold parseFile, bind, get, ret.
  destruct (parseLines 0 (lines content) P) as [[[u|e] P'] out];
    [|reflexivity].
  simpl. now rewrite app_nil_r.
Qed.

End Parts.

(** X8. Loading a text made of two parts with a line feed between them
    is loading the first part and then, into the same parser, the second:
    if the first part throws, so does the whole with the same error, parser
    and output; otherwise the whole ends as the second part does, with the
    outputs of both, and an error of the second part carries its line
    number plus the number of non-blank lines of the first. *)
Theorem parseFile_one_part_after_the_other :
  forall (first second : jsstring) (P : AutomataParser.t),
    AutomataParser.parseFile (Lines.glue first second) P =
    Lines.one_after_the_other first second P.
Proof.
  intros first second P. unfold Lines.one_after_the_other.
  rewrite (parseFile_lines (Lines.glue first second)), lines_glue.
  rewrite (parseFile_lines first).
  destruct (AutomataParser.parseLines 0 (AutomataParser.lines first) P)
    as [[[[]|e] P1] out1] eqn:E1.
  - rewrite (parseLines_app _ _ _ _ _ _ E1), (parseFile_lines second).
    rewrite <- (Nat.add_0_r (0 + _)), parseLines_shift. simpl.
    now destruct (AutomataParser.parseLines 0 (AutomataParser.lines second) P1)
      as [[[[]|e] P2] out2].
  - now rewrite (parseLines_app_throw _ _ _ _ _ _ _ E1).
Qed.

(* ===================================================================== *)
(** ** From a grammar to an automaton                                     *)
(* ===================================================================== *)

Section Finals.

Import FiniteAutomaton.

Lemma setFinalStates_all (names : list jsstring) :
  forall A : t,
    forallb (fun s => has (trim s) (states A)) names = true ->
    forEach (fun state =>
               let trimmedState := trim state in
               A <- get ;;
               if negb (has trimmedState (states A))
               then throw (FinalStateUnknown trimmedState)
               else modify (fun A => with_finalStates
                                       (add trimmedState (finalStates A)) A))
            names A =
    (Ok tt, with_finalStates (Inv.added names (finalStates A)) A, []).
Proof.
  induction names as [|x names IH]; intros A H.
  - now destruct A.
  - simpl in H. apply andb_true_iff in H as [Hx H].
    cbn [forEach]. unfold bind at 1. unfold bind at 1, get.
    rewrite Hx. cbn [negb]. unfold modify at 1.
    rewrite IH; [|exact H]. reflexivity.
Qed.

Lemma setFinalStates_run (names : list jsstring) (A : t) :
  forallb (fun s => has (trim s) (states A)) names = true ->
  setFinalStates names A =
  (Ok tt, with_finalStates (Inv.added names []) A, []).
Proof.
  intros H. unfold setFinalStates, bind at 1, modify at 1.
  now rewrite setFinalStates_all.
Qed.

Lemma recognizeWord_accepted (A A' : t) (w : jsstring) (r : Result)
  (out : list Warning) :
  recognizeWord w A = (Ok r, A', out) ->
  accepted r = true -> Spec.accepts A w = true.
Proof.
  intros H Hacc. rewrite recognizeWord_run in H.
  destruct (consume w (Exec.restarted A)) as [[[[s|]|e] A1] out1] eqn:E;
    injection H as Hr HA Ho; subst r A'; try discriminate.
  destruct (consume_definition _ _ _ _ _ E) as [D _].
  unfold Spec.accepts.
  destruct (initialState A) as [q0|] eqn:I.
  - assert (currentState (Exec.restarted A) = Some q0)
      as Hcur by (unfold Exec.restarted; simpl; exact I).
    destruct (consume_any w _ _ _ _ _ Hcur E) as (q & Hw & Hc).
    rewrite (walk_ext _ A q0 w (restarted_definition A)) in Hw.
    simpl in Hacc. rewrite Hc in Hacc.
    destruct D as (_ & _ & _ & _ & F & _). simpl in F. rewrite F in Hacc.
    now rewrite Hw.
  - assert (currentState (Exec.restarted A) = None)
      as Hcur by (unfold Exec.restarted; simpl; exact I).
    destruct (consume_uninitialized w _ _ _ _ Hcur E) as (_ & _ & ->).
    simpl in Hacc. rewrite I in Hacc. discriminate.
Qed.

End Finals.

Section Build.

Import FiniteAutomaton.

Variable G : RegularGrammar.t.

Hypothesis nonTerminals_ok : Inv.set_ok (RegularGrammar.nonTerminals G) = true.
Hypothesis terminals_ok : Inv.set_ok (RegularGrammar.terminals G) = true.

(** The automaton under construction has the states and the alphabet that
    [toFiniteAutomaton] gave it. *)
Let fits (A : t) : Prop :=
  states A = RegularGrammar.nonTerminals G ++ [RegularGrammar.finalState] /\
  alphabet A = RegularGrammar.terminals G.

Lemma fits_registered (A : t) (q a p : jsstring) :
  fits A -> fits (Exec.registered A q a p).
Proof. intros [Hs Ha]. now split. Qed.

Lemma fits_register (A : t) (production : jsstring * jsstring) :
  fits A -> fits (Gram.register G A production).
Proof.
  intros H. unfold Gram.register.
  destruct (Gram.edge G (fst production) (snd production)) as [tr|];
    [now apply fits_registered | exact H].
Qed.

Lemma nonTerminal_trimmed (n : jsstring) :
  has n (RegularGrammar.nonTerminals G) = true -> trim n = n.
Proof.
  intros H. apply trim_fixed.
  apply (set_ok_trimmed _ _ nonTerminals_ok). now apply has_In.
Qed.

Lemma terminal_trimmed (a : jsstring) :
  has a (RegularGrammar.terminals G) = true -> trim a = a.
Proof.
  intros H. apply trim_fixed.
  apply (set_ok_trimmed _ _ terminals_ok). now apply has_In.
Qed.

Lemma fits_nonTerminal (A : t) (n : jsstring) :
  fits A -> has n (RegularGrammar.nonTerminals G) = true ->
  has n (states A) = true.
Proof. intros [Hs _] H. now rewrite Hs, has_app, H. Qed.

Lemma fits_finalState (A : t) :
  fits A -> has RegularGrammar.finalState (states A) = true.
Proof.
  intros [Hs _]. rewrite Hs, has_app. apply orb_true_iff. now right.
Qed.

(** A transition that the conversion wants is one [addTransition] takes. *)
Lemma addTransition_fits (A : t) (n a p : jsstring) :
  fits A ->
  has n (RegularGrammar.nonTerminals G) = true ->
  has a (RegularGrammar.terminals G) = true ->
  has p (states A) = true -> trim p = p ->
  exists out,
    addTransition n a p A = (Ok tt, Exec.registered A n a p, out).
Proof.
  intros F Hn Ha Hp Tp. rewrite addTransition_run.
  rewrite (nonTerminal_trimmed n Hn), (terminal_trimmed a Ha), Tp.
  rewrite (fits_nonTerminal A n F Hn), Hp.
  destruct F as [_ Fa]. rewrite Fa, Ha. simpl. eauto.
Qed.

Lemma production_step_run (n : jsstring) (finalStates : list jsstring)
  (r : jsstring) (A : t) :
  fits A -> has n (RegularGrammar.nonTerminals G) = true ->
  exists out,
    RegularGrammar.production_step G n finalStates r A =
    (Ok (Gram.push_final finalStates (n, r)), Gram.register G A (n, r), out).
Proof.
  intros F Hn.
  unfold RegularGrammar.production_step, Gram.push_final, Gram.register,
    Gram.edge, Gram.empty. simpl fst. simpl snd.
  destruct (eqb r epsilon || eqb r []); [now exists []|].
  rewrite app_nil_r.
  destruct r as [|a [|b [|c r]]]; try (now exists []).
  - destruct (has [a] (RegularGrammar.terminals G)) eqn:Ha; [|now exists []].
    destruct (addTransition_fits A n [a] RegularGrammar.finalState F Hn Ha
                (fits_finalState A F) eq_refl) as [out E].
    exists (out ++ []). now rewrite (bind_ok _ _ _ _ _ _ E).
  - destruct (has [a] (RegularGrammar.terminals G)) eqn:Ha; [|now exists []].
    destruct (has [b] (RegularGrammar.nonTerminals G)) eqn:Hb;
      [|now exists []].
    destruct (addTransition_fits A n [a] [b] F Hn Ha
                (fits_nonTerminal A [b] F Hb) (nonTerminal_trimmed [b] Hb))
      as [out E].
    exists (out ++ []). simpl. now rewrite (bind_ok _ _ _ _ _ _ E).
Qed.

Lemma row_run (n : jsstring) (rightSides : list jsstring) :
  has n (RegularGrammar.nonTerminals G) = true ->
  forall (finalStates : list jsstring) (A : t),
    fits A ->
    exists out,
      RegularGrammar.foldM (RegularGrammar.production_step G n) rightSides
                           finalStates A =
      (Ok (fold_left Gram.push_final (List.map (pair n) rightSides)
                     finalStates),
       fold_left (Gram.register G) (List.map (pair n) rightSides) A, out).
Proof.
  intros Hn. induction rightSides as [|r rs IH]; intros fs A F.
  - now exists [].
  - destruct (production_step_run n fs r A F Hn) as [out1 E1].
    destruct (IH (Gram.push_final fs (n, r)) (Gram.register G A (n, r))
                 (fits_register A (n, r) F)) as [out2 E2].
    exists (out1 ++ out2). cbn [RegularGrammar.foldM].
    rewrite (bind_ok _ _ _ _ _ _ E1). now rewrite E2.
Qed.

Lemma rows_run (rows : list (jsstring * list jsstring)) :
  forallb (fun '(n, _) => has n (RegularGrammar.nonTerminals G)) rows = true ->
  forall (finalStates : list jsstring) (A : t),
    fits A ->
    exists out,
      RegularGrammar.foldM
        (fun finalStates '(n, rightSides) =>
           RegularGrammar.foldM (RegularGrammar.production_step G n)
                                rightSides finalStates)
        rows finalStates A =
      (Ok (fold_left Gram.push_final (Gram.flat rows) finalStates),
       fold_left (Gram.register G) (Gram.flat rows) A, out) /\
      fits (fold_left (Gram.register G) (Gram.flat rows) A).
Proof.
  induction rows as [|[n rs] rows IH]; intros H fs A F.
  - now exists [].
  - simpl in H. apply andb_true_iff in H as [Hn H].
    destruct (row_run n rs Hn fs A F) as [out1 E1].
    assert (fits (fold_left (Gram.register G) (List.map (pair n) rs) A))
      as F1.
    { clear E1. revert A F. induction rs as [|r rs IHrs]; intros A F;
        [exact F|]. simpl. apply IHrs. now apply fits_register. }
    destruct (IH H (fold_left Gram.push_final (List.map (pair n) rs) fs)
                 _ F1) as (out2 & E2 & F2).
    exists (out1 ++ out2). cbn [RegularGrammar.foldM].
    rewrite (bind_ok _ _ _ _ _ _ E1).
    unfold Gram.flat in *. cbn [flat_map]. rewrite !fold_left_app.
    rewrite E2. now split.
Qed.

End Build.

Section Built.

Import FiniteAutomaton.

Lemma In_flat (rows : list (jsstring * list jsstring)) (n r : jsstring) :
  In (n, r) (Gram.flat rows) <-> exists rs, In (n, rs) rows /\ In r rs.
Proof.
  unfold Gram.flat. rewrite in_flat_map. split.
  - intros ([n' rs] & Hin & H). apply in_map_iff in H as (r' & E & Hr).
    injection E as -> ->. now exists rs.
  - intros (rs & Hin & Hr). exists (n, rs). split; [exact Hin|].
    now apply in_map.
Qed.

Lemma In_flat_rights (G : RegularGrammar.t) (n r : jsstring) :
  Inv.keys_unique (RegularGrammar.productions G) = true ->
  In (n, r) (Gram.flat (RegularGrammar.productions G)) <->
  In r (Spec.rights G n).
Proof.
  intros U. rewrite In_flat. unfold Spec.rights. split.
  - intros (rs & Hin & Hr). apply (keys_unique_In _ _ _ U) in Hin.
    now rewrite Hin.
  - destruct (map_get n (RegularGrammar.productions G)) as [rs|] eqn:E;
      [|intros []].
    intros Hr. exists rs. split; [|exact Hr]. now apply map_get_In.
Qed.

Lemma In_push_final (l : list (jsstring * jsstring)) (x : jsstring) :
  forall fs : list jsstring,
    In x (fold_left Gram.push_final l fs) <->
    In x fs \/ exists r, In (x, r) l /\ Gram.empty r = true.
Proof.
  induction l as [|[n r] l IH]; intros fs; simpl.
  - split; [now left | intros [H | (r & [] & _)]; exact H].
  - rewrite IH. unfold Gram.push_final. simpl. rewrite in_app_iff. split.
    + intros [[H | H] | (r' & Hin & He)].
      * now left.
      * destruct (Gram.empty r) eqn:E; [|destruct H].
        destruct H as [<- | []]. right. exists r. split; [now left | exact E].
      * right. exists r'. split; [now right | exact He].
    + intros [H | (r' & [E | Hin] & He)].
      * left. now left.
      * injection E as -> ->. left. right. rewrite He. now left.
      * right. now exists r'.
Qed.

(** What the table holds once the productions have been gone through:
    an entry is there from the start or comes from a production. *)
Lemma target_fold_sound (G : RegularGrammar.t)
  (l : list (jsstring * jsstring)) (q s p : jsstring) :
  forall A : t,
    Spec.target (fold_left (Gram.register G) l A) q s = Some p ->
    Spec.target A q s = Some p \/
    exists n r, In (n, r) l /\ Gram.edge G n r = Some (mkTransition q s p).
Proof.
  induction l as [|[n r] l IH]; intros A H; [now left|].
  simpl in H. apply IH in H as [H | (n' & r' & Hin & He)].
  - unfold Gram.register in H. simpl in H.
    destruct (Gram.edge G n r) as [[f a t']|] eqn:E; [|now left].
    simpl in H.
    destruct (eqb q f) eqn:Eq; [destruct (eqb s a) eqn:Es|].
    + apply eqb_eq in Eq, Es. subst f a.
      rewrite target_registered_same in H. injection H as ->.
      right. exists n, r. split; [now left | exact E].
    + apply eqb_neq in Es.
      rewrite target_registered_other in H; [now left | now right].
    + apply eqb_neq in Eq.
      rewrite target_registered_other in H; [now left | now left].
  - right. exists n', r'. split; [now right | exact He].
Qed.

(** An entry is never taken away; it may be written again. *)
Lemma target_fold_kept (G : RegularGrammar.t)
  (l : list (jsstring * jsstring)) (q s : jsstring) :
  forall (A : t) (p : jsstring),
    Spec.target A q s = Some p ->
    exists p',
      Spec.target (fold_left (Gram.register G) l A) q s = Some p' /\
      (p' = p \/
       exists n r, In (n, r) l /\
                   Gram.edge G n r = Some (mkTransition q s p')).
Proof.
  induction l as [|[n r] l IH]; intros A p H.
  - exists p. split; [exact H | now left].
  - simpl.
    assert (exists p1, Spec.target (Gram.register G A (n, r)) q s = Some p1 /\
                       (p1 = p \/
                        Gram.edge G n r = Some (mkTransition q s p1)))
      as (p1 & H1 & C1).
    { unfold Gram.register. simpl.
      destruct (Gram.edge G n r) as [[f a t']|] eqn:E;
        [|exists p; split; [exact H | now left]].
      simpl.
      destruct (eqb q f) eqn:Eq; [destruct (eqb s a) eqn:Es|].
      - apply eqb_eq in Eq, Es. subst f a. exists t'.
        split; [apply target_registered_same | now right].
      - apply eqb_neq in Es. exists p. split; [|now left].
        rewrite target_registered_other; [exact H | now right].
      - apply eqb_neq in Eq. exists p. split; [|now left].
        rewrite target_registered_other; [exact H | now left]. }
    destruct (IH _ _ H1) as (p' & H' & C').
    exists p'. split; [exact H'|].
    destruct C' as [-> | (n' & r' & Hin & He)].
    + destruct C1 as [-> | He]; [now left|].
      right. exists n, r. split; [now left | exact He].
    + right. exists n', r'. split; [now right | exact He].
Qed.

(** Every production that asks for a transition gets one for its state
    and its symbol, the one of some production. *)
Lemma target_fold_complete (G : RegularGrammar.t)
  (l : list (jsstring * jsstring)) (q s p : jsstring) :
  forall (A : t) (n r : jsstring),
    In (n, r) l -> Gram.edge G n r = Some (mkTransition q s p) ->
    exists p' n' r',
      Spec.target (fold_left (Gram.register G) l A) q s = Some p' /\
      In (n', r') l /\ Gram.edge G n' r' = Some (mkTransition q s p').
Proof.
  induction l as [|[n0 r0] l IH]; intros A n r Hin He; [destruct Hin|].
  destruct Hin as [E | Hin].
  - injection E as -> ->. simpl.
    assert (Spec.target (Gram.register G A (n, r)) q s = Some p) as H1.
    { unfold Gram.register. simpl. rewrite He. simpl.
      apply target_registered_same. }
    destruct (target_fold_kept G l q s _ _ H1) as (p' & H' & C').
    destruct C' as [-> | (n' & r' & Hin' & He')].
    + exists p, n, r. split; [exact H' | split; [now left | exact He]].
    + exists p', n', r'. split; [exact H' | split; [now right | exact He']].
  - simpl. destruct (IH (Gram.register G A (n0, r0)) n r Hin He)
      as (p' & n' & r' & H' & Hin' & He').
    exists p', n', r'. split; [exact H' | split; [now right | exact He']].
Qed.

(** The transition of a production starts at its nonterminal, reads one
    code unit, and ends in [qf] or in a nonterminal of one code unit. *)
Lemma edge_shape (G : RegularGrammar.t) (n r q s p : jsstring) :
  Gram.edge G n r = Some (mkTransition q s p) ->
  q = n /\ Gram.empty r = false /\
  exists a, s = [a] /\ has [a] (RegularGrammar.terminals G) = true /\
            ((r = [a] /\ p = RegularGrammar.finalState) \/
             (exists b, r = [a; b] /\ p = [b] /\
                        has [b] (RegularGrammar.nonTerminals G) = true)).
Proof.
  unfold Gram.edge. destruct (Gram.empty r); [discriminate|].
  destruct r as [|a [|b [|c r]]]; try discriminate.
  - destruct (has [a] (RegularGrammar.terminals G)) eqn:Ha; [|discriminate].
    intros E. injection E as <- <- <-. split; [reflexivity|].
    split; [reflexivity|]. exists a. split; [reflexivity|].
    split; [exact Ha | now left].
  - destruct (has [a] (RegularGrammar.terminals G)) eqn:Ha; [|discriminate].
    destruct (has [b] (RegularGrammar.nonTerminals G)) eqn:Hb;
      [|discriminate].
    intros E. injection E as <- <- <-. split; [reflexivity|].
    split; [reflexivity|]. exists a. split; [reflexivity|].
    split; [exact Ha|]. right. now exists b.
Qed.

End Built.

Section Converted.

Import FiniteAutomaton.

Variable G : RegularGrammar.t.
Variable start : jsstring.

Hypothesis ready : Gram.ready G = true.
Hypothesis started : RegularGrammar.startSymbol G = Some start.

Lemma ready_parts :
  Inv.set_ok (RegularGrammar.nonTerminals G) = true /\
  Inv.set_ok (RegularGrammar.terminals G) = true /\
  has RegularGrammar.finalState (RegularGrammar.nonTerminals G) = false /\
  Inv.keys_unique (RegularGrammar.productions G) = true /\
  forallb (fun '(n, _) => has n (RegularGrammar.nonTerminals G))
          (RegularGrammar.productions G) = true /\
  has start (RegularGrammar.nonTerminals G) = true.
Proof.
  pose proof ready as R. unfold Gram.ready in R. rewrite started in R.
  repeat (apply andb_true_iff in R as [R ?]).
  repeat split; try assumption. now apply negb_true_iff.
Qed.

Lemma key_nonTerminal (n r : jsstring) :
  In (n, r) (Gram.flat (RegularGrammar.productions G)) ->
  has n (RegularGrammar.nonTerminals G) = true.
Proof.
  destruct ready_parts as (_ & _ & _ & _ & K & _).
  intros H. apply In_flat in H as (rs & Hin & _).
  rewrite forallb_forall in K. exact (K (n, rs) Hin).
Qed.

Lemma skeleton_states :
  states (Gram.skeleton G start) =
  RegularGrammar.nonTerminals G ++ [RegularGrammar.finalState] /\
  alphabet (Gram.skeleton G start) = RegularGrammar.terminals G.
Proof. now split. Qed.

Lemma states_ok :
  Inv.set_ok (RegularGrammar.nonTerminals G ++ [RegularGrammar.finalState]) =
  true.
Proof.
  destruct ready_parts as (N & _ & Q & _).
  apply set_ok_snoc; [exact N | exact Q | reflexivity].
Qed.

(** The calls [toFiniteAutomaton] makes on the automaton it has created. *)
Lemma build_run :
  exists out,
    (setStates (RegularGrammar.nonTerminals G ++ [RegularGrammar.finalState]) ;;
     setAlphabet (RegularGrammar.terminals G) ;;
     match RegularGrammar.startSymbol G with
     | None => throw TypeErrorNull
     | Some s => setInitialState s
     end ;;
     finalStates <-
       RegularGrammar.foldM
         (fun finalStates '(nonTerminal, rightSides) =>
            RegularGrammar.foldM
              (RegularGrammar.production_step G nonTerminal)
              rightSides finalStates)
         (RegularGrammar.productions G) [RegularGrammar.finalState] ;;
     setFinalStates finalStates)
      (new (lit "AFD_" ++ RegularGrammar.name G)) =
    (Ok tt, Gram.automaton G start, out).
Proof.
  destruct ready_parts as (N & T & Q & U & K & HS).
  rewrite started.
  rewrite (bind_ok _ _ _ _ _ _ (setStates_run _ _)).
  rewrite (added_fixed _ []) by exact states_ok.
  rewrite (bind_ok _ _ _ _ _ _ (setAlphabet_run _ _)).
  rewrite (added_fixed _ []) by exact T.
  simpl app.
  set (A2 := with_alphabet _ _).
  assert (setInitialState start A2 =
          (Ok tt, with_initialState (Some start) A2, [])) as E3.
  { unfold setInitialState. run.
    rewrite (nonTerminal_trimmed G N start HS).
    now rewrite has_app, HS. }
  rewrite (bind_ok _ _ A2 _ _ _ E3).
  change (with_initialState (Some start) A2) with (Gram.skeleton G start).
  destruct (rows_run G N T (RegularGrammar.productions G) K
              [RegularGrammar.finalState] (Gram.skeleton G start)
              skeleton_states) as (out & E4 & F4).
  rewrite (bind_ok _ _ _ _ _ _ E4).
  rewrite setFinalStates_run.
  - exists ([] ++ out ++ []). reflexivity.
  - apply forallb_forall. intros x Hx.
    apply In_push_final in Hx as [[<- | []] | (r & Hin & _)].
    + change (trim RegularGrammar.finalState)
        with RegularGrammar.finalState.
      now apply (fits_finalState G).
    + pose proof (key_nonTerminal x r Hin) as Hn.
      rewrite (nonTerminal_trimmed G N x Hn).
      now apply (fits_nonTerminal G).
Qed.

Lemma toFiniteAutomaton_run :
  exists out,
    RegularGrammar.toFiniteAutomaton G =
    (Ok (Gram.automaton G start), G, out).
Proof.
  destruct build_run as [out E].
  unfold RegularGrammar.toFiniteAutomaton.
  rewrite (bind_ok get _ G G G [] eq_refl).
  assert (forall m : M t unit,
             m (new (lit "AFD_" ++ RegularGrammar.name G)) =
             (Ok tt, Gram.automaton G start, out) ->
             on (new (lit "AFD_" ++ RegularGrammar.name G)) m G =
             (Ok (tt, Gram.automaton G start), G, out)) as On.
  { intros m Hm. unfold on. now rewrite Hm. }
  rewrite (bind_ok _ _ _ _ _ _ (On _ E)).
  exists ([] ++ out ++ []). reflexivity.
Qed.

End Converted.

Section Language.

Import FiniteAutomaton.

Variable G : RegularGrammar.t.
Variable start : jsstring.

Hypothesis ready : Gram.ready G = true.
Hypothesis started : RegularGrammar.startSymbol G = Some start.

(** Going through the productions keeps what holds at the start and
    every registration keeps. *)
Lemma fold_register_keeps (P : t -> Prop) (l : list (jsstring * jsstring)) :
  (forall A n r tr,
      P A -> In (n, r) l -> Gram.edge G n r = Some tr ->
      P (Exec.registered A (from tr) (sym tr) (to tr))) ->
  forall A, P A -> P (fold_left (Gram.register G) l A).
Proof.
  induction l as [|[n r] l IH]; intros Hstep A HA; [exact HA|].
  simpl. apply IH.
  - intros A' n' r' tr HA' Hin. apply Hstep; [exact HA' | now right].
  - unfold Gram.register. simpl.
    destruct (Gram.edge G n r) as [tr|] eqn:E; [|exact HA].
    apply (Hstep A n r tr HA); [now left | exact E].
Qed.

Lemma automaton_in_order :
  states (Gram.automaton G start) =
    RegularGrammar.nonTerminals G ++ [RegularGrammar.finalState] /\
  alphabet (Gram.automaton G start) = RegularGrammar.terminals G /\
  initialState (Gram.automaton G start) = Some start /\
  Inv.wf (Gram.automaton G start) = true /\
  Refs.closed
    (fold_left (Gram.register G) (Gram.flat (RegularGrammar.productions G))
               (Gram.skeleton G start)) = true.
Proof.
  destruct (ready_parts G start ready started) as (N & T & Q & U & K & HS).
  unfold Gram.automaton.
  apply (fold_register_keeps
           (fun A =>
              states (with_finalStates
                        (Inv.added
                           (fold_left Gram.push_final
                              (Gram.flat (RegularGrammar.productions G))
                              [RegularGrammar.finalState]) []) A) =
                RegularGrammar.nonTerminals G ++ [RegularGrammar.finalState] /\
              alphabet A = RegularGrammar.terminals G /\
              initialState A = Some start /\
              Inv.wf A = true /\ Refs.closed A = true)).
  - intros A n r [q s p] (Hs & Ha & Hi & W & C) Hin E.
    apply edge_shape in E as (-> & _ & a & -> & Hterm & Hp).
    pose proof (key_nonTerminal G start ready started n r Hin) as Hn.
    simpl in Hs. simpl from. simpl sym. simpl to.
    assert (has p (states A) = true /\ Inv.trimmed p = true) as [Hp1 Hp2].
    { rewrite Hs, has_app.
      destruct Hp as [[_ ->] | (b & _ & -> & Hb)].
      - split; [apply orb_true_iff; now right | reflexivity].
      - rewrite Hb. split; [reflexivity|].
        apply (set_ok_trimmed _ _ N). now apply has_In. }
    split; [exact Hs|]. split; [exact Ha|]. split; [exact Hi|]. split.
    + apply wf_registered; [exact W | | | exact Hp2].
      * apply (set_ok_trimmed _ _ N). now apply has_In.
      * apply (set_ok_trimmed _ _ T). now apply has_In.
    + apply closed_registered; [exact C | | exact Hp1 |].
      * now rewrite Hs, has_app, Hn.
      * now rewrite Ha.
  - split; [reflexivity|]. split; [reflexivity|]. split; [reflexivity|].
    split.
    + unfold Inv.wf, Gram.skeleton. simpl.
      now rewrite (states_ok G start ready started), T.
    + unfold Refs.closed, Gram.skeleton. simpl.
      now rewrite has_app, HS.
Qed.

Lemma automaton_final (q : jsstring) :
  has q (finalStates (Gram.automaton G start)) = true <->
  q = RegularGrammar.finalState \/
  exists r, In r (Spec.rights G q) /\ Gram.empty r = true.
Proof.
  destruct (ready_parts G start ready started) as (N & T & Q & U & K & HS).
  unfold Gram.automaton. simpl finalStates.
  rewrite has_In, In_added, in_map_iff. split.
  - intros [[] | (y & <- & Hy)].
    apply In_push_final in Hy as [[<- | []] | (r & Hin & He)];
      [now left|].
    right. exists r.
    rewrite (nonTerminal_trimmed G N y
               (key_nonTerminal G start ready started y r Hin)).
    split; [now apply In_flat_rights | exact He].
  - intros [-> | (r & Hin & He)]; right.
    + exists RegularGrammar.finalState. split; [reflexivity|].
      apply In_push_final. left. now left.
    + apply (In_flat_rights G q r U) in Hin. exists q. split.
      * exact (nonTerminal_trimmed G N q
                 (key_nonTerminal G start ready started q r Hin)).
      * apply In_push_final. right. now exists r.
Qed.

Lemma automaton_target (q s p : jsstring) :
  Spec.target (Gram.automaton G start) q s = Some p ->
  exists r, In r (Spec.rights G q) /\
            Gram.edge G q r = Some (mkTransition q s p).
Proof.
  destruct (ready_parts G start ready started) as (N & T & Q & U & K & HS).
  intros H.
  apply (target_fold_sound G) in H as [H | (n & r & Hin & He)];
    [discriminate|].
  pose proof (edge_shape G n r q s p He) as (-> & _).
  exists r. split; [now apply In_flat_rights | exact He].
Qed.

Lemma automaton_serves (q s p r : jsstring) :
  In r (Spec.rights G q) ->
  Gram.edge G q r = Some (mkTransition q s p) ->
  exists p' r',
    Spec.target (Gram.automaton G start) q s = Some p' /\
    In r' (Spec.rights G q) /\
    Gram.edge G q r' = Some (mkTransition q s p').
Proof.
  destruct (ready_parts G start ready started) as (N & T & Q & U & K & HS).
  intros Hin He. apply (In_flat_rights G q r U) in Hin.
  destruct (target_fold_complete G _ q s p (Gram.skeleton G start) q r
              Hin He) as (p' & n' & r' & H' & Hin' & He').
  pose proof (edge_shape G n' r' q s p' He') as (-> & _).
  exists p', r'. split; [exact H'|].
  split; [now apply In_flat_rights | exact He'].
Qed.

Lemma automaton_targets_nonempty :
  Inv.targets_nonempty (Gram.automaton G start) = true.
Proof.
  destruct automaton_in_order as (_ & _ & _ & W & _).
  apply forallb_forall. intros [q s p] Hin. simpl.
  apply (In_target _ _ _ _ W) in Hin.
  apply automaton_target in Hin as (r & _ & He).
  apply edge_shape in He as (_ & _ & a & _ & _ & Hp).
  now destruct Hp as [[_ ->] | (b & _ & -> & _)].
Qed.

(** A nonterminal is not the state [qf], and [qf] has no way out. *)
Lemma nonTerminal_not_final (q : jsstring) :
  has q (RegularGrammar.nonTerminals G) = true ->
  q <> RegularGrammar.finalState.
Proof.
  destruct (ready_parts G start ready started) as (_ & _ & Q & _).
  intros H ->. rewrite H in Q. discriminate.
Qed.

Lemma rights_nonTerminal (q r : jsstring) :
  In r (Spec.rights G q) -> has q (RegularGrammar.nonTerminals G) = true.
Proof.
  destruct (ready_parts G start ready started) as (_ & _ & _ & U & _).
  intros H. apply (In_flat_rights G q r U) in H.
  exact (key_nonTerminal G start ready started q r H).
Qed.

Lemma walk_derives (w : jsstring) :
  forall q f : jsstring,
    q <> RegularGrammar.finalState ->
    Spec.walk (Gram.automaton G start) q w = Some f ->
    has f (finalStates (Gram.automaton G start)) = true ->
    Gram.Derives G q w.
Proof.
  induction w as [|c w IH]; intros q f Hq Hw Hf.
  - injection Hw as <-. apply automaton_final in Hf as [-> | (r & Hin & He)];
      [now destruct Hq|].
    exact (Gram.derives_empty G q r Hin He).
  - cbn [Spec.walk] in Hw.
    destruct (has [c] (alphabet (Gram.automaton G start))); [|discriminate].
    destruct (Spec.target (Gram.automaton G start) q [c]) as [p|] eqn:Ht;
      [|discriminate].
    apply automaton_target in Ht as (r & Hin & He).
    apply edge_shape in He as (_ & Hne & a & Ea & Hterm & Hp).
    injection Ea as <-.
    destruct Hp as [[-> ->] | (b & -> & -> & Hb)].
    + destruct w as [|c' w].
      * exact (Gram.derives_terminal G q c Hin Hne Hterm).
      * cbn [Spec.walk] in Hw.
        destruct (has [c'] (alphabet (Gram.automaton G start)));
          [|discriminate].
        destruct (Spec.target (Gram.automaton G start)
                    RegularGrammar.finalState [c']) as [p|] eqn:Ht;
          [|discriminate].
        apply automaton_target in Ht as (r & Hin' & _).
        apply rights_nonTerminal in Hin'.
        now destruct (nonTerminal_not_final _ Hin').
    + apply (Gram.derives_step G q c b w Hin Hterm Hb).
      exact (IH [b] f (nonTerminal_not_final _ Hb) Hw Hf).
Qed.

Lemma agree_targets (q s p1 p2 r1 r2 : jsstring) :
  Gram.deterministic G = true ->
  In r1 (Spec.rights G q) -> In r2 (Spec.rights G q) ->
  Gram.edge G q r1 = Some (mkTransition q s p1) ->
  Gram.edge G q r2 = Some (mkTransition q s p2) ->
  p1 = p2.
Proof.
  intros D H1 H2 E1 E2. unfold Spec.rights in H1, H2.
  destruct (map_get q (RegularGrammar.productions G)) as [rs|] eqn:R;
    [|destruct H1].
  apply map_get_In in R. unfold Gram.deterministic in D.
  rewrite forallb_forall in D. specialize (D _ R). simpl in D.
  rewrite forallb_forall in D. specialize (D _ H1).
  rewrite forallb_forall in D. specialize (D _ H2).
  unfold Gram.agree in D. rewrite E1, E2 in D. simpl in D.
  rewrite eqb_refl in D. simpl in D. now apply eqb_eq.
Qed.

Lemma derives_walk (q w : jsstring) :
  Gram.deterministic G = true ->
  Gram.Derives G q w ->
  exists f,
    Spec.walk (Gram.automaton G start) q w = Some f /\
    has f (finalStates (Gram.automaton G start)) = true.
Proof.
  destruct automaton_in_order as (_ & Ha & _).
  intros D H. induction H as [n r Hin He | n a Hin Hne Hterm
                             | n a b w Hin Hterm Hb H IH].
  - exists n. split; [reflexivity|]. apply automaton_final. right.
    now exists r.
  - assert (Gram.edge G n [a] =
            Some (mkTransition n [a] RegularGrammar.finalState)) as E.
    { unfold Gram.edge. now rewrite Hne, Hterm. }
    destruct (automaton_serves n [a] _ [a] Hin E) as (p' & r' & Ht & Hin' & E').
    rewrite (agree_targets n [a] p' _ r' [a] D Hin' Hin E' E) in Ht.
    exists RegularGrammar.finalState. cbn [Spec.walk].
    rewrite Ha, Hterm, Ht.
    split; [reflexivity|]. apply automaton_final. now left.
  - assert (Gram.edge G n [a; b] = Some (mkTransition n [a] [b])) as E.
    { assert (Gram.empty [a; b] = false) as Hne
          by (unfold Gram.empty; simpl; now rewrite andb_false_r).
      unfold Gram.edge. now rewrite Hne, Hterm, Hb. }
    destruct (automaton_serves n [a] _ [a; b] Hin E)
      as (p' & r' & Ht & Hin' & E').
    rewrite (agree_targets n [a] p' _ r' [a; b] D Hin' Hin E' E) in Ht.
    destruct IH as (f & Hw & Hf). exists f. cbn [Spec.walk].
    rewrite Ha, Hterm, Ht. now split.
Qed.

End Language.

(** X9. A grammar that is ready (its two sets are sets of trimmed names,
    [qf] is not a nonterminal, every nonterminal with productions and the
    start symbol are nonterminals) is converted without error and is left
    as it was.  The automaton returned is named [AFD_] and the name of the
    grammar; its states are the nonterminals and then [qf], its alphabet
    the terminals, its initial state the start symbol; its final states
    are [qf] and the nonterminals with an empty right-hand side; every
    entry of its table is the transition of a stored production; and it
    refers only to its own states and symbols. *)
Theorem toFiniteAutomaton_builds :
  forall G : RegularGrammar.t,
    Gram.ready G = true ->
    exists (A : FiniteAutomaton.t) (out : list Warning),
      RegularGrammar.toFiniteAutomaton G = (Ok A, G, out) /\
      FiniteAutomaton.name A = lit "AFD_" ++ RegularGrammar.name G /\
      FiniteAutomaton.states A =
        RegularGrammar.nonTerminals G ++ [RegularGrammar.finalState] /\
      FiniteAutomaton.alphabet A = RegularGrammar.terminals G /\
      FiniteAutomaton.initialState A = RegularGrammar.startSymbol G /\
      (forall q,
          has q (FiniteAutomaton.finalStates A) = true <->
          q = RegularGrammar.finalState \/
          exists r, In r (Spec.rights G q) /\ Gram.empty r = true) /\
      (forall q s p,
          Spec.target A q s = Some p ->
          exists r, In r (Spec.rights G q) /\
                    Gram.edge G q r =
                    Some (FiniteAutomaton.mkTransition q s p)) /\
      Inv.wf A = true /\ Refs.closed A = true.
Proof.
  intros G R.
  destruct (RegularGrammar.startSymbol G) as [start|] eqn:HS.
  - destruct (toFiniteAutomaton_run G start R HS) as [out E].
    destruct (automaton_in_order G start R HS) as (Hs & Ha & Hi & W & C).
    exists (Gram.automaton G start), out.
    split; [exact E|]. split.
    { unfold Gram.automaton.
      apply (fold_register_keeps G
               (fun A => FiniteAutomaton.name
                           (FiniteAutomaton.with_finalStates
                              (Inv.added
                                 (fold_left Gram.push_final
                                    (Gram.flat (RegularGrammar.productions G))
                                    [RegularGrammar.finalState]) []) A) =
                         lit "AFD_" ++ RegularGrammar.name G));
        [intros A n r tr H _ _; exact H | reflexivity]. }
    split; [exact Hs|]. split; [exact Ha|]. split; [exact Hi|].
    split; [exact (automaton_final G start R HS)|].
    split; [exact (automaton_target G start R HS)|].
    split; [exact W|].
    apply closed_with_finalStates; [exact C|].
    apply forallb_forall. intros x Hx.
    apply has_In, (automaton_final G start R HS) in Hx.
    change (has x (FiniteAutomaton.states (Gram.automaton G start)) = true).
    rewrite Hs, has_app. apply orb_true_iff.
    destruct Hx as [-> | (r & Hin & _)]; [now right | left].
    exact (rights_nonTerminal G start R HS x r Hin).
  - unfold Gram.ready in R. rewrite HS, andb_false_r in R. discriminate.
Qed.

Lemma toFiniteAutomaton_builds_witness :
  exists (A : FiniteAutomaton.t) (out : list Warning),
    RegularGrammar.toFiniteAutomaton Gram.sample = (Ok A, Gram.sample, out) /\
    FiniteAutomaton.name A = lit "AFD_" ++ RegularGrammar.name Gram.sample /\
    FiniteAutomaton.states A =
      RegularGrammar.nonTerminals Gram.sample ++ [RegularGrammar.finalState] /\
    FiniteAutomaton.alphabet A = RegularGrammar.terminals Gram.sample /\
    FiniteAutomaton.initialState A = RegularGrammar.startSymbol Gram.sample /\
    (forall q,
        has q (FiniteAutomaton.finalStates A) = true <->
        q = RegularGrammar.finalState \/
        exists r, In r (Spec.rights Gram.sample q) /\ Gram.empty r = true) /\
    (forall q s p,
        Spec.target A q s = Some p ->
        exists r, In r (Spec.rights Gram.sample q) /\
                  Gram.edge Gram.sample q r =
                  Some (FiniteAutomaton.mkTransition q s p)) /\
    Inv.wf A = true /\ Refs.closed A = true.
Proof. apply (toFiniteAutomaton_builds Gram.sample). reflexivity. Defined.

(** X10. The automaton of a ready grammar accepts only words of the
    grammar: when [recognizeWord] accepts a word on the automaton that
    [toFiniteAutomaton] returned, the start symbol derives that word by
    the stored productions. *)
Theorem toFiniteAutomaton_accepts_only_derived :
  forall (G G' : RegularGrammar.t) (A A' : FiniteAutomaton.t)
         (w : jsstring) (r : FiniteAutomaton.Result)
         (out out' : list Warning),
    Gram.ready G = true ->
    RegularGrammar.toFiniteAutomaton G = (Ok A, G', out) ->
    FiniteAutomaton.recognizeWord w A = (Ok r, A', out') ->
    FiniteAutomaton.accepted r = true ->
    exists start,
      RegularGrammar.startSymbol G = Some start /\ Gram.Derives G start w.
Proof.
  intros G G' A A' w r out out' R E H Hacc.
  destruct (RegularGrammar.startSymbol G) as [start|] eqn:HS.
  - destruct (toFiniteAutomaton_run G start R HS) as [out0 E0].
    rewrite E0 in E. injection E as <- _ _.
    exists start. split; [reflexivity|].
    pose proof (recognizeWord_accepted _ _ _ _ _ H Hacc) as Hw.
    destruct (automaton_in_order G start R HS) as (_ & _ & Hi & _).
    unfold Spec.accepts in Hw. rewrite Hi in Hw.
    destruct (Spec.walk (Gram.automaton G start) start w) as [f|] eqn:Ew;
      [|discriminate].
    destruct (ready_parts G start R HS) as (_ & _ & _ & _ & _ & Hstart).
    exact (walk_derives G start R HS w start f
             (nonTerminal_not_final G start R HS start Hstart) Ew Hw).
  - unfold Gram.ready in R. rewrite HS, andb_false_r in R. discriminate.
Qed.

Lemma toFiniteAutomaton_accepts_only_derived_witness :
  exists start,
    RegularGrammar.startSymbol Gram.sample = Some start /\
    Gram.Derives Gram.sample start (lit "aab").
Proof.
  apply (toFiniteAutomaton_accepts_only_derived
           Gram.sample Gram.sample Gram.sampleAutomaton
           (snd (fst (FiniteAutomaton.recognizeWord (lit "aab")
                        Gram.sampleAutomaton)))
           (lit "aab") Gram.acceptedAAB
           (snd (RegularGrammar.toFiniteAutomaton Gram.sample))
           (snd (FiniteAutomaton.recognizeWord (lit "aab")
                   Gram.sampleAutomaton)));
    vm_compute; reflexivity.
Defined.

(** X11. When, besides, no two right-hand sides of one nonterminal begin
    with the same terminal and lead to different states, and the start
    symbol is not the empty string, the automaton accepts every word of
    the grammar: [recognizeWord] returns, prints nothing, and accepts each
    word that the start symbol derives. *)
Theorem toFiniteAutomaton_accepts_derived :
  forall (G G' : RegularGrammar.t) (A : FiniteAutomaton.t)
         (start w : jsstring) (out : list Warning),
    Gram.ready G = true ->
    Gram.deterministic G = true ->
    RegularGrammar.startSymbol G = Some start ->
    start <> [] ->
    RegularGrammar.toFiniteAutomaton G = (Ok A, G', out) ->
    Gram.Derives G start w ->
    exists (r : FiniteAutomaton.Result) (A' : FiniteAutomaton.t),
      FiniteAutomaton.recognizeWord w A = (Ok r, A', []) /\
      FiniteAutomaton.accepted r = true.
Proof.
  intros G G' A start w out R D HS Hne E H.
  destruct (toFiniteAutomaton_run G start R HS) as [out0 E0].
  rewrite E0 in E. injection E as <- _ _.
  destruct (automaton_in_order G start R HS) as (_ & _ & Hi & _).
  destruct (recognizeWord_accepts_walk (Gram.automaton G start) w)
    as (r & A' & Hr & Hacc).
  - rewrite Hi. destruct start; [now destruct Hne | reflexivity].
  - exact (automaton_targets_nonempty G start R HS).
  - exists r, A'. split; [exact Hr|]. rewrite Hacc.
    destruct (derives_walk G start R HS start w D H) as (f & Hw & Hf).
    unfold Spec.accepts. now rewrite Hi, Hw.
Qed.

Lemma toFiniteAutomaton_accepts_derived_witness :
  exists (r : FiniteAutomaton.Result) (A' : FiniteAutomaton.t),
    FiniteAutomaton.recognizeWord (lit "aab") Gram.sampleAutomaton =
      (Ok r, A', []) /\
    FiniteAutomaton.accepted r = true.
Proof.
  apply (toFiniteAutomaton_accepts_derived
           Gram.sample Gram.sample Gram.sampleAutomaton (lit "S") (lit "aab")
           (snd (RegularGrammar.toFiniteAutomaton Gram.sample)));
    try (vm_compute; reflexivity); try discriminate.
  apply (Gram.derives_step Gram.sample (lit "S") 97 65 (lit "ab"));
    try (vm_compute; reflexivity); [simpl; tauto|].
  apply (Gram.derives_step Gram.sample (lit "A") 97 65 (lit "b"));
    try (vm_compute; reflexivity); [simpl; tauto|].
  apply (Gram.derives_terminal Gram.sample (lit "A") 98);
    try (vm_compute; reflexivity). simpl; tauto.
Defined.

(* ===================================================================== *)
(** ** Transitions and productions given as one string                    *)
(* ===================================================================== *)

Lemma forEach_app {Obj A : Type} (f : A -> M Obj unit) (l1 l2 : list A)
  (s : Obj) :
  forEach f (l1 ++ l2) s =
  Pieces.one_after_the_other (forEach f l1) (forEach f l2) s.
Proof.
  unfold Pieces.one_after_the_other. revert s.
  induction l1 as [|x l1 IH]; intros s.
  - simpl. unfold ret. now destruct (forEach f l2 s) as [[r s2] out2].
  - simpl. unfold bind. destruct (f x s) as [[[[]|e] s1] out1];
      [|reflexivity].
    rewrite IH.
    destruct (forEach f l1 s1) as [[[[]|e] s2] out2]; [|reflexivity].
    destruct (forEach f l2 s2) as [[r s3] out3].
    now rewrite app_assoc.
Qed.

(** X12. A string of transitions, or of productions, is gone through
    piece by piece: the string [first;second] does what [first] does and
    then, unless that threw, what [second] does on the object so changed.
    The empty string is one piece with a wrong number of fields, so it is
    refused; hence so is every string that ends in [;], after whatever
    precedes the [;] has been registered. *)
Theorem separated_pieces_in_turn :
  forall (first second : jsstring),
    (forall A : FiniteAutomaton.t,
        FiniteAutomaton.setTransitions (first ++ lit ";" ++ second) A =
        Pieces.one_after_the_other
          (FiniteAutomaton.setTransitions first)
          (FiniteAutomaton.setTransitions second) A /\
        FiniteAutomaton.setTransitions [] A =
        (Throw (BadTransitionFormat []), A, [])) /\
    (forall G : RegularGrammar.t,
        RegularGrammar.setProductions (first ++ lit ";" ++ second) G =
        Pieces.one_after_the_other
          (RegularGrammar.setProductions first)
          (RegularGrammar.setProductions second) G /\
        RegularGrammar.setProductions [] G =
        (Throw (BadProductionFormat []), G, [])).
Proof.
  intros first second. split; intros s; (split; [|reflexivity]).
  - unfold FiniteAutomaton.setTransitions.
    change (first ++ lit ";" ++ second) with (first ++ 59%N :: second).
    change (lit ";") with [59%N].
    now rewrite split_char_glue, forEach_app.
  - unfold RegularGrammar.setProductions.
    change (first ++ lit ";" ++ second) with (first ++ 59%N :: second).
    change (lit ";") with [59%N].
    now rewrite split_char_glue, forEach_app.
Qed.

(* ===================================================================== *)
(** ** What the methods of a grammar maintain                             *)
(* ===================================================================== *)

Section GrammarsKept.

Import RegularGrammar.

Variable kept_name : jsstring.

Lemma setNonTerminals_kept (symbols : list jsstring) :
  Inv.preserves (Grammars.kept kept_name) (setNonTerminals symbols).
Proof.
  intros G [H Hn]. rewrite setNonTerminals_run. simpl.
  split; [|exact Hn]. unfold Grammars.in_order in *. simpl.
  repeat (apply andb_true_iff in H as [H ?]).
  repeat (apply andb_true_iff; split); try assumption.
  now apply set_ok_added.
Qed.

Lemma setTerminals_kept (symbols : list jsstring) :
  Inv.preserves (Grammars.kept kept_name) (setTerminals symbols).
Proof.
  intros G [H Hn]. rewrite setTerminals_run. simpl.
  split; [|exact Hn]. unfold Grammars.in_order in *. simpl.
  repeat (apply andb_true_iff in H as [H ?]).
  repeat (apply andb_true_iff; split); try assumption.
  now apply set_ok_added.
Qed.

Lemma setStartSymbol_kept (symbol : jsstring) :
  Inv.preserves (Grammars.kept kept_name) (setStartSymbol symbol).
Proof.
  intros G [H Hn]. unfold setStartSymbol. run.
  destruct (has (trim symbol) (nonTerminals G)); simpl; [|now split].
  split; [|exact Hn]. unfold Grammars.in_order in *. simpl.
  repeat (apply andb_true_iff in H as [H ?]).
  apply andb_true_iff. split; [|apply trimmed_trim].
  repeat (apply andb_true_iff; split); assumption.
Qed.

Lemma addProduction_kept (l r : jsstring) :
  Inv.preserves (Grammars.kept kept_name) (addProduction l r).
Proof.
  intros G [H Hn]. rewrite addProduction_run.
  destruct (negb (has (trim l) (nonTerminals G))); simpl; [now split|].
  split; [|exact Hn]. unfold Grammars.in_order in *. simpl.
  repeat (apply andb_true_iff in H as [H ?]).
  repeat (apply andb_true_iff; split); try assumption.
  - unfold Conv.push. now apply keys_unique_set.
  - unfold Conv.push. apply forallb_map_set; [assumption|].
    intros k' <-. unfold Grammars.row_ok. cbn [fst snd].
    rewrite trimmed_trim, length_app, forallb_app. cbn [length forallb].
    rewrite Nat.add_1_r, trimmed_trim. cbn [Nat.eqb negb andb].
    rewrite andb_true_r.
    destruct (map_get (trim l) (productions G)) as [rs|] eqn:E;
      [|reflexivity].
    apply map_get_In in E.
    match goal with
    | F : forallb Grammars.row_ok _ = true |- _ =>
        rewrite forallb_forall in F; specialize (F _ E);
        unfold Grammars.row_ok in F; simpl in F;
        now apply andb_true_iff in F as [_ F]
    end.
Qed.

Lemma setProductions_kept (str : jsstring) :
  Inv.preserves (Grammars.kept kept_name) (setProductions str).
Proof.
  unfold setProductions. apply preserves_forEach. intros production.
  destruct (split (lit "->") (trim production)) as [|a [|b [|c l]]];
    try apply preserves_throw.
  apply addProduction_kept.
Qed.

(** The conversion leaves the grammar as it is, whether it returns an
    automaton or throws. *)
Lemma toFiniteAutomaton_pure (G : t) :
  snd (fst (toFiniteAutomaton G)) = G.
Proof.
  unfold toFiniteAutomaton.
  rewrite (bind_ok get _ G G G [] eq_refl).
  unfold bind at 1, on at 1.
  match goal with
  | |- context [match ?m (FiniteAutomaton.new ?n) with _ => _ end] =>
      destruct (m (FiniteAutomaton.new n)) as [[[u|e] A] out]
  end; reflexivity.
Qed.

Lemma perform_kept (c : Grammars.Call) :
  Inv.preserves (Grammars.kept kept_name) (Grammars.perform c).
Proof.
  destruct c as [symbols|symbols|symbol|l r|str|]; simpl.
  - apply setNonTerminals_kept.
  - apply setTerminals_kept.
  - apply setStartSymbol_kept.
  - apply addProduction_kept.
  - apply setProductions_kept.
  - intros G H. unfold bind.
    pose proof (toFiniteAutomaton_pure G) as E.
    destruct (toFiniteAutomaton G) as [[[A|e] G'] out]; simpl in *;
      now subst G'.
Qed.

Lemma after_kept (calls : list Grammars.Call) :
  forall G, Grammars.kept kept_name G ->
            Grammars.kept kept_name (Grammars.after calls G).
Proof.
  induction calls as [|c calls IH]; intros G H; [exact H|].
  simpl. apply IH. exact (perform_kept c G H).
Qed.

End GrammarsKept.

Section GrammarsLoaded.

Import AutomataParser.

Lemma onGrammar_kept (name : jsstring) (m : M RegularGrammar.t unit) :
  (forall n, Inv.preserves (Grammars.kept n) m) ->
  Inv.preserves Grammars.all_kept (onGrammar name m).
Proof.
  intros Hm P H. unfold onGrammar.
  destruct (map_get name (grammars P)) as [grammar|] eqn:E; [|exact H].
  pose proof (Hm name grammar (H name grammar E)) as K.
  destruct (m grammar) as [[r grammar'] out]. simpl in *.
  intros n G. simpl. destruct (eqb n name) eqn:En.
  - apply eqb_eq in En. subst n. rewrite map_get_set_same.
    intros [= <-]. exact K.
  - apply eqb_neq in En. rewrite map_get_set_other by congruence.
    apply H.
Qed.

Lemma onAutomaton_kept (name : jsstring) (m : M FiniteAutomaton.t unit) :
  Inv.preserves Grammars.all_kept (onAutomaton name m).
Proof.
  intros P H. unfold onAutomaton.
  destruct (map_get name (automata P)) as [automaton|]; [|exact H].
  destruct (m automaton) as [[r automaton'] out]. exact H.
Qed.

Lemma ensureGrammar_kept (name : jsstring) :
  Inv.preserves Grammars.all_kept (ensureGrammar name).
Proof.
  unfold ensureGrammar. apply preserves_get_bind. intros P H.
  unfold when. destruct (negb (map_has name (grammars P))); [|exact H].
  intros n G. simpl. destruct (eqb n name) eqn:En.
  - apply eqb_eq in En. subst n. rewrite map_get_set_same.
    intros [= <-]. now split.
  - apply eqb_neq in En. rewrite map_get_set_other by congruence.
    apply H.
Qed.

Lemma dispatch_kept (id : number) (name info : jsstring) :
  Inv.preserves Grammars.all_kept (dispatch id name info).
Proof.
  unfold dispatch. destruct id as [|[|p|p]|negative]; try apply preserves_throw.
  repeat match goal with
         | |- context [match ?x with xI _ => _ | xO _ => _ | xH => _ end] =>
             is_var x; destruct x
         end;
    try apply preserves_throw;
    try apply onAutomaton_kept;
    (apply preserves_bind;
     [apply ensureGrammar_kept | intros _; apply onGrammar_kept; intros n]);
    first [apply setProductions_kept | apply setStartSymbol_kept
          | apply setTerminals_kept | apply setNonTerminals_kept].
Qed.

Lemma parseLine_kept (line : jsstring) :
  Inv.preserves Grammars.all_kept (parseLine line).
Proof.
  unfold parseLine.
  destruct (split (lit ":") line) as [|a [|b [|c [|d l]]]];
    try apply preserves_throw.
  apply preserves_get_bind. intros P H.
  assert (Inv.preserves Grammars.all_kept
            (when (negb (map_has (trim b) (automata P)))
                  (modify (with_automata
                             (map_set (trim b) (FiniteAutomaton.new (trim b))
                                      (automata P)))) ;;
             dispatch (parseInt (trim a)) (trim b) (trim c))) as K;
    [|exact (K P H)].
  apply preserves_bind; [|intros _; apply dispatch_kept].
  unfold when. destruct (negb (map_has (trim b) (automata P)));
    intros s Hs; exact Hs.
Qed.

Lemma parseFile_kept (content : jsstring) :
  Inv.preserves Grammars.all_kept (parseFile content).
Proof.
  unfold parseFile. apply preserves_bind.
  - unfold parseLines. apply preserves_forEachFrom. intros line index.
    apply preserves_try_catch; [apply parseLine_kept|].
    intros e. apply preserves_throw.
  - intros _. apply preserves_bind; [apply preserves_get|].
    intros P s Hs. exact Hs.
Qed.

End GrammarsLoaded.

(** X13. In a grammar built from a new one by any calls of its methods,
    and in a grammar the parser holds after a load (whether the load
    returned or threw), no nonterminal and no terminal is stored twice,
    every stored name and right-hand side is trimmed, every nonterminal
    with productions has one array only, and that array is not empty. *)
Theorem stored_productions_are_in_order :
  forall G : RegularGrammar.t,
    (exists name calls,
        G = Grammars.after calls (RegularGrammar.new name)) \/
    (exists content name,
        AutomataParser.getGrammar name
          (snd (fst (AutomataParser.parseFile content AutomataParser.new))) =
        Some G) ->
    NoDup (RegularGrammar.nonTerminals G) /\
    NoDup (RegularGrammar.terminals G) /\
    (forall x, In x (RegularGrammar.nonTerminals G) -> trim x = x) /\
    (forall a, In a (RegularGrammar.terminals G) -> trim a = a) /\
    (forall start, RegularGrammar.startSymbol G = Some start ->
                   trim start = start) /\
    (forall n rs,
        In (n, rs) (RegularGrammar.productions G) ->
        map_get n (RegularGrammar.productions G) = Some rs /\
        trim n = n /\ rs <> [] /\ forall r, In r rs -> trim r = r).
Proof.
  intros G H.
  assert (Grammars.in_order G = true) as W.
  { destruct H as [(name & calls & ->) | (content & name & H)].
    - apply (after_kept name calls). now split.
    - assert (Grammars.all_kept AutomataParser.new) as H0
          by (intros n B; discriminate).
      exact (proj1 (parseFile_kept content _ H0 name G H)). }
  unfold Grammars.in_order in W.
  repeat (apply andb_true_iff in W as [W ?]).
  destruct (set_ok_NoDup _ W) as [Nn Tn].
  match goal with
  | K : Inv.set_ok (RegularGrammar.terminals G) = true |- _ =>
      destruct (set_ok_NoDup _ K) as [Nt Tt]
  end.
  split; [exact Nn|]. split; [exact Nt|]. split; [exact Tn|].
  split; [exact Tt|]. split.
  - intros start E.
    match goal with
    | K : match RegularGrammar.startSymbol G with _ => _ end = true |- _ =>
        rewrite E in K; now apply trim_fixed
    end.
  - intros n rs Hin.
    match goal with
    | K : forallb Grammars.row_ok _ = true |- _ =>
        rewrite forallb_forall in K; specialize (K _ Hin);
        unfold Grammars.row_ok in K; simpl in K;
        apply andb_true_iff in K as [K Kr];
        apply andb_true_iff in K as [Kn Kl]
    end.
    split; [now apply keys_unique_In|]. split; [now apply trim_fixed|].
    split.
    + intros ->. discriminate.
    + intros r Hr. rewrite forallb_forall in Kr.
      apply trim_fixed. now apply Kr.
Qed.

Lemma stored_productions_are_in_order_witness :
  NoDup (RegularGrammar.nonTerminals Grammars.padded) /\
  NoDup (RegularGrammar.terminals Grammars.padded) /\
  (forall x, In x (RegularGrammar.nonTerminals Grammars.padded) ->
             trim x = x) /\
  (forall a, In a (RegularGrammar.terminals Grammars.padded) -> trim a = a) /\
  (forall start, RegularGrammar.startSymbol Grammars.padded = Some start ->
                 trim start = start) /\
  (forall n rs,
      In (n, rs) (RegularGrammar.productions Grammars.padded) ->
      map_get n (RegularGrammar.productions Grammars.padded) = Some rs /\
      trim n = n /\ rs <> [] /\ forall r, In r rs -> trim r = r).
Proof.
  apply (stored_productions_are_in_order Grammars.padded).
  left. eexists _, _. reflexivity.
Defined.

(* ===================================================================== *)
(** ** The grammar of an automaton, validated                             *)
(* ===================================================================== *)

Section ConvertedValid.

Import FiniteAutomaton.

Lemma keys_unique_push_all (pairs : list (jsstring * jsstring)) :
  forall m : list (jsstring * list jsstring),
    Inv.keys_unique m = true ->
    Inv.keys_unique (Conv.push_all pairs m) = true.
Proof.
  induction pairs as [|[l r] pairs IH]; intros m H; [exact H|].
  simpl. apply IH. unfold Conv.push. now apply keys_unique_set.
Qed.

(** The arrays built from pairs hold the pairs, and only them. *)
Lemma In_push_all (pairs : list (jsstring * jsstring)) (n r : jsstring) :
  In (n, r) pairs <->
  exists rs, In (n, rs) (Conv.push_all pairs []) /\ In r rs.
Proof.
  pose proof (keys_unique_push_all pairs [] eq_refl) as U.
  pose proof (rights_push_all pairs n r []) as R. simpl in R. split.
  - intros H.
    destruct (map_get n (Conv.push_all pairs [])) as [rs|] eqn:E.
    + exists rs. split; [now apply map_get_In | apply R; now right].
    + destruct (proj2 R (or_intror H)).
  - intros (rs & Hin & Hr). apply (keys_unique_In _ _ _ U) in Hin.
    rewrite Hin in R. now destruct (proj1 R Hr).
Qed.

Variable A : t.
Variable q0 : jsstring.

Hypothesis in_order : Inv.wf A = true.
Hypothesis consistent : Inv.consistent A = true.
Hypothesis plain : Inv.names_plain A = true.
Hypothesis initial : initialState A = Some q0.

Lemma toRegularGrammar_converted :
  toRegularGrammar A =
  (Ok (RegularGrammar.with_productions
         (Conv.push_all (Conv.production_pairs A q0) [])
         (RegularGrammar.with_startSymbol (Some q0)
            (RegularGrammar.with_terminals (alphabet A)
               (RegularGrammar.with_nonTerminals (states A)
                  (RegularGrammar.new (lit "GR_" ++ name A)))))),
   A, []).
Proof.
  rewrite toRegularGrammar_run.
  now rewrite (fill_grammar_run A q0
                 (RegularGrammar.new (lit "GR_" ++ name A))
                 in_order consistent plain initial eq_refl).
Qed.

Lemma initial_is_state : has q0 (states A) = true.
Proof.
  pose proof consistent as C. unfold Inv.consistent in C.
  rewrite initial in C. now apply andb_true_iff in C as [C _].
Qed.

Lemma transition_ends (tr : Transition) :
  In tr (getTransitionsArray A) ->
  has (sym tr) (alphabet A) = true /\ has (to tr) (states A) = true.
Proof.
  intros Hin. pose proof consistent as C. unfold Inv.consistent in C.
  apply andb_true_iff in C as [_ C]. rewrite forallb_forall in C.
  specialize (C _ Hin). apply andb_true_iff in C as [C Hp].
  apply andb_true_iff in C as [_ Ha]. now split.
Qed.

End ConvertedValid.

Lemma single_unit (names : list jsstring) (x : jsstring) :
  forallb (fun q => length q =? 1) names = true ->
  has x names = true -> exists c, x = [c].
Proof.
  intros H Hx. rewrite forallb_forall in H. apply has_In in Hx.
  specialize (H _ Hx). apply Nat.eqb_eq in H.
  destruct x as [|c [|d x]]; try discriminate. now exists c.
Qed.

(** X14. The grammar of an automaton whose states and symbols are all one
    code unit long passes the grammar's own validation: for an automaton
    in order and consistent, with no [;] or [>] in a name and at least one
    transition, [toRegularGrammar] returns a grammar on which [validate]
    reports [isValid]. *)
Theorem toRegularGrammar_valid_for_single_units :
  forall A : FiniteAutomaton.t,
    Inv.wf A = true ->
    Inv.consistent A = true ->
    Inv.names_plain A = true ->
    Converted.single_units A = true ->
    FiniteAutomaton.getTransitionsArray A <> [] ->
    exists G : RegularGrammar.t,
      toRegularGrammar A = (Ok G, A, []) /\
      RegularGrammar.isValid (RegularGrammar.validate G) = true.
Proof.
  intros A W C N S T.
  destruct (FiniteAutomaton.initialState A) as [q0|] eqn:I;
    [|unfold Inv.consistent in C; rewrite I in C; discriminate].
  eexists. split; [exact (toRegularGrammar_converted A q0 W C N I)|].
  unfold Converted.single_units in S. apply andb_true_iff in S as [Ss Sa].
  pose proof (initial_is_state A q0 C I) as Hq0.
  destruct (FiniteAutomaton.getTransitionsArray A) as [|tr0 trs] eqn:Etr;
    [now destruct T|].
  assert (In tr0 (FiniteAutomaton.getTransitionsArray A)) as Hin0
      by (rewrite Etr; now left).
  destruct (transition_ends A C tr0 Hin0) as [Ha0 _].
  apply validate_isValid. simpl.
  split; [intros E; rewrite E in Hq0; discriminate|].
  split; [intros E; rewrite E in Ha0; discriminate|].
  split; [destruct (single_unit _ _ Ss Hq0) as [c ->]; reflexivity|].
  split.
  - intros E.
    assert (In (FiniteAutomaton.from tr0,
                FiniteAutomaton.sym tr0 ++ FiniteAutomaton.to tr0)
               (Conv.production_pairs A q0)) as Hp.
    { apply In_production_pairs. left.
      exists (FiniteAutomaton.sym tr0), (FiniteAutomaton.to tr0).
      split; [now destruct tr0 | now left]. }
    apply In_push_all in Hp as (rs & Hrs & _). rewrite E in Hrs.
    destruct Hrs.
  - intros nt rights rhs Hrow Hrhs.
    assert (In (nt, rhs) (Conv.production_pairs A q0)) as Hp
        by (apply In_push_all; now exists rights).
    apply In_production_pairs in Hp
      as [(a & p & Hin & Hr) | (_ & _ & ->)]; [|reflexivity].
    destruct (transition_ends A C _ Hin) as [Ha Hto]. simpl in Ha, Hto.
    destruct (single_unit _ _ Sa Ha) as [a0 ->].
    destruct (single_unit _ _ Ss Hto) as [p0 ->].
    unfold Spec.rhs_valid. simpl RegularGrammar.terminals.
    simpl RegularGrammar.nonTerminals.
    destruct Hr as [-> | [_ ->]].
    + simpl. rewrite andb_false_r. simpl.
      change (existsb (eqb [a0]) (FiniteAutomaton.alphabet A))
        with (has [a0] (FiniteAutomaton.alphabet A)).
      change (existsb (eqb [p0]) (FiniteAutomaton.states A))
        with (has [p0] (FiniteAutomaton.states A)).
      now rewrite Ha, Hto.
    + destruct (eqb [a0] epsilon || eqb [a0] []); [reflexivity | exact Ha].
Qed.

Lemma toRegularGrammar_valid_for_single_units_witness :
  exists G : RegularGrammar.t,
    toRegularGrammar Converted.automatonP =
      (Ok G, Converted.automatonP, []) /\
    RegularGrammar.isValid (RegularGrammar.validate G) = true.
Proof.
  apply (toRegularGrammar_valid_for_single_units Converted.automatonP);
    try reflexivity.
  discriminate.
Defined.

(** X15. The grammar of an automaton with a longer name does not pass:
    when some transition has a symbol and a target of more than two code
    units together (a state named [q1] reached on [a], say), the grammar
    that [toRegularGrammar] returns is reported as not valid by
    [validate]. *)
Theorem toRegularGrammar_invalid_for_long_names :
  forall (A : FiniteAutomaton.t) (tr : FiniteAutomaton.Transition),
    Inv.wf A = true ->
    Inv.consistent A = true ->
    Inv.names_plain A = true ->
    In tr (FiniteAutomaton.getTransitionsArray A) ->
    2 < length (FiniteAutomaton.sym tr ++ FiniteAutomaton.to tr) ->
    exists G : RegularGrammar.t,
      toRegularGrammar A = (Ok G, A, []) /\
      RegularGrammar.isValid (RegularGrammar.validate G) = false.
Proof.
  intros A [q a p] W C N Hin Hlen. simpl in Hlen.
  destruct (FiniteAutomaton.initialState A) as [q0|] eqn:I;
    [|unfold Inv.consistent in C; rewrite I in C; discriminate].
  eexists. split; [exact (toRegularGrammar_converted A q0 W C N I)|].
  match goal with
  | |- ?b = false => destruct b eqn:V; [|reflexivity]
  end.
  apply validate_isValid in V as (_ & _ & _ & _ & V). simpl in V.
  assert (In (q, a ++ p) (Conv.production_pairs A q0)) as Hp.
  { apply In_production_pairs. left. exists a, p.
    split; [exact Hin | now left]. }
  apply In_push_all in Hp as (rs & Hrs & Hr).
  specialize (V q rs (a ++ p) Hrs Hr). unfold Spec.rhs_valid in V.
  destruct (a ++ p) as [|x [|y [|z l]]]; simpl in Hlen; try lia.
  simpl in V. rewrite !andb_false_r in V. discriminate.
Qed.

Lemma toRegularGrammar_invalid_for_long_names_witness :
  exists G : RegularGrammar.t,
    toRegularGrammar Examples.automatonX = (Ok G, Examples.automatonX, []) /\
    RegularGrammar.isValid (RegularGrammar.validate G) = false.
Proof.
  apply (toRegularGrammar_invalid_for_long_names Examples.automatonX
           (FiniteAutomaton.mkTransition (lit "q0") (lit "a") (lit "q1")));
    try reflexivity.
  - vm_compute. tauto.
  - vm_compute. lia.
Defined.

(* ===================================================================== *)
(** ** The layers of the drawing                                          *)
(* ===================================================================== *)

Section Layers.

Import AutomataVisualizer.

Variable info : AutomatonInfo.t.

(** [visited] is what it was at the start of the round followed by
    [nextLayer], with no state twice. *)
Let tracked (base : list jsstring) (acc : list jsstring * list jsstring)
  : Prop :=
  snd acc = base ++ fst acc /\ NoDup (snd acc).

Lemma visit_tracked (base : list jsstring)
  (acc : list jsstring * list jsstring) (r : jsstring) :
  tracked base acc ->
  tracked base (visit acc r) /\
  In r (snd (visit acc r)) /\
  (forall x, In x (snd acc) -> In x (snd (visit acc r))) /\
  (forall x, In x (fst (visit acc r)) -> In x (fst acc) \/ x = r).
Proof.
  intros [K N]. unfold visit.
  destruct (has r (snd acc)) eqn:Hv; simpl.
  - repeat split; try assumption; [now apply has_In | tauto | tauto].
  - assert (~ In r (snd acc)) as Hn
        by (intros Hin; apply has_In in Hin; congruence).
    destruct (has r (fst acc)) eqn:Hn'; simpl.
    + apply has_In in Hn'. destruct Hn. rewrite K. apply in_or_app.
      now right.
    + unfold add. rewrite Hv. repeat split; simpl.
      * now rewrite K, app_assoc.
      * apply NoDup_app; [exact N | repeat constructor; tauto|].
        intros a Ha [<- | []]. now apply Hn.
      * apply in_or_app. right. now left.
      * intros x Hx. apply in_or_app. now left.
      * intros x Hx. apply in_app_or in Hx as [Hx | [<- | []]]; tauto.
Qed.

Lemma visits_tracked (base : list jsstring) (rs : list jsstring) :
  forall acc : list jsstring * list jsstring,
    tracked base acc ->
    tracked base (fold_left visit rs acc) /\
    (forall r, In r rs -> In r (snd (fold_left visit rs acc))) /\
    (forall x, In x (snd acc) -> In x (snd (fold_left visit rs acc))) /\
    (forall x, In x (fst (fold_left visit rs acc)) ->
               In x (fst acc) \/ In x rs).
Proof.
  induction rs as [|r rs IH]; intros acc T; simpl.
  - repeat split; try apply T; tauto.
  - destruct (visit_tracked base acc r T) as (T1 & I1 & M1 & F1).
    destruct (IH _ T1) as (T2 & I2 & M2 & F2).
    split; [exact T2|]. split; [|split].
    + intros x [<- | Hx]; [now apply M2 | now apply I2].
    + intros x Hx. now apply M2, M1.
    + intros x Hx. apply F2 in Hx as [Hx | Hx]; [|tauto].
      apply F1 in Hx as [Hx | ->]; tauto.
Qed.

Lemma expand_tracked (base : list jsstring)
  (acc : list jsstring * list jsstring) (state : option jsstring) :
  tracked base acc ->
  tracked base (expand info acc state) /\
  (forall t, In t (AutomatonInfo.transitions info) ->
             starts_at state t = true ->
             In (FiniteAutomaton.to t) (snd (expand info acc state))) /\
  (forall x, In x (snd acc) -> In x (snd (expand info acc state))) /\
  (forall x, In x (fst (expand info acc state)) ->
             In x (fst acc) \/
             exists t, In t (AutomatonInfo.transitions info) /\
                       starts_at state t = true /\
                       FiniteAutomaton.to t = x).
Proof.
  intros T. unfold expand.
  destruct (visits_tracked base
              (List.map FiniteAutomaton.to
                 (filter (fun t => starts_at state t &&
                                   negb (has (FiniteAutomaton.to t) (snd acc)))
                         (AutomatonInfo.transitions info)))
              acc T) as (T1 & I1 & M1 & F1).
  split; [exact T1|]. split; [|split; [exact M1|]].
  - intros t Hin Hs.
    destruct (has (FiniteAutomaton.to t) (snd acc)) eqn:Hv.
    + apply M1. now apply has_In.
    + apply I1. apply in_map. apply filter_In. split; [exact Hin|].
      now rewrite Hs, Hv.
  - intros x Hx. apply F1 in Hx as [Hx | Hx]; [now left|]. right.
    apply in_map_iff in Hx as (t & <- & Ht).
    apply filter_In in Ht as [Hin Hc]. apply andb_true_iff in Hc as [Hs _].
    now exists t.
Qed.

Lemma layer_tracked (base : list jsstring)
  (currentLayer : list (option jsstring)) :
  forall acc : list jsstring * list jsstring,
    tracked base acc ->
    tracked base (fold_left (expand info) currentLayer acc) /\
    (forall state t,
        In state currentLayer ->
        In t (AutomatonInfo.transitions info) ->
        starts_at state t = true ->
        In (FiniteAutomaton.to t)
           (snd (fold_left (expand info) currentLayer acc))) /\
    (forall x, In x (snd acc) ->
               In x (snd (fold_left (expand info) currentLayer acc))) /\
    (forall x, In x (fst (fold_left (expand info) currentLayer acc)) ->
               In x (fst acc) \/
               exists state t,
                 In state currentLayer /\
                 In t (AutomatonInfo.transitions info) /\
                 starts_at state t = true /\ FiniteAutomaton.to t = x).
Proof.
  induction currentLayer as [|state l IH]; intros acc T; simpl.
  - repeat split; try apply T; tauto.
  - destruct (expand_tracked base acc state T) as (T1 & I1 & M1 & F1).
    destruct (IH _ T1) as (T2 & I2 & M2 & F2).
    split; [exact T2|]. split; [|split].
    + intros st t [<- | Hst] Hin Hs.
      * apply M2. now apply I1.
      * now apply (I2 st t).
    + intros x Hx. now apply M2, M1.
    + intros x Hx. apply F2 in Hx as [Hx | (st & t & Hst & Hin & Hs & E)].
      * apply F1 in Hx as [Hx | (t & Hin & Hs & E)]; [now left|].
        right. exists state, t. repeat split; try assumption. now left.
      * right. exists st, t. repeat split; try assumption. now right.
Qed.

(** One round of the loop. *)
Lemma next_layer_round (currentLayer : list (option jsstring))
  (visited : list jsstring) :
  NoDup visited ->
  snd (next_layer info currentLayer visited) =
    visited ++ fst (next_layer info currentLayer visited) /\
  NoDup (snd (next_layer info currentLayer visited)) /\
  (forall state t,
      In state currentLayer ->
      In t (AutomatonInfo.transitions info) ->
      starts_at state t = true ->
      In (FiniteAutomaton.to t) (snd (next_layer info currentLayer visited))) /\
  (forall x, In x (fst (next_layer info currentLayer visited)) ->
             exists state t,
               In state currentLayer /\
               In t (AutomatonInfo.transitions info) /\
               starts_at state t = true /\ FiniteAutomaton.to t = x).
Proof.
  intros N. unfold next_layer.
  destruct (layer_tracked visited currentLayer ([], visited))
    as ([K N1] & I1 & M1 & F1).
  { split; [simpl; now rewrite app_nil_r | exact N]. }
  split; [exact K|]. split; [exact N1|]. split; [exact I1|].
  intros x Hx. apply F1 in Hx as [[] | Hx]. exact Hx.
Qed.

(** The loop is left before the rounds are used up. *)
Lemma search_returns (fuel : nat) :
  forall (layers : list (list jsstring)) (visited : list jsstring)
         (currentLayer : list (option jsstring)),
    NoDup visited ->
    length (AutomatonInfo.states info) - length visited < fuel ->
    exists found, search fuel info layers visited currentLayer = Some found.
Proof.
  induction fuel as [|fuel IH]; intros layers visited current N Hf; [lia|].
  cbn [search].
  destruct ((0 <? length current) &&
            (length visited <? length (AutomatonInfo.states info))) eqn:C;
    [|eauto].
  apply andb_true_iff in C as [_ C]. apply Nat.ltb_lt in C.
  destruct (next_layer_round current visited N) as (K & N1 & _).
  destruct (0 <? length (fst (next_layer info current visited))) eqn:L;
    [|eauto].
  apply Nat.ltb_lt in L. apply IH; [exact N1|].
  rewrite K, length_app. lia.
Qed.

(** What the loop leaves: the layers list the visited states, once
    each, and no layer is empty. *)
Lemma search_layers (fuel : nat) :
  forall (layers : list (list jsstring)) (visited : list jsstring)
         (currentLayer : list (option jsstring))
         (found : list (list jsstring) * list jsstring),
    search fuel info layers visited currentLayer = Some found ->
    concat layers = visited -> NoDup visited ->
    Forall (fun layer => layer <> []) layers ->
    concat (fst found) = snd found /\ NoDup (snd found) /\
    Forall (fun layer => layer <> []) (fst found) /\
    exists more, fst found = layers ++ more.
Proof.
  induction fuel as [|fuel IH]; intros layers visited current found H E N F;
    [discriminate|].
  cbn [search] in H.
  destruct ((0 <? length current) &&
            (length visited <? length (AutomatonInfo.states info)));
    [|injection H as <-; simpl; repeat split; try assumption;
      exists []; now rewrite app_nil_r].
  destruct (next_layer_round current visited N) as (K & N1 & _).
  destruct (0 <? length (fst (next_layer info current visited))) eqn:L.
  - apply Nat.ltb_lt in L.
    apply IH in H as (E' & N' & F' & more & M).
    + repeat split; try assumption.
      exists (fst (next_layer info current visited) :: more).
      now rewrite M, <- app_assoc.
    + rewrite concat_app, E, K. simpl. now rewrite app_nil_r.
    + exact N1.
    + apply Forall_app. split; [exact F|]. constructor; [|constructor].
      intros E0. rewrite E0 in L. simpl in L. lia.
  - injection H as <-. simpl.
    apply Nat.ltb_ge in L.
    assert (fst (next_layer info current visited) = []) as E0
        by (destruct (fst (next_layer info current visited));
            [reflexivity | simpl in L; lia]).
    rewrite K, E0, app_nil_r. repeat split; try assumption.
    exists []. now rewrite app_nil_r.
Qed.

(** More rounds than needed change nothing. *)
Lemma search_more (fuel : nat) :
  forall (layers : list (list jsstring)) (visited : list jsstring)
         (currentLayer : list (option jsstring))
         (found : list (list jsstring) * list jsstring) (more : nat),
    search fuel info layers visited currentLayer = Some found ->
    search (fuel + more) info layers visited currentLayer = Some found.
Proof.
  induction fuel as [|fuel IH]; intros layers visited current found more H;
    [discriminate|].
  cbn [search Nat.add] in *.
  destruct ((0 <? length current) &&
            (length visited <? length (AutomatonInfo.states info)));
    [|exact H].
  destruct (0 <? length (fst (next_layer info current visited)));
    [now apply IH | exact H].
Qed.

Lemma first_layer_listed :
  concat (fst (first_layer info)) = snd (first_layer info) /\
  NoDup (snd (first_layer info)) /\
  Forall (fun layer => layer <> []) (fst (first_layer info)).
Proof.
  unfold first_layer.
  destruct (AutomatonInfo.initialState info) as [[|c s]|]; simpl;
    repeat split; repeat constructor; try tauto; discriminate.
Qed.

End Layers.

(** X16. [createLayers] always comes to an end, within one round of its
    loop for each state and one more (allowing more rounds changes
    nothing), and what it returns sorts the states into layers: no layer is empty, every state is in a layer, no
    state is in two layers or twice in one when [states] holds none twice,
    and an initial state that is not the empty string is the first layer
    by itself. *)
Theorem createLayers_sorts_the_states :
  forall info : AutomatonInfo.t,
    exists layers : list (list jsstring),
      AutomataVisualizer.createLayers info = Some layers /\
      (forall rounds,
          length (AutomatonInfo.states info) < rounds ->
          option_map (AutomataVisualizer.with_left_over info)
            (AutomataVisualizer.search rounds info
               (fst (AutomataVisualizer.first_layer info))
               (snd (AutomataVisualizer.first_layer info))
               [AutomatonInfo.initialState info]) =
          Some layers) /\
      (forall layer, In layer layers -> layer <> []) /\
      (forall s, In s (AutomatonInfo.states info) -> In s (concat layers)) /\
      (NoDup (AutomatonInfo.states info) -> NoDup (concat layers)) /\
      (forall s, AutomatonInfo.initialState info = Some s -> s <> [] ->
                 exists rest, layers = [s] :: rest).
Proof.
  intros info. unfold AutomataVisualizer.createLayers.
  destruct (first_layer_listed info) as (E0 & N0 & F0).
  destruct (search_returns info (S (length (AutomatonInfo.states info)))
              (fst (AutomataVisualizer.first_layer info))
              (snd (AutomataVisualizer.first_layer info))
              [AutomatonInfo.initialState info] N0) as [found H]; [lia|].
  rewrite H. eexists. split; [reflexivity|]. split.
  { intros rounds Hr.
    replace rounds
      with (S (length (AutomatonInfo.states info)) +
            (rounds - S (length (AutomatonInfo.states info)))) by lia.
    now rewrite (search_more info _ _ _ _ _ _ H). }
  destruct (search_layers info _ _ _ _ _ H E0 N0 F0)
    as (E & N & F & more & M).
  unfold AutomataVisualizer.with_left_over.
  set (rest := AutomataVisualizer.left_over info (snd found)).
  assert (forall s, In s rest <->
                    In s (AutomatonInfo.states info) /\ ~ In s (snd found))
    as Hrest.
  { intros s. unfold rest, AutomataVisualizer.left_over.
    rewrite filter_In, negb_true_iff. split; intros [H1 H2];
      (split; [exact H1|]).
    - intros Hin. apply has_In in Hin. congruence.
    - destruct (has s (snd found)) eqn:Hh; [|reflexivity].
      apply has_In in Hh. tauto. }
  assert (forall s, In s (AutomatonInfo.states info) ->
                    In s (snd found) \/ In s rest) as Hall.
  { intros s Hs. destruct (has s (snd found)) eqn:Hh.
    - left. now apply has_In.
    - right. apply Hrest. split; [exact Hs|]. intros Hin.
      apply has_In in Hin. congruence. }
  assert (rest = [] \/ 0 < length rest) as [R | R]
      by (destruct rest; [now left | right; simpl; lia]).
  - rewrite R. simpl. rewrite Forall_forall in F.
    split; [exact F|]. split; [|split; [now rewrite E|]].
    + intros s Hs. rewrite E. destruct (Hall s Hs) as [Hv | Hr];
        [exact Hv | rewrite R in Hr; destruct Hr].
    + intros s Hi Hne. rewrite M. unfold AutomataVisualizer.first_layer.
      rewrite Hi. destruct s as [|c s]; [now destruct Hne|].
      now exists more.
  - apply Nat.ltb_lt in R. rewrite R. apply Nat.ltb_lt in R.
    split; [|split; [|split]].
    + intros layer Hin. apply in_app_or in Hin as [Hin | [<- | []]].
      * rewrite Forall_forall in F. now apply F.
      * intros E1. rewrite E1 in R. simpl in R. lia.
    + intros s Hs. rewrite concat_app, E. simpl. rewrite app_nil_r.
      apply in_or_app. exact (Hall s Hs).
    + intros Nd. rewrite concat_app, E. simpl. rewrite app_nil_r.
      apply NoDup_app; [exact N | now apply NoDup_filter|].
      intros s Hv Hr. apply Hrest in Hr. tauto.
    + intros s Hi Hne. rewrite M. unfold AutomataVisualizer.first_layer.
      rewrite Hi. destruct s as [|c s]; [now destruct Hne|].
      exists (more ++ [rest]). reflexivity.
Qed.

Section Reachable.

Import AutomataVisualizer.

Variable info : AutomatonInfo.t.
Variable s0 : jsstring.

Hypothesis initial : AutomatonInfo.initialState info = Some s0.
Hypothesis initial_state : In s0 (AutomatonInfo.states info).
Hypothesis targets_states :
  forall t, In t (AutomatonInfo.transitions info) ->
            In (FiniteAutomaton.to t) (AutomatonInfo.states info).

Lemma current_dec (state : option jsstring)
  (currentLayer : list (option jsstring)) :
  In state currentLayer \/ ~ In state currentLayer.
Proof.
  assert (forall x y : option jsstring, {x = y} + {x <> y}) as D
      by (decide equality; apply (list_eq_dec N.eq_dec)).
  destruct (in_dec D state currentLayer); tauto.
Qed.

Lemma starts_at_from (t : FiniteAutomaton.Transition) :
  starts_at (Some (FiniteAutomaton.from t)) t = true.
Proof. apply eqb_refl. Qed.

Lemma reached_states (s : jsstring) :
  Reached info s -> In s (AutomatonInfo.states info).
Proof.
  intros H. induction H as [s E | t Hin _ _].
  - rewrite initial in E. now injection E as <-.
  - now apply targets_states.
Qed.

Lemma chained_snoc (front : list (list jsstring))
  (before layer : list jsstring) :
  chained info (front ++ [before]) -> linked info before layer ->
  chained info ((front ++ [before]) ++ [layer]).
Proof.
  intros C L. induction front as [|x front IH].
  - simpl. now split.
  - simpl in C. simpl.
    destruct (front ++ [before]) as [|z rest] eqn:E;
      [now destruct front|].
    simpl. split; [exact (proj1 C)|]. apply IH. exact (proj2 C).
Qed.

(** What holds each time the loop comes round. *)
Let round (layers : list (list jsstring)) (visited : list jsstring)
  (currentLayer : list (option jsstring)) : Prop :=
  NoDup visited /\
  (forall s, In (Some s) currentLayer -> In s visited) /\
  (forall t, In t (AutomatonInfo.transitions info) ->
             In (FiniteAutomaton.from t) visited ->
             ~ In (Some (FiniteAutomaton.from t)) currentLayer ->
             In (FiniteAutomaton.to t) visited) /\
  (forall s, In s visited -> Reached info s) /\
  In s0 visited /\
  chained info layers /\
  exists front lastLayer,
    layers = front ++ [lastLayer] /\ currentLayer = List.map Some lastLayer.

(** Every state that transitions lead to from a visited state has been
    visited, or there are as many visited states as states. *)
Let finished (visited : list jsstring) : Prop :=
  (forall t, In t (AutomatonInfo.transitions info) ->
             In (FiniteAutomaton.from t) visited ->
             In (FiniteAutomaton.to t) visited) \/
  length (AutomatonInfo.states info) <= length visited.

Lemma finished_reached (visited : list jsstring) :
  NoDup visited -> In s0 visited ->
  (forall s, In s visited -> Reached info s) ->
  finished visited ->
  forall s, Reached info s -> In s visited.
Proof.
  intros N H0 R [C | L] s H.
  - induction H as [s E | t Hin _ IH]; [|exact (C t Hin IH)].
    rewrite initial in E. now injection E as <-.
  - apply (NoDup_length_incl N L); [|now apply reached_states].
    intros x Hx. now apply reached_states, R.
Qed.

Lemma within_reached (n : nat) (s : jsstring) :
  Within info n s -> Reached info s.
Proof.
  intros H. induction H as [s E | n t Hin _ IH].
  - now apply reached_initial.
  - now apply reached_next.
Qed.

Lemma within_zero (s : jsstring) : Within info 0 s <-> s = s0.
Proof.
  split.
  - intros H. inversion H as [x E |]. subst. rewrite initial in E.
    now injection E as <-.
  - intros ->. now apply within_initial.
Qed.

Lemma within_step (n : nat) (s : jsstring) :
  Within info (S n) s ->
  exists t, In t (AutomatonInfo.transitions info) /\
            Within info n (FiniteAutomaton.from t) /\
            FiniteAutomaton.to t = s.
Proof.
  intros H. inversion H as [| m t Hin Hw]. subst. now exists t.
Qed.

Lemma In_concat_nth (layers : list (list jsstring)) (s : jsstring) :
  In s (concat layers) <->
  exists i, i < length layers /\ In s (nth i layers []).
Proof.
  rewrite in_concat. split.
  - intros (layer & Hl & Hs).
    destruct (In_nth layers layer [] Hl) as (i & Hi & E).
    exists i. now rewrite E.
  - intros (i & Hi & Hs). exists (nth i layers []).
    split; [now apply nth_In | exact Hs].
Qed.

Lemma NoDup_app_apart (l l' : list jsstring) (x : jsstring) :
  NoDup (l ++ l') -> In x l -> In x l' -> False.
Proof.
  induction l as [|y l IH]; intros N Hl Hl'; [destruct Hl|].
  simpl in N. inversion N as [|? ? Hy N']. subst.
  destruct Hl as [-> | Hl]; [|now apply IH].
  apply Hy. apply in_or_app. now right.
Qed.

(** The layer of index [i] holds the states at distance [i]. *)
Let measured (layers : list (list jsstring)) (visited : list jsstring)
  : Prop :=
  concat layers = visited /\
  forall i, i < length layers ->
            forall s, In s (nth i layers []) <-> distance info i s.

(** A state that fewer transitions lead to than there are layers has been
    visited. *)
Lemma measured_within (layers : list (list jsstring))
  (visited : list jsstring) (currentLayer : list (option jsstring)) :
  round layers visited currentLayer -> measured layers visited ->
  forall m s, Within info m s -> m < length layers -> In s visited.
Proof.
  intros (N & J3 & J4 & J5 & J7 & J8 & front & lastLayer & El & Ec) [Ecat D].
  intros m s H. induction H as [s E | n t Hin Hw IH]; intros Hm.
  - rewrite initial in E. injection E as <-. exact J7.
  - specialize (IH ltac:(lia)).
    destruct (current_dec (Some (FiniteAutomaton.from t)) currentLayer)
      as [Hc | Hc]; [|now apply J4].
    rewrite Ec in Hc. apply in_map_iff in Hc as (y & Ey & Hy).
    injection Ey as ->.
    assert (length layers = S (length front)) as Hlen
        by (rewrite El, length_app; simpl; lia).
    assert (nth (length front) layers [] = lastLayer) as Hlast
        by (rewrite El; apply nth_middle).
    rewrite <- Hlast in Hy. apply D in Hy; [|lia].
    destruct Hy as [_ Hmin]. destruct (Hmin n ltac:(lia) Hw).
Qed.

(** One more round: the new layer holds the states at the next
    distance. *)
Lemma measured_next (layers : list (list jsstring))
  (visited : list jsstring) (currentLayer : list (option jsstring)) :
  round layers visited currentLayer -> measured layers visited ->
  measured (layers ++ [fst (next_layer info currentLayer visited)])
           (snd (next_layer info currentLayer visited)).
Proof.
  intros Hround Hmeasured.
  pose proof (measured_within _ _ _ Hround Hmeasured) as Hearly.
  destruct Hround
    as (N & J3 & J4 & J5 & J7 & J8 & front & lastLayer & El & Ec).
  destruct Hmeasured as [Ecat D].
  destruct (next_layer_round info currentLayer visited N)
    as (K & N1 & I1 & F1).
  set (nextLayer := fst (next_layer info currentLayer visited)) in *.
  assert (length layers = S (length front)) as Hlen
      by (rewrite El, length_app; simpl; lia).
  assert (nth (length front) layers [] = lastLayer) as Hlast
      by (rewrite El; apply nth_middle).
  rewrite K in *. split.
  - rewrite concat_app, Ecat. simpl. now rewrite app_nil_r.
  - intros i Hi s. rewrite length_app in Hi. simpl in Hi.
    assert (i < length layers \/ i = length layers) as [Hlt | ->] by lia.
    + rewrite app_nth1 by exact Hlt. now apply D.
    + rewrite nth_middle. rewrite Hlen. split.
      * intros Hs.
        destruct (F1 s Hs) as (state & t & Hst & Hin & Hstart & E).
        destruct state as [q|]; [|discriminate]. simpl in Hstart.
        apply eqb_eq in Hstart. subst q.
        rewrite Ec in Hst. apply in_map_iff in Hst as (y & Ey & Hy).
        injection Ey as ->. rewrite <- Hlast in Hy.
        apply D in Hy; [|lia]. destruct Hy as [Hw _].
        split; [rewrite <- E; now apply within_next|].
        intros m Hm Hw'.
        apply (NoDup_app_apart visited nextLayer s N1); [|exact Hs].
        apply (Hearly m s Hw'). lia.
      * intros [Hw Hmin].
        apply within_step in Hw as (t & Hin & Hw & E).
        assert (In (FiniteAutomaton.from t) lastLayer) as Hfrom.
        { rewrite <- Hlast. apply D; [lia|]. split; [exact Hw|].
          intros m Hm Hw'. apply (Hmin (S m)); [lia|].
          rewrite <- E. now apply within_next. }
        assert (In (FiniteAutomaton.to t) (visited ++ nextLayer)) as Hto.
        { apply (I1 (Some (FiniteAutomaton.from t)) t);
            [rewrite Ec; now apply in_map | exact Hin |
             apply starts_at_from]. }
        rewrite E in Hto. apply in_app_or in Hto as [Hv | Hn]; [|exact Hn].
        rewrite <- Ecat in Hv. apply In_concat_nth in Hv as (j & Hj & Hs).
        apply D in Hs; [|exact Hj]. destruct Hs as [Hw' _].
        destruct (Hmin j ltac:(lia) Hw').
Qed.

Lemma search_reached (fuel : nat) :
  forall (layers : list (list jsstring)) (visited : list jsstring)
         (currentLayer : list (option jsstring))
         (found : list (list jsstring) * list jsstring),
    search fuel info layers visited currentLayer = Some found ->
    round layers visited currentLayer ->
    measured layers visited ->
    chained info (fst found) /\
    (forall s, In s (snd found) <-> Reached info s) /\
    measured (fst found) (snd found).
Proof.
  induction fuel as [|fuel IH];
    intros layers visited current found H Hround Hmeasured;
    [discriminate|].
  pose proof (measured_next _ _ _ Hround Hmeasured) as Hnew.
  destruct Hround
    as (N & J3 & J4 & J5 & J7 & J8 & front & lastLayer & El & Ec).
  cbn [search] in H.
  destruct (next_layer_round info current visited N) as (K & N1 & I1 & F1).
  destruct ((0 <? length current) &&
            (length visited <? length (AutomatonInfo.states info))) eqn:C.
  - destruct (0 <? length (fst (next_layer info current visited))) eqn:L.
    + apply Nat.ltb_lt in L. apply (IH _ _ _ _ H); [|exact Hnew].
      set (nextLayer := fst (next_layer info current visited)) in *.
      assert (forall x, In x nextLayer ->
                        exists t, In t (AutomatonInfo.transitions info) /\
                                  In (FiniteAutomaton.from t) lastLayer /\
                                  In (FiniteAutomaton.from t) visited /\
                                  FiniteAutomaton.to t = x) as Hnext.
      { intros x Hx. destruct (F1 x Hx) as (state & t & Hst & Hin & Hs & E).
        destruct state as [s|]; [|discriminate]. simpl in Hs.
        apply eqb_eq in Hs. subst s. exists t.
        split; [exact Hin|]. split; [|split; [now apply J3 | exact E]].
        rewrite Ec in Hst. apply in_map_iff in Hst as (y & Ey & Hy).
        now injection Ey as ->. }
      split; [exact N1|]. rewrite K. split; [|split; [|split; [|split]]].
      * intros s Hs. apply in_map_iff in Hs as (y & Ey & Hy).
        injection Ey as ->. apply in_or_app. now right.
      * intros t Hin Hfrom Hnot.
        apply in_app_or in Hfrom as [Hfrom | Hfrom];
          [|destruct Hnot; now apply in_map].
        rewrite <- K.
        destruct (current_dec (Some (FiniteAutomaton.from t)) current)
          as [Hc | Hc].
        -- exact (I1 _ t Hc Hin (starts_at_from t)).
        -- rewrite K. apply in_or_app. left. now apply J4.
      * intros s Hs. apply in_app_or in Hs as [Hs | Hs]; [now apply J5|].
        destruct (Hnext s Hs) as (t & Hin & _ & Hv & <-).
        apply reached_next; [exact Hin | now apply J5].
      * apply in_or_app. now left.
      * split.
        -- rewrite El. apply chained_snoc; [now rewrite <- El|].
           intros x Hx. destruct (Hnext x Hx) as (t & Hin & Hl & _ & E).
           now exists t.
        -- exists layers, nextLayer. now split.
    + injection H as <-. simpl. split; [exact J8|].
      apply Nat.ltb_ge in L.
      assert (fst (next_layer info current visited) = []) as E0
          by (destruct (fst (next_layer info current visited));
              [reflexivity | simpl in L; lia]).
      rewrite E0, app_nil_r in K. rewrite K in *.
      split; [|exact Hmeasured].
      intros s. split; [apply J5|].
      apply finished_reached; try assumption. left.
      intros t Hin Hfrom.
      destruct (current_dec (Some (FiniteAutomaton.from t)) current)
        as [Hc | Hc].
      * exact (I1 _ t Hc Hin (starts_at_from t)).
      * now apply J4.
  - injection H as <-. simpl. split; [exact J8|].
    split; [|exact Hmeasured].
    intros s. split; [apply J5|].
    apply finished_reached; try assumption.
    apply andb_false_iff in C as [C | C].
    + left. apply Nat.ltb_ge in C.
      assert (current = []) as ->
          by (destruct current; [reflexivity | simpl in C; lia]).
      intros t Hin Hfrom. apply J4; [exact Hin | exact Hfrom | tauto].
    + right. now apply Nat.ltb_ge in C.
Qed.

(** No layer is left for a distance beyond the last one. *)
Lemma measured_all (layers : list (list jsstring)) :
  (forall s, In s (concat layers) <-> Reached info s) ->
  measured layers (concat layers) ->
  forall i s, In s (nth i layers []) <-> distance info i s.
Proof.
  intros R [_ D] i s.
  destruct (Nat.lt_ge_cases i (length layers)) as [Hi | Hi];
    [now apply D|].
  rewrite nth_overflow by exact Hi. split; [intros []|].
  intros [Hw Hmin]. apply within_reached, R, In_concat_nth in Hw.
  destruct Hw as (j & Hj & Hs). apply D in Hs; [|exact Hj].
  destruct Hs as [Hw _]. destruct (Hmin j ltac:(lia) Hw).
Qed.

End Reachable.

Lemma closed_targets (A : FiniteAutomaton.t)
  (t : FiniteAutomaton.Transition) :
  Refs.closed A = true ->
  In t (FiniteAutomaton.getTransitionsArray A) ->
  In (FiniteAutomaton.to t) (FiniteAutomaton.states A).
Proof.
  intros C Hin. destruct t as [q a p]. simpl.
  apply In_table in Hin as (row & Hrow & Hap).
  unfold Refs.closed in C. apply andb_true_iff in C as [_ C].
  rewrite forallb_forall in C. specialize (C _ Hrow). simpl in C.
  apply andb_true_iff in C as [_ C]. unfold Refs.row_closed in C.
  rewrite forallb_forall in C. specialize (C _ Hap). simpl in C.
  apply andb_true_iff in C as [_ C]. now apply has_In.
Qed.

(** X17. The layers are those of a search in breadth from the initial
    state.  For an automaton whose references are to its own states, with
    an initial state that is not the empty string:
    [createLayers] returns layers of which each but the first holds only
    states one transition away from a state of the layer before; the layer
    of index [i] holds exactly the states that [i] transitions lead to from
    the initial state and no fewer do, so that a state is in the first
    layer from which it can be reached; the states in these layers are
    exactly the states that transitions lead to from the initial state; and
    the states that cannot be reached so are exactly those of the layer
    added at the end. *)
Theorem createLayers_breadth_first :
  forall A : FiniteAutomaton.t,
    Refs.closed A = true ->
    truthy (FiniteAutomaton.initialState A) = true ->
    exists reached : list (list jsstring),
      AutomataVisualizer.createLayers (getInfo A) =
        Some (AutomataVisualizer.with_left_over (getInfo A)
                (reached, concat reached)) /\
      AutomataVisualizer.chained (getInfo A) reached /\
      (forall i s, In s (nth i reached []) <->
                   AutomataVisualizer.distance (getInfo A) i s) /\
      (forall s, In s (concat reached) <->
                 AutomataVisualizer.Reached (getInfo A) s) /\
      (forall s,
          In s (AutomataVisualizer.left_over (getInfo A) (concat reached)) <->
          In s (FiniteAutomaton.states A) /\
          ~ AutomataVisualizer.Reached (getInfo A) s).
Proof.
  intros A C T.
  destruct (FiniteAutomaton.initialState A) as [[|c s]|] eqn:I;
    try discriminate.
  assert (In (c :: s) (FiniteAutomaton.states A)) as H0.
  { pose proof C as C'. unfold Refs.closed in C'. rewrite I in C'.
    apply andb_true_iff in C' as [C' _].
    apply andb_true_iff in C' as [C' _]. now apply has_In. }
  destruct (first_layer_listed (getInfo A)) as (E0 & N0 & F0).
  destruct (search_returns (getInfo A)
              (S (length (AutomatonInfo.states (getInfo A))))
              (fst (AutomataVisualizer.first_layer (getInfo A)))
              (snd (AutomataVisualizer.first_layer (getInfo A)))
              [AutomatonInfo.initialState (getInfo A)] N0)
    as [[reached visited] H]; [lia|].
  destruct (search_layers (getInfo A) _ _ _ _ _ H E0 N0 F0)
    as (E & _ & _ & _).
  simpl in E. subst visited.
  assert (AutomataVisualizer.chained (getInfo A) reached /\
          (forall x, In x (concat reached) <->
                     AutomataVisualizer.Reached (getInfo A) x) /\
          (concat reached = concat reached /\
           forall i, i < length reached ->
                     forall x, In x (nth i reached []) <->
                               AutomataVisualizer.distance (getInfo A) i x))
    as (Ch & R & D).
  { apply (search_reached (getInfo A) (c :: s) I H0
             (fun t => closed_targets A t C) _ _ _ _ _ H).
    - unfold AutomataVisualizer.first_layer. simpl AutomatonInfo.initialState.
      rewrite I. simpl.
      split; [repeat constructor; tauto|].
      split; [intros x [E1 | []]; injection E1 as <-; now left|].
      split; [intros t _ [<- | []] Hn; destruct Hn; now left|].
      split;
        [intros x [<- | []]; now apply AutomataVisualizer.reached_initial|].
      split; [now left|]. split; [exact Logic.I|].
      exists [], [c :: s]. now split.
    - unfold AutomataVisualizer.first_layer. simpl AutomatonInfo.initialState.
      rewrite I. simpl. split; [reflexivity|].
      intros i Hi x. assert (i = 0) as -> by lia. simpl.
      pose proof (within_zero (getInfo A) (c :: s) I x) as Z.
      unfold AutomataVisualizer.distance. split.
      + intros [E1 | []]. split; [now apply Z|]. intros m Hm. lia.
      + intros [E1 _]. left. symmetry. now apply Z. }
  exists reached. unfold AutomataVisualizer.createLayers. rewrite H.
  split; [reflexivity|]. split; [exact Ch|].
  split; [exact (measured_all (getInfo A) reached R D)|].
  split; [exact R|].
  intros x. unfold AutomataVisualizer.left_over.
  rewrite filter_In, negb_true_iff. simpl AutomatonInfo.states.
  split; intros [H1 H2]; (split; [exact H1|]).
  - intros Hr. apply R, has_In in Hr. congruence.
  - destruct (has x (concat reached)) eqn:Hh; [|reflexivity].
    apply has_In, R in Hh. tauto.
Qed.

Lemma createLayers_breadth_first_witness :
  exists reached : list (list jsstring),
    AutomataVisualizer.createLayers (getInfo AutomataVisualizer.row) =
      Some (AutomataVisualizer.with_left_over (getInfo AutomataVisualizer.row)
              (reached, concat reached)) /\
    AutomataVisualizer.chained (getInfo AutomataVisualizer.row) reached /\
    (forall i s,
        In s (nth i reached []) <->
        AutomataVisualizer.distance (getInfo AutomataVisualizer.row) i s) /\
    (forall s, In s (concat reached) <->
               AutomataVisualizer.Reached (getInfo AutomataVisualizer.row) s) /\
    (forall s,
        In s (AutomataVisualizer.left_over (getInfo AutomataVisualizer.row)
                (concat reached)) <->
        In s (FiniteAutomaton.states AutomataVisualizer.row) /\
        ~ AutomataVisualizer.Reached (getInfo AutomataVisualizer.row) s).
Proof.
  apply (createLayers_breadth_first AutomataVisualizer.row); reflexivity.
Defined.

(* ===================================================================== *)
(** ** A text is the calls of its records                                 *)
(* ===================================================================== *)

Section RecordsAsCalls.

Import AutomataParser.

Lemma grammar_record_keeps_automata (name : jsstring)
  (m : M RegularGrammar.t unit) (P : t) :
  automata (snd (fst ((ensureGrammar name ;; onGrammar name m) P))) =
  automata P.
Proof.
  assert (Inv.preserves (fun Q => automata Q = automata P)
            (ensureGrammar name ;; onGrammar name m)) as K;
    [|exact (K P eq_refl)].
  apply preserves_bind.
  - unfold ensureGrammar. apply preserves_get_bind. intros Q H.
    unfold when. now destruct (negb (map_has name (grammars Q))).
  - intros _ Q H. unfold onGrammar.
    destruct (map_get name (grammars Q)) as [grammar|]; [|exact H].
    now destruct (m grammar) as [[r grammar'] out].
Qed.

Lemma onAutomaton_held (name : jsstring) (m : M FiniteAutomaton.t unit)
  (P : t) (A : FiniteAutomaton.t) :
  map_get name (automata P) = Some A ->
  Records.held name (snd (fst (onAutomaton name m P))) = snd (fst (m A)).
Proof.
  intros H. unfold onAutomaton. rewrite H.
  destruct (m A) as [[r A'] out]. unfold Records.held. simpl.
  now rewrite map_get_set_same.
Qed.

(** One record, on the automaton it names. *)
Lemma dispatch_held (id : number) (name info : jsstring) (P : t)
  (A : FiniteAutomaton.t) :
  map_get name (automata P) = Some A ->
  Records.held name (snd (fst (dispatch id name info P))) =
  Api.after (Records.call_of id info) A.
Proof.
  intros H.
  assert (Records.held name P = A) as Hheld
      by (unfold Records.held; now rewrite H).
  unfold dispatch, Records.call_of.
  destruct id as [|[|p|p]|negative]; try exact Hheld.
  repeat match goal with
         | |- context [match ?x with xI _ => _ | xO _ => _ | xH => _ end] =>
             is_var x; destruct x
         end;
    try exact Hheld;
    try (unfold Records.held; rewrite grammar_record_keeps_automata;
         now rewrite H);
    exact (onAutomaton_held name _ P A H).
Qed.

Lemma parseLine_held (name line : jsstring) (P : t) :
  Records.held name (snd (fst (parseLine (trim line) P))) =
  Api.after (Records.call name line) (Records.held name P).
Proof.
  unfold Records.call.
  destruct (split (lit ":") (trim line)) as [|a [|b [|c [|d l]]]] eqn:E;
    try (unfold parseLine; rewrite E; reflexivity).
  destruct (eqb (trim b) name) eqn:En.
  - apply eqb_eq in En. subst name. unfold parseLine. rewrite E.
    rewrite (bind_ok get _ P P P [] eq_refl).
    set (P1 := if negb (map_has (trim b) (automata P))
               then with_automata
                      (map_set (trim b) (FiniteAutomaton.new (trim b))
                               (automata P)) P
               else P).
    assert (when (negb (map_has (trim b) (automata P)))
                 (modify (with_automata
                            (map_set (trim b) (FiniteAutomaton.new (trim b))
                                     (automata P)))) P =
            (Ok tt, P1, [])) as W.
    { unfold when, P1. now destruct (negb (map_has (trim b) (automata P))). }
    rewrite (bind_ok _ _ _ _ _ _ W).
    assert (map_get (trim b) (automata P1) =
            Some (Records.held (trim b) P)) as H1.
    { unfold P1, Records.held, map_has.
      destruct (map_get (trim b) (automata P)) as [A|] eqn:G; simpl.
      - exact G.
      - apply map_get_set_same. }
    rewrite <- (dispatch_held (parseInt (trim a)) (trim b) (trim c) P1 _ H1).
    now destruct (dispatch (parseInt (trim a)) (trim b) (trim c) P1)
      as [[r P2] out].
  - apply eqb_neq in En.
    assert (forall idInfo n info,
               split (lit ":") (trim line) = [idInfo; n; info] ->
               trim n <> name) as Hn.
    { intros idInfo n info E'. rewrite E in E'. now injection E' as _ <- _. }
    destruct (parseLine_frame name _ _ (trim line) Hn P (conj eq_refl eq_refl))
      as [Ha _].
    unfold Records.held. now rewrite Ha.
Qed.

Lemma after_app (calls more : list Api.Call) (A : FiniteAutomaton.t) :
  Api.after (calls ++ more) A = Api.after more (Api.after calls A).
Proof. apply fold_left_app. Qed.

Lemma parseLines_held (name : jsstring) (ls : list jsstring) :
  forall (index : nat) (P P' : t) (out : list Warning),
    parseLines index ls P = (Ok tt, P', out) ->
    Records.held name P' =
    Api.after (flat_map (Records.call name) ls) (Records.held name P).
Proof.
  induction ls as [|line ls IH]; intros index P P' out H.
  - unfold parseLines in H. simpl in H. unfold ret in H.
    now injection H as <- _.
  - pose proof (parseLine_held name line P) as L.
    destruct (parseLine (trim line) P) as [[[[]|e] P1] out1] eqn:E.
    + rewrite (parseLines_ok _ _ _ _ _ _ E) in H.
      destruct (parseLines (S index) ls P1) as [[r P2] out2] eqn:E2.
      injection H as -> <- _.
      simpl flat_map. rewrite after_app, <- L.
      exact (IH _ _ _ _ E2).
    + rewrite (parseLines_throw _ _ _ _ _ _ _ E) in H. discriminate.
Qed.

End RecordsAsCalls.

(** X18. An automaton loaded from a text is the automaton its records
    build: when the load returns, the automaton held under a name is the
    one that the calls of the records of that name (codes 1 to 5), made
    in the order of the lines on a new automaton of that name, leave.
    Records of other names and grammar records in between change nothing
    of it. *)
Theorem load_is_the_calls_of_the_records :
  forall (content name : jsstring) (A : FiniteAutomaton.t),
    Api.load content name = Some A ->
    A = Api.after (Records.calls name content) (FiniteAutomaton.new name).
Proof.
  intros content name A H. unfold Api.load in H.
  rewrite parseFile_lines in H.
  destruct (AutomataParser.parseLines 0 (AutomataParser.lines content)
              AutomataParser.new) as [[[[]|e] P] out] eqn:E;
    [|discriminate].
  pose proof (parseLines_held name _ _ _ _ _ E) as K.
  unfold AutomataParser.getAutomaton in H.
  unfold Records.held at 1 in K. rewrite H in K. exact K.
Qed.

Lemma load_is_the_calls_of_the_records_witness :
  Examples.automatonX =
  Api.after (Records.calls (lit "X") Records.mixed)
            (FiniteAutomaton.new (lit "X")).
Proof.
  apply (load_is_the_calls_of_the_records Records.mixed (lit "X")
           Examples.automatonX).
  vm_compute. reflexivity.
Defined.

(* ===================================================================== *)
(** ** The links of the drawing                                           *)
(* ===================================================================== *)

Section MapFacts.

Context {V : Type}.

Lemma In_map_set (k k' : jsstring) (v v' : V) (m : list (jsstring * V)) :
  Inv.keys_unique m = true ->
  (In (k', v') (map_set k v m) <->
   (k' = k /\ v' = v) \/ (k' <> k /\ In (k', v') m)).
Proof.
  intros U. pose proof (keys_unique_set k v m U) as U'.
  rewrite (keys_unique_In _ _ _ U'), (keys_unique_In _ _ _ U).
  destruct (eqb k' k) eqn:E.
  - apply eqb_eq in E. subst k'. rewrite map_get_set_same. split.
    + intros [= ->]. now left.
    + intros [[_ ->] | [Hne _]]; [reflexivity | now destruct Hne].
  - apply eqb_neq in E. rewrite map_get_set_other by congruence. split.
    + intros H. now right.
    + intros [[-> _] | [_ H]]; [now destruct E | exact H].
Qed.

Lemma keys_unique_NoDup (m : list (jsstring * V)) :
  Inv.keys_unique m = true -> NoDup (List.map fst m).
Proof.
  induction m as [|[k v] m IH]; simpl; intros H; [constructor|].
  apply andb_true_iff in H as [Hk Hm]. apply negb_true_iff in Hk.
  constructor; [|now apply IH].
  intros Hin. apply in_map_iff in Hin as ([k' v'] & E & Hin).
  simpl in E. subst k'. unfold map_has in Hk.
  destruct (map_get k m) as [x|] eqn:G; [discriminate|].
  exact (map_get_None _ _ G v' Hin).
Qed.

End MapFacts.

Section LinksOfTransitions.

Import FiniteAutomaton.

Lemma key_once (f f' t t' : jsstring) :
  Conv.without 95 f = true -> Conv.without 95 f' = true ->
  Links.key f t = Links.key f' t' -> f = f' /\ t = t'.
Proof.
  unfold Links.key. revert f'.
  induction f as [|c f IH]; intros [|c' f'] Hf Hf' E; simpl in E.
  - injection E as ->. now split.
  - injection E as <- _. apply without_cons in Hf' as [Hc _].
    now rewrite N.eqb_refl in Hc.
  - injection E as -> _. apply without_cons in Hf as [Hc _].
    now rewrite N.eqb_refl in Hc.
  - injection E as <- E. apply without_cons in Hf as [_ Hf].
    apply without_cons in Hf' as [_ Hf'].
    destruct (IH f' Hf Hf' E) as [-> ->]. now split.
Qed.

Lemma add_once (a : jsstring) (s : list jsstring) :
  NoDup s -> NoDup (add a s).
Proof.
  intros N. unfold add. destruct (has a s) eqn:H; [exact N|].
  apply NoDup_app; [exact N | repeat constructor; tauto|].
  intros x Hx [<- | []]. apply has_In in Hx. congruence.
Qed.

Lemma group_step_run (groups : list (jsstring * Links.Group))
  (tr : Transition) :
  Links.group_step groups tr =
  map_set (Links.key (from tr) (to tr))
          (match map_get (Links.key (from tr) (to tr)) groups with
           | Some g => Links.mkGroup (Links.source g) (Links.target g)
                                     (add (sym tr) (Links.symbols g))
           | None => Links.mkGroup (from tr) (to tr) [sym tr]
           end)
          groups.
Proof.
  unfold Links.group_step, map_has.
  destruct (map_get (Links.key (from tr) (to tr)) groups) as [g|] eqn:G;
    simpl.
  - now rewrite G.
  - rewrite map_get_set_same. simpl. apply map_set_set.
Qed.

(** What the map of groups holds when the transitions [done] have been
    gone through. *)
Let grouped (done : list Transition)
  (groups : list (jsstring * Links.Group)) : Prop :=
  Inv.keys_unique groups = true /\
  (forall k g,
      In (k, g) groups ->
      k = Links.key (Links.source g) (Links.target g) /\
      NoDup (Links.symbols g) /\ Links.symbols g <> [] /\
      forall a, In a (Links.symbols g) <->
                In (mkTransition (Links.source g) a (Links.target g)) done) /\
  (forall tr, In tr done ->
              map_has (Links.key (from tr) (to tr)) groups = true).

Lemma group_step_grouped (done : list Transition)
  (groups : list (jsstring * Links.Group)) (tr : Transition) :
  (forall x, In x (done ++ [tr]) ->
             Conv.without 95 (from x) = true /\
             Conv.without 95 (to x) = true) ->
  grouped done groups ->
  grouped (done ++ [tr]) (Links.group_step groups tr).
Proof.
  intros Hplain (U & G & D). rewrite group_step_run.
  destruct tr as [f a t]. simpl from. simpl to. simpl sym.
  destruct (Hplain (mkTransition f a t)) as [Pf Pt];
    [apply in_or_app; right; now left|]. simpl in Pf, Pt.
  assert (forall g, In (Links.key f t, g) groups ->
                    Links.source g = f /\ Links.target g = t) as Same.
  { intros g Hg. destruct (G _ _ Hg) as (Ek & _ & Hne & Hs).
    destruct (Links.symbols g) as [|b bs] eqn:Eb; [now destruct Hne|].
    pose proof (proj1 (Hs b) (or_introl eq_refl)) as Hin.
    destruct (Hplain _ (in_or_app _ _ _ (or_introl Hin))) as [Ps _].
    simpl in Ps. now destruct (key_once _ _ _ _ Pf Ps Ek) as [-> ->]. }
  split; [now apply keys_unique_set|]. split.
  - intros k g Hin. apply (In_map_set _ _ _ _ _ U) in Hin
      as [[-> ->] | [Hne Hin]].
    + destruct (map_get (Links.key f t) groups) as [g0|] eqn:E0.
      * apply map_get_In in E0.
        destruct (Same g0 E0) as [Es Et].
        destruct (G _ _ E0) as (_ & Ns & _ & Hs). simpl.
        rewrite Es, Et in *. split; [reflexivity|].
        split; [now apply add_once|]. split.
        -- unfold add. destruct (has a (Links.symbols g0)).
           ++ intros E1. destruct (G _ _ E0) as (_ & _ & Hne & _).
              now destruct Hne.
           ++ now destruct (Links.symbols g0).
        -- intros x. rewrite In_add, in_app_iff, Hs. simpl. split.
           ++ intros [H | ->]; [now left | right; now left].
           ++ intros [H | [E1 | []]]; [now left | right].
              now injection E1 as ->.
      * simpl. split; [reflexivity|]. split; [repeat constructor; tauto|].
        split; [discriminate|].
        intros x. rewrite in_app_iff. simpl. split.
        -- intros [<- | []]. right. now left.
        -- intros [H | [E1 | []]].
           ++ apply D in H. simpl in H. unfold map_has in H.
              now rewrite E0 in H.
           ++ injection E1 as ->. now left.
    + destruct (G _ _ Hin) as (Ek & Ns & Hn & Hs).
      split; [exact Ek|]. split; [exact Ns|]. split; [exact Hn|].
      intros x. rewrite Hs, in_app_iff. simpl. split; [now left|].
      intros [H | [E1 | []]]; [exact H|].
      injection E1 as E1 _ E2. destruct Hne. rewrite Ek.
      now rewrite <- E1, <- E2.
  - intros x Hx. rewrite map_has_set.
    apply in_app_or in Hx as [Hx | [<- | []]].
    + rewrite (D x Hx). apply orb_true_r.
    + simpl. now rewrite eqb_refl.
Qed.

Lemma transitionGroups_grouped (todo : list Transition) :
  forall (done : list Transition) (groups : list (jsstring * Links.Group)),
    (forall x, In x (done ++ todo) ->
               Conv.without 95 (from x) = true /\
               Conv.without 95 (to x) = true) ->
    grouped done groups ->
    grouped (done ++ todo) (fold_left Links.group_step todo groups).
Proof.
  induction todo as [|tr todo IH]; intros done groups Hplain H.
  - now rewrite app_nil_r.
  - simpl. replace (done ++ tr :: todo) with ((done ++ [tr]) ++ todo)
      by now rewrite <- app_assoc.
    apply IH; [now rewrite <- app_assoc|].
    apply group_step_grouped; [|exact H].
    intros x Hx. apply Hplain. apply in_app_or in Hx as [Hx | [<- | []]];
      apply in_or_app; [now left | right; now left].
Qed.

End LinksOfTransitions.

Lemma NoDup_map_through {A B C : Type} (f : A -> B) (g : A -> C)
  (h : C -> B) (l : list A) :
  (forall x, In x l -> f x = h (g x)) ->
  NoDup (List.map f l) -> NoDup (List.map g l).
Proof.
  induction l as [|x l IH]; intros H N; simpl; [constructor|].
  simpl in N. inversion N as [|y ys Hnot Nrest]; subst.
  constructor.
  - intros Hin. apply in_map_iff in Hin as (y & E & Hy). apply Hnot.
    rewrite (H x (or_introl eq_refl)), <- E, <- (H y (or_intror Hy)).
    now apply in_map.
  - apply IH; [|exact Nrest]. intros y Hy. apply H. now right.
Qed.

(** X19. The links of the drawing group the transitions by their two
    ends.  When no state at an end of a transition has [_] in its name:
    every transition is in the link of its two states; a link holds, once
    each, exactly the symbols of the transitions between its two states
    in its direction, and at least one; its label is these symbols with a
    comma and a space between them; it has an opposite exactly when some
    transition goes the other way; and no two links have the same two
    ends. *)
Theorem links_group_the_transitions :
  forall info : AutomatonInfo.t,
    Links.plain_ends info = true ->
    (forall tr,
        In tr (AutomatonInfo.transitions info) ->
        exists link,
          In link (Links.links info) /\
          Links.link_source link = FiniteAutomaton.from tr /\
          Links.link_target link = FiniteAutomaton.to tr /\
          In (FiniteAutomaton.sym tr) (Links.link_symbols link)) /\
    (forall link,
        In link (Links.links info) ->
        NoDup (Links.link_symbols link) /\
        Links.link_symbols link <> [] /\
        (forall a,
            In a (Links.link_symbols link) <->
            In (FiniteAutomaton.mkTransition (Links.link_source link) a
                                             (Links.link_target link))
               (AutomatonInfo.transitions info)) /\
        Links.label link = join (lit ", ") (Links.link_symbols link) /\
        (Links.hasOpposite link = true <->
         exists a,
           In (FiniteAutomaton.mkTransition (Links.link_target link) a
                                            (Links.link_source link))
              (AutomatonInfo.transitions info))) /\
    NoDup (List.map (fun link => (Links.link_source link,
                                  Links.link_target link))
                    (Links.links info)).
Proof.
  intros info P. unfold Links.plain_ends in P. rewrite forallb_forall in P.
  assert (forall x, In x (AutomatonInfo.transitions info) ->
                    Conv.without 95 (FiniteAutomaton.from x) = true /\
                    Conv.without 95 (FiniteAutomaton.to x) = true) as Plain
      by (intros x Hx; now apply andb_true_iff, P).
  destruct (transitionGroups_grouped (AutomatonInfo.transitions info) [] []
              Plain) as (U & G & D).
  { split; [reflexivity|]. split; [intros k g [] | intros tr []]. }
  simpl app in G, D. fold (Links.transitionGroups info) in U, G, D.
  assert (forall k g,
             In (k, g) (Links.transitionGroups info) ->
             Conv.without 95 (Links.source g) = true /\
             Conv.without 95 (Links.target g) = true) as Ends.
  { intros k g Hg. destruct (G _ _ Hg) as (_ & _ & Hne & Hs).
    destruct (Links.symbols g) as [|b bs]; [now destruct Hne|].
    exact (Plain _ (proj1 (Hs b) (or_introl eq_refl))). }
  split; [|split].
  - intros [f a t] Hin. pose proof (D _ Hin) as Hk. simpl in Hk.
    unfold map_has in Hk.
    destruct (map_get (Links.key f t) (Links.transitionGroups info))
      as [g|] eqn:Eg; [|discriminate].
    apply map_get_In in Eg.
    destruct (G _ _ Eg) as (Ek & _ & _ & Hs).
    destruct (Plain _ Hin) as [Pf _]. simpl in Pf.
    destruct (key_once _ _ _ _ Pf (proj1 (Ends _ _ Eg)) Ek) as [Es Et].
    exists (Links.link_of (Links.transitionGroups info) (Links.key f t, g)).
    split; [unfold Links.links; now apply in_map|]. simpl.
    split; [now rewrite Es|]. split; [now rewrite Et|].
    apply Hs. now rewrite <- Es, <- Et.
  - intros link Hin. unfold Links.links in Hin.
    apply in_map_iff in Hin as ([k g] & <- & Hg). simpl.
    destruct (G _ _ Hg) as (Ek & Ns & Hne & Hs).
    split; [exact Ns|]. split; [exact Hne|]. split; [exact Hs|].
    split; [reflexivity|]. split.
    + intros Hh. unfold map_has in Hh.
      destruct (map_get (Links.key (Links.target g) (Links.source g))
                  (Links.transitionGroups info)) as [g'|] eqn:Eg';
        [|discriminate].
      apply map_get_In in Eg'.
      destruct (G _ _ Eg') as (Ek' & _ & Hne' & Hs').
      destruct (key_once _ _ _ _ (proj2 (Ends _ _ Hg))
                  (proj1 (Ends _ _ Eg')) Ek') as [Es Et].
      destruct (Links.symbols g') as [|b bs]; [now destruct Hne'|].
      exists b. rewrite Es, Et. apply Hs'. now left.
    + intros [a Ha]. exact (D _ Ha).
  - unfold Links.links. rewrite map_map. simpl.
    apply (NoDup_map_through fst _
             (fun ends => Links.key (fst ends) (snd ends)));
      [|now apply keys_unique_NoDup].
    intros [k g] Hg. simpl. exact (proj1 (G _ _ Hg)).
Qed.

Lemma links_group_the_transitions_witness :
  (forall tr,
      In tr (AutomatonInfo.transitions (getInfo Examples.automatonX)) ->
      exists link,
        In link (Links.links (getInfo Examples.automatonX)) /\
        Links.link_source link = FiniteAutomaton.from tr /\
        Links.link_target link = FiniteAutomaton.to tr /\
        In (FiniteAutomaton.sym tr) (Links.link_symbols link)) /\
  (forall link,
      In link (Links.links (getInfo Examples.automatonX)) ->
      NoDup (Links.link_symbols link) /\
      Links.link_symbols link <> [] /\
      (forall a,
          In a (Links.link_symbols link) <->
          In (FiniteAutomaton.mkTransition (Links.link_source link) a
                                           (Links.link_target link))
             (AutomatonInfo.transitions (getInfo Examples.automatonX))) /\
      Links.label link = join (lit ", ") (Links.link_symbols link) /\
      (Links.hasOpposite link = true <->
       exists a,
         In (FiniteAutomaton.mkTransition (Links.link_target link) a
                                          (Links.link_source link))
            (AutomatonInfo.transitions (getInfo Examples.automatonX)))) /\
  NoDup (List.map (fun link => (Links.link_source link,
                                Links.link_target link))
                  (Links.links (getInfo Examples.automatonX))).
Proof.
  apply (links_group_the_transitions (getInfo Examples.automatonX)).
  reflexivity.
Defined.

(* ===================================================================== *)
(** ** The words of the grammar of an automaton                           *)
(* ===================================================================== *)

Lemma push_all_rows (pairs : list (jsstring * jsstring)) :
  forall m : list (jsstring * list jsstring),
    Inv.keys_unique m = true ->
    (forall k v, In (k, v) m -> v <> []) ->
    forall k v, In (k, v) (Conv.push_all pairs m) -> v <> [].
Proof.
  induction pairs as [|[x y] pairs IH]; intros m U Hm; [exact Hm|].
  simpl. apply IH; [unfold Conv.push; now apply keys_unique_set|].
  intros k v Hkv. unfold Conv.push in Hkv.
  apply (In_map_set _ _ _ _ _ U) in Hkv as [[_ ->] | [_ Hkv]].
  - now destruct (match map_get x m with Some rs => rs | None => [] end).
  - now apply (Hm k).
Qed.

Section SameWords.

Import FiniteAutomaton.

Variable A : t.
Variable q0 : jsstring.

Hypothesis in_order : Inv.wf A = true.
Hypothesis consistent : Inv.consistent A = true.
Hypothesis plain : Inv.names_plain A = true.
Hypothesis initial : initialState A = Some q0.
Hypothesis lettered : Converted.lettered A = true.

Lemma toRegularGrammar_grammar :
  toRegularGrammar A = (Ok (Converted.grammar A q0), A, []).
Proof. exact (toRegularGrammar_converted A q0 in_order consistent plain initial). Qed.

(** The right-hand sides of the grammar are those of the three rules. *)
Lemma rights_grammar (l r : jsstring) :
  In r (Spec.rights (Converted.grammar A q0) l) <->
  (exists a p, Spec.target A l a = Some p /\
               (r = a ++ p \/ has p (finalStates A) = true /\ r = a)) \/
  (l = q0 /\ has q0 (finalStates A) = true /\ r = epsilon).
Proof.
  unfold Spec.rights, Converted.grammar. simpl RegularGrammar.productions.
  pose proof (rights_push_all (Conv.production_pairs A q0) l r []) as R.
  simpl in R. rewrite R, In_production_pairs. split.
  - intros [[] | [(a & p & Hin & Hr) | H]]; [left | now right].
    exists a, p. split; [now apply In_target | exact Hr].
  - intros [(a & p & Ht & Hr) | H]; right; [left | now right].
    exists a, p. split; [now apply target_In | exact Hr].
Qed.

(** A transition reads one code unit, which is not the sign of the empty
    word, and leads to a state of one code unit. *)
Lemma target_letters (l a p : jsstring) :
  Spec.target A l a = Some p ->
  exists a0 p0,
    a = [a0] /\ p = [p0] /\ Gram.empty [a0] = false /\
    has [a0] (alphabet A) = true /\ has [p0] (states A) = true.
Proof.
  intros Ht. apply target_In in Ht.
  destruct (transition_ends A consistent _ Ht) as [Ha Hp]. simpl in Ha, Hp.
  pose proof lettered as L. unfold Converted.lettered in L.
  apply andb_true_iff in L as [S Eps]. apply negb_true_iff in Eps.
  unfold Converted.single_units in S. apply andb_true_iff in S as [Ss Sa].
  destruct (single_unit _ _ Sa Ha) as [a0 ->].
  destruct (single_unit _ _ Ss Hp) as [p0 ->].
  exists a0, p0. repeat split; try assumption.
  unfold Gram.empty. simpl. rewrite orb_false_r, andb_true_r.
  destruct (N.eqb a0 949) eqn:E; [|reflexivity].
  apply N.eqb_eq in E. subst a0. unfold epsilon in Eps. congruence.
Qed.

Lemma derives_accepted (q w : jsstring) :
  Gram.Derives (Converted.grammar A q0) q w ->
  exists f, Spec.walk A q w = Some f /\ has f (finalStates A) = true.
Proof.
  intros H. induction H as [n r Hin He | n a Hin Hne Hterm
                           | n a b w Hin Hterm Hb H IH].
  - apply rights_grammar in Hin
      as [(x & p & Ht & [-> | [_ ->]]) | (-> & Hf & _)].
    + destruct (target_letters _ _ _ Ht) as (a0 & p0 & -> & -> & _).
      unfold Gram.empty in He. simpl in He.
      rewrite andb_false_r in He. discriminate.
    + destruct (target_letters _ _ _ Ht) as (a0 & p0 & -> & _ & Hn & _).
      congruence.
    + now exists q0.
  - apply rights_grammar in Hin
      as [(x & p & Ht & [E | [Hf E]]) | (_ & _ & E)].
    + destruct (target_letters _ _ _ Ht) as (a0 & p0 & -> & -> & _).
      discriminate.
    + subst x. exists p. cbn [Spec.walk].
      destruct (target_letters _ _ _ Ht) as (a0 & p0 & Ea & _ & _ & Ha & _).
      injection Ea as <-. now rewrite Ha, Ht.
    + rewrite E in Hne. discriminate.
  - apply rights_grammar in Hin
      as [(x & p & Ht & [E | [Hf E]]) | (_ & _ & E)]; [| |discriminate].
    + destruct (target_letters _ _ _ Ht) as (a0 & p0 & -> & -> & _ & Ha & _).
      injection E as -> ->. destruct IH as (f & Hw & Hf).
      exists f. cbn [Spec.walk]. now rewrite Ha, Ht.
    + subst x.
      destruct (target_letters _ _ _ Ht) as (a0 & p0 & Ea & _).
      discriminate.
Qed.

Lemma accepted_derives (w : jsstring) :
  forall (c : N) (q f : jsstring),
    Spec.walk A q (c :: w) = Some f -> has f (finalStates A) = true ->
    Gram.Derives (Converted.grammar A q0) q (c :: w).
Proof.
  induction w as [|c' w IH]; intros c q f Hw Hf; cbn [Spec.walk] in Hw;
    destruct (has [c] (alphabet A)) eqn:Ha; try discriminate;
    destruct (Spec.target A q [c]) as [p|] eqn:Ht; try discriminate.
  - injection Hw as ->.
    destruct (target_letters _ _ _ Ht) as (a0 & p0 & Ea & _ & Hne & _).
    injection Ea as <-.
    apply Gram.derives_terminal; [|exact Hne | exact Ha].
    apply rights_grammar. left. exists [c], f. split; [exact Ht|].
    right. now split.
  - destruct (target_letters _ _ _ Ht) as (a0 & p0 & Ea & -> & _ & _ & Hp).
    injection Ea as <-.
    apply (Gram.derives_step _ q c p0 (c' :: w)); [|exact Ha | exact Hp|].
    + apply rights_grammar. left. exists [c], [p0].
      split; [exact Ht | now left].
    + exact (IH c' [p0] f Hw Hf).
Qed.

Lemma grammar_words (w : jsstring) :
  Gram.Derives (Converted.grammar A q0) q0 w <-> Spec.accepts A w = true.
Proof.
  unfold Spec.accepts. rewrite initial. split.
  - intros H. destruct (derives_accepted q0 w H) as (f & Hw & Hf).
    now rewrite Hw.
  - destruct (Spec.walk A q0 w) as [f|] eqn:Hw; [|discriminate].
    intros Hf. destruct w as [|c w].
    + injection Hw as <-.
      apply (Gram.derives_empty _ q0 epsilon); [|reflexivity].
      apply rights_grammar. right. now repeat split.
    + exact (accepted_derives w c q0 f Hw Hf).
Qed.

Lemma lettered_runs (w : jsstring) :
  Api.accepts A w = Some (Spec.accepts A w).
Proof.
  destruct (recognizeWord_accepts_walk A w) as (r & A' & E & Hacc).
  - rewrite initial. pose proof consistent as C. unfold Inv.consistent in C.
    rewrite initial in C. apply andb_true_iff in C as [C _].
    pose proof lettered as L. unfold Converted.lettered in L.
    apply andb_true_iff in L as [S _].
    unfold Converted.single_units in S. apply andb_true_iff in S as [Ss _].
    now destruct (single_unit _ _ Ss C) as [c ->].
  - apply forallb_forall. intros [l a p] Hin. simpl.
    apply (In_target _ _ _ _ in_order) in Hin.
    now destruct (target_letters _ _ _ Hin) as (a0 & p0 & _ & -> & _).
  - unfold Api.accepts. rewrite E. now rewrite Hacc.
Qed.

(** The grammar is one that [toFiniteAutomaton] converts. *)
Lemma grammar_ready : Gram.ready (Converted.grammar A q0) = true.
Proof.
  pose proof in_order as W. unfold Inv.wf in W.
  apply andb_true_iff in W as [W _]. apply andb_true_iff in W as [W _].
  apply andb_true_iff in W as [Ws Wa].
  pose proof lettered as L. unfold Converted.lettered in L.
  apply andb_true_iff in L as [S _].
  unfold Converted.single_units in S. apply andb_true_iff in S as [Ss _].
  unfold Gram.ready, Converted.grammar. simpl.
  rewrite Ws, Wa, (initial_is_state A q0 consistent initial).
  rewrite (keys_unique_push_all _ [] eq_refl). simpl.
  rewrite !andb_true_r. apply andb_true_iff. split.
  - apply negb_true_iff.
    destruct (has RegularGrammar.finalState (states A)) eqn:Hq;
      [|reflexivity].
    now destruct (single_unit _ _ Ss Hq) as [c Hc].
  - apply forallb_forall. intros [n rs] Hin.
    destruct (pairs_good A q0 in_order consistent plain initial) as [Hg _].
    rewrite forallb_forall in Hg.
    assert (exists r, In r rs) as [r Hr].
    { pose proof (push_all_rows (Conv.production_pairs A q0) [] eq_refl
                    (fun k v (H : In (k, v) []) => match H with end)
                    n rs Hin) as Rows.
      destruct rs as [|r rs]; [now destruct Rows | exists r; now left]. }
    assert (In (n, r) (Conv.production_pairs A q0)) as Hp
        by (apply In_push_all; now exists rs).
    specialize (Hg _ Hp). simpl in Hg.
    now apply andb_true_iff in Hg as [_ Hg].
Qed.

End SameWords.

(** X20. The grammar of an automaton has the words of the automaton.  For
    an automaton in order and consistent whose states and symbols are all
    one code unit long, none of them [;] or [>] and no symbol the sign of
    the empty word: [toRegularGrammar] returns a grammar whose start
    symbol derives a word exactly when [recognizeWord] accepts it on the
    automaton. *)
Theorem toRegularGrammar_same_words :
  forall (A : FiniteAutomaton.t) (w : jsstring),
    Inv.wf A = true ->
    Inv.consistent A = true ->
    Inv.names_plain A = true ->
    Converted.lettered A = true ->
    exists (G : RegularGrammar.t) (start : jsstring),
      toRegularGrammar A = (Ok G, A, []) /\
      RegularGrammar.startSymbol G = Some start /\
      (Gram.Derives G start w <-> Api.accepts A w = Some true).
Proof.
  intros A w W C N L.
  destruct (FiniteAutomaton.initialState A) as [q0|] eqn:I;
    [|unfold Inv.consistent in C; rewrite I in C; discriminate].
  exists (Converted.grammar A q0), q0.
  split; [exact (toRegularGrammar_grammar A q0 W C N I)|].
  split; [reflexivity|].
  rewrite (lettered_runs A q0 W C I L w).
  rewrite (grammar_words A q0 W C I L w).
  split; [now intros -> | now intros [= ->]].
Qed.

Lemma toRegularGrammar_same_words_witness :
  exists (G : RegularGrammar.t) (start : jsstring),
    toRegularGrammar Converted.automatonP =
      (Ok G, Converted.automatonP, []) /\
    RegularGrammar.startSymbol G = Some start /\
    (Gram.Derives G start (lit "aa") <->
     Api.accepts Converted.automatonP (lit "aa") = Some true).
Proof.
  apply (toRegularGrammar_same_words Converted.automatonP (lit "aa"));
    reflexivity.
Defined.

(** X21. Going to a grammar and back adds no word.  For such an
    automaton, [toFiniteAutomaton] converts the grammar that
    [toRegularGrammar] returns, and every word [recognizeWord] accepts on
    the automaton that comes back is a word it accepts on the automaton
    one started from. *)
Theorem roundTrip_adds_no_word :
  forall (A : FiniteAutomaton.t) (w : jsstring),
    Inv.wf A = true ->
    Inv.consistent A = true ->
    Inv.names_plain A = true ->
    Converted.lettered A = true ->
    exists back : FiniteAutomaton.t,
      Api.roundTrip A = Ok back /\
      (Api.accepts back w = Some true -> Api.accepts A w = Some true).
Proof.
  intros A w W C N L.
  destruct (FiniteAutomaton.initialState A) as [q0|] eqn:I;
    [|unfold Inv.consistent in C; rewrite I in C; discriminate].
  pose proof (grammar_ready A q0 W C N I L) as R.
  destruct (toFiniteAutomaton_run (Converted.grammar A q0) q0 R eq_refl)
    as [out E].
  exists (Gram.automaton (Converted.grammar A q0) q0). split.
  - unfold Api.roundTrip.
    rewrite (toRegularGrammar_grammar A q0 W C N I). now rewrite E.
  - intros H. unfold Api.accepts in H.
    destruct (FiniteAutomaton.recognizeWord w
                (Gram.automaton (Converted.grammar A q0) q0))
      as [[[r|e] A'] out'] eqn:Er; [|discriminate].
    injection H as Hacc.
    pose proof (recognizeWord_accepted _ _ _ _ _ Er Hacc) as Hw.
    destruct (automaton_in_order (Converted.grammar A q0) q0 R eq_refl)
      as (_ & _ & Hi & _).
    unfold Spec.accepts in Hw. rewrite Hi in Hw.
    destruct (Spec.walk (Gram.automaton (Converted.grammar A q0) q0) q0 w)
      as [f|] eqn:Ew; [|discriminate].
    destruct (ready_parts (Converted.grammar A q0) q0 R eq_refl)
      as (_ & _ & _ & _ & _ & Hstart).
    pose proof (walk_derives (Converted.grammar A q0) q0 R eq_refl w q0 f
                  (nonTerminal_not_final _ q0 R eq_refl q0 Hstart) Ew Hw)
      as D.
    rewrite (lettered_runs A q0 W C I L w).
    now rewrite (proj1 (grammar_words A q0 W C I L w) D).
Qed.

Lemma roundTrip_adds_no_word_witness :
  exists back : FiniteAutomaton.t,
    Api.roundTrip Converted.automatonP = Ok back /\
    (Api.accepts back (lit "a") = Some true ->
     Api.accepts Converted.automatonP (lit "a") = Some true).
Proof.
  apply (roundTrip_adds_no_word Converted.automatonP (lit "a")); reflexivity.
Defined.

(* ===================================================================== *)
(** ** Without a start                                                    *)
(* ===================================================================== *)

(** X22. On an automaton whose initial state is not set, or is the empty
    string, [recognizeWord] accepts no word of one symbol or more: it
    returns, with the error of [processSymbol] about a missing [reset] in
    [error], [accepted] false and an empty [path], and prints nothing.  On
    the empty word no symbol is processed: [error] is null, the path is
    empty, and [accepted] tells whether the initial state, if it is the
    empty string, is final. *)
Theorem recognizeWord_without_start :
  forall (A : FiniteAutomaton.t) (w : jsstring),
    truthy (FiniteAutomaton.initialState A) = false ->
    FiniteAutomaton.recognizeWord w A =
    (Ok (Unstarted.verdict A w), Exec.restarted A, []).
Proof.
  intros A w T. rewrite recognizeWord_run.
  assert (FiniteAutomaton.executionPath (Exec.restarted A) = []) as Hp
      by (unfold Exec.restarted;
          destruct (FiniteAutomaton.initialState A) as [[|c q]|];
          [reflexivity | discriminate | reflexivity]).
  destruct w as [|c w].
  - simpl FiniteAutomaton.consume. unfold ret. rewrite Hp. reflexivity.
  - cbn [FiniteAutomaton.consume].
    assert (FiniteAutomaton.processSymbol [c] (Exec.restarted A) =
            (Throw NotInitialized, Exec.restarted A, [])) as E.
    { rewrite processSymbol_run. unfold Exec.restarted. simpl.
      destruct (FiniteAutomaton.initialState A) as [[|d q]|];
        [reflexivity | discriminate | reflexivity]. }
    now rewrite (bind_throw _ _ _ _ _ _ E).
Qed.

Lemma recognizeWord_without_start_witness :
  FiniteAutomaton.recognizeWord (lit "a") Unstarted.headless =
  (Ok (Unstarted.verdict Unstarted.headless (lit "a")),
   Exec.restarted Unstarted.headless, []).
Proof.
  apply (recognizeWord_without_start Unstarted.headless (lit "a")).
  reflexivity.
Defined.

(** X23. A grammar without a start symbol is not converted:
    [toFiniteAutomaton] throws the error of calling [trim] on [null], and
    leaves the grammar as it was. *)
Theorem toFiniteAutomaton_without_start :
  forall G : RegularGrammar.t,
    RegularGrammar.startSymbol G = None ->
    RegularGrammar.toFiniteAutomaton G = (Throw TypeErrorNull, G, []).
Proof.
  intros G H. unfold RegularGrammar.toFiniteAutomaton.
  rewrite (bind_ok get _ G G G [] eq_refl). rewrite H.
  unfold bind at 1, on at 1.
  rewrite (bind_ok _ _ _ _ _ _ (setStates_run _ _)).
  rewrite (bind_ok _ _ _ _ _ _ (setAlphabet_run _ _)).
  reflexivity.
Qed.

Lemma toFiniteAutomaton_without_start_witness :
  RegularGrammar.toFiniteAutomaton Unstarted.headlessGrammar =
  (Throw TypeErrorNull, Unstarted.headlessGrammar, []).
Proof.
  apply (toFiniteAutomaton_without_start Unstarted.headlessGrammar).
  reflexivity.
Defined.

(* ===================================================================== *)
(** ** getInfo                                                            *)
(* ===================================================================== *)

Lemma count_rows (rows : list (jsstring * list (jsstring * jsstring))) :
  forall total : nat,
    fold_left (fun total stateTransitions =>
                 total + length (snd stateTransitions)) rows total =
    total +
    length (flat_map (fun '(fromState, stateTransitions) =>
                        List.map (fun '(symbol, toState) =>
                                    FiniteAutomaton.mkTransition
                                      fromState symbol toState)
                                 stateTransitions)
                     rows).
Proof.
  induction rows as [|[q row] rows IH]; intros total; simpl.
  - now rewrite Nat.add_0_r.
  - rewrite IH, length_app, length_map. lia.
Qed.

(** X24. The number [getInfo] gives as [transitionsCount], summed from
    the sizes of the maps of the states, is the length of the array it
    gives as [transitions], whatever the automaton. *)
Theorem getInfo_counts_the_transitions :
  forall A : FiniteAutomaton.t,
    AutomatonInfo.transitionsCount (getInfo A) =
    length (AutomatonInfo.transitions (getInfo A)).
Proof.
  intros A. unfold getInfo. simpl. now rewrite count_rows.
Qed.

(* ===================================================================== *)
(** ** The grammar records of a text as calls                             *)
(* ===================================================================== *)

Section GrammarRecordsAsCalls.

Import AutomataParser.

Lemma onAutomaton_keeps_grammars (name : jsstring)
  (m : M FiniteAutomaton.t unit) (P : t) :
  grammars (snd (fst (onAutomaton name m P))) = grammars P.
Proof.
  unfold onAutomaton.
  destruct (map_get name (automata P)) as [automaton|]; [|reflexivity].
  now destruct (m automaton) as [[r automaton'] out].
Qed.

Lemma grammar_record_held (name : jsstring) (m : M RegularGrammar.t unit)
  (P : t) :
  Records.held_grammar name
    (snd (fst ((ensureGrammar name ;; onGrammar name m) P))) =
  snd (fst (m (Records.held_grammar name P))).
Proof.
  set (P1 := if negb (map_has name (grammars P))
             then with_grammars
                    (map_set name (RegularGrammar.new name) (grammars P)) P
             else P).
  assert (ensureGrammar name P = (Ok tt, P1, [])) as E.
  { unfold ensureGrammar. rewrite (bind_ok get _ P P P [] eq_refl).
    unfold when, P1. now destruct (negb (map_has name (grammars P))). }
  rewrite (bind_ok _ _ _ _ _ _ E).
  assert (map_get name (grammars P1) =
          Some (Records.held_grammar name P)) as H1.
  { unfold P1, Records.held_grammar, map_has.
    destruct (map_get name (grammars P)) as [G|] eqn:HG; simpl.
    - exact HG.
    - apply map_get_set_same. }
  unfold onGrammar. rewrite H1.
  destruct (m (Records.held_grammar name P)) as [[r G'] out].
  unfold Records.held_grammar at 1. simpl. now rewrite map_get_set_same.
Qed.

Lemma dispatch_held_grammar (id : number) (name info : jsstring) (P : t) :
  Records.held_grammar name (snd (fst (dispatch id name info P))) =
  Grammars.after (Records.grammar_call_of id info)
                 (Records.held_grammar name P).
Proof.
  unfold dispatch, Records.grammar_call_of.
  destruct id as [|[|p|p]|negative]; try reflexivity.
  repeat match goal with
         | |- context [match ?x with xI _ => _ | xO _ => _ | xH => _ end] =>
             is_var x; destruct x
         end;
    try reflexivity;
    try (unfold Records.held_grammar;
         now rewrite onAutomaton_keeps_grammars);
    apply grammar_record_held.
Qed.

Lemma parseLine_held_grammar (name line : jsstring) (P : t) :
  Records.held_grammar name (snd (fst (parseLine (trim line) P))) =
  Grammars.after (Records.grammar_call name line)
                 (Records.held_grammar name P).
Proof.
  unfold Records.grammar_call.
  destruct (split (lit ":") (trim line)) as [|a [|b [|c [|d l]]]] eqn:E;
    try (unfold parseLine; rewrite E; reflexivity).
  destruct (eqb (trim b) name) eqn:En.
  - apply eqb_eq in En. subst name. unfold parseLine. rewrite E.
    rewrite (bind_ok get _ P P P [] eq_refl).
    set (P1 := if negb (map_has (trim b) (automata P))
               then with_automata
                      (map_set (trim b) (FiniteAutomaton.new (trim b))
                               (automata P)) P
               else P).
    assert (when (negb (map_has (trim b) (automata P)))
                 (modify (with_automata
                            (map_set (trim b) (FiniteAutomaton.new (trim b))
                                     (automata P)))) P =
            (Ok tt, P1, [])) as W.
    { unfold when, P1. now destruct (negb (map_has (trim b) (automata P))). }
    rewrite (bind_ok _ _ _ _ _ _ W).
    assert (Records.held_grammar (trim b) P1 =
            Records.held_grammar (trim b) P) as H1
        by (unfold P1; now destruct (negb (map_has (trim b) (automata P)))).
    rewrite <- H1.
    rewrite <- (dispatch_held_grammar (parseInt (trim a)) (trim b) (trim c)
                  P1).
    now destruct (dispatch (parseInt (trim a)) (trim b) (trim c) P1)
      as [[r P2] out].
  - apply eqb_neq in En.
    assert (forall idInfo n info,
               split (lit ":") (trim line) = [idInfo; n; info] ->
               trim n <> name) as Hn.
    { intros idInfo n info E'. rewrite E in E'. now injection E' as _ <- _. }
    destruct (parseLine_frame name _ _ (trim line) Hn P (conj eq_refl eq_refl))
      as [_ Hg].
    unfold Records.held_grammar. now rewrite Hg.
Qed.

Lemma parseLines_held_grammar (name : jsstring) (ls : list jsstring) :
  forall (index : nat) (P P' : t) (out : list Warning),
    parseLines index ls P = (Ok tt, P', out) ->
    Records.held_grammar name P' =
    Grammars.after (flat_map (Records.grammar_call name) ls)
                   (Records.held_grammar name P).
Proof.
  induction ls as [|line ls IH]; intros index P P' out H.
  - unfold parseLines in H. simpl in H. unfold ret in H.
    now injection H as <- _.
  - pose proof (parseLine_held_grammar name line P) as L.
    destruct (parseLine (trim line) P) as [[[[]|e] P1] out1] eqn:E.
    + rewrite (parseLines_ok _ _ _ _ _ _ E) in H.
      destruct (parseLines (S index) ls P1) as [[r P2] out2] eqn:E2.
      injection H as -> <- _.
      simpl flat_map. unfold Grammars.after. rewrite fold_left_app.
      fold (Grammars.after (Records.grammar_call name line)
              (Records.held_grammar name P)).
      rewrite <- L. exact (IH _ _ _ _ E2).
    + rewrite (parseLines_throw _ _ _ _ _ _ _ E) in H. discriminate.
Qed.

End GrammarRecordsAsCalls.

(** X25. A grammar loaded from a text is the grammar its records build:
    when the load returns, the grammar held under a name is the one that
    the calls of the records of that name with the codes 6 to 9, made in
    the order of the lines on a new grammar of that name, leave.  Records
    of automata, also of the same name, and records of other names change
    nothing of it. *)
Theorem loaded_grammar_is_the_calls_of_the_records :
  forall (content name : jsstring) (P : AutomataParser.t)
         (automata : list (jsstring * FiniteAutomaton.t))
         (out : list Warning) (G : RegularGrammar.t),
    AutomataParser.parseFile content AutomataParser.new =
      (Ok automata, P, out) ->
    AutomataParser.getGrammar name P = Some G ->
    G = Grammars.after (Records.grammar_calls name content)
                       (RegularGrammar.new name).
Proof.
  intros content name P automata out G H HG.
  rewrite parseFile_lines in H.
  destruct (AutomataParser.parseLines 0 (AutomataParser.lines content)
              AutomataParser.new) as [[[[]|e] P0] out0] eqn:E;
    [|discriminate].
  injection H as _ <- _.
  pose proof (parseLines_held_grammar name _ _ _ _ _ E) as K.
  unfold AutomataParser.getGrammar in HG.
  unfold Records.held_grammar at 1 in K. rewrite HG in K. exact K.
Qed.

Lemma loaded_grammar_is_the_calls_of_the_records_witness :
  Records.loadedG =
  Grammars.after (Records.grammar_calls (lit "G") Records.mixedGrammar)
                 (RegularGrammar.new (lit "G")).
Proof.
  apply (loaded_grammar_is_the_calls_of_the_records
           Records.mixedGrammar (lit "G")
           (snd (fst (AutomataParser.parseFile Records.mixedGrammar
                        AutomataParser.new)))
           (AutomataParser.automata
              (snd (fst (AutomataParser.parseFile Records.mixedGrammar
                           AutomataParser.new))))
           (snd (AutomataParser.parseFile Records.mixedGrammar
                   AutomataParser.new))
           Records.loadedG);
    vm_compute; reflexivity.
Defined.
